(** * JSBON: a verification development for the binary object codec

    The program is the JavaScript module [JSBON] (encoder and decoder over
    the external [DataStream] byte stream).  Its functions are embedded
    here as Rocq functions: JavaScript numbers that the code treats as
    32-bit integers are integers of [Z] with the wrap-around written out,
    byte buffers are [list byte], the insertion-ordered [Map]s of the
    encoder are association lists, the integer-keyed [Map]s of the decoder
    are [gmap]s, objects and arrays live in a heap so that identity,
    sharing and cycles are those of the program. *)

From Stdlib Require Import ZArith List String Ascii Bool Lia.
From Stdlib.Strings Require Import Byte.
From stdpp Require Import base option list gmap.
Import ListNotations.
Local Open Scope Z_scope.

(** ** Bytes *)

Definition byte_to_Z (b : byte) : Z := Z.of_N (Byte.to_N b).

Definition byte_of_Z (z : Z) : byte :=
  match Byte.of_N (Z.to_N (z mod 256)) with
  | Some b => b
  | None => x00
  end.

(** Big-endian packing of the [n] low bytes of an integer, and back. *)
Fixpoint Z_to_be (n : nat) (z : Z) : list byte :=
  match n with
  | O => []
  | S n' => byte_of_Z (Z.shiftr z (8 * Z.of_nat n')) :: Z_to_be n' z
  end.

Definition be_to_Z (bs : list byte) : Z :=
  fold_left (fun acc b => acc * 256 + byte_to_Z b) bs 0.

(** ** The 32-bit integer operators of JavaScript *)

Module JS.

Definition ToUint32 (z : Z) : Z := z mod 2 ^ 32.
Definition ToInt32 (z : Z) : Z := (z + 2 ^ 31) mod 2 ^ 32 - 2 ^ 31.

(** [a | b], [a & b], [a ^ b]: both operands go through [ToInt32]; the
    low 32 bits of the result depend on their low 32 bits only. *)
Definition bor (a b : Z) : Z := ToInt32 (Z.lor a b).
Definition band (a b : Z) : Z := ToInt32 (Z.land a b).
Definition bxor (a b : Z) : Z := ToInt32 (Z.lxor a b).

(** [a << n] and [a >>> n]: the shift count is taken modulo 32. *)
Definition shl (a n : Z) : Z := ToInt32 (Z.shiftl a (n mod 32)).
Definition ushr (a n : Z) : Z := Z.shiftr (ToUint32 a) (n mod 32).

(** Conversion of an integer to a signed integer of [w] bits, as the
    typed readers of a [DataView] return it. *)
Definition signed (w : Z) (z : Z) : Z :=
  let m := z mod 2 ^ w in if m <? 2 ^ (w - 1) then m else m - 2 ^ w.

End JS.

(** ** Outcomes of a call *)

(** The errors the module throws, named after the message of each
    [throw]; [Truncated] and [RangeError] are raised by the byte stream
    and by the host, not by the codec. *)
Inductive error : Set :=
| InvalidData              (* "Invalid data" *)
| VersionMismatch          (* "Major version mistmatch" *)
| ChecksumMismatch         (* "CRC32 checksum mistmach" *)
| UnsupportedType          (* "Unsupported type (as of yet)" *)
| InvalidCount             (* "Invalid count value" *)
| UnexpectedTag            (* "Unexpected tag" *)
| OutOfBoundString         (* "Out of bound string reference" *)
| OutOfBoundProperty       (* "Out of bound property reference" *)
| InvalidObjectReference   (* "Invalid object reference" *)
| Truncated                (* the stream ended before a field was read *)
| RangeError.              (* a typed array of negative length *)

(** [Stuck] is not a behaviour of the program: it marks a run of the
    model that exhausted its recursion budget or met an address that the
    heap does not hold. *)
Inductive outcome (A : Type) : Type :=
| Ok (a : A)
| Throw (e : error)
| Stuck.
Arguments Ok {A} a.
Arguments Throw {A} e.
Arguments Stuck {A}.

(** ** The byte stream *)

Module DataStream.

(** Modelled from the spec: the byte-stream utility, which is not part
    of the sources; a sequential big-endian reader over a buffer with a
    position, which raises [Truncated] on underflow. *)
Record t : Type := mk { buffer : list byte; position : Z }.

Definition remaining (ds : t) : list byte :=
  drop (Z.to_nat (position ds)) (buffer ds).

Definition advance (ds : t) (n : Z) : t :=
  {| buffer := buffer ds; position := position ds + n |}.

(** Modelled from the spec: reading [n] raw bytes at the position. *)
Definition readBytes (n : nat) (ds : t) : outcome (list byte * t) :=
  let rest := remaining ds in
  if (n <=? length rest)%nat
  then Ok (take n rest, advance ds (Z.of_nat n))
  else Throw Truncated.

(** Modelled from the spec: the typed big-endian readers. *)
Definition readUint (n : nat) (ds : t) : outcome (Z * t) :=
  match readBytes n ds with
  | Ok (bs, ds') => Ok (be_to_Z bs, ds')
  | Throw e => Throw e
  | Stuck => Stuck
  end.

Definition readInt (n : nat) (ds : t) : outcome (Z * t) :=
  match readBytes n ds with
  | Ok (bs, ds') => Ok (JS.signed (8 * Z.of_nat n) (be_to_Z bs), ds')
  | Throw e => Throw e
  | Stuck => Stuck
  end.

Definition readUint8 := readUint 1.
Definition readUint16 := readUint 2.
Definition readUint32 := readUint 4.
Definition readInt8 := readInt 1.
Definition readInt16 := readInt 2.
Definition readInt32 := readInt 4.
Definition readFloat64 := readUint 8.  (* the bit pattern of the double *)

(** Modelled from the spec: [readUint8Array(length)]; a negative
    length is refused by the host when the array is allocated. *)
Definition readUint8Array (n : Z) (ds : t) : outcome (list byte * t) :=
  if n <? 0 then Throw RangeError else readBytes (Z.to_nat n) ds.

(** Modelled from the spec: [readUint8Array()] without a length takes
    every byte up to the end of the buffer. *)
Definition readRest (ds : t) : list byte * t :=
  let rest := remaining ds in (rest, advance ds (Z.of_nat (length rest))).

(** Modelled from the spec: reading a NUL-terminated string; the
    terminator is consumed and not returned. *)
Fixpoint splitNul (bs : list byte) : option (list byte * Z) :=
  match bs with
  | [] => None
  | b :: bs' =>
      if Byte.eqb b x00 then Some ([], 1)
      else match splitNul bs' with
           | Some (s, n) => Some (b :: s, n + 1)
           | None => None
           end
  end.

Definition readCString (ds : t) : outcome (string * t) :=
  match splitNul (remaining ds) with
  | Some (s, n) => Ok (string_of_list_byte s, advance ds n)
  | None => Throw Truncated
  end.

(** Modelled from the spec: the writers.  The encoder never seeks, so
    its stream is the list of the bytes written so far and its position
    is their number. *)
Definition w : Type := list byte.
Definition wposition (ds : w) : Z := Z.of_nat (length ds).
Definition writeUint (n : nat) (v : Z) (ds : w) : w := ds ++ Z_to_be n v.
Definition writeUint8 := writeUint 1.
Definition writeUint16 := writeUint 2.
Definition writeUint32 := writeUint 4.
Definition writeInt8 := writeUint 1.    (* two's complement: the low byte *)
Definition writeInt16 := writeUint 2.
Definition writeInt32 := writeUint 4.
Definition writeFloat64 := writeUint 8. (* the bit pattern of the double *)
Definition writeUint8Array (bs : list byte) (ds : w) : w := ds ++ bs.
Definition writeCString (s : string) (ds : w) : w :=
  ds ++ list_byte_of_string s ++ [x00].

End DataStream.

(** ** Tags, option flags and version ([Encoder.TAG_*], [Encoder.OPTION_*]) *)

Definition MAJOR_VERSION : Z := 1.

Definition TAG_BOOLEAN_FALSE : Z := 0x00.
Definition TAG_BOOLEAN_TRUE : Z := 0x01.
Definition TAG_INT8 : Z := 0x02.
Definition TAG_INT16 : Z := 0x03.
Definition TAG_INT32 : Z := 0x04.
Definition TAG_NULL : Z := 0x05.
Definition TAG_UNDEFINED : Z := 0x06.
Definition TAG_OBJECT_REF : Z := 0x07.
Definition TAG_NUMBER : Z := 0x09.
Definition TAG_UINT8 : Z := 0x12.
Definition TAG_UINT16 : Z := 0x13.
Definition TAG_UINT32 : Z := 0x14.
Definition TAG_STRING_REF : Z := 0x16.
Definition TAG_DATE : Z := 0x20.
Definition TAG_OBJECT : Z := 0x30.
Definition TAG_ARRAY : Z := 0x31.
Definition TAG_UINT8ARRAY : Z := 0x32.

Definition OPTION_CRC32 : Z := 0x80.
Definition OPTION_NOCYCLE : Z := 0x40.

(** ** The count codec *)

(** [Encoder.prototype.serializeCount]: the guard, then the varint loop
    [while (value >= 0x80) { write (value & 0x7F) | 0x80; value >>>= 7 }]
    and the last byte.  A value that passed the guard has 32 bits and is
    below [0x80] after four shifts, so a budget of five rounds is never
    exhausted. *)
Fixpoint serializeCount_loop (fuel : nat) (value : Z) (ds : DataStream.w)
  : DataStream.w :=
  match fuel with
  | O => DataStream.writeUint8 value ds
  | S fuel' =>
      if 0x80 <=? value then
        let b := JS.bor (JS.band value 0x7F) 0x80 in
        serializeCount_loop fuel' (JS.ushr value 7) (DataStream.writeUint8 b ds)
      else DataStream.writeUint8 value ds
  end.

Definition serializeCount (value : Z) (ds : DataStream.w)
  : outcome DataStream.w :=
  if negb (JS.ushr value 0 =? value) then Throw InvalidCount
  else Ok (serializeCount_loop 5 value ds).

(** [Decoder.prototype.unserializeCount]: the [do ... while] loop over
    the bytes at the position; [c] counts the bytes read. *)
Fixpoint unserializeCount_loop (rest : list byte) (c value : Z)
  : outcome (Z * Z) :=
  match rest with
  | [] => Throw Truncated
  | b :: rest' =>
      let b := byte_to_Z b in
      let value := JS.bor value (JS.shl (JS.band b 0x7F) (7 * c)) in
      let c := c + 1 in
      if negb (JS.band b 0x80 =? 0)
      then unserializeCount_loop rest' c value
      else Ok (value, c)
  end.

Definition unserializeCount (ds : DataStream.t) : outcome (Z * DataStream.t) :=
  match unserializeCount_loop (DataStream.remaining ds) 0 0 with
  | Ok (value, c) => Ok (value, DataStream.advance ds c)
  | Throw e => Throw e
  | Stuck => Stuck
  end.

(** ** Numbers *)

(** A JavaScript number is an IEEE-754 binary64; it is held as its 64-bit
    pattern and read through [view], which gives its exact value. *)
Module F64.

Definition t : Type := Z.

Definition sign (x : t) : bool := Z.testbit x 63.
Definition expo (x : t) : Z := Z.land (Z.shiftr x 52) 0x7FF.
Definition mant (x : t) : Z := Z.land x (2 ^ 52 - 1).

(** [Fin m e] is the number [m * 2 ^ e]; the sign of a zero is not part
    of the view, as no comparison of the language sees it. *)
Inductive view : Set :=
| NaN
| Inf (neg : bool)
| Fin (m e : Z).

Definition view_of (x : t) : view :=
  if expo x =? 2047 then (if mant x =? 0 then Inf (sign x) else NaN)
  else
    let s := if sign x then -1 else 1 in
    if expo x =? 0 then Fin (s * mant x) (-1074)
    else Fin (s * (2 ^ 52 + mant x)) (expo x - 1075).

(** The integer part, rounded towards zero; 0 for NaN and the
    infinities, as [ToInt32], [ToUint32] and the [DataView] setters
    take it. *)
Definition trunc (x : t) : Z :=
  match view_of x with
  | Fin m e => if 0 <=? e then m * 2 ^ e else Z.quot m (2 ^ (- e))
  | _ => 0
  end.

(** The integer a number is equal to, if any. *)
Definition to_int (x : t) : option Z :=
  match view_of x with
  | Fin m e =>
      if 0 <=? e then Some (m * 2 ^ e)
      else if Z.rem m (2 ^ (- e)) =? 0 then Some (Z.quot m (2 ^ (- e)))
      else None
  | _ => None
  end.

(** [x === k] for an integer [k]. *)
Definition eq_int (x : t) (k : Z) : bool :=
  match to_int x with
  | Some z => z =? k
  | None => false
  end.

(** [k <= x] and [x <= k] for an integer [k]. *)
Definition int_le (k : Z) (x : t) : bool :=
  match view_of x with
  | NaN => false
  | Inf neg => negb neg
  | Fin m e => if 0 <=? e then k <=? m * 2 ^ e else k * 2 ^ (- e) <=? m
  end.

Definition le_int (x : t) (k : Z) : bool :=
  match view_of x with
  | NaN => false
  | Inf neg => neg
  | Fin m e => if 0 <=? e then m * 2 ^ e <=? k else m <=? k * 2 ^ (- e)
  end.

(** [x < k] for an integer [k]. *)
Definition lt_int (x : t) (k : Z) : bool :=
  match view_of x with
  | NaN => false
  | Inf neg => neg
  | Fin m e => if 0 <=? e then m * 2 ^ e <? k else m <? k * 2 ^ (- e)
  end.

(** [Math.abs]: the sign bit is cleared. *)
Definition abs (x : t) : t := Z.land x (2 ^ 63 - 1).

Definition nan : t := 0x7FF8000000000000.

(** The number equal to an integer; exact for integers below [2 ^ 53]
    in magnitude, the only ones the decoder builds. *)
Definition of_int (z : Z) : t :=
  if z =? 0 then 0
  else
    let a := Z.abs z in
    let l := Z.log2 a in
    Z.lor (if z <? 0 then 2 ^ 63 else 0)
      (Z.lor (Z.shiftl (1023 + l) 52) (Z.shiftl a (52 - l) - 2 ^ 52)).

(** [TimeClip], applied by [new Date(x)]. *)
Definition time_clip (x : t) : t :=
  match view_of x with
  | Fin _ _ =>
      let z := trunc x in
      if 8640000000000000 <? Z.abs z then nan else of_int z
  | _ => nan
  end.

(** The numbers that differ in the sign of a zero only are equal for
    [===]; [norm] picks the positive zero. *)
Definition norm (x : t) : t := if x =? 2 ^ 63 then 0 else x.

Definition wf (x : t) : Prop := 0 <= x < 2 ^ 64.

End F64.

(** ** Values and the heap *)

Definition addr : Type := nat.

(** The value universe of the spec.  Arrays and objects are values by
    reference: [VRef a] is the container held by the heap at [a].  Dates
    and byte arrays are written by value by the encoder, without regard
    to their identity, and are values here.  Functions are not part of
    the universe, so the [toJSON] hook and the filter on function-valued
    keys of [serializeObject] never apply. *)
Inductive value : Type :=
| VUndefined
| VNull
| VBool (b : bool)
| VNumber (n : F64.t)
| VString (s : string)
| VDate (time : F64.t)
| VUint8Array (bytes : list byte)
| VRef (a : addr).

(** An object is the list of its own enumerable properties, in the
    order of [Object.keys]; an array is the list of its elements. *)
Inductive container : Type :=
| CObject (props : list (string * value))
| CArray (elems : list value).

Definition heap : Type := list container.

Definition alloc (c : container) (h : heap) : addr * heap :=
  (length h, h ++ [c]).

(** The array index a property name stands for, if any: the names
    ["0"], ["1"], ... up to [2^32 - 2], written without a leading zero.
    [Object.keys] lists the properties with such names first, by
    ascending index, then the others in the order of their creation. *)
Fixpoint decimal (s : string) (acc : N) : option N :=
  match s with
  | EmptyString => Some acc
  | String c s' =>
      let d := N_of_ascii c in
      if ((48 <=? d) && (d <=? 57))%N then decimal s' (10 * acc + (d - 48))%N
      else None
  end.

Definition array_index (s : string) : option N :=
  match s with
  | EmptyString => None
  | String c s' =>
      if (N_of_ascii c =? 48)%N then
        match s' with EmptyString => Some 0%N | _ => None end
      else
        match decimal s 0 with
        | Some n => if (n <? 2 ^ 32 - 1)%N then Some n else None
        | None => None
        end
  end.

(** A property named [key] is listed before a property named [k]
    created earlier. *)
Definition key_before (key k : string) : bool :=
  match array_index key, array_index k with
  | Some i, Some j => (i <? j)%N
  | Some _, None => true
  | None, _ => false
  end.

(** [obj[key] = v] on the list of the own properties of an object whose
    prototype is [Object.prototype].  A property that exists is
    updated; a new one takes its place in the order of [Object.keys].
    The name ["__proto__"], when the object has no own property of that
    name, goes to the setter of [Object.prototype]: no property is
    created (the prototype becomes [v] when [v] is an object or [null];
    the prototype of an object is not part of its list of properties,
    which is all that [Object.keys] and the encoder read). *)
Fixpoint props_set (props : list (string * value)) (key : string) (v : value)
  : list (string * value) :=
  match props with
  | [] => if String.eqb key "__proto__" then [] else [(key, v)]
  | (k, x) :: props' =>
      if String.eqb k key then (k, v) :: props'
      else if key_before key k then (key, v) :: (k, x) :: props'
      else (k, x) :: props_set props' key v
  end.

Definition object_set (a : addr) (key : string) (v : value) (h : heap) : heap :=
  match h !! a with
  | Some (CObject props) => <[a := CObject (props_set props key v)]> h
  | _ => h
  end.

(** [arr[i] = v]: an index past the end extends the array. *)
Definition elems_set (elems : list value) (i : Z) (v : value) : list value :=
  if i <? Z.of_nat (length elems) then <[Z.to_nat i := v]> elems
  else elems ++ replicate (Z.to_nat i - length elems) VUndefined ++ [v].

Definition array_set (a : addr) (i : Z) (v : value) (h : heap) : heap :=
  match h !! a with
  | Some (CArray elems) => <[a := CArray (elems_set elems i v)]> h
  | _ => h
  end.

(** ** Insertion-ordered maps from strings ([Map] in the encoder) *)

Module JSMap.

Definition t : Type := list (string * Z).

Fixpoint get (m : t) (k : string) : option Z :=
  match m with
  | [] => None
  | (k', v) :: m' => if String.eqb k' k then Some v else get m' k
  end.

Fixpoint set (m : t) (k : string) (v : Z) : t :=
  match m with
  | [] => [(k, v)]
  | (k', v') :: m' =>
      if String.eqb k' k then (k', v) :: m' else (k', v') :: set m' k v
  end.

Definition size (m : t) : Z := Z.of_nat (length m).

(** The keys, in the order [forEach] visits them. *)
Definition keys (m : t) : list string := map fst m.

End JSMap.

(** ** A state and error monad for the methods *)

Definition SM (S A : Type) : Type := S -> outcome (A * S).

Definition ret {S A} (a : A) : SM S A := fun s => Ok (a, s).

Definition bind {S A B} (m : SM S A) (k : A -> SM S B) : SM S B :=
  fun s =>
    match m s with
    | Ok (a, s') => k a s'
    | Throw e => Throw e
    | Stuck => Stuck
    end.

Definition throw {S A} (e : error) : SM S A := fun _ => Throw e.
Definition stuck {S A} : SM S A := fun _ => Stuck.
Definition get {S} : SM S S := fun s => Ok (s, s).
Definition modify {S} (f : S -> S) : SM S unit := fun s => Ok (tt, f s).

Notation "x <- m ;; k" := (bind m (fun x => k))
  (at level 100, m at next level, right associativity).
Notation "m ;;; k" := (bind m (fun _ => k))
  (at level 100, right associativity).

(** ** CRC-32 *)

(** One round of the table generator:
    [tmp = tmp & 1 ? 3988292384 ^ tmp >>> 1 : tmp >>> 1]. *)
Definition crc_round (tmp : Z) : Z :=
  if negb (JS.band tmp 1 =? 0)
  then JS.bxor 3988292384 (JS.ushr tmp 1)
  else JS.ushr tmp 1.

(** [table[i]]: eight rounds from [i], stored in a [Uint32Array]. *)
Definition crc_entry (i : Z) : Z := JS.ToUint32 (Nat.iter 8 crc_round i).

Definition crc_table : list Z :=
  Eval vm_compute in map (fun i => crc_entry (Z.of_nat i)) (seq 0 256).

Definition crc_step (crc : Z) (b : byte) : Z :=
  JS.bxor (JS.ushr crc 8)
    (nth (Z.to_nat (JS.bxor (JS.band crc 255) (byte_to_Z b))) crc_table 0).

(** [crc32(data)]: starts from [-1], ends with [(crc ^ -1) >>> 0]. *)
Definition crc32 (data : list byte) : Z :=
  JS.ushr (JS.bxor (fold_left crc_step data (-1)) (-1)) 0.

(** ** The encoder *)

Module Encoder.

Record t : Type := mk {
  ds : DataStream.w;
  object_refs : gmap addr Z;   (* container -> position of its tag *)
  string_keys : JSMap.t;       (* property name -> index *)
  string_refs : JSMap.t;       (* string value -> index *)
  hasCycle : bool
}.

(** [new Encoder()] *)
Definition new : t :=
  {| ds := []; object_refs := ∅; string_keys := []; string_refs := [];
     hasCycle := false |}.

Definition set_ds (d : DataStream.w) (s : t) : t :=
  mk d (object_refs s) (string_keys s) (string_refs s) (hasCycle s).
Definition set_object_refs (m : gmap addr Z) (s : t) : t :=
  mk (ds s) m (string_keys s) (string_refs s) (hasCycle s).
Definition set_string_keys (m : JSMap.t) (s : t) : t :=
  mk (ds s) (object_refs s) m (string_refs s) (hasCycle s).
Definition set_string_refs (m : JSMap.t) (s : t) : t :=
  mk (ds s) (object_refs s) (string_keys s) m (hasCycle s).
Definition set_hasCycle (b : bool) (s : t) : t :=
  mk (ds s) (object_refs s) (string_keys s) (string_refs s) b.

(** A write on [this.ds]. *)
Definition write (f : DataStream.w -> DataStream.w) : SM t unit :=
  modify (fun s => set_ds (f (ds s)) s).

(** [getNumberTag] *)
Definition getNumberTag (value : F64.t) : Z :=
  if F64.eq_int value (JS.ushr (F64.trunc value) 0) then
    if F64.eq_int value (JS.band (F64.trunc value) 0xFF) then TAG_UINT8
    else if F64.eq_int value (JS.band (F64.trunc value) 0xFFFF) then TAG_UINT16
    else TAG_UINT32
  else if F64.eq_int value (JS.bor (F64.trunc value) 0) then
    if F64.int_le (-128) value && F64.le_int value 127 then TAG_INT8
    else if F64.int_le (-32768) value && F64.le_int value 32767 then TAG_INT16
    else TAG_INT32
  else TAG_NUMBER.

(** [getValueTag]: an array or an object is told by what the heap
    holds at its address; the last branch, the [throw] on a value of
    another type, has no value of the universe to take it. *)
Definition getValueTag (h : heap) (obj : value) : outcome Z :=
  match obj with
  | VUndefined => Ok TAG_UNDEFINED
  | VNull => Ok TAG_NULL
  | VRef a =>
      match h !! a with
      | Some (CArray _) => Ok TAG_ARRAY
      | Some (CObject _) => Ok TAG_OBJECT
      | None => Stuck
      end
  | VDate _ => Ok TAG_DATE
  | VUint8Array _ => Ok TAG_UINT8ARRAY
  | VNumber n => Ok (getNumberTag n)
  | VString _ => Ok TAG_STRING_REF
  | VBool b => Ok (if b then TAG_BOOLEAN_TRUE else TAG_BOOLEAN_FALSE)
  end.

(** [Encoder.prototype.serializeCount] *)
Definition serializeCount (value : Z) : SM t unit :=
  fun s =>
    match serializeCount value (ds s) with
    | Ok d => Ok (tt, set_ds d s)
    | Throw e => Throw e
    | Stuck => Stuck
    end.

(** [Encoder.prototype.serializeNumber]: the setters of the stream
    take the integer part of the number, modulo the width. *)
Definition serializeNumber (value : F64.t) (tag : Z) : SM t unit :=
  if tag =? TAG_INT8 then write (DataStream.writeInt8 (F64.trunc value))
  else if tag =? TAG_INT16 then write (DataStream.writeInt16 (F64.trunc value))
  else if tag =? TAG_INT32 then write (DataStream.writeInt32 (F64.trunc value))
  else if tag =? TAG_UINT8 then write (DataStream.writeUint8 (F64.trunc value))
  else if tag =? TAG_UINT16 then write (DataStream.writeUint16 (F64.trunc value))
  else if tag =? TAG_UINT32 then write (DataStream.writeUint32 (F64.trunc value))
  else write (DataStream.writeFloat64 value).

(** [Encoder.prototype.serializeString] *)
Definition serializeString (str : string) : SM t unit :=
  index <-
    (if String.eqb str EmptyString then ret 0
     else
       s <- get ;;
       match JSMap.get (string_refs s) str with
       | Some index => ret index
       | None =>
           let index := JSMap.size (string_refs s) + 1 in
           modify (set_string_refs (JSMap.set (string_refs s) str index)) ;;;
           ret index
       end) ;;
  serializeCount index.

(** [Encoder.prototype.serializeDate] *)
Definition serializeDate (date : F64.t) : SM t unit :=
  write (DataStream.writeFloat64 date).

(** [Encoder.prototype.serializeComponentPart]: the body that follows
    the tag of a value that is neither an object nor an array. *)
Definition serializeComponentPart (obj : value) (tag : Z) : SM t unit :=
  match obj with
  | VNumber n => serializeNumber n tag
  | VString str => serializeString str
  | VDate d => serializeDate d
  | VUint8Array bytes =>
      serializeCount (Z.of_nat (length bytes)) ;;;
      write (DataStream.writeUint8Array bytes)
  | VBool _ | VNull | VUndefined => ret tt
  | VRef _ => throw UnexpectedTag
  end.

Section Containers.

(** The recursive call [this.serializeComponent]. *)
Variable serializeComponent : value -> SM t unit.

(** The loop of [serializeObject] over the keys: the name is
    interned, its index written, then the value. *)
Fixpoint serializeProperties (props : list (string * value)) : SM t unit :=
  match props with
  | [] => ret tt
  | (k, v) :: props' =>
      s <- get ;;
      index <-
        match JSMap.get (string_keys s) k with
        | Some index => ret index
        | None =>
            let index := JSMap.size (string_keys s) in
            modify (set_string_keys (JSMap.set (string_keys s) k index)) ;;;
            ret index
        end ;;
      serializeCount index ;;;
      serializeComponent v ;;;
      serializeProperties props'
  end.

(** The reference branch shared by [serializeObject] and
    [serializeArray]. *)
Definition serializeReference (refindex : Z) : SM t unit :=
  write (DataStream.writeUint8 TAG_OBJECT_REF) ;;;
  serializeCount refindex ;;;
  modify (set_hasCycle true).

(** [Encoder.prototype.serializeObject] *)
Definition serializeObject (a : addr) (props : list (string * value))
  : SM t unit :=
  s <- get ;;
  match object_refs s !! a with
  | None =>
      modify (set_object_refs
                (<[a := DataStream.wposition (ds s)]> (object_refs s))) ;;;
      write (DataStream.writeUint8 TAG_OBJECT) ;;;
      serializeCount (Z.of_nat (length props)) ;;;
      serializeProperties props
  | Some refindex => serializeReference refindex
  end.

(** The loop of [serializeArray] over the elements. *)
Fixpoint serializeElements (elems : list value) : SM t unit :=
  match elems with
  | [] => ret tt
  | v :: elems' => serializeComponent v ;;; serializeElements elems'
  end.

(** [Encoder.prototype.serializeArray] *)
Definition serializeArray (a : addr) (elems : list value) : SM t unit :=
  s <- get ;;
  match object_refs s !! a with
  | None =>
      modify (set_object_refs
                (<[a := DataStream.wposition (ds s)]> (object_refs s))) ;;;
      write (DataStream.writeUint8 TAG_ARRAY) ;;;
      serializeCount (Z.of_nat (length elems)) ;;;
      serializeElements elems
  | Some refindex => serializeReference refindex
  end.

End Containers.

(** [Encoder.prototype.serializeComponent].  The recursion follows the
    references of the heap; [fuel] bounds its depth. *)
Fixpoint serializeComponent (fuel : nat) (h : heap) (obj : value)
  : SM t unit :=
  match fuel with
  | O => stuck
  | S fuel' =>
      match obj with
      | VRef a =>
          match h !! a with
          | Some (CObject props) =>
              serializeObject (serializeComponent fuel' h) a props
          | Some (CArray elems) =>
              serializeArray (serializeComponent fuel' h) a elems
          | None => stuck
          end
      | _ =>
          fun s =>
            match getValueTag h obj with
            | Ok tag =>
                (write (DataStream.writeUint8 tag) ;;;
                 serializeComponentPart obj tag) s
            | Throw e => Throw e
            | Stuck => Stuck
            end
      end
  end.

(** The strings of a table, each NUL-terminated. *)
Fixpoint writeStrings (keys : list string) : SM t unit :=
  match keys with
  | [] => ret tt
  | k :: keys' => write (DataStream.writeCString k) ;;; writeStrings keys'
  end.

(** [Encoder.prototype.serializeTOS]: the header and the two tables
    are written to a new stream, and the payload is copied after
    them. *)
Definition serializeTOS (hasCRC : bool) : SM t unit :=
  s0 <- get ;;
  let next_ds := ds s0 in
  modify (set_ds []) ;;;
  let v := MAJOR_VERSION in
  let v := if negb (hasCycle s0) then JS.bor v OPTION_NOCYCLE else v in
  (if hasCRC then
     let crc := crc32 next_ds in
     write (DataStream.writeUint8 (JS.bor v OPTION_CRC32)) ;;;
     write (DataStream.writeUint32 crc)
   else write (DataStream.writeUint8 v)) ;;;
  serializeCount (JSMap.size (string_keys s0)) ;;;
  writeStrings (JSMap.keys (string_keys s0)) ;;;
  serializeCount (JSMap.size (string_refs s0)) ;;;
  writeStrings (JSMap.keys (string_refs s0)) ;;;
  write (fun d => d ++ next_ds).

(** [Encoder.prototype.encode] *)
Definition encode (fuel : nat) (h : heap) (obj : value) (hasCRC : bool)
  : SM t (list byte) :=
  serializeComponent fuel h obj ;;;
  serializeTOS hasCRC ;;;
  s <- get ;;
  ret (ds s).

End Encoder.

(** [JSBON.encode(obj, options)].  No container is entered twice, so the
    depth of the walk is at most the number of containers of the heap. *)
Definition encode (h : heap) (obj : value) (hasCRC : bool) : outcome (list byte) :=
  match Encoder.encode (S (length h)) h obj hasCRC Encoder.new with
  | Ok (bytes, _) => Ok bytes
  | Throw e => Throw e
  | Stuck => Stuck
  end.

(** ** The decoder *)

Module Decoder.

Record t : Type := mk {
  ds : DataStream.t;
  object_refs : gmap Z addr;     (* position of a tag -> container *)
  string_keys : gmap Z string;   (* index -> property name *)
  string_refs : gmap Z string;   (* index -> string value *)
  hasCycle : bool;
  offset : Z                     (* set by [decode] before any use *)
}.

(** [new Decoder(arrayBuffer)] *)
Definition new (input : list byte) : t :=
  {| ds := DataStream.mk input 0; object_refs := ∅; string_keys := ∅;
     string_refs := ∅; hasCycle := true; offset := 0 |}.

Definition set_ds (d : DataStream.t) (s : t) : t :=
  mk d (object_refs s) (string_keys s) (string_refs s) (hasCycle s) (offset s).
Definition set_object_refs (m : gmap Z addr) (s : t) : t :=
  mk (ds s) m (string_keys s) (string_refs s) (hasCycle s) (offset s).
Definition set_string_keys (m : gmap Z string) (s : t) : t :=
  mk (ds s) (object_refs s) m (string_refs s) (hasCycle s) (offset s).
Definition set_string_refs (m : gmap Z string) (s : t) : t :=
  mk (ds s) (object_refs s) (string_keys s) m (hasCycle s) (offset s).
Definition set_hasCycle (b : bool) (s : t) : t :=
  mk (ds s) (object_refs s) (string_keys s) (string_refs s) b (offset s).
Definition set_offset (o : Z) (s : t) : t :=
  mk (ds s) (object_refs s) (string_keys s) (string_refs s) (hasCycle s) o.

(** The state of a run: the decoder and the heap it builds. *)
Definition world : Type := t * heap.

(** A read on [this.ds]. *)
Definition read {A} (f : DataStream.t -> outcome (A * DataStream.t))
  : SM world A :=
  fun '(s, h) =>
    match f (ds s) with
    | Ok (a, d) => Ok (a, (set_ds d s, h))
    | Throw e => Throw e
    | Stuck => Stuck
    end.

Definition this : SM world t := fun '(s, h) => Ok (s, (s, h)).
Definition update (f : t -> t) : SM world unit :=
  fun '(s, h) => Ok (tt, (f s, h)).
Definition on_heap (f : heap -> heap) : SM world unit :=
  fun '(s, h) => Ok (tt, (s, f h)).
(** [{}] and [[]]: a new container. *)
Definition allocate (c : container) : SM world addr :=
  fun '(s, h) => let '(a, h') := alloc c h in Ok (a, (s, h')).

(** [Decoder.prototype.unserializeCount] *)
Definition unserializeCount : SM world Z := read unserializeCount.

Definition msize (m : gmap Z string) : Z := Z.of_nat (size m).

(** [Decoder.prototype.unserializeString]; an index that the table
    does not hold and the test lets through reads [undefined]. *)
Definition unserializeString : SM world value :=
  index <- unserializeCount ;;
  if index =? 0 then ret (VString EmptyString)
  else
    s <- this ;;
    if msize (string_refs s) <? index then throw OutOfBoundString
    else
      ret (match string_refs s !! (index - 1) with
           | Some str => VString str
           | None => VUndefined
           end).

(** [Decoder.prototype.unserializeDate] *)
Definition unserializeDate : SM world value :=
  x <- read DataStream.readFloat64 ;;
  ret (VDate (F64.time_clip x)).

Section Containers.

(** The recursive call [this.unserializeComponent()]. *)
Variable unserializeComponent : SM world value.

(** The loop [while (size > 0)] of [unserializeObject]; a key that
    the table does not hold and the test lets through is the
    property name ["undefined"]. *)
Fixpoint unserializeProperties (fuel : nat) (a : addr) (size max : Z)
  : SM world unit :=
  match fuel with
  | O => stuck
  | S fuel' =>
      if 0 <? size then
        index <- unserializeCount ;;
        if max <=? index then throw OutOfBoundProperty
        else
          s <- this ;;
          let key :=
            match string_keys s !! index with
            | Some k => k
            | None => "undefined"%string
            end in
          v <- unserializeComponent ;;
          on_heap (object_set a key v) ;;;
          unserializeProperties fuel' a (size - 1) max
      else ret tt
  end.

(** [Decoder.prototype.unserializeObject]: the tag has been read,
    so [position - 1] is where it stands. *)
Definition unserializeObject (fuel : nat) : SM world value :=
  a <- allocate (CObject []) ;;
  s <- this ;;
  (if hasCycle s then
     update (set_object_refs
               (<[DataStream.position (ds s) - 1 := a]> (object_refs s)))
   else ret tt) ;;;
  size <- unserializeCount ;;
  s <- this ;;
  unserializeProperties fuel a size (msize (string_keys s)) ;;;
  ret (VRef a).

(** The loop [while (i < size)] of [unserializeArray]. *)
Fixpoint unserializeElements (fuel : nat) (a : addr) (i size : Z)
  : SM world unit :=
  match fuel with
  | O => stuck
  | S fuel' =>
      if i <? size then
        elem <- unserializeComponent ;;
        on_heap (array_set a i elem) ;;;
        unserializeElements fuel' a (i + 1) size
      else ret tt
  end.

(** [Decoder.prototype.unserializeArray] *)
Definition unserializeArray (fuel : nat) : SM world value :=
  a <- allocate (CArray []) ;;
  s <- this ;;
  (if hasCycle s then
     update (set_object_refs
               (<[DataStream.position (ds s) - 1 := a]> (object_refs s)))
   else ret tt) ;;;
  size <- unserializeCount ;;
  unserializeElements fuel a 0 size ;;;
  ret (VRef a).

(** [Decoder.prototype.unserializeComponentPart] *)
Definition unserializeComponentPart (fuel : nat) (tag : Z) : SM world value :=
  if tag =? TAG_NUMBER then
    x <- read DataStream.readFloat64 ;; ret (VNumber x)
  else if tag =? TAG_INT8 then
    z <- read DataStream.readInt8 ;; ret (VNumber (F64.of_int z))
  else if tag =? TAG_INT16 then
    z <- read DataStream.readInt16 ;; ret (VNumber (F64.of_int z))
  else if tag =? TAG_INT32 then
    z <- read DataStream.readInt32 ;; ret (VNumber (F64.of_int z))
  else if tag =? TAG_UINT8 then
    z <- read DataStream.readUint8 ;; ret (VNumber (F64.of_int z))
  else if tag =? TAG_UINT16 then
    z <- read DataStream.readUint16 ;; ret (VNumber (F64.of_int z))
  else if tag =? TAG_UINT32 then
    z <- read DataStream.readUint32 ;; ret (VNumber (F64.of_int z))
  else if tag =? TAG_STRING_REF then unserializeString
  else if tag =? TAG_DATE then unserializeDate
  else if tag =? TAG_UINT8ARRAY then
    size <- unserializeCount ;;
    bytes <- read (DataStream.readUint8Array size) ;;
    ret (VUint8Array bytes)
  else if tag =? TAG_BOOLEAN_TRUE then ret (VBool true)
  else if tag =? TAG_BOOLEAN_FALSE then ret (VBool false)
  else if tag =? TAG_NULL then ret VNull
  else if tag =? TAG_UNDEFINED then ret VUndefined
  else if tag =? TAG_OBJECT then unserializeObject fuel
  else if tag =? TAG_ARRAY then unserializeArray fuel
  else if tag =? TAG_OBJECT_REF then
    index <- unserializeCount ;;
    s <- this ;;
    match object_refs s !! (index + offset s) with
    | Some a => ret (VRef a)
    | None => throw InvalidObjectReference
    end
  else throw UnexpectedTag.

End Containers.

(** [Decoder.prototype.unserializeComponent].  Every call and every
    round of a loop reads a byte at least; [fuel] bounds both. *)
Fixpoint unserializeComponent (fuel : nat) : SM world value :=
  match fuel with
  | O => stuck
  | S fuel' =>
      tag <- read DataStream.readUint8 ;;
      unserializeComponentPart (unserializeComponent fuel') fuel' tag
  end.

(** The loops [for (i = 0; i < size; i += 1)] of [unserializeTOS]
    that fill a table; [set] stores the string at index [i]. *)
Fixpoint readStrings (fuel : nat) (set : Z -> string -> t -> t) (i size : Z)
  : SM world unit :=
  match fuel with
  | O => stuck
  | S fuel' =>
      if i <? size then
        str <- read DataStream.readCString ;;
        update (set i str) ;;;
        readStrings fuel' set (i + 1) size
      else ret tt
  end.

(** [Decoder.prototype.unserializeTOS] *)
Definition unserializeTOS (fuel : nat) : SM world unit :=
  version <- read DataStream.readUint8 ;;
  if MAJOR_VERSION <? JS.band version 0x0F then throw VersionMismatch
  else
    crc <-
      (if negb (JS.band version OPTION_CRC32 =? 0)
       then read DataStream.readUint32 else ret 0) ;;
    (if negb (JS.band version OPTION_NOCYCLE =? 0)
     then update (set_hasCycle false) else ret tt) ;;;
    size <- unserializeCount ;;
    readStrings fuel
      (fun i str s => set_string_keys (<[i := str]> (string_keys s)) s)
      0 size ;;;
    size <- unserializeCount ;;
    readStrings fuel
      (fun i str s => set_string_refs (<[i := str]> (string_refs s)) s)
      0 size ;;;
    if negb (JS.band version OPTION_CRC32 =? 0) then
      s <- this ;;
      let offset := DataStream.position (ds s) in
      let raw := fst (DataStream.readRest (ds s)) in
      let new_crc := crc32 raw in
      if negb (new_crc =? crc) then throw ChecksumMismatch
      else
        update (set_ds (DataStream.mk (DataStream.buffer (ds s)) offset))
    else ret tt.

(** [Decoder.prototype.decode].  A table entry, a value and a round of
    a loop each read a byte at least, so the number of bytes left in the
    stream bounds what follows. *)
Definition decode : SM world value :=
  s <- this ;;
  unserializeTOS (S (length (DataStream.remaining (ds s)))) ;;;
  s <- this ;;
  update (set_offset (DataStream.position (ds s))) ;;;
  unserializeComponent (S (length (DataStream.remaining (ds s)))).

End Decoder.

(** What a caller may pass to [JSBON.decode]: any value of the
    language, told apart by what the guard of [decode] and the stream
    look at. *)
Inductive input : Type :=
| Undefined
| Null
| Primitive                   (* a boolean, a number, a string, ... *)
| Buffer (bytes : list byte)  (* an [ArrayBuffer] *)
| Object (buffer : input) (bytes : list byte).
    (* any other object: the value of its property [buffer], and,
       modelled from the spec ("accepts any contiguous byte buffer"),
       the bytes that a stream made over it reads *)

(** [x instanceof ArrayBuffer] *)
Definition instanceof_ArrayBuffer (x : input) : bool :=
  match x with Buffer _ => true | _ => false end.

(** [x.buffer], for an [x] that is neither [undefined] nor [null]; an
    [ArrayBuffer] and a primitive have no such property. *)
Definition get_buffer (x : input) : input :=
  match x with Object buffer _ => buffer | _ => Undefined end.

Definition is_undefined (x : input) : bool :=
  match x with Undefined => true | _ => false end.
Definition is_null (x : input) : bool :=
  match x with Null => true | _ => false end.

(** The guard of [decode]:
    [binary === undefined || binary === null ||
     !(binary instanceof ArrayBuffer || binary.buffer instanceof ArrayBuffer)] *)
Definition invalid_data (binary : input) : bool :=
  is_undefined binary || is_null binary ||
  negb (instanceof_ArrayBuffer binary
        || instanceof_ArrayBuffer (get_buffer binary)).

(** Modelled from the spec: the bytes [new DataStream(binary, 0, ...)]
    reads. *)
Definition stream_bytes (binary : input) : list byte :=
  match binary with
  | Buffer bytes | Object _ bytes => bytes
  | _ => []
  end.

(** [JSBON.decode(binary)]: the value and the heap that holds its
    containers. *)
Definition decode (binary : input) : outcome (value * heap) :=
  if invalid_data binary then Throw InvalidData
  else
    match Decoder.decode (Decoder.new (stream_bytes binary), []) with
    | Ok (v, (_, h)) => Ok (v, h)
    | Throw e => Throw e
    | Stuck => Stuck
    end.

(** [JSBON.decode(JSON.encode(obj, options))] *)
Definition roundtrip (h : heap) (obj : value) (hasCRC : bool)
  : outcome (value * heap) :=
  match encode h obj hasCRC with
  | Ok bytes => decode (Buffer bytes)
  | Throw e => Throw e
  | Stuck => Stuck
  end.


(** ** The serializer of the first version (JSBON.js) *)

Module Serializer.

(** [Serializer.prototype.serializeNumber]: the tag byte and the body
    are written by the same function; the test and the two bounds are
    on the absolute value, the setters take the number itself. *)
Definition serializeNumber (value : F64.t) (ds : DataStream.w) : DataStream.w :=
  let abs := F64.abs value in
  if F64.eq_int abs (JS.bor (F64.trunc abs) 0) then
    if F64.lt_int abs 0x7F then
      DataStream.writeInt8 (F64.trunc value) (DataStream.writeUint8 TAG_INT8 ds)
    else if F64.lt_int abs 0x7FFF then
      DataStream.writeInt16 (F64.trunc value) (DataStream.writeUint8 TAG_INT16 ds)
    else
      DataStream.writeInt32 (F64.trunc value) (DataStream.writeUint8 TAG_INT32 ds)
  else
    DataStream.writeFloat64 value (DataStream.writeUint8 TAG_NUMBER ds).

End Serializer.

(** * Notions used to state the properties *)

(** The bytes [serializeCount] writes for a count. *)
Definition varint (c : Z) : list byte := serializeCount_loop 5 c [].

(** A byte whose high bit, the continuation flag, is set. *)
Definition continues (b : byte) : bool := 128 <=? byte_to_Z b.

(** The bits a varint holds: the low seven bits of the byte of index [c]
    go to bit [7 * c], the shift count being taken modulo 32 as [<<]
    does. *)
Fixpoint count_bits (bs : list byte) (c : Z) : Z :=
  match bs with
  | [] => 0
  | b :: bs' =>
      Z.lor (Z.shiftl (Z.land (byte_to_Z b) 0x7F) ((7 * c) mod 32))
        (count_bits bs' (c + 1))
  end.

(** The ladder of number tags as [getNumberTag] walks it, on the
    integer a number is equal to, if any. *)
Definition tag_ladder (n : option Z) : Z :=
  match n with
  | Some z =>
      if (0 <=? z) && (z <? 2 ^ 32) then
        if z <? 2 ^ 8 then TAG_UINT8
        else if z <? 2 ^ 16 then TAG_UINT16
        else TAG_UINT32
      else if (- 2 ^ 31 <=? z) && (z <? 0) then
        if - 2 ^ 7 <=? z then TAG_INT8
        else if - 2 ^ 15 <=? z then TAG_INT16
        else TAG_INT32
      else TAG_NUMBER
  | None => TAG_NUMBER
  end.

(** The heap of scenario S4: [o = {name: "o1", children: []}],
    [p = {name: "o2", parent: o}], [p] pushed into [o.children]; [o] is
    at address 0, its array at 1, [p] at 2. *)
Definition cyclic_heap : heap :=
  [ CObject [("name"%string, VString "o1"); ("children"%string, VRef 1%nat)];
    CArray [VRef 2%nat];
    CObject [("name"%string, VString "o2"); ("parent"%string, VRef 0%nat)] ].

(** The heap of scenario S5: [b = [1, 2, 3]], [o = {x: b, y: b}]; [o] is
    at address 0 and [b] at 1. *)
Definition shared_heap : heap :=
  [ CObject [("x"%string, VRef 1%nat); ("y"%string, VRef 1%nat)];
    CArray [VNumber (F64.of_int 1); VNumber (F64.of_int 2);
            VNumber (F64.of_int 3)] ].

(** The NOCYCLE bit of the first byte of a buffer. *)
Definition nocycle_bit (bytes : list byte) : bool :=
  match bytes with
  | [] => false
  | b :: _ => Z.testbit (byte_to_Z b) 6
  end.

(** [v[key]] and [v[i]] on a value of a heap. *)
Fixpoint props_get (props : list (string * value)) (key : string)
  : option value :=
  match props with
  | [] => None
  | (k, x) :: props' => if String.eqb k key then Some x else props_get props' key
  end.

Definition member (h : heap) (v : value) (key : string) : option value :=
  match v with
  | VRef a =>
      match h !! a with
      | Some (CObject props) => props_get props key
      | _ => None
      end
  | _ => None
  end.

Definition element (h : heap) (v : value) (i : nat) : option value :=
  match v with
  | VRef a =>
      match h !! a with
      | Some (CArray elems) => elems !! i
      | _ => None
      end
  | _ => None
  end.

(** The output of the encoder on scenario S4: header [0x01], the names
    ["name"], ["children"], ["parent"], the strings ["o1"], ["o2"], and
    the payload, whose last two bytes are the reference to position 0. *)
Definition cyclic_bytes : list byte :=
  [ x01; x03; x6e; x61; x6d; x65; x00; x63; x68; x69; x6c; x64; x72; x65;
    x6e; x00; x70; x61; x72; x65; x6e; x74; x00; x02; x6f; x31; x00; x6f;
    x32; x00;
    x30; x02; x00; x16; x01; x01; x31; x01; x30; x02; x00; x16; x02; x02;
    x07; x00 ].

(** The output of the encoder on scenario S5. *)
Definition shared_bytes : list byte :=
  [ x01; x02; x78; x00; x79; x00; x00;
    x30; x02; x00; x31; x03; x12; x01; x12; x02; x12; x03; x01; x07; x03 ].

(** A string without the character NUL. *)
Definition nul_free (s : string) : bool :=
  forallb (fun b => negb (Byte.eqb b x00)) (list_byte_of_string s).

(** The bytes of a table of strings: the count, then each string with
    its terminator. *)
Definition cstring (s : string) : list byte := list_byte_of_string s ++ [x00].

Definition table_bytes (strs : list string) : list byte :=
  varint (Z.of_nat (length strs)) ++ concat (map cstring strs).

(** The header written by [serializeTOS] before the tables. *)
Definition version_byte (hasCRC hasCycle : bool) : Z :=
  let v := if negb hasCycle then JS.bor MAJOR_VERSION OPTION_NOCYCLE
           else MAJOR_VERSION in
  if hasCRC then JS.bor v OPTION_CRC32 else v.

Definition header (hasCRC hasCycle : bool) (payload : list byte) : list byte :=
  byte_of_Z (version_byte hasCRC hasCycle)
    :: (if hasCRC then Z_to_be 4 (crc32 payload) else []).

(** Everything [serializeTOS] puts before the payload. *)
Definition prefix (hasCRC : bool) (e : Encoder.t) : list byte :=
  header hasCRC (Encoder.hasCycle e) (Encoder.ds e)
    ++ table_bytes (JSMap.keys (Encoder.string_keys e))
    ++ table_bytes (JSMap.keys (Encoder.string_refs e)).

(** The table the decoder holds after reading the strings [strs]. *)
Definition table_of (strs : list string) : gmap Z string := map_seqZ 0 strs.

(** The state of the decoder once [n] strings have been stored from
    index [i] on by the loop of [unserializeTOS]. *)
Fixpoint set_strings (set : Z -> string -> Decoder.t -> Decoder.t)
  (i : Z) (strs : list string) (s : Decoder.t) : Decoder.t :=
  match strs with
  | [] => s
  | str :: strs' => set_strings set (i + 1) strs' (set i str s)
  end.

Definition set_key (i : Z) (str : string) (s : Decoder.t) : Decoder.t :=
  Decoder.set_string_keys (<[i := str]> (Decoder.string_keys s)) s.

Definition set_ref (i : Z) (str : string) (s : Decoder.t) : Decoder.t :=
  Decoder.set_string_refs (<[i := str]> (Decoder.string_refs s)) s.

(** Values and heaps none of whose strings and property names holds the
    character NUL. *)
Definition value_nul_free (v : value) : bool :=
  match v with
  | VString s => nul_free s
  | _ => true
  end.

Definition container_nul_free (c : container) : bool :=
  match c with
  | CObject props =>
      forallb (fun p => nul_free (fst p) && value_nul_free (snd p)) props
  | CArray elems => forallb value_nul_free elems
  end.

Definition heap_nul_free (h : heap) : bool := forallb container_nul_free h.

Definition tables_nul_free (e : Encoder.t) : Prop :=
  forallb nul_free (JSMap.keys (Encoder.string_keys e)) = true /\
  forallb nul_free (JSMap.keys (Encoder.string_refs e)) = true.

(** The payload: what [serializeComponent] has written when
    [serializeTOS] is called. *)
Definition encode_payload (h : heap) (obj : value) : outcome (list byte) :=
  match Encoder.serializeComponent (S (length h)) h obj Encoder.new with
  | Ok (_, e) => Ok (Encoder.ds e)
  | Throw e => Throw e
  | Stuck => Stuck
  end.

(** A string that holds a NUL, for which the checksum of what follows
    the NUL, of the terminator and of the payload with one bit flipped
    is the checksum of the payload. *)
Definition forged_string : string :=
  string_of_list_byte [x00; x05; x63; x41; x47; x5e; x29].

(** The output of [encode] with the CRC option on [forged_string]: the
    header byte, the checksum of the payload, an empty table of names,
    a table of one string, and the payload at indices 15 and 16. *)
Definition forged_bytes : list byte :=
  [ xc1; x2a; x46; x97; xbe; x00; x01;
    x00; x05; x63; x41; x47; x5e; x29; x00;
    x16; x01 ].

(** Two states of the decoder that read the same bytes with the same
    tables, their positions and the keys of their references counted
    from their own payload offset. *)
Definition sim (s1 s2 : Decoder.t) : Prop :=
  DataStream.remaining (Decoder.ds s1) = DataStream.remaining (Decoder.ds s2) /\
  0 <= DataStream.position (Decoder.ds s1) /\
  0 <= DataStream.position (Decoder.ds s2) /\
  DataStream.position (Decoder.ds s1) - Decoder.offset s1 =
    DataStream.position (Decoder.ds s2) - Decoder.offset s2 /\
  Decoder.string_keys s1 = Decoder.string_keys s2 /\
  Decoder.string_refs s1 = Decoder.string_refs s2 /\
  Decoder.hasCycle s1 = Decoder.hasCycle s2 /\
  forall k, Decoder.object_refs s1 !! (k + Decoder.offset s1)
            = Decoder.object_refs s2 !! (k + Decoder.offset s2).

Definition wsim (w1 w2 : Decoder.world) : Prop :=
  sim (fst w1) (fst w2) /\ snd w1 = snd w2.

Definition osim {A : Type} (o1 o2 : outcome (A * Decoder.world)) : Prop :=
  match o1, o2 with
  | Ok (a1, w1), Ok (a2, w2) => a1 = a2 /\ wsim w1 w2
  | Throw e1, Throw e2 => e1 = e2
  | Stuck, Stuck => True
  | _, _ => False
  end.

Definition msim {A : Type} (m : SM Decoder.world A) : Prop :=
  forall w1 w2, wsim w1 w2 -> osim (m w1) (m w2).

(** A reader whose result depends on the bytes left only. *)
Definition local {A : Type} (f : DataStream.t -> outcome (A * DataStream.t))
  : Prop :=
  forall d1 d2,
    DataStream.remaining d1 = DataStream.remaining d2 ->
    0 <= DataStream.position d1 -> 0 <= DataStream.position d2 ->
    match f d1, f d2 with
    | Ok (a1, d1'), Ok (a2, d2') =>
        a1 = a2 /\
        DataStream.remaining d1' = DataStream.remaining d2' /\
        exists n, 0 <= n /\
                  DataStream.position d1' = DataStream.position d1 + n /\
                  DataStream.position d2' = DataStream.position d2 + n
    | Throw e1, Throw e2 => e1 = e2
    | Stuck, Stuck => True
    | _, _ => False
    end.

(** The index of the table entry a step of the checksum uses, from the
    unsigned value of the register. *)
Definition crc_index (u : Z) (b : byte) : Z :=
  Z.lxor (u mod 256) (byte_to_Z b).


(** The state of the decoder when it starts on the payload [P] that
    follows the header and the tables of [e]. *)
Definition payload_state (hasCRC : bool) (e : Encoder.t) (P : list byte)
  : Decoder.t :=
  Decoder.mk
    (DataStream.mk (prefix hasCRC e ++ P) (Z.of_nat (length (prefix hasCRC e))))
    ∅ (table_of (JSMap.keys (Encoder.string_keys e)))
    (table_of (JSMap.keys (Encoder.string_refs e)))
    (Encoder.hasCycle e)
    (Z.of_nat (length (prefix hasCRC e))).


(** ** Values without sharing *)

Set Warnings "-register-all".

(** A value in which no container occurs twice is a tree. *)
Inductive tree : Type :=
| TUndefined
| TNull
| TBool (b : bool)
| TNumber (n : F64.t)
| TString (s : string)
| TDate (time : F64.t)
| TBytes (bytes : list byte)
| TArray (elems : list tree)
| TObject (props : list (string * tree)).

(** [unfold h v t l]: in the heap [h] the value [v] is the tree [t], and
    [l] lists the addresses of its containers as a walk from [v] meets
    them.  No container occurs twice in [v] when [l] has no duplicate. *)
Inductive unfold (h : heap) : value -> tree -> list addr -> Prop :=
| unfold_undefined : unfold h VUndefined TUndefined []
| unfold_null : unfold h VNull TNull []
| unfold_bool b : unfold h (VBool b) (TBool b) []
| unfold_number n : unfold h (VNumber n) (TNumber n) []
| unfold_string s : unfold h (VString s) (TString s) []
| unfold_date d : unfold h (VDate d) (TDate d) []
| unfold_bytes bs : unfold h (VUint8Array bs) (TBytes bs) []
| unfold_array a vs ts l :
    h !! a = Some (CArray vs) -> unfold_elems h vs ts l ->
    unfold h (VRef a) (TArray ts) (a :: l)
| unfold_object a ps tps l :
    h !! a = Some (CObject ps) -> unfold_props h ps tps l ->
    unfold h (VRef a) (TObject tps) (a :: l)
with unfold_elems (h : heap) : list value -> list tree -> list addr -> Prop :=
| unfold_elems_nil : unfold_elems h [] [] []
| unfold_elems_cons v t l vs ts ls :
    unfold h v t l -> unfold_elems h vs ts ls ->
    unfold_elems h (v :: vs) (t :: ts) (l ++ ls)
with unfold_props (h : heap)
  : list (string * value) -> list (string * tree) -> list addr -> Prop :=
| unfold_props_nil : unfold_props h [] [] []
| unfold_props_cons k v t l ps tps ls :
    unfold h v t l -> unfold_props h ps tps ls ->
    unfold_props h ((k, v) :: ps) ((k, t) :: tps) (l ++ ls).

Scheme unfold_mut := Minimality for unfold Sort Prop
  with unfold_elems_mut := Minimality for unfold_elems Sort Prop
  with unfold_props_mut := Minimality for unfold_props Sort Prop.

(** The tree read back: a negative zero comes back positive. *)
Fixpoint tnorm (t : tree) : tree :=
  match t with
  | TNumber n => TNumber (F64.norm n)
  | TArray ts => TArray (map tnorm ts)
  | TObject ps => TObject (map (fun p => (fst p, tnorm (snd p))) ps)
  | _ => t
  end.

(** The number of values, of properties and of raw bytes of a tree;
    every count the encoder writes for it is below this number. *)
Fixpoint weight (t : tree) : nat :=
  match t with
  | TBytes bs => S (length bs)
  | TArray ts => S (list_sum (map (fun t => S (weight t)) ts))
  | TObject ps => S (list_sum (map (fun p => S (weight (snd p))) ps))
  | _ => 1
  end.

(** The nesting of containers. *)
Fixpoint depth (t : tree) : nat :=
  match t with
  | TArray ts => S (list_max (map depth ts))
  | TObject ps => S (list_max (map (fun p => depth (snd p)) ps))
  | _ => 0
  end.

(** The names of an object in the order of [Object.keys]: no name is
    listed before a name that comes earlier. *)
Fixpoint keys_ordered (ks : list string) : bool :=
  match ks with
  | [] => true
  | k :: ks' => forallb (fun k' => negb (key_before k' k)) ks' && keys_ordered ks'
  end.

(** The names of the own properties of an object, as [Object.keys]
    gives them: distinct and in order; and none is ["__proto__"]. *)
Definition keys_ok (ks : list string) : Prop :=
  NoDup ks /\ keys_ordered ks = true /\ "__proto__"%string ∉ ks.

(** The trees the format carries faithfully: numbers are 64-bit
    patterns, a date holds a time value ([new Date] leaves it as it is),
    strings and property names hold no NUL, and no property is named
    ["__proto__"]; the names of an object are distinct and in the order
    of [Object.keys], as they are for every object. *)
Fixpoint tree_ok (t : tree) : Prop :=
  match t with
  | TNumber n => F64.wf n
  | TString s => nul_free s = true
  | TDate d => F64.wf d /\ F64.time_clip d = d
  | TArray ts => (fix all ts := match ts with
                                | [] => True
                                | t :: ts' => tree_ok t /\ all ts'
                                end) ts
  | TObject ps =>
      keys_ok (map fst ps) /\
      (fix all ps := match ps with
                     | [] => True
                     | p :: ps' =>
                         (nul_free (fst p) = true /\ tree_ok (snd p)) /\ all ps'
                     end) ps
  | _ => True
  end.

(** *** The bytes of a tree *)

Fixpoint index_of (k : string) (ks : list string) : option nat :=
  match ks with
  | [] => None
  | k' :: ks' =>
      if String.eqb k' k then Some 0%nat
      else option_map S (index_of k ks')
  end.

(** The index of a string in a table, the string being added at the end
    if the table does not hold it. *)
Definition intern (k : string) (ks : list string) : nat * list string :=
  match index_of k ks with
  | Some i => (i, ks)
  | None => (length ks, ks ++ [k])
  end.

(** The map the encoder holds for the table [ks], whose first index is
    [base]. *)
Fixpoint keymap (base : Z) (ks : list string) : JSMap.t :=
  match ks with
  | [] => []
  | k :: ks' => (k, base) :: keymap (base + 1) ks'
  end.

(** The body [serializeNumber] writes for a number and its tag. *)
Definition number_body (n : F64.t) (tag : Z) : list byte :=
  if tag =? TAG_INT8 then Z_to_be 1 (F64.trunc n)
  else if tag =? TAG_INT16 then Z_to_be 2 (F64.trunc n)
  else if tag =? TAG_INT32 then Z_to_be 4 (F64.trunc n)
  else if tag =? TAG_UINT8 then Z_to_be 1 (F64.trunc n)
  else if tag =? TAG_UINT16 then Z_to_be 2 (F64.trunc n)
  else if tag =? TAG_UINT32 then Z_to_be 4 (F64.trunc n)
  else Z_to_be 8 n.

(** What the encoder writes for a tree, from the tables [K] of names
    and [R] of strings, and the tables afterwards. *)
Fixpoint tenc (t : tree) (K R : list string)
  : list byte * (list string * list string) :=
  match t with
  | TUndefined => ([byte_of_Z TAG_UNDEFINED], (K, R))
  | TNull => ([byte_of_Z TAG_NULL], (K, R))
  | TBool b =>
      ([byte_of_Z (if b then TAG_BOOLEAN_TRUE else TAG_BOOLEAN_FALSE)], (K, R))
  | TNumber n =>
      (byte_of_Z (Encoder.getNumberTag n)
         :: number_body n (Encoder.getNumberTag n), (K, R))
  | TString s =>
      if String.eqb s EmptyString
      then (byte_of_Z TAG_STRING_REF :: varint 0, (K, R))
      else
        let '(i, R') := intern s R in
        (byte_of_Z TAG_STRING_REF :: varint (Z.of_nat i + 1), (K, R'))
  | TDate d => (byte_of_Z TAG_DATE :: Z_to_be 8 d, (K, R))
  | TBytes bs =>
      (byte_of_Z TAG_UINT8ARRAY :: varint (Z.of_nat (length bs)) ++ bs, (K, R))
  | TArray ts =>
      let '(body, KR) :=
        (fix elems ts K R :=
           match ts with
           | [] => ([], (K, R))
           | t :: ts' =>
               let '(b1, (K1, R1)) := tenc t K R in
               let '(b2, KR2) := elems ts' K1 R1 in
               (b1 ++ b2, KR2)
           end) ts K R in
      (byte_of_Z TAG_ARRAY :: varint (Z.of_nat (length ts)) ++ body, KR)
  | TObject ps =>
      let '(body, KR) :=
        (fix props ps K R :=
           match ps with
           | [] => ([], (K, R))
           | p :: ps' =>
               let '(i, K0) := intern (fst p) K in
               let '(b1, (K1, R1)) := tenc (snd p) K0 R in
               let '(b2, KR2) := props ps' K1 R1 in
               (varint (Z.of_nat i) ++ b1 ++ b2, KR2)
           end) ps K R in
      (byte_of_Z TAG_OBJECT :: varint (Z.of_nat (length ps)) ++ body, KR)
  end.

Fixpoint tenc_elems (ts : list tree) (K R : list string)
  : list byte * (list string * list string) :=
  match ts with
  | [] => ([], (K, R))
  | t :: ts' =>
      let '(b1, (K1, R1)) := tenc t K R in
      let '(b2, KR2) := tenc_elems ts' K1 R1 in
      (b1 ++ b2, KR2)
  end.

Fixpoint tenc_props (ps : list (string * tree)) (K R : list string)
  : list byte * (list string * list string) :=
  match ps with
  | [] => ([], (K, R))
  | p :: ps' =>
      let '(i, K0) := intern (fst p) K in
      let '(b1, (K1, R1)) := tenc (snd p) K0 R in
      let '(b2, KR2) := tenc_props ps' K1 R1 in
      (varint (Z.of_nat i) ++ b1 ++ b2, KR2)
  end.

(** The encoder holds the tables [K] and [R]. *)
Definition holds (e : Encoder.t) (K R : list string) : Prop :=
  Encoder.string_keys e = keymap 0 K /\
  Encoder.string_refs e = keymap 1 R.

(** A decoder with the NOCYCLE hint: it has registered nothing. *)
Definition norefs (s : Decoder.t) : Prop :=
  Decoder.hasCycle s = false /\ Decoder.object_refs s = ∅.

(** The tables after a tree extend the tables before it, by no more
    strings than the tree weighs, and by strings without NUL. *)
Definition extends (w : nat) (K R : list string)
  (out : list byte * (list string * list string)) : Prop :=
  exists K2 R2,
    snd out = (K ++ K2, R ++ R2) /\
    (length K2 + length R2 <= w)%nat /\
    forallb nul_free K2 = true /\ forallb nul_free R2 = true.

(** The same, for the number of strings only. *)
Definition grows (w : nat) (K R : list string)
  (out : list byte * (list string * list string)) : Prop :=
  exists K2 R2,
    snd out = (K ++ K2, R ++ R2) /\ (length K2 + length R2 <= w)%nat.

(** A run of the encoder that writes [out]: the bytes are appended to
    the stream, the tables become those of [out], containers are
    registered among [l] only, and no reference is written. *)
Definition writes (m : SM Encoder.t unit) (e : Encoder.t) (l : list addr)
  (out : list byte * (list string * list string)) : Prop :=
  exists refs,
    m e = Ok (tt, Encoder.mk (Encoder.ds e ++ fst out) refs
                    (keymap 0 (fst (snd out))) (keymap 1 (snd (snd out)))
                    (Encoder.hasCycle e)) /\
    forall a, a ∉ l -> refs !! a = Encoder.object_refs e !! a.

(** A run of the decoder that reads the bytes [bs] as the tree [t]: it
    holds the tables [Kf] and [Rf] and no registration, consumes [bs]
    and nothing else, keeps the heap it was given, and returns a value
    that is [t] in the new heap, made of new containers, each met
    once. *)
Definition reads (Kf Rf : list string) (m : SM Decoder.world value)
  (bs : list byte) (t : tree) : Prop :=
  forall d dh rest,
    norefs d ->
    Decoder.string_keys d = table_of Kf ->
    Decoder.string_refs d = table_of Rf ->
    0 <= DataStream.position (Decoder.ds d) ->
    DataStream.remaining (Decoder.ds d) = bs ++ rest ->
    exists v dh' l,
      m (d, dh) =
        Ok (v, (Decoder.set_ds
                  (DataStream.advance (Decoder.ds d) (Z.of_nat (length bs))) d,
                dh')) /\
      unfold dh' v t l /\ NoDup l /\
      (forall a, a ∈ l -> (length dh <= a)%nat) /\
      take (length dh) dh' = dh.

(** What the decoder does with the bytes of a tree, whatever the
    tables they were written from, when it holds tables that extend
    those they were written to. *)
Definition decodes (t : tree) : Prop :=
  forall K R fuel Kf Rf,
    tree_ok t ->
    (length (fst (tenc t K R)) < fuel)%nat ->
    (exists Kx, Kf = fst (snd (tenc t K R)) ++ Kx) ->
    (exists Rx, Rf = snd (snd (tenc t K R)) ++ Rx) ->
    Z.of_nat (length Kf) < 2 ^ 31 -> Z.of_nat (length Rf) < 2 ^ 31 ->
    Z.of_nat (weight t) < 2 ^ 31 ->
    reads Kf Rf (Decoder.unserializeComponent fuel) (fst (tenc t K R)) (tnorm t).

(** A value without sharing: [{a: [5, null], b: "x"}], the object at
    address 0 and its array at 1. *)
Definition sample_heap : heap :=
  [ CObject [("a"%string, VRef 1%nat); ("b"%string, VString "x")];
    CArray [VNumber (F64.of_int 5); VNull] ].

Definition sample_tree : tree :=
  TObject [("a"%string, TArray [TNumber (F64.of_int 5); TNull]);
           ("b"%string, TString "x")].

(** ** The decoder without registration *)

Definition same_refs (s s' : Decoder.t) : Prop :=
  Decoder.hasCycle s' = Decoder.hasCycle s /\
  Decoder.object_refs s' = Decoder.object_refs s.

(** A step of the decoder that leaves the heap and the registrations
    as they are, and whose result satisfies [P]. *)
Definition yields {A : Type} (P : A -> Prop) (m : SM Decoder.world A) : Prop :=
  forall s h a s' h',
    m (s, h) = Ok (a, (s', h')) -> same_refs s s' /\ h' = h /\ P a.

Definition nonref (v : value) : Prop :=
  match v with VRef _ => False | _ => True end.



(** ** Other properties of the code *)

(** The tags [unserializeComponentPart] knows. *)
Definition known_tags : list Z :=
  [TAG_NUMBER; TAG_INT8; TAG_INT16; TAG_INT32; TAG_UINT8; TAG_UINT16;
   TAG_UINT32; TAG_STRING_REF; TAG_DATE; TAG_UINT8ARRAY; TAG_BOOLEAN_TRUE;
   TAG_BOOLEAN_FALSE; TAG_NULL; TAG_UNDEFINED; TAG_OBJECT; TAG_ARRAY;
   TAG_OBJECT_REF].

(** Two decoders on the third byte of the same payload, one in a buffer
    with a CRC field before it. *)
Definition sample_state (pre : list byte) : Decoder.t :=
  Decoder.mk (DataStream.mk (pre ++ [x30; x01; x00; x06])
                (Z.of_nat (length pre)))
    ∅ (table_of ["a"%string]) (table_of []) false (Z.of_nat (length pre)).

(** An encoder that has written the array of [shared_heap] at
    position 3 of its stream. *)
Definition sample_encoder : Encoder.t :=
  Encoder.mk [x30; x02; x00; x31; x00] {[ 1%nat := 3 ]} [("x"%string, 0)] []
    false.

(** A step of the decoder that never fails with the error [e]. *)
Definition never {A : Type} (e : error) (m : SM Decoder.world A) : Prop :=
  forall w, m w <> Throw e.

(** An object with an own property named ["__proto__"], as
    [JSON.parse('{"__proto__":5,"b":1}')] gives. *)
Definition proto_heap : heap :=
  [ CObject [("__proto__"%string, VNumber (F64.of_int 5));
             ("b"%string, VNumber (F64.of_int 1))] ].

Definition proto_tree : tree :=
  TObject [("__proto__"%string, TNumber (F64.of_int 5));
           ("b"%string, TNumber (F64.of_int 1))].

(** ** The encoder and its registrations *)

(** A step of the encoder that leaves the cycle flag and the
    registrations as they are. *)
Definition eframe (e e' : Encoder.t) : Prop :=
  Encoder.hasCycle e' = Encoder.hasCycle e /\
  Encoder.object_refs e' = Encoder.object_refs e.

Definition ekeeps {A : Type} (m : SM Encoder.t A) : Prop :=
  forall e a e', m e = Ok (a, e') -> eframe e e'.

(** A run of the encoder over containers none of which is registered:
    when it returns, no reference has been written, and the containers
    registered are among [l]. *)
Definition registers (m : SM Encoder.t unit) (l : list addr) : Prop :=
  forall e e',
    (forall a, a ∈ l -> Encoder.object_refs e !! a = None) ->
    m e = Ok (tt, e') ->
    Encoder.hasCycle e' = Encoder.hasCycle e /\
    forall a, a ∉ l -> Encoder.object_refs e' !! a = Encoder.object_refs e !! a.

(** The ladder of number tags as [Serializer.prototype.serializeNumber]
    of the first version walks it: on the absolute value, with strict
    bounds, and signed tags only. *)
Definition legacy_ladder (n : option Z) : Z :=
  match n with
  | Some z =>
      if Z.abs z <? 2 ^ 31 then
        if Z.abs z <? 2 ^ 7 - 1 then TAG_INT8
        else if Z.abs z <? 2 ^ 15 - 1 then TAG_INT16
        else TAG_INT32
      else TAG_NUMBER
  | None => TAG_NUMBER
  end.

(** The signed and the unsigned integer tags. *)
Definition signed_tag (tag : Z) : bool :=
  (tag =? TAG_INT8) || (tag =? TAG_INT16) || (tag =? TAG_INT32).

Definition unsigned_tag (tag : Z) : bool :=
  (tag =? TAG_UINT8) || (tag =? TAG_UINT16) || (tag =? TAG_UINT32).

(** ** The registration of containers *)

(** The tag of a container. *)
Definition container_tag (c : container) : Z :=
  match c with
  | CObject _ => TAG_OBJECT
  | CArray _ => TAG_ARRAY
  end.

(** The state in which the encoder starts on the body of the container
    [c] of address [a]: [a] is registered at the position where the
    stream stood, and the tag is written there. *)
Definition entered (a : addr) (c : container) (e : Encoder.t) : Encoder.t :=
  Encoder.mk (Encoder.ds e ++ [byte_of_Z (container_tag c)])
    (<[a := Z.of_nat (length (Encoder.ds e))]> (Encoder.object_refs e))
    (Encoder.string_keys e) (Encoder.string_refs e) (Encoder.hasCycle e).

(** The body of a container as the encoder writes it: the count, then
    the properties or the elements. *)
Definition write_body (fuel : nat) (h : heap) (c : container)
  : SM Encoder.t unit :=
  match c with
  | CObject props =>
      Encoder.serializeCount (Z.of_nat (length props)) ;;;
      Encoder.serializeProperties (Encoder.serializeComponent fuel h) props
  | CArray elems =>
      Encoder.serializeCount (Z.of_nat (length elems)) ;;;
      Encoder.serializeElements (Encoder.serializeComponent fuel h) elems
  end.

(** The state in which the decoder starts on the body of a container
    whose tag stood at the cursor: the new container [c], empty, is the
    last of the heap and is registered at the position of the tag; the
    cursor is past the tag. *)
Definition opened (c : container) (d : Decoder.t) (dh : heap)
  : Decoder.world :=
  (Decoder.mk (DataStream.advance (Decoder.ds d) 1)
     (<[DataStream.position (Decoder.ds d) := length dh]>
        (Decoder.object_refs d))
     (Decoder.string_keys d) (Decoder.string_refs d) (Decoder.hasCycle d)
     (Decoder.offset d),
   dh ++ [c]).

(** The body of an object and of an array as the decoder reads it into
    the container of address [a]. *)
Definition read_object_body (fuel : nat) (a : addr) : SM Decoder.world value :=
  size <- Decoder.unserializeCount ;;
  s <- Decoder.this ;;
  Decoder.unserializeProperties (Decoder.unserializeComponent fuel) fuel a
    size (Decoder.msize (Decoder.string_keys s)) ;;;
  ret (VRef a).

Definition read_array_body (fuel : nat) (a : addr) : SM Decoder.world value :=
  size <- Decoder.unserializeCount ;;
  Decoder.unserializeElements (Decoder.unserializeComponent fuel) fuel a
    0 size ;;;
  ret (VRef a).

(** The payload of scenario S4: what follows the 30 bytes of the header
    and of the tables in [cyclic_bytes]. *)
Definition cyclic_payload : list byte := drop 30 cyclic_bytes.

(** ** Payloads in which a reference is met *)




(** A run of the encoder seen from its registrations: the cycle flag
    is never cleared, a registered container stays registered, and a
    run that ends with the flag clear has walked containers [l] that
    satisfy [T], each once, none of which was registered before and all
    of which are registered after. *)
Definition tracks (m : SM Encoder.t unit) (T : list addr -> Prop) : Prop :=
  forall e e',
    m e = Ok (tt, e') ->
    (Encoder.hasCycle e = true -> Encoder.hasCycle e' = true) /\
    (forall a, is_Some (Encoder.object_refs e !! a) ->
               is_Some (Encoder.object_refs e' !! a)) /\
    (Encoder.hasCycle e' = false ->
     exists l, T l /\ NoDup l /\
       forall a, a ∈ l ->
         Encoder.object_refs e !! a = None /\
         is_Some (Encoder.object_refs e' !! a)).

(** ** The bytes the decoder consumes *)

(** The position of the decoder and the number of bytes it has left. *)
Definition wpos (w : Decoder.world) : Z :=
  DataStream.position (Decoder.ds (fst w)).

Definition wrem (w : Decoder.world) : nat :=
  length (DataStream.remaining (Decoder.ds (fst w))).

(** A reader of the stream that ends, and takes [n] bytes at least when
    it returns. *)
Definition sreads {A : Type} (n : nat)
  (f : DataStream.t -> outcome (A * DataStream.t)) : Prop :=
  forall ds,
    f ds <> Stuck /\
    forall a ds',
      f ds = Ok (a, ds') -> 0 <= DataStream.position ds ->
      0 <= DataStream.position ds' /\
      (length (DataStream.remaining ds') + n
       <= length (DataStream.remaining ds))%nat.

(** A step of the decoder that ends when fewer than [F] bytes are
    left, and takes [n] bytes at least when it returns. *)
Definition runs {A : Type} (F n : nat) (m : SM Decoder.world A) : Prop :=
  forall w,
    0 <= wpos w -> (wrem w < F)%nat ->
    m w <> Stuck /\
    forall a w',
      m w = Ok (a, w') ->
      0 <= wpos w' /\ (wrem w' + n <= wrem w)%nat.

(** ** Heaps without dangling references *)

(** A value that is a reference stands for a container of the heap. *)
Definition vclosed (h : heap) (v : value) : Prop :=
  match v with
  | VRef a => (a < length h)%nat
  | _ => True
  end.

Definition cclosed (h : heap) (c : container) : Prop :=
  match c with
  | CObject props => Forall (fun p => vclosed h (snd p)) props
  | CArray elems => Forall (vclosed h) elems
  end.

Definition closed (h : heap) : Prop := Forall (cclosed h) h.

(** The number of containers of the heap that the encoder has not
    registered. *)
Definition unregistered (h : heap) (e : Encoder.t) : nat :=
  length (List.filter
            (fun a => match Encoder.object_refs e !! a with
                      | None => true
                      | Some _ => false
                      end)
            (seq 0 (length h))).

(** A step of the encoder that ends. *)
Definition elive {A : Type} (m : SM Encoder.t A) : Prop :=
  forall e, m e <> Stuck.
(** * Properties *)

(** ** Bytes and big-endian words *)

Lemma byte_to_Z_range (b : byte) : 0 <= byte_to_Z b < 256.
Proof.
  unfold byte_to_Z. pose proof (Byte.to_N_bounded b). lia.
Qed.

Lemma byte_of_to_Z (b : byte) : byte_of_Z (byte_to_Z b) = b.
Proof.
  unfold byte_of_Z. rewrite Z.mod_small by apply byte_to_Z_range.
  unfold byte_to_Z. rewrite N2Z.id, Byte.of_to_N. reflexivity.
Qed.

Lemma byte_to_of_Z (z : Z) : byte_to_Z (byte_of_Z z) = z mod 256.
Proof.
  unfold byte_of_Z, byte_to_Z.
  assert (Hr : 0 <= z mod 256 < 256) by (apply Z.mod_pos_bound; lia).
  destruct (Byte.of_N (Z.to_N (z mod 256))) as [b|] eqn:E.
  - apply Byte.to_of_N in E. rewrite E, Z2N.id; lia.
  - apply Byte.of_N_None_iff in E. lia.
Qed.

Lemma byte_to_Z_inj (a b : byte) : byte_to_Z a = byte_to_Z b -> a = b.
Proof.
  intros H. rewrite <- (byte_of_to_Z a), <- (byte_of_to_Z b), H. reflexivity.
Qed.

(** ** The 32-bit operators *)

Lemma ToInt32_mod (a : Z) : JS.ToInt32 a mod 2 ^ 32 = a mod 2 ^ 32.
Proof.
  unfold JS.ToInt32. rewrite Zminus_mod_idemp_l. f_equal. lia.
Qed.

Lemma ToInt32_cong (a b : Z) :
  a mod 2 ^ 32 = b mod 2 ^ 32 -> JS.ToInt32 a = JS.ToInt32 b.
Proof.
  intros H. unfold JS.ToInt32.
  rewrite <- (Zplus_mod_idemp_l a), <- (Zplus_mod_idemp_l b), H. reflexivity.
Qed.

Lemma ToInt32_small (a : Z) : - 2 ^ 31 <= a < 2 ^ 31 -> JS.ToInt32 a = a.
Proof.
  intros H. unfold JS.ToInt32. rewrite Z.mod_small; lia.
Qed.

Lemma ToInt32_range (a : Z) : - 2 ^ 31 <= JS.ToInt32 a < 2 ^ 31.
Proof.
  unfold JS.ToInt32.
  pose proof (Z.mod_pos_bound (a + 2 ^ 31) (2 ^ 32)). lia.
Qed.

Lemma lor_mod (a b n : Z) :
  0 <= n -> Z.lor a b mod 2 ^ n = Z.lor (a mod 2 ^ n) (b mod 2 ^ n).
Proof.
  intros Hn. rewrite <- !Z.land_ones by assumption.
  apply Z.land_lor_distr_l.
Qed.

Lemma lxor_mod (a b n : Z) :
  0 <= n -> Z.lxor a b mod 2 ^ n = Z.lxor (a mod 2 ^ n) (b mod 2 ^ n).
Proof.
  intros Hn. rewrite <- !Z.land_ones by assumption.
  apply Z.bits_inj'. intros k Hk. rewrite !Z.lxor_spec, !Z.land_spec, Z.lxor_spec.
  destruct (Z.testbit a k), (Z.testbit b k), (Z.testbit (Z.ones n) k);
    reflexivity.
Qed.

Lemma land_mod (a b n : Z) :
  0 <= n -> Z.land a b mod 2 ^ n = Z.land (a mod 2 ^ n) (b mod 2 ^ n).
Proof.
  intros Hn. rewrite <- !Z.land_ones by assumption.
  apply Z.bits_inj'. intros k Hk. rewrite !Z.land_spec.
  destruct (Z.testbit a k), (Z.testbit b k), (Z.testbit (Z.ones n) k);
    reflexivity.
Qed.

Lemma ToInt32_lor_l (a b : Z) :
  JS.ToInt32 (Z.lor (JS.ToInt32 a) b) = JS.ToInt32 (Z.lor a b).
Proof.
  apply ToInt32_cong. rewrite !(lor_mod _ _ 32), ToInt32_mod; lia.
Qed.

Lemma ToInt32_lor_r (a b : Z) :
  JS.ToInt32 (Z.lor a (JS.ToInt32 b)) = JS.ToInt32 (Z.lor a b).
Proof.
  apply ToInt32_cong. rewrite !(lor_mod _ _ 32), ToInt32_mod; lia.
Qed.

Lemma land_low_bits (v n : Z) :
  0 <= v -> 0 <= n -> 0 <= Z.land v (Z.ones n) < 2 ^ n.
Proof.
  intros Hv Hn. rewrite Z.land_ones by assumption.
  apply Z.mod_pos_bound. apply Z.pow_pos_nonneg; lia.
Qed.

Lemma split_low_bits (v n : Z) :
  0 <= n -> Z.lor (Z.land v (Z.ones n)) (Z.shiftl (Z.shiftr v n) n) = v.
Proof.
  intros Hn. apply Z.bits_inj'. intros k Hk.
  rewrite Z.lor_spec, Z.land_spec, Z.shiftl_spec by assumption.
  destruct (Z.ltb_spec k n) as [Hlt|Hge].
  - rewrite Z.ones_spec_low by lia.
    rewrite (Z.testbit_neg_r _ (k - n)) by lia.
    rewrite andb_true_r, orb_false_r. reflexivity.
  - rewrite Z.ones_spec_high by lia.
    rewrite Z.shiftr_spec by lia. rewrite andb_false_r. simpl.
    f_equal. lia.
Qed.

(** ** The count codec *)

Lemma serializeCount_loop_app (fuel : nat) (v : Z) (ds : DataStream.w) :
  serializeCount_loop fuel v ds = ds ++ serializeCount_loop fuel v [].
Proof.
  revert v ds. induction fuel as [|fuel IH]; intros v ds; simpl.
  - reflexivity.
  - destruct (128 <=? v).
    + rewrite IH. rewrite (IH _ (DataStream.writeUint8 _ [])).
      unfold DataStream.writeUint8, DataStream.writeUint. simpl.
      rewrite <- app_assoc. reflexivity.
    + reflexivity.
Qed.

Lemma Z_to_be_1 (x : Z) : Z_to_be 1 x = [byte_of_Z x].
Proof.
  cbn [Z_to_be]. replace (8 * Z.of_nat 0) with 0 by lia.
  rewrite Z.shiftr_0_r. reflexivity.
Qed.

Lemma serializeCount_loop_more (fuel : nat) (v : Z) :
  128 <= v ->
  serializeCount_loop (S fuel) v [] =
  byte_of_Z (JS.bor (JS.band v 127) 128)
    :: serializeCount_loop fuel (JS.ushr v 7) [].
Proof.
  intros H. cbn [serializeCount_loop].
  destruct (Z.leb_spec 128 v); [|lia].
  rewrite serializeCount_loop_app.
  unfold DataStream.writeUint8, DataStream.writeUint.
  rewrite Z_to_be_1. reflexivity.
Qed.

Lemma serializeCount_loop_last (fuel : nat) (v : Z) :
  v < 128 -> serializeCount_loop (S fuel) v [] = [byte_of_Z v].
Proof.
  intros H. cbn [serializeCount_loop].
  destruct (Z.leb_spec 128 v); [lia|].
  unfold DataStream.writeUint8, DataStream.writeUint.
  rewrite Z_to_be_1. reflexivity.
Qed.

(** Reading back what the writer loop wrote for [v], from a reader that
    has read [c] bytes and holds [acc]: the bits of [v] land at [7 * c]. *)
Lemma unserializeCount_loop_serializeCount_loop (fuel : nat) :
  forall (v c acc : Z) (rest : list byte),
    0 <= c -> c + Z.of_nat fuel <= 5 ->
    0 <= v < 2 ^ (7 * Z.of_nat fuel) -> v < 2 ^ 32 ->
    unserializeCount_loop (serializeCount_loop fuel v [] ++ rest) c acc =
    Ok (JS.ToInt32 (Z.lor acc (Z.shiftl v (7 * c))),
        c + Z.of_nat (length (serializeCount_loop fuel v []))).
Proof.
  induction fuel as [|fuel IH]; intros v c acc rest Hc Hcf Hv Hv32.
  - assert (v = 0) by (simpl in Hv; lia). subst v. simpl.
    unfold JS.bor, JS.shl, JS.band. simpl.
    rewrite !Z.shiftl_0_l. rewrite ToInt32_lor_r. reflexivity.
  - assert (H7 : (7 * c) mod 32 = 7 * c) by (apply Z.mod_small; lia).
    destruct (Z.leb_spec 128 v) as [Hbig|Hsmall].
    + rewrite serializeCount_loop_more by assumption.
      cbn [app unserializeCount_loop].
      assert (Hlow : 0 <= Z.land v 127 < 128)
        by (apply (land_low_bits v 7); lia).
      assert (Hdisj : Z.land (Z.land v 127) 128 = 0).
      { rewrite <- Z.land_assoc. cbn [Z.land Pos.land]. apply Z.land_0_r. }
      assert (Hadd : Z.lor (Z.land v 127) 128 = Z.land v 127 + 128).
      { rewrite <- (Z.lxor_lor _ _ Hdisj). symmetry.
        apply Z.add_nocarry_lxor. exact Hdisj. }
      assert (Hb : JS.bor (JS.band v 127) 128 = Z.lor (Z.land v 127) 128).
      { unfold JS.bor, JS.band. rewrite ToInt32_lor_l.
        apply ToInt32_small. lia. }
      rewrite Hb.
      rewrite byte_to_of_Z, (Z.mod_small _ 256) by lia.
      assert (Hcont : JS.band (Z.lor (Z.land v 127) 128) 128 = 128).
      { unfold JS.band. rewrite Z.land_lor_distr_l, Hdisj. reflexivity. }
      rewrite Hcont. cbn [Z.eqb negb].
      assert (Hsh : JS.ushr v 7 = Z.shiftr v 7).
      { unfold JS.ushr, JS.ToUint32. rewrite Z.mod_small; [reflexivity|].
        lia. }
      rewrite Hsh.
      assert (Hq : 0 <= Z.shiftr v 7 < 2 ^ (7 * Z.of_nat fuel)).
      { rewrite Z.shiftr_div_pow2 by lia. split.
        - apply Z.div_pos; lia.
        - apply Z.div_lt_upper_bound; [lia|].
          rewrite <- Z.pow_add_r by lia.
          replace (7 + 7 * Z.of_nat fuel) with (7 * Z.of_nat (S fuel)) by lia.
          lia. }
      assert (Hq32 : Z.shiftr v 7 < 2 ^ 32).
      { rewrite Z.shiftr_div_pow2 by lia.
        apply Z.div_lt_upper_bound; lia. }
      rewrite IH by lia.
      f_equal. f_equal.
      * unfold JS.bor, JS.shl, JS.band. rewrite H7.
        rewrite ToInt32_lor_l.
        replace (Z.land (Z.lor (Z.land v 127) 128) 127) with (Z.land v 127).
        2:{ rewrite Z.land_lor_distr_l, <- Z.land_assoc. simpl.
            rewrite Z.lor_0_r. reflexivity. }
        rewrite (ToInt32_small (Z.land v 127)) by lia.
        apply ToInt32_cong. rewrite !(lor_mod _ _ 32) by lia.
        rewrite ToInt32_mod. rewrite <- !(lor_mod _ _ 32) by lia.
        f_equal. rewrite <- Z.lor_assoc. f_equal.
        replace (7 * (c + 1)) with (7 + 7 * c) by lia.
        rewrite <- Z.shiftl_shiftl by lia.
        rewrite <- Z.shiftl_lor.
        change 127 with (Z.ones 7). rewrite split_low_bits by lia.
        reflexivity.
      * cbn [length]. lia.
    + rewrite serializeCount_loop_last by assumption.
      cbn [app unserializeCount_loop length].
      rewrite byte_to_of_Z, (Z.mod_small _ 256) by lia.
      assert (Hlast : JS.band v 128 = 0).
      { unfold JS.band. replace (Z.land v 128) with 0; [reflexivity|].
        symmetry. apply Z.bits_inj'. intros k Hk.
        rewrite Z.land_spec, Z.bits_0.
        destruct (Z.eq_dec k 7) as [->|Hk7].
        - replace (Z.testbit v 7) with false; [reflexivity|].
          symmetry. apply Z.bits_above_log2; [lia|].
          destruct (Z.eq_dec v 0) as [->|Hv0]; [simpl; lia|].
          apply Z.log2_lt_pow2; lia.
        - replace (Z.testbit 128 k) with false; [apply andb_false_r|].
          symmetry. change 128 with (2 ^ 7). apply Z.pow2_bits_false. lia. }
      rewrite Hlast. cbn [Z.eqb negb].
      change (Z.of_nat 1) with 1. f_equal. f_equal.
      unfold JS.bor, JS.shl, JS.band. rewrite H7.
      replace (Z.land v 127) with v.
      2:{ change 127 with (Z.ones 7). rewrite Z.land_ones by lia.
          rewrite Z.mod_small; lia. }
      rewrite (ToInt32_small v) by lia.
      apply ToInt32_lor_r.
Qed.

(** The guard of [decode] lets an [ArrayBuffer] through. *)
Lemma decode_Buffer (bytes : list byte) :
  decode (Buffer bytes) =
  match Decoder.decode (Decoder.new bytes, []) with
  | Ok (v, (_, h)) => Ok (v, h)
  | Throw e => Throw e
  | Stuck => Stuck
  end.
Proof. reflexivity. Qed.

Lemma classic_nonref (v : value) :
  match v with VRef _ => False | _ => True end \/ exists a, v = VRef a.
Proof. destruct v; try (left; exact I). right. eexists. reflexivity. Qed.

Lemma serializeCount_ok (c : Z) (ds : DataStream.w) :
  0 <= c < 2 ^ 32 -> serializeCount c ds = Ok (ds ++ varint c).
Proof.
  intros H. unfold serializeCount, JS.ushr, JS.ToUint32.
  rewrite Z.mod_small by lia. cbn [Z.modulo]. rewrite Z.shiftr_0_r.
  rewrite Z.eqb_refl. cbn [negb].
  rewrite serializeCount_loop_app. reflexivity.
Qed.

Lemma serializeCount_throws (c : Z) (ds : DataStream.w) :
  ~ 0 <= c < 2 ^ 32 -> serializeCount c ds = Throw InvalidCount.
Proof.
  intros H. unfold serializeCount, JS.ushr, JS.ToUint32.
  change (0 mod 32) with 0. rewrite Z.shiftr_0_r.
  destruct (Z.eqb_spec (c mod 2 ^ 32) c) as [E|E]; [|reflexivity].
  pose proof (Z.mod_pos_bound c (2 ^ 32)). lia.
Qed.

Lemma varint_nonempty (c : Z) : (1 <= length (varint c))%nat.
Proof.
  unfold varint. destruct (Z.leb_spec 128 c).
  - rewrite serializeCount_loop_more by assumption. cbn [length]. lia.
  - rewrite serializeCount_loop_last by assumption. cbn [length]. lia.
Qed.

(** The reader returns the count the writer was given, as a signed
    32-bit integer. *)
Lemma unserializeCount_loop_varint (c : Z) (rest : list byte) :
  0 <= c < 2 ^ 32 ->
  unserializeCount_loop (varint c ++ rest) 0 0 =
  Ok (JS.ToInt32 c, Z.of_nat (length (varint c))).
Proof.
  intros H. unfold varint.
  rewrite unserializeCount_loop_serializeCount_loop; try lia.
  rewrite Z.shiftl_0_r, Z.lor_0_l. reflexivity.
Qed.

Lemma unserializeCount_varint (c : Z) (ds : DataStream.t) (rest : list byte) :
  0 <= c < 2 ^ 32 ->
  DataStream.remaining ds = varint c ++ rest ->
  unserializeCount ds =
  Ok (JS.ToInt32 c, DataStream.advance ds (Z.of_nat (length (varint c)))).
Proof.
  intros H Hr. unfold unserializeCount.
  rewrite Hr, unserializeCount_loop_varint by assumption. reflexivity.
Qed.

(** C5.  The count writer accepts every unsigned 32-bit integer, but the
    reader accumulates with [|=], which yields a signed 32-bit integer:
    a count of [2 ^ 31] or more is read back lowered by [2 ^ 32], and so
    is not the count that was written. *)
Theorem count_roundtrip_wraps_from_2_31 (c : Z) (rest : list byte) :
  2 ^ 31 <= c < 2 ^ 32 ->
  exists bytes,
    serializeCount c [] = Ok bytes /\
    unserializeCount (DataStream.mk (bytes ++ rest) 0) =
      Ok (c - 2 ^ 32, DataStream.mk (bytes ++ rest) (Z.of_nat (length bytes))) /\
    c - 2 ^ 32 <> c.
Proof.
  intros H. exists (varint c). split; [|split].
  - rewrite serializeCount_ok by lia. reflexivity.
  - rewrite (unserializeCount_varint c _ rest) by (reflexivity || lia).
    unfold DataStream.advance. cbn [DataStream.buffer DataStream.position].
    f_equal. f_equal.
    unfold JS.ToInt32.
    replace (c + 2 ^ 31) with (c - 2 ^ 31 + 1 * 2 ^ 32) by lia.
    rewrite Z.mod_add by lia. rewrite Z.mod_small; lia.
  - lia.
Qed.

Lemma count_roundtrip_wraps_from_2_31_witness :
  exists bytes,
    serializeCount 2147483648 [] = Ok bytes /\
    unserializeCount (DataStream.mk (bytes ++ []) 0) =
      Ok (2147483648 - 2 ^ 32,
          DataStream.mk (bytes ++ []) (Z.of_nat (length bytes))) /\
    2147483648 - 2 ^ 32 <> 2147483648.
Proof.
  apply (count_roundtrip_wraps_from_2_31 2147483648 []). lia.
Defined.

(** Below [2 ^ 31] the count is read back as written. *)
Lemma unserializeCount_varint_small (c : Z) (ds : DataStream.t) (rest : list byte) :
  0 <= c < 2 ^ 31 ->
  DataStream.remaining ds = varint c ++ rest ->
  unserializeCount ds =
  Ok (c, DataStream.advance ds (Z.of_nat (length (varint c)))).
Proof.
  intros H Hr. rewrite (unserializeCount_varint c ds rest) by (assumption || lia).
  rewrite ToInt32_small by lia. reflexivity.
Qed.

(** The reader loop on any stream: it stops at the first byte whose
    continuation flag is clear, however far that byte is. *)
Lemma continues_band (b : byte) :
  negb (JS.band (byte_to_Z b) 128 =? 0) = continues b.
Proof.
  destruct b; vm_compute; reflexivity.
Qed.

Lemma shiftl_ToInt32_mod (a n : Z) :
  0 <= n ->
  Z.shiftl (JS.ToInt32 a) n mod 2 ^ 32 = Z.shiftl a n mod 2 ^ 32.
Proof.
  intros Hn. rewrite !Z.shiftl_mul_pow2 by assumption.
  rewrite <- Zmult_mod_idemp_l, ToInt32_mod, Zmult_mod_idemp_l.
  reflexivity.
Qed.

Lemma bor_shl_band_mod (acc b c : Z) :
  JS.bor acc (JS.shl (JS.band b 127) (7 * c)) mod 2 ^ 32 =
  Z.lor acc (Z.shiftl (Z.land b 127) ((7 * c) mod 32)) mod 2 ^ 32.
Proof.
  unfold JS.bor, JS.shl, JS.band.
  rewrite ToInt32_mod, !(lor_mod _ _ 32), ToInt32_mod by lia.
  rewrite shiftl_ToInt32_mod by (apply Z.mod_pos_bound; lia).
  reflexivity.
Qed.

Lemma unserializeCount_loop_any (pre : list byte) :
  forall (last : byte) (rest : list byte) (c acc : Z),
    forallb continues pre = true -> continues last = false ->
    unserializeCount_loop (pre ++ last :: rest) c acc =
    Ok (JS.ToInt32 (Z.lor acc (count_bits (pre ++ [last]) c)),
        c + Z.of_nat (length pre) + 1).
Proof.
  induction pre as [|b pre IH]; intros last rest c acc Hpre Hlast.
  - cbn [app unserializeCount_loop count_bits length].
    rewrite continues_band, Hlast. cbn [negb].
    rewrite Z.lor_0_r. f_equal. f_equal; [|cbn [Z.of_nat]; lia].
    rewrite <- (ToInt32_small (JS.bor _ _)) by apply ToInt32_range.
    apply ToInt32_cong. apply bor_shl_band_mod.
  - cbn [forallb] in Hpre. apply andb_prop in Hpre as [Hb Hpre].
    cbn [app unserializeCount_loop count_bits length].
    rewrite continues_band, Hb. cbn [negb].
    rewrite IH by assumption.
    f_equal. f_equal; [|lia].
    apply ToInt32_cong.
    rewrite (lor_mod _ _ 32), bor_shl_band_mod, <- (lor_mod _ _ 32) by lia.
    rewrite Z.lor_assoc. reflexivity.
Qed.

Lemma unserializeCount_loop_truncated (pre : list byte) :
  forall (c acc : Z),
    forallb continues pre = true ->
    unserializeCount_loop pre c acc = Throw Truncated.
Proof.
  induction pre as [|b pre IH]; intros c acc Hpre.
  - reflexivity.
  - cbn [forallb] in Hpre. apply andb_prop in Hpre as [Hb Hpre].
    cbn [unserializeCount_loop]. rewrite continues_band, Hb. cbn [negb].
    apply IH. assumption.
Qed.

(** C7 (counterexample).  Five bytes with the continuation flag set and
    a sixth without: the reader does not fail, it reads the six bytes
    and returns a count. *)
Lemma count_reader_has_no_five_byte_limit :
  unserializeCount (DataStream.mk [x80; x80; x80; x80; x80; x01] 0) =
  Ok (8, DataStream.mk [x80; x80; x80; x80; x80; x01] 6).
Proof. reflexivity. Qed.

(** C7 (amended).  The reader consumes bytes while the continuation flag
    is set, whatever their number: it stops after the first byte whose
    flag is clear and fails, with [Truncated], only when the stream ends
    before such a byte.  Each byte gives its low seven bits, the byte of
    index [i] at bit [7 * i] modulo 32, and the result is a signed 32-bit
    integer. *)
Theorem count_reader_reads_until_flag_clear
  (pre : list byte) (last : byte) (rest : list byte) :
  forallb continues pre = true -> continues last = false ->
  unserializeCount (DataStream.mk (pre ++ last :: rest) 0) =
    Ok (JS.ToInt32 (count_bits (pre ++ [last]) 0),
        DataStream.mk (pre ++ last :: rest) (Z.of_nat (length pre) + 1))
  /\ unserializeCount (DataStream.mk pre 0) = Throw Truncated.
Proof.
  intros Hpre Hlast. split.
  - unfold unserializeCount, DataStream.remaining.
    cbn [DataStream.position DataStream.buffer Z.to_nat].
    rewrite drop_0.
    rewrite unserializeCount_loop_any by assumption.
    rewrite Z.lor_0_l. reflexivity.
  - unfold unserializeCount, DataStream.remaining.
    cbn [DataStream.position DataStream.buffer Z.to_nat].
    rewrite drop_0.
    rewrite unserializeCount_loop_truncated by assumption. reflexivity.
Qed.

Lemma count_reader_reads_until_flag_clear_witness :
  unserializeCount
    (DataStream.mk ([x80; x80; x80; x80; x80] ++ x01 :: [x05]) 0) =
    Ok (JS.ToInt32 (count_bits ([x80; x80; x80; x80; x80] ++ [x01]) 0),
        DataStream.mk ([x80; x80; x80; x80; x80] ++ x01 :: [x05])
          (Z.of_nat (length [x80; x80; x80; x80; x80]) + 1))
  /\ unserializeCount (DataStream.mk [x80; x80; x80; x80; x80] 0) =
     Throw Truncated.
Proof.
  apply (count_reader_reads_until_flag_clear
           [x80; x80; x80; x80; x80] x01 [x05]); reflexivity.
Defined.

(** ** Number tags *)

Lemma F64_trunc_to_int (x : F64.t) (z : Z) :
  F64.to_int x = Some z -> F64.trunc x = z.
Proof.
  unfold F64.to_int, F64.trunc. destruct (F64.view_of x) as [| |m e]; try discriminate.
  destruct (0 <=? e); [congruence|].
  destruct (Z.rem m (2 ^ (- e)) =? 0); congruence.
Qed.

Lemma F64_eq_int_to_int (x : F64.t) (z k : Z) :
  F64.to_int x = Some z -> F64.eq_int x k = (z =? k).
Proof. intros H. unfold F64.eq_int. rewrite H. reflexivity. Qed.

Lemma F64_eq_int_none (x : F64.t) (k : Z) :
  F64.to_int x = None -> F64.eq_int x k = false.
Proof. intros H. unfold F64.eq_int. rewrite H. reflexivity. Qed.

Lemma F64_int_le_to_int (x : F64.t) (z k : Z) :
  F64.to_int x = Some z -> F64.int_le k x = (k <=? z).
Proof.
  unfold F64.to_int, F64.int_le.
  destruct (F64.view_of x) as [| |m e]; try discriminate.
  destruct (Z.leb_spec 0 e) as [He|He]; [congruence|].
  destruct (Z.eqb_spec (Z.rem m (2 ^ (- e))) 0) as [Hr|Hr]; [|discriminate].
  intros [= <-].
  assert (Hd : 0 < 2 ^ (- e)) by (apply Z.pow_pos_nonneg; lia).
  pose proof (Z.quot_rem' m (2 ^ (- e))) as Hq. rewrite Hr in Hq.
  destruct (Z.leb_spec (k * 2 ^ (- e)) m), (Z.leb_spec k (Z.quot m (2 ^ (- e))));
    try reflexivity; nia.
Qed.

Lemma F64_le_int_to_int (x : F64.t) (z k : Z) :
  F64.to_int x = Some z -> F64.le_int x k = (z <=? k).
Proof.
  unfold F64.to_int, F64.le_int.
  destruct (F64.view_of x) as [| |m e]; try discriminate.
  destruct (Z.leb_spec 0 e) as [He|He]; [congruence|].
  destruct (Z.eqb_spec (Z.rem m (2 ^ (- e))) 0) as [Hr|Hr]; [|discriminate].
  intros [= <-].
  assert (Hd : 0 < 2 ^ (- e)) by (apply Z.pow_pos_nonneg; lia).
  pose proof (Z.quot_rem' m (2 ^ (- e))) as Hq. rewrite Hr in Hq.
  destruct (Z.leb_spec m (k * 2 ^ (- e))), (Z.leb_spec (Z.quot m (2 ^ (- e))) k);
    try reflexivity; nia.
Qed.

Lemma ushr_0 (z : Z) : JS.ushr z 0 = z mod 2 ^ 32.
Proof.
  unfold JS.ushr, JS.ToUint32. change (0 mod 32) with 0.
  apply Z.shiftr_0_r.
Qed.

Lemma band_ones (z n : Z) :
  0 <= n < 32 -> JS.band z (Z.ones n) = z mod 2 ^ n.
Proof.
  intros Hn. unfold JS.band. rewrite Z.land_ones by lia.
  apply ToInt32_small.
  pose proof (Z.mod_pos_bound z (2 ^ n)).
  assert (2 ^ n <= 2 ^ 31) by (apply Z.pow_le_mono_r; lia).
  assert (0 < 2 ^ n) by (apply Z.pow_pos_nonneg; lia). lia.
Qed.

Lemma bor_0 (z : Z) : JS.bor z 0 = JS.ToInt32 z.
Proof. unfold JS.bor. rewrite Z.lor_0_r. reflexivity. Qed.

(** The two ladders of [getNumberTag], on the integer the number is
    equal to. *)
Lemma getNumberTag_ladder (x : F64.t) :
  Encoder.getNumberTag x = tag_ladder (F64.to_int x).
Proof.
  unfold Encoder.getNumberTag, tag_ladder.
  destruct (F64.to_int x) as [z|] eqn:Hz.
  2:{ rewrite !F64_eq_int_none by assumption. reflexivity. }
  rewrite (F64_trunc_to_int x z Hz).
  rewrite !(F64_eq_int_to_int x z) by assumption.
  rewrite !(F64_int_le_to_int x z), !(F64_le_int_to_int x z) by assumption.
  rewrite ushr_0, bor_0.
  change 255 with (Z.ones 8). change 65535 with (Z.ones 16).
  rewrite !band_ones by lia.
  pose proof (Z.mod_pos_bound z (2 ^ 32) ltac:(lia)) as H32.
  pose proof (Z.mod_pos_bound z (2 ^ 8) ltac:(lia)) as H8.
  pose proof (Z.mod_pos_bound z (2 ^ 16) ltac:(lia)) as H16.
  pose proof (ToInt32_range z) as Hi.
  destruct (Z.leb_spec 0 z) as [H0|H0]; cbn [andb].
  - destruct (Z.ltb_spec z (2 ^ 32)) as [Hlt|Hge].
    + rewrite (Z.mod_small z (2 ^ 32)) by lia. rewrite Z.eqb_refl.
      destruct (Z.ltb_spec z (2 ^ 8)).
      * rewrite (Z.mod_small z (2 ^ 8)) by lia. rewrite Z.eqb_refl. reflexivity.
      * destruct (Z.eqb_spec z (z mod 2 ^ 8)); [lia|].
        destruct (Z.ltb_spec z (2 ^ 16)).
        -- rewrite (Z.mod_small z (2 ^ 16)) by lia. rewrite Z.eqb_refl. reflexivity.
        -- destruct (Z.eqb_spec z (z mod 2 ^ 16)); [lia|]. reflexivity.
    + destruct (Z.eqb_spec z (z mod 2 ^ 32)); [lia|].
      destruct (Z.eqb_spec z (JS.ToInt32 z)); [lia|].
      destruct (Z.ltb_spec z 0); [lia|].
      rewrite andb_false_r. reflexivity.
  - destruct (Z.eqb_spec z (z mod 2 ^ 32)); [lia|].
    destruct (Z.leb_spec (- 2 ^ 31) z) as [Hlo|Hlo]; cbn [andb].
    + rewrite ToInt32_small by lia. rewrite Z.eqb_refl.
      destruct (Z.ltb_spec z 0); [|lia].
      change (- 2 ^ 7) with (-128). change (- 2 ^ 15) with (-32768).
      destruct (Z.leb_spec (-128) z), (Z.leb_spec z 127); cbn [andb];
        try lia; try reflexivity.
      destruct (Z.leb_spec (-32768) z), (Z.leb_spec z 32767); cbn [andb];
        try lia; reflexivity.
    + destruct (Z.eqb_spec z (JS.ToInt32 z)); [lia|]. reflexivity.
Qed.

(** ** The entry check of [decode] *)

(** C8 (counterexample).  An empty byte buffer is a byte buffer: it
    passes the entry check, and the failure is that of the stream when
    the version byte is read. *)
Lemma decode_empty_buffer_is_not_invalid_data :
  decode (Buffer []) = Throw Truncated /\
  decode (Buffer []) <> Throw InvalidData.
Proof. split; [reflexivity|discriminate]. Qed.

(** ** The scenarios with shared containers *)

(** C3 (counterexample).  Scenario S5 has no cycle, yet the second
    occurrence of [b] is written by reference (tag [0x07], position 3),
    [hasCycle] is latched and the NOCYCLE bit of the output is clear. *)
Lemma shared_acyclic_value_clears_nocycle :
  encode shared_heap (VRef 0%nat) false = Ok shared_bytes /\
  nocycle_bit shared_bytes = false.
Proof. split; vm_compute; reflexivity. Qed.

(** ** The header and the tables *)

Ltac sm_unfold :=
  cbv beta iota delta
    [bind ret throw stuck get modify
     Encoder.write Encoder.serializeCount
     Decoder.read Decoder.this Decoder.update Decoder.on_heap
     Decoder.allocate Decoder.unserializeCount].

Lemma Encoder_serializeCount_ok (c : Z) (s : Encoder.t) :
  0 <= c < 2 ^ 32 ->
  Encoder.serializeCount c s =
  Ok (tt, Encoder.set_ds (Encoder.ds s ++ varint c) s).
Proof.
  intros H. unfold Encoder.serializeCount.
  rewrite serializeCount_ok by assumption. reflexivity.
Qed.

Lemma writeStrings_ok (strs : list string) (s : Encoder.t) :
  Encoder.writeStrings strs s =
  Ok (tt, Encoder.set_ds (Encoder.ds s ++ concat (map cstring strs)) s).
Proof.
  revert s. induction strs as [|k strs IH]; intros s.
  - cbn [Encoder.writeStrings map concat]. rewrite app_nil_r.
    destruct s; reflexivity.
  - cbn [Encoder.writeStrings map concat]. sm_unfold.
    rewrite IH. unfold DataStream.writeCString, cstring.
    destruct s; cbn [Encoder.set_ds Encoder.ds Encoder.object_refs
      Encoder.string_keys Encoder.string_refs Encoder.hasCycle].
    rewrite <- !app_assoc. reflexivity.
Qed.

Lemma serializeTOS_ok (hasCRC : bool) (e : Encoder.t) :
  JSMap.size (Encoder.string_keys e) < 2 ^ 32 ->
  JSMap.size (Encoder.string_refs e) < 2 ^ 32 ->
  Encoder.serializeTOS hasCRC e =
  Ok (tt, Encoder.set_ds (prefix hasCRC e ++ Encoder.ds e) e).
Proof.
  intros Hk Hr. unfold Encoder.serializeTOS, prefix, header, version_byte.
  assert (Hk0 : 0 <= JSMap.size (Encoder.string_keys e)) by (unfold JSMap.size; lia).
  assert (Hr0 : 0 <= JSMap.size (Encoder.string_refs e)) by (unfold JSMap.size; lia).
  destruct e as [d refs keys strs cyc].
  cbn [Encoder.ds Encoder.string_keys Encoder.string_refs Encoder.hasCycle] in *.
  destruct hasCRC; sm_unfold;
    cbn [Encoder.set_ds Encoder.ds Encoder.object_refs Encoder.string_keys
         Encoder.string_refs Encoder.hasCycle];
    rewrite !serializeCount_ok by (cbn [app length]; lia);
    rewrite !writeStrings_ok;
    cbn [Encoder.set_ds Encoder.ds Encoder.object_refs Encoder.string_keys
         Encoder.string_refs Encoder.hasCycle];
    rewrite !serializeCount_ok by lia;
    rewrite !writeStrings_ok;
    cbn [Encoder.set_ds Encoder.ds Encoder.object_refs Encoder.string_keys
         Encoder.string_refs Encoder.hasCycle];
    unfold DataStream.writeUint8, DataStream.writeUint32, DataStream.writeUint,
      table_bytes, JSMap.size, JSMap.keys;
    rewrite ?Z_to_be_1, !length_map; cbn [app];
    rewrite <- ?app_assoc; reflexivity.
Qed.

(** ** The readers of the stream *)

Lemma remaining_advance (ds : DataStream.t) (bs rest : list byte) :
  0 <= DataStream.position ds ->
  DataStream.remaining ds = bs ++ rest ->
  DataStream.remaining (DataStream.advance ds (Z.of_nat (length bs))) = rest.
Proof.
  intros Hp Hr. unfold DataStream.remaining, DataStream.advance in *.
  cbn [DataStream.position DataStream.buffer].
  rewrite Z2Nat.inj_add, Nat2Z.id by lia.
  rewrite <- drop_drop, Hr. apply drop_app_length.
Qed.

Lemma advance_position (ds : DataStream.t) (n : Z) :
  DataStream.position (DataStream.advance ds n) = DataStream.position ds + n.
Proof. reflexivity. Qed.

Lemma advance_buffer (ds : DataStream.t) (n : Z) :
  DataStream.buffer (DataStream.advance ds n) = DataStream.buffer ds.
Proof. reflexivity. Qed.

Lemma advance_advance (ds : DataStream.t) (n m : Z) :
  DataStream.advance (DataStream.advance ds n) m = DataStream.advance ds (n + m).
Proof.
  unfold DataStream.advance. cbn [DataStream.position DataStream.buffer].
  f_equal. lia.
Qed.

Lemma readBytes_ok (ds : DataStream.t) (bs rest : list byte) :
  DataStream.remaining ds = bs ++ rest ->
  DataStream.readBytes (length bs) ds =
  Ok (bs, DataStream.advance ds (Z.of_nat (length bs))).
Proof.
  intros Hr. unfold DataStream.readBytes. rewrite Hr.
  rewrite length_app.
  destruct (Nat.leb_spec (length bs) (length bs + length rest)); [|lia].
  rewrite take_app_length. reflexivity.
Qed.

Lemma be_to_Z_fold (n : nat) (z acc : Z) :
  fold_left (fun a b => a * 256 + byte_to_Z b) (Z_to_be n z) acc =
  acc * 2 ^ (8 * Z.of_nat n) + z mod 2 ^ (8 * Z.of_nat n).
Proof.
  revert acc. induction n as [|n IH]; intros acc.
  - cbn [Z_to_be fold_left]. change (8 * Z.of_nat 0) with 0.
    rewrite Z.pow_0_r, Z.mod_1_r. lia.
  - cbn [Z_to_be fold_left]. rewrite IH, byte_to_of_Z.
    replace (8 * Z.of_nat (S n)) with (8 * Z.of_nat n + 8) by lia.
    rewrite Z.pow_add_r by lia. change (2 ^ 8) with 256.
    rewrite Z.shiftr_div_pow2 by lia.
    assert (Hp : 0 < 2 ^ (8 * Z.of_nat n)) by (apply Z.pow_pos_nonneg; lia).
    rewrite (Z.rem_mul_r z (2 ^ (8 * Z.of_nat n)) 256) by lia.
    lia.
Qed.

Lemma be_to_Z_to_be (n : nat) (z : Z) :
  be_to_Z (Z_to_be n z) = z mod 2 ^ (8 * Z.of_nat n).
Proof. unfold be_to_Z. rewrite be_to_Z_fold. lia. Qed.

Lemma Z_to_be_length (n : nat) (z : Z) : length (Z_to_be n z) = n.
Proof. induction n as [|n IH]; cbn [Z_to_be length]; congruence. Qed.

Lemma readUint_ok (n : nat) (z : Z) (ds : DataStream.t) (rest : list byte) :
  DataStream.remaining ds = Z_to_be n z ++ rest ->
  DataStream.readUint n ds =
  Ok (z mod 2 ^ (8 * Z.of_nat n), DataStream.advance ds (Z.of_nat n)).
Proof.
  intros Hr. unfold DataStream.readUint.
  rewrite <- (Z_to_be_length n z) at 1.
  rewrite (readBytes_ok ds _ rest Hr).
  rewrite be_to_Z_to_be, Z_to_be_length. reflexivity.
Qed.

Lemma readInt_ok (n : nat) (z : Z) (ds : DataStream.t) (rest : list byte) :
  DataStream.remaining ds = Z_to_be n z ++ rest ->
  DataStream.readInt n ds =
  Ok (JS.signed (8 * Z.of_nat n) (z mod 2 ^ (8 * Z.of_nat n)),
      DataStream.advance ds (Z.of_nat n)).
Proof.
  intros Hr. unfold DataStream.readInt.
  rewrite <- (Z_to_be_length n z) at 1.
  rewrite (readBytes_ok ds _ rest Hr).
  rewrite be_to_Z_to_be, Z_to_be_length. reflexivity.
Qed.

Lemma readUint8_byte (b : byte) (ds : DataStream.t) (rest : list byte) :
  DataStream.remaining ds = b :: rest ->
  DataStream.readUint8 ds = Ok (byte_to_Z b, DataStream.advance ds 1).
Proof.
  intros Hr. unfold DataStream.readUint8, DataStream.readUint.
  change 1%nat with (length [b]).
  rewrite (readBytes_ok ds [b] rest Hr).
  unfold be_to_Z. cbn [fold_left length]. reflexivity.
Qed.

Lemma readUint8_empty (ds : DataStream.t) :
  DataStream.remaining ds = [] ->
  DataStream.readUint8 ds = Throw Truncated.
Proof.
  intros Hr. unfold DataStream.readUint8, DataStream.readUint,
    DataStream.readBytes. rewrite Hr. reflexivity.
Qed.

Lemma splitNul_cstring (s : list byte) (rest : list byte) :
  forallb (fun b => negb (Byte.eqb b x00)) s = true ->
  DataStream.splitNul (s ++ x00 :: rest) = Some (s, Z.of_nat (length s) + 1).
Proof.
  induction s as [|b s IH]; intros H.
  - reflexivity.
  - cbn [forallb] in H. apply andb_prop in H as [Hb Hs].
    cbn [app DataStream.splitNul length].
    destruct (Byte.eqb b x00); [discriminate|].
    rewrite IH by assumption. f_equal. f_equal. lia.
Qed.

Lemma cstring_length (s : string) :
  Z.of_nat (length (cstring s)) = Z.of_nat (length (list_byte_of_string s)) + 1.
Proof. unfold cstring. rewrite length_app. cbn [length]. lia. Qed.

Lemma readCString_ok (s : string) (ds : DataStream.t) (rest : list byte) :
  nul_free s = true ->
  DataStream.remaining ds = cstring s ++ rest ->
  DataStream.readCString ds =
  Ok (s, DataStream.advance ds (Z.of_nat (length (cstring s)))).
Proof.
  intros Hs Hr. unfold DataStream.readCString. rewrite Hr.
  unfold cstring at 1. rewrite <- app_assoc. cbn [app].
  rewrite splitNul_cstring by exact Hs.
  rewrite string_of_list_byte_of_string, cstring_length. reflexivity.
Qed.

(** ** Reading the tables *)

Lemma Decoder_unserializeCount_small (c : Z) (s : Decoder.t) (h : heap)
  (rest : list byte) :
  0 <= c < 2 ^ 31 ->
  DataStream.remaining (Decoder.ds s) = varint c ++ rest ->
  Decoder.unserializeCount (s, h) =
  Ok (c, (Decoder.set_ds
            (DataStream.advance (Decoder.ds s) (Z.of_nat (length (varint c)))) s,
          h)).
Proof.
  intros Hc Hr. unfold Decoder.unserializeCount, Decoder.read.
  rewrite (unserializeCount_varint_small c _ rest Hc Hr). reflexivity.
Qed.

Lemma set_ds_set_ds (d d' : DataStream.t) (s : Decoder.t) :
  Decoder.set_ds d (Decoder.set_ds d' s) = Decoder.set_ds d s.
Proof. reflexivity. Qed.

Lemma set_strings_set_ds (set : Z -> string -> Decoder.t -> Decoder.t) :
  (forall i str d s,
      set i str (Decoder.set_ds d s) = Decoder.set_ds d (set i str s)) ->
  forall strs i d s,
    set_strings set i strs (Decoder.set_ds d s) =
    Decoder.set_ds d (set_strings set i strs s).
Proof.
  intros Hcomm strs. induction strs as [|str strs IH]; intros i d s.
  - reflexivity.
  - cbn [set_strings]. rewrite Hcomm, IH. reflexivity.
Qed.

Lemma readStrings_ok (set : Z -> string -> Decoder.t -> Decoder.t) :
  (forall i str d s,
      set i str (Decoder.set_ds d s) = Decoder.set_ds d (set i str s)) ->
  (forall i str s, Decoder.ds (set i str s) = Decoder.ds s) ->
  forall (strs : list string) (fuel : nat) (i : Z) (s : Decoder.t) (h : heap)
         (rest : list byte),
    (length strs < fuel)%nat ->
    forallb nul_free strs = true ->
    0 <= DataStream.position (Decoder.ds s) ->
    DataStream.remaining (Decoder.ds s) = concat (map cstring strs) ++ rest ->
    Decoder.readStrings fuel set i (i + Z.of_nat (length strs)) (s, h) =
    Ok (tt, (Decoder.set_ds
               (DataStream.advance (Decoder.ds s)
                  (Z.of_nat (length (concat (map cstring strs)))))
               (set_strings set i strs s), h)).
Proof.
  intros Hcomm Hds strs.
  induction strs as [|str strs IH]; intros fuel i s h rest Hf Hnul Hp Hr.
  - destruct fuel as [|fuel]; [cbn [length] in Hf; lia|].
    cbn [Decoder.readStrings length map concat set_strings].
    rewrite Z.add_0_r, Z.ltb_irrefl.
    unfold ret. repeat f_equal.
    destruct s as [[buf pos] ? ? ? ? ?]. unfold Decoder.set_ds, DataStream.advance.
    cbn. repeat f_equal. lia.
  - destruct fuel as [|fuel]; [cbn [length] in Hf; lia|].
    cbn [forallb] in Hnul. apply andb_prop in Hnul as [Hstr Hnul].
    cbn [Decoder.readStrings length map concat set_strings] in *.
    destruct (Z.ltb_spec i (i + Z.of_nat (S (length strs)))); [|lia].
    rewrite <- app_assoc in Hr.
    sm_unfold. rewrite (readCString_ok str _ _ Hstr Hr).
    replace (i + Z.of_nat (S (length strs)))
      with (i + 1 + Z.of_nat (length strs)) by lia.
    rewrite (IH fuel (i + 1) _ h rest); try lia; try assumption.
    + rewrite !Hds. cbn [Decoder.ds Decoder.set_ds].
      rewrite advance_advance, length_app, Nat2Z.inj_add.
      rewrite Hcomm, (set_strings_set_ds set Hcomm), set_ds_set_ds.
      reflexivity.
    + rewrite Hds. cbn [Decoder.ds Decoder.set_ds].
      rewrite advance_position. lia.
    + rewrite Hds. cbn [Decoder.ds Decoder.set_ds].
      apply (remaining_advance _ _ _ Hp Hr).
Qed.

Lemma set_strings_keys (strs : list string) (i : Z) (s : Decoder.t) :
  set_strings set_key i strs s =
  Decoder.set_string_keys (map_seqZ i strs ∪ Decoder.string_keys s) s.
Proof.
  revert i s. induction strs as [|str strs IH]; intros i s.
  - cbn [set_strings map_seqZ]. rewrite (left_id_L ∅ (∪)).
    destruct s; reflexivity.
  - cbn [set_strings]. rewrite IH. rewrite map_seqZ_cons.
    unfold set_key, Decoder.set_string_keys.
    destruct s as [d refs keys srefs cyc off].
    cbn [Decoder.string_keys Decoder.ds
         Decoder.object_refs Decoder.string_refs Decoder.hasCycle Decoder.offset].
    f_equal. rewrite <- insert_union_l.
    replace (i + 1) with (Z.succ i) by lia.
    symmetry. apply insert_union_r. apply map_seqZ_cons_disjoint.
Qed.

Lemma set_strings_refs (strs : list string) (i : Z) (s : Decoder.t) :
  set_strings set_ref i strs s =
  Decoder.set_string_refs (map_seqZ i strs ∪ Decoder.string_refs s) s.
Proof.
  revert i s. induction strs as [|str strs IH]; intros i s.
  - cbn [set_strings map_seqZ]. rewrite (left_id_L ∅ (∪)).
    destruct s; reflexivity.
  - cbn [set_strings]. rewrite IH. rewrite map_seqZ_cons.
    unfold set_ref, Decoder.set_string_refs.
    destruct s as [d refs keys srefs cyc off].
    cbn [Decoder.string_keys Decoder.ds
         Decoder.object_refs Decoder.string_refs Decoder.hasCycle Decoder.offset].
    f_equal. rewrite <- insert_union_l.
    replace (i + 1) with (Z.succ i) by lia.
    symmetry. apply insert_union_r. apply map_seqZ_cons_disjoint.
Qed.

Lemma version_byte_byte (hasCRC cyc : bool) :
  byte_to_Z (byte_of_Z (version_byte hasCRC cyc)) = version_byte hasCRC cyc.
Proof. destruct hasCRC, cyc; vm_compute; reflexivity. Qed.

Lemma version_byte_major (hasCRC cyc : bool) :
  (MAJOR_VERSION <? JS.band (version_byte hasCRC cyc) 0x0F) = false.
Proof. destruct hasCRC, cyc; vm_compute; reflexivity. Qed.

Lemma version_byte_crc (hasCRC cyc : bool) :
  negb (JS.band (version_byte hasCRC cyc) OPTION_CRC32 =? 0) = hasCRC.
Proof. destruct hasCRC, cyc; vm_compute; reflexivity. Qed.

Lemma version_byte_nocycle (hasCRC cyc : bool) :
  negb (JS.band (version_byte hasCRC cyc) OPTION_NOCYCLE =? 0) = negb cyc.
Proof. destruct hasCRC, cyc; vm_compute; reflexivity. Qed.

Lemma crc32_range (data : list byte) : 0 <= crc32 data < 2 ^ 32.
Proof.
  unfold crc32. rewrite ushr_0. apply Z.mod_pos_bound. lia.
Qed.

Lemma bind_Ok {S A B : Type} (m : SM S A) (k : A -> SM S B) (s s' : S) (a : A) :
  m s = Ok (a, s') -> bind m k s = k a s'.
Proof. intros H. unfold bind. rewrite H. reflexivity. Qed.

Lemma bind_Throw {S A B : Type} (m : SM S A) (k : A -> SM S B) (s : S) (e : error) :
  m s = Throw e -> bind m k s = Throw e.
Proof. intros H. unfold bind. rewrite H. reflexivity. Qed.

Lemma bind_Stuck {S A B : Type} (m : SM S A) (k : A -> SM S B) (s : S) :
  m s = Stuck -> bind m k s = Stuck.
Proof. intros H. unfold bind. rewrite H. reflexivity. Qed.

(** What [unserializeTOS] does on a buffer laid out as the encoder lays
    it out: a version byte, the checksum [c] if the CRC bit is set, the
    two tables and the payload [P]. *)
Lemma unserializeTOS_layout (hasCRC cyc : bool) (c : Z) (K R : list string)
  (P : list byte) (fuel : nat) (h : heap) :
  let pre := byte_of_Z (version_byte hasCRC cyc)
               :: (if hasCRC then Z_to_be 4 c else [])
               ++ table_bytes K ++ table_bytes R in
  Z.of_nat (length K) < 2 ^ 31 -> Z.of_nat (length R) < 2 ^ 31 ->
  forallb nul_free K = true -> forallb nul_free R = true ->
  (length K < fuel)%nat -> (length R < fuel)%nat ->
  Decoder.unserializeTOS fuel (Decoder.new (pre ++ P), h) =
  if hasCRC && negb (crc32 P =? c mod 2 ^ 32) then Throw ChecksumMismatch
  else
    Ok (tt, (Decoder.mk (DataStream.mk (pre ++ P) (Z.of_nat (length pre)))
               ∅ (table_of K) (table_of R) cyc 0, h)).
Proof.
  intros pre HK HR HnK HnR HfK HfR.
  set (buf := pre ++ P).
  set (crcb := if hasCRC then Z_to_be 4 c else []).
  set (n1 := 1).
  set (n2 := n1 + Z.of_nat (length crcb)).
  set (n3 := n2 + Z.of_nat (length (varint (Z.of_nat (length K))))).
  set (n4 := n3 + Z.of_nat (length (concat (map cstring K)))).
  set (n5 := n4 + Z.of_nat (length (varint (Z.of_nat (length R))))).
  set (n6 := n5 + Z.of_nat (length (concat (map cstring R)))).
  assert (Hlen : n6 = Z.of_nat (length pre)).
  { unfold n6, n5, n4, n3, n2, n1, pre, table_bytes. fold crcb.
    cbn [length]. rewrite !length_app. lia. }
  assert (Hrem : forall n bs rest,
    0 <= n -> DataStream.remaining (DataStream.mk buf n) = bs ++ rest ->
    DataStream.remaining (DataStream.mk buf (n + Z.of_nat (length bs))) = rest).
  { intros n bs rest Hn H. apply (remaining_advance (DataStream.mk buf n) bs rest Hn H). }
  assert (Hr0 : DataStream.remaining (DataStream.mk buf 0) =
                [byte_of_Z (version_byte hasCRC cyc)]
                  ++ crcb ++ varint (Z.of_nat (length K))
                  ++ concat (map cstring K)
                  ++ varint (Z.of_nat (length R))
                  ++ concat (map cstring R) ++ P).
  { unfold DataStream.remaining, buf, pre, table_bytes. fold crcb.
    cbn [DataStream.position DataStream.buffer Z.to_nat].
    rewrite drop_0. cbn [app]. rewrite <- !app_assoc. reflexivity. }
  pose proof (Hrem 0 _ _ ltac:(lia) Hr0) as Hr1.
  cbn [length] in Hr1. change (0 + Z.of_nat 1) with n1 in Hr1.
  pose proof (Hrem n1 _ _ ltac:(unfold n1; lia) Hr1) as Hr2. fold n2 in Hr2.
  pose proof (Hrem n2 _ _ ltac:(unfold n2, n1; lia) Hr2) as Hr3. fold n3 in Hr3.
  pose proof (Hrem n3 _ _ ltac:(unfold n3, n2, n1; lia) Hr3) as Hr4. fold n4 in Hr4.
  pose proof (Hrem n4 _ _ ltac:(unfold n4, n3, n2, n1; lia) Hr4) as Hr5. fold n5 in Hr5.
  pose proof (Hrem n5 _ _ ltac:(unfold n5, n4, n3, n2, n1; lia) Hr5) as Hr6. fold n6 in Hr6.
  set (st := fun n keys refs b =>
               Decoder.mk (DataStream.mk buf n) ∅ keys refs b 0).
  (* the version byte *)
  assert (H1 : Decoder.read DataStream.readUint8 (Decoder.new buf, h) =
               Ok (version_byte hasCRC cyc, (st n1 ∅ ∅ true, h))).
  { unfold Decoder.read, Decoder.new. cbn [Decoder.ds].
    rewrite (readUint8_byte _ _ _ Hr0), version_byte_byte. reflexivity. }
  (* the checksum *)
  assert (H2 : (if hasCRC then Decoder.read DataStream.readUint32 else ret 0)
                 (st n1 ∅ ∅ true, h) =
               Ok (if hasCRC then c mod 2 ^ 32 else 0, (st n2 ∅ ∅ true, h))).
  { unfold crcb in *. destruct hasCRC.
    - unfold Decoder.read, DataStream.readUint32. cbn [Decoder.ds st].
      rewrite (readUint_ok 4 c _ _ Hr1).
      unfold n2. rewrite Z_to_be_length. reflexivity.
    - unfold ret, n2. cbn [length]. rewrite Z.add_0_r. reflexivity. }
  (* the NOCYCLE bit *)
  assert (H3 : (if negb cyc then Decoder.update (Decoder.set_hasCycle false)
                else ret tt) (st n2 ∅ ∅ true, h) =
               Ok (tt, (st n2 ∅ ∅ cyc, h))).
  { destruct cyc; reflexivity. }
  (* the table of names *)
  assert (H4 : Decoder.unserializeCount (st n2 ∅ ∅ cyc, h) =
               Ok (Z.of_nat (length K), (st n3 ∅ ∅ cyc, h))).
  { rewrite (Decoder_unserializeCount_small (Z.of_nat (length K)) (st n2 ∅ ∅ cyc) h _ ltac:(lia) Hr2). reflexivity. }
  assert (H5 : Decoder.readStrings fuel set_key 0 (Z.of_nat (length K))
                 (st n3 ∅ ∅ cyc, h) =
               Ok (tt, (st n4 (table_of K) ∅ cyc, h))).
  { rewrite <- (Z.add_0_l (Z.of_nat (length K))) at 1.
    rewrite (readStrings_ok set_key ltac:(reflexivity) ltac:(reflexivity)
               K fuel 0 (st n3 ∅ ∅ cyc) h _ HfK HnK ltac:(unfold n3, n2, n1; cbn; lia) Hr3).
    rewrite set_strings_keys. cbn [Decoder.string_keys st].
    rewrite (right_id_L ∅ (∪)). reflexivity. }
  (* the table of strings *)
  assert (H6 : Decoder.unserializeCount (st n4 (table_of K) ∅ cyc, h) =
               Ok (Z.of_nat (length R), (st n5 (table_of K) ∅ cyc, h))).
  { rewrite (Decoder_unserializeCount_small (Z.of_nat (length R)) (st n4 (table_of K) ∅ cyc) h _ ltac:(lia) Hr4). reflexivity. }
  assert (H7 : Decoder.readStrings fuel set_ref 0 (Z.of_nat (length R))
                 (st n5 (table_of K) ∅ cyc, h) =
               Ok (tt, (st n6 (table_of K) (table_of R) cyc, h))).
  { rewrite <- (Z.add_0_l (Z.of_nat (length R))) at 1.
    rewrite (readStrings_ok set_ref ltac:(reflexivity) ltac:(reflexivity)
               R fuel 0 (st n5 (table_of K) ∅ cyc) h _ HfR HnR ltac:(unfold n5, n4, n3, n2, n1; cbn; lia) Hr5).
    rewrite set_strings_refs. cbn [Decoder.string_refs st].
    rewrite (right_id_L ∅ (∪)). reflexivity. }
  unfold Decoder.unserializeTOS. fold buf. fold set_key set_ref.
  rewrite (bind_Ok _ _ _ _ _ H1).
  rewrite version_byte_major, version_byte_crc, version_byte_nocycle.
  rewrite (bind_Ok _ _ _ _ _ H2).
  rewrite (bind_Ok _ _ _ _ _ H3).
  rewrite (bind_Ok _ _ _ _ _ H4).
  rewrite (bind_Ok _ _ _ _ _ H5).
  rewrite (bind_Ok _ _ _ _ _ H6).
  rewrite (bind_Ok _ _ _ _ _ H7).
  rewrite <- Hlen.
  destruct hasCRC; cbn [andb].
  - unfold bind, Decoder.this, DataStream.readRest. cbn [Decoder.ds st fst].
    rewrite Hr6.
    destruct (crc32 P =? c mod 2 ^ 32); cbn [negb]; reflexivity.
  - reflexivity.
Qed.

(** ** Invariants of the encoder *)

Lemma bind_Ok_inv {S A B : Type} (m : SM S A) (k : A -> SM S B) (s : S)
  (r : B * S) :
  bind m k s = Ok r -> exists a s', m s = Ok (a, s') /\ k a s' = Ok r.
Proof.
  unfold bind. destruct (m s) as [[a s']| |]; try discriminate.
  intros H. exists a, s'. split; [reflexivity|exact H].
Qed.

Tactic Notation "inv_bind" hyp(H) "as" ident(a) ident(s) ident(H1) :=
  apply bind_Ok_inv in H; destruct H as (a & s & H1 & H).

Ltac inv_pair H := injection H; intros; subst; clear H.

Lemma write_inv (f : DataStream.w -> DataStream.w) (e : Encoder.t) r :
  Encoder.write f e = Ok r -> r = (tt, Encoder.set_ds (f (Encoder.ds e)) e).
Proof. unfold Encoder.write, modify. congruence. Qed.

Lemma modify_inv {S : Type} (f : S -> S) (s : S) r :
  modify f s = Ok r -> r = (tt, f s).
Proof. unfold modify. congruence. Qed.

Lemma get_inv {S : Type} (s : S) r : get s = Ok r -> r = (s, s).
Proof. unfold get. congruence. Qed.

Lemma ret_inv {S A : Type} (a : A) (s : S) r : ret a s = Ok r -> r = (a, s).
Proof. unfold ret. congruence. Qed.

Lemma Encoder_serializeCount_inv (c : Z) (e : Encoder.t) r :
  Encoder.serializeCount c e = Ok r ->
  0 <= c < 2 ^ 32 /\ r = (tt, Encoder.set_ds (Encoder.ds e ++ varint c) e).
Proof.
  intros H.
  destruct (Z_le_dec 0 c) as [H0|H0]; [destruct (Z_lt_dec c (2 ^ 32)) as [H1|H1]|].
  - split; [lia|]. rewrite Encoder_serializeCount_ok in H by lia. congruence.
  - unfold Encoder.serializeCount in H.
    rewrite serializeCount_throws in H by lia. discriminate.
  - unfold Encoder.serializeCount in H.
    rewrite serializeCount_throws in H by lia. discriminate.
Qed.

Lemma JSMap_keys_set_new (m : JSMap.t) (k : string) (v : Z) :
  JSMap.get m k = None -> JSMap.keys (JSMap.set m k v) = JSMap.keys m ++ [k].
Proof.
  unfold JSMap.keys. induction m as [|[k' v'] m IH]; intros H.
  - reflexivity.
  - cbn [JSMap.get JSMap.set] in *. destruct (String.eqb k' k); [discriminate|].
    cbn [map fst]. rewrite IH by assumption. reflexivity.
Qed.

Lemma forallb_snoc {A : Type} (f : A -> bool) (l : list A) (x : A) :
  forallb f (l ++ [x]) = forallb f l && f x.
Proof. rewrite forallb_app. cbn [forallb]. rewrite andb_true_r. reflexivity. Qed.

Lemma serializeString_nul_free (str : string) (e : Encoder.t) r :
  nul_free str = true -> tables_nul_free e ->
  Encoder.serializeString str e = Ok r -> tables_nul_free (snd r).
Proof.
  intros Hs [Hk Hr] H. unfold Encoder.serializeString in H.
  inv_bind H as index e1 H1.
  apply Encoder_serializeCount_inv in H as [_ ->].
  cbn [snd]. unfold tables_nul_free.
  cbn [Encoder.set_ds Encoder.string_keys Encoder.string_refs].
  destruct (String.eqb str ""); [apply ret_inv in H1; inv_pair H1; split; assumption|].
  inv_bind H1 as e0 e0' H0. apply get_inv in H0. inv_pair H0.
  destruct (JSMap.get (Encoder.string_refs e) str) eqn:Hg.
  - apply ret_inv in H1. inv_pair H1. split; assumption.
  - inv_bind H1 as u e2 H2. apply modify_inv in H2. inv_pair H2.
    apply ret_inv in H1. inv_pair H1.
    cbn [Encoder.set_string_refs Encoder.string_keys Encoder.string_refs].
    split; [assumption|].
    rewrite JSMap_keys_set_new by assumption.
    rewrite forallb_snoc, Hr, Hs. reflexivity.
Qed.

Lemma serializeComponentPart_nul_free (obj : value) (tag : Z) (e : Encoder.t) r :
  value_nul_free obj = true -> tables_nul_free e ->
  Encoder.serializeComponentPart obj tag e = Ok r -> tables_nul_free (snd r).
Proof.
  intros Hv Ht H. destruct obj; cbn [Encoder.serializeComponentPart] in H.
  - apply ret_inv in H. subst r. exact Ht.
  - apply ret_inv in H. subst r. exact Ht.
  - apply ret_inv in H. subst r. exact Ht.
  - unfold Encoder.serializeNumber in H.
    repeat match type of H with
           | (if ?c then _ else _) _ = _ => destruct c
           end; apply write_inv in H; subst r; exact Ht.
  - eapply serializeString_nul_free; eassumption.
  - unfold Encoder.serializeDate in H. apply write_inv in H. subst r. exact Ht.
  - inv_bind H as u e1 H1. apply Encoder_serializeCount_inv in H1 as [_ H1].
    inv_pair H1. apply write_inv in H. subst r. exact Ht.
  - discriminate.
Qed.

Section EncoderContainers.

Variable rec : value -> SM Encoder.t unit.
Hypothesis rec_nul_free :
    forall v e r, value_nul_free v = true -> tables_nul_free e ->
                  rec v e = Ok r -> tables_nul_free (snd r).

Lemma serializeProperties_nul_free (props : list (string * value)) :
    forall e r,
      forallb (fun p => nul_free (fst p) && value_nul_free (snd p)) props = true ->
      tables_nul_free e ->
      Encoder.serializeProperties rec props e = Ok r -> tables_nul_free (snd r).
Proof.
    induction props as [|[k v] props IH]; intros e r Hp Ht H.
    - apply ret_inv in H. subst r. exact Ht.
    - cbn [forallb fst snd] in Hp.
      apply andb_prop in Hp as [Hkv Hp]. apply andb_prop in Hkv as [Hk Hv].
      cbn [Encoder.serializeProperties] in H.
      inv_bind H as e0 e0' H0. apply get_inv in H0. inv_pair H0.
      inv_bind H as index e1 H1.
      inv_bind H as u2 e2 H2.
      apply Encoder_serializeCount_inv in H2 as [_ H2]. inv_pair H2.
      inv_bind H as u3 e3 H3.
      assert (Hs : tables_nul_free e1).
      { destruct Ht as [Htk Htr].
        destruct (JSMap.get (Encoder.string_keys e) k) eqn:Hg.
        - apply ret_inv in H1. inv_pair H1. split; assumption.
        - inv_bind H1 as u4 e4 H4. apply modify_inv in H4. inv_pair H4.
          apply ret_inv in H1. inv_pair H1.
          split; cbn [Encoder.set_string_keys Encoder.string_keys Encoder.string_refs];
            [|assumption].
          rewrite JSMap_keys_set_new by assumption.
          rewrite forallb_snoc, Htk, Hk. reflexivity. }
      apply rec_nul_free in H3; [|assumption|exact Hs].
      eapply IH; [exact Hp|exact H3|exact H].
Qed.

Lemma serializeElements_nul_free (elems : list value) :
    forall e r,
      forallb value_nul_free elems = true -> tables_nul_free e ->
      Encoder.serializeElements rec elems e = Ok r -> tables_nul_free (snd r).
Proof.
    induction elems as [|v elems IH]; intros e r Hp Ht H.
    - apply ret_inv in H. subst r. exact Ht.
    - cbn [forallb] in Hp. apply andb_prop in Hp as [Hv Hp].
      cbn [Encoder.serializeElements] in H. inv_bind H as u1 e1 H1.
      apply rec_nul_free in H1; [|assumption|exact Ht].
      eapply IH; [exact Hp|exact H1|exact H].
Qed.

Lemma serializeReference_nul_free (refindex : Z) (e : Encoder.t) r :
    tables_nul_free e ->
    Encoder.serializeReference refindex e = Ok r -> tables_nul_free (snd r).
Proof.
    intros Ht H. unfold Encoder.serializeReference in H.
    inv_bind H as u1 e1 H1. apply write_inv in H1. inv_pair H1.
    inv_bind H as u2 e2 H2. apply Encoder_serializeCount_inv in H2 as [_ H2].
    inv_pair H2. apply modify_inv in H. subst r. exact Ht.
Qed.

Lemma serializeObject_nul_free (a : addr) (props : list (string * value)) e r :
    forallb (fun p => nul_free (fst p) && value_nul_free (snd p)) props = true ->
    tables_nul_free e ->
    Encoder.serializeObject rec a props e = Ok r -> tables_nul_free (snd r).
Proof.
    intros Hp Ht H. unfold Encoder.serializeObject in H.
    inv_bind H as e0 e0' H0. apply get_inv in H0. inv_pair H0.
    destruct (Encoder.object_refs e !! a).
    - eapply serializeReference_nul_free; eassumption.
    - inv_bind H as u1 e1 H1. apply modify_inv in H1. inv_pair H1.
      inv_bind H as u2 e2 H2. apply write_inv in H2. inv_pair H2.
      inv_bind H as u3 e3 H3. apply Encoder_serializeCount_inv in H3 as [_ H3].
      inv_pair H3.
      eapply serializeProperties_nul_free; [exact Hp| |exact H]. exact Ht.
Qed.

Lemma serializeArray_nul_free (a : addr) (elems : list value) e r :
    forallb value_nul_free elems = true ->
    tables_nul_free e ->
    Encoder.serializeArray rec a elems e = Ok r -> tables_nul_free (snd r).
Proof.
    intros Hp Ht H. unfold Encoder.serializeArray in H.
    inv_bind H as e0 e0' H0. apply get_inv in H0. inv_pair H0.
    destruct (Encoder.object_refs e !! a).
    - eapply serializeReference_nul_free; eassumption.
    - inv_bind H as u1 e1 H1. apply modify_inv in H1. inv_pair H1.
      inv_bind H as u2 e2 H2. apply write_inv in H2. inv_pair H2.
      inv_bind H as u3 e3 H3. apply Encoder_serializeCount_inv in H3 as [_ H3].
      inv_pair H3.
      eapply serializeElements_nul_free; [exact Hp| |exact H]. exact Ht.
Qed.

End EncoderContainers.

Lemma heap_nul_free_lookup (h : heap) (a : addr) (c : container) :
  heap_nul_free h = true -> h !! a = Some c -> container_nul_free c = true.
Proof.
  unfold heap_nul_free. rewrite forallb_forall. intros H Hl.
  apply H. apply list_elem_of_In. eapply list_elem_of_lookup_2. exact Hl.
Qed.

(** The encoder puts in its tables only strings of the value. *)
Lemma serializeComponent_nul_free (h : heap) (fuel : nat) :
  heap_nul_free h = true ->
  forall v e r,
    value_nul_free v = true -> tables_nul_free e ->
    Encoder.serializeComponent fuel h v e = Ok r -> tables_nul_free (snd r).
Proof.
  intros Hh. induction fuel as [|fuel IH]; intros v e r Hv Ht H.
  - discriminate.
  - cbn [Encoder.serializeComponent] in H.
    destruct v as [| |b|n|str|t|bs|a];
      try (unfold Encoder.getValueTag in H; cbv beta iota in H;
           inv_bind H as u1 e1 H1;
           apply write_inv in H1; inv_pair H1;
           eapply serializeComponentPart_nul_free; [exact Hv| |exact H];
           exact Ht).
    destruct (h !! a) as [[props|elems]|] eqn:Hl; [| |discriminate].
    + eapply serializeObject_nul_free; [exact IH| |exact Ht|exact H].
      apply (heap_nul_free_lookup h a _ Hh Hl).
    + eapply serializeArray_nul_free; [exact IH| |exact Ht|exact H].
      apply (heap_nul_free_lookup h a _ Hh Hl).
Qed.

(** ** CRC-32 tells two buffers apart that differ in one byte *)

Lemma lxor_range (a b n : Z) :
  0 <= n -> 0 <= a < 2 ^ n -> 0 <= b < 2 ^ n -> 0 <= Z.lxor a b < 2 ^ n.
Proof.
  intros Hn Ha Hb.
  assert (H0 : 0 <= Z.lxor a b) by (apply Z.lxor_nonneg; lia).
  split; [exact H0|].
  destruct (Z.eq_dec (Z.lxor a b) 0) as [->|Hne];
    [apply Z.pow_pos_nonneg; lia|].
  assert (Hpos : 0 < n).
  { destruct (Z.eq_dec n 0) as [->|]; [|lia].
    change (2 ^ 0) with 1 in *.
    assert (a = 0) by lia. assert (b = 0) by lia. subst.
    exfalso. apply Hne. reflexivity. }
  apply Z.log2_lt_pow2; [lia|].
  eapply Z.le_lt_trans; [apply Z.log2_lxor; lia|].
  apply Z.max_lub_lt.
  - destruct (Z.eq_dec a 0) as [->|Ha0]; [cbn; lia|apply Z.log2_lt_pow2; lia].
  - destruct (Z.eq_dec b 0) as [->|Hb0]; [cbn; lia|apply Z.log2_lt_pow2; lia].
Qed.

Lemma lxor_cancel_r (a b t : Z) : Z.lxor a t = Z.lxor b t -> a = b.
Proof.
  intros H.
  assert (Ha : a = Z.lxor (Z.lxor a t) t)
    by (rewrite Z.lxor_assoc, Z.lxor_nilpotent, Z.lxor_0_r; reflexivity).
  assert (Hb : b = Z.lxor (Z.lxor b t) t)
    by (rewrite Z.lxor_assoc, Z.lxor_nilpotent, Z.lxor_0_r; reflexivity).
  rewrite Ha, Hb, H. reflexivity.
Qed.

Lemma lxor_cancel_l (a b t : Z) : Z.lxor t a = Z.lxor t b -> a = b.
Proof. rewrite !(Z.lxor_comm t). apply lxor_cancel_r. Qed.

Lemma bxor_mod (a b : Z) :
  JS.bxor a b mod 2 ^ 32 = Z.lxor (a mod 2 ^ 32) (b mod 2 ^ 32).
Proof. unfold JS.bxor. rewrite ToInt32_mod. apply lxor_mod. lia. Qed.

(** The table entry, and the index of the entry a step uses. *)
Lemma crc_table_range (i : Z) : 0 <= nth (Z.to_nat i) crc_table 0 < 2 ^ 32.
Proof.
  destruct (Nat.lt_ge_cases (Z.to_nat i) 256) as [Hlt|Hge].
  - assert (H : forallb (fun x => (0 <=? x) && (x <? 2 ^ 32)) crc_table = true)
      by (vm_compute; reflexivity).
    rewrite forallb_forall in H.
    specialize (H (nth (Z.to_nat i) crc_table 0)
                  (nth_In crc_table 0 Hlt)).
    apply andb_prop in H as [H1 H2]. lia.
  - rewrite nth_overflow by exact Hge. lia.
Qed.

Lemma crc_table_top_inj (i j : Z) :
  0 <= i < 256 -> 0 <= j < 256 ->
  Z.shiftr (nth (Z.to_nat i) crc_table 0) 24 =
  Z.shiftr (nth (Z.to_nat j) crc_table 0) 24 ->
  i = j.
Proof.
  intros Hi Hj H.
  assert (Hall :
    forallb (fun a => forallb (fun b =>
      implb (Z.shiftr (nth a crc_table 0) 24 =? Z.shiftr (nth b crc_table 0) 24)
            (Nat.eqb a b)) (seq 0 256)) (seq 0 256) = true)
    by (vm_compute; reflexivity).
  rewrite forallb_forall in Hall.
  specialize (Hall (Z.to_nat i) ltac:(apply in_seq; lia)).
  rewrite forallb_forall in Hall.
  specialize (Hall (Z.to_nat j) ltac:(apply in_seq; lia)).
  rewrite H, Z.eqb_refl in Hall. cbn [implb] in Hall.
  apply Nat.eqb_eq in Hall. lia.
Qed.

Lemma crc_index_range (u : Z) (b : byte) : 0 <= crc_index u b < 256.
Proof.
  unfold crc_index. apply (lxor_range _ _ 8); [lia| |apply byte_to_Z_range].
  apply Z.mod_pos_bound. lia.
Qed.

(** One step, on the unsigned value of the register. *)
Lemma crc_step_mod (crc : Z) (b : byte) :
  crc_step crc b mod 2 ^ 32 =
  Z.lxor (Z.shiftr (crc mod 2 ^ 32) 8)
    (nth (Z.to_nat (crc_index (crc mod 2 ^ 32) b)) crc_table 0).
Proof.
  unfold crc_step. rewrite bxor_mod.
  assert (Hidx : JS.bxor (JS.band crc 255) (byte_to_Z b) =
                 crc_index (crc mod 2 ^ 32) b).
  { unfold crc_index. change 255 with (Z.ones 8).
    rewrite band_ones by lia. change (2 ^ 8) with 256.
    replace ((crc mod 2 ^ 32) mod 256) with (crc mod 256).
    2:{ symmetry. apply Z.mod_mod_divide. exists 16777216. reflexivity. }
    unfold JS.bxor. apply ToInt32_small.
    pose proof (lxor_range (crc mod 256) (byte_to_Z b) 8 ltac:(lia)
                  ltac:(apply Z.mod_pos_bound; lia) (byte_to_Z_range b)).
    lia. }
  rewrite Hidx.
  unfold JS.ushr, JS.ToUint32. change (8 mod 32) with 8.
  rewrite (Z.mod_small (nth _ _ _)) by apply crc_table_range.
  rewrite (Z.mod_small (Z.shiftr _ _)); [reflexivity|].
  rewrite Z.shiftr_div_pow2 by lia.
  pose proof (Z.mod_pos_bound crc (2 ^ 32) ltac:(lia)).
  split; [apply Z.div_pos; lia|].
  apply Z.div_lt_upper_bound; lia.
Qed.

Lemma crc_step_top (crc : Z) (b : byte) :
  Z.shiftr (crc_step crc b mod 2 ^ 32) 24 =
  Z.shiftr (nth (Z.to_nat (crc_index (crc mod 2 ^ 32) b)) crc_table 0) 24.
Proof.
  rewrite crc_step_mod, Z.shiftr_lxor, Z.shiftr_shiftr by lia.
  replace (Z.shiftr (crc mod 2 ^ 32) (8 + 24)) with 0; [apply Z.lxor_0_l|].
  symmetry. rewrite Z.shiftr_div_pow2 by lia. apply Z.div_small.
  apply Z.mod_pos_bound. lia.
Qed.

(** A step is one-to-one in the byte ... *)
Lemma crc_step_inj_byte (crc : Z) (b b' : byte) :
  crc_step crc b mod 2 ^ 32 = crc_step crc b' mod 2 ^ 32 -> b = b'.
Proof.
  intros H.
  assert (Htop := f_equal (fun x => Z.shiftr x 24) H). cbv beta in Htop.
  rewrite !crc_step_top in Htop.
  apply crc_table_top_inj in Htop; try apply crc_index_range.
  unfold crc_index in Htop. apply lxor_cancel_l in Htop.
  apply byte_to_Z_inj. exact Htop.
Qed.

(** ... and in the register. *)
Lemma crc_step_inj_register (c1 c2 : Z) (b : byte) :
  crc_step c1 b mod 2 ^ 32 = crc_step c2 b mod 2 ^ 32 ->
  c1 mod 2 ^ 32 = c2 mod 2 ^ 32.
Proof.
  intros H.
  assert (Htop := f_equal (fun x => Z.shiftr x 24) H). cbv beta in Htop.
  rewrite !crc_step_top in Htop.
  apply crc_table_top_inj in Htop; try apply crc_index_range.
  rewrite !crc_step_mod, Htop in H. apply lxor_cancel_r in H.
  unfold crc_index in Htop. apply lxor_cancel_r in Htop.
  rewrite !Z.shiftr_div_pow2 in H by lia. change (2 ^ 8) with 256 in H.
  rewrite (Z.div_mod (c1 mod 2 ^ 32) 256), (Z.div_mod (c2 mod 2 ^ 32) 256) by lia.
  rewrite H, Htop. reflexivity.
Qed.

Lemma crc_fold_inj (data : list byte) :
  forall c1 c2,
    fold_left crc_step data c1 mod 2 ^ 32 =
    fold_left crc_step data c2 mod 2 ^ 32 ->
    c1 mod 2 ^ 32 = c2 mod 2 ^ 32.
Proof.
  induction data as [|b data IH]; intros c1 c2 H.
  - exact H.
  - cbn [fold_left] in H. apply IH in H.
    apply crc_step_inj_register in H. exact H.
Qed.

Lemma crc32_fold_inj (d1 d2 : list byte) :
  crc32 d1 = crc32 d2 ->
  fold_left crc_step d1 (-1) mod 2 ^ 32 = fold_left crc_step d2 (-1) mod 2 ^ 32.
Proof.
  unfold crc32. rewrite !ushr_0, !bxor_mod. intros H.
  apply lxor_cancel_r in H. exact H.
Qed.

(** Changing one byte of the data changes its checksum. *)
Lemma crc32_one_byte (pre suf : list byte) (b b' : byte) :
  b <> b' -> crc32 (pre ++ b :: suf) <> crc32 (pre ++ b' :: suf).
Proof.
  intros Hne H. apply crc32_fold_inj in H.
  rewrite !fold_left_app in H. cbn [fold_left] in H.
  apply crc_fold_inj in H. apply crc_step_inj_byte in H. contradiction.
Qed.

(** ** The layout of the output of [encode] *)

Lemma serializeTOS_inv (hasCRC : bool) (e : Encoder.t) r :
  Encoder.serializeTOS hasCRC e = Ok r ->
  JSMap.size (Encoder.string_keys e) < 2 ^ 32 /\
  JSMap.size (Encoder.string_refs e) < 2 ^ 32.
Proof.
  intros H. unfold Encoder.serializeTOS in H.
  inv_bind H as e0 e0' H0. apply get_inv in H0. inv_pair H0.
  inv_bind H as u1 e1 H1. inv_bind H as u2 e2 H2.
  inv_bind H as u3 e3 H3. apply Encoder_serializeCount_inv in H3 as [Hk _].
  inv_bind H as u4 e4 H4.
  inv_bind H as u5 e5 H5. apply Encoder_serializeCount_inv in H5 as [Hr _].
  lia.
Qed.

Lemma encode_inv (h : heap) (v : value) (hasCRC : bool) (bytes : list byte) :
  encode h v hasCRC = Ok bytes ->
  exists e,
    Encoder.serializeComponent (S (length h)) h v Encoder.new = Ok (tt, e) /\
    bytes = prefix hasCRC e ++ Encoder.ds e.
Proof.
  unfold encode, Encoder.encode. intros H.
  destruct (bind _ _ _) as [[bs e']| |] eqn:Hrun; try discriminate.
  injection H as ->.
  inv_bind Hrun as u1 e1 H1. destruct u1.
  inv_bind Hrun as u2 e2 H2.
  inv_bind Hrun as e3 e3' H3. apply get_inv in H3. inv_pair H3.
  apply ret_inv in Hrun. inv_pair Hrun.
  exists e1. split; [exact H1|].
  destruct (serializeTOS_inv _ _ _ H2) as [Hk Hr].
  rewrite serializeTOS_ok in H2 by assumption. inv_pair H2. reflexivity.
Qed.

Lemma encode_payload_inv (h : heap) (v : value) (payload : list byte) :
  encode_payload h v = Ok payload ->
  exists e,
    Encoder.serializeComponent (S (length h)) h v Encoder.new = Ok (tt, e) /\
    payload = Encoder.ds e.
Proof.
  unfold encode_payload.
  destruct (Encoder.serializeComponent _ _ _ _) as [[[] e]| |]; try discriminate.
  intros [= <-]. exists e. split; reflexivity.
Qed.

Lemma concat_cstring_length (strs : list string) :
  (length strs <= length (concat (map cstring strs)))%nat.
Proof.
  induction strs as [|s strs IH]; cbn [map concat length]; [lia|].
  rewrite length_app. unfold cstring at 1. rewrite length_app. cbn [length]. lia.
Qed.

Lemma table_bytes_length (strs : list string) :
  (length strs <= length (table_bytes strs))%nat.
Proof.
  unfold table_bytes. rewrite length_app.
  pose proof (concat_cstring_length strs). lia.
Qed.

Lemma prefix_length (hasCRC : bool) (e : Encoder.t) :
  (length (JSMap.keys (Encoder.string_keys e)) < length (prefix hasCRC e))%nat /\
  (length (JSMap.keys (Encoder.string_refs e)) < length (prefix hasCRC e))%nat.
Proof.
  unfold prefix, header. rewrite !length_app. cbn [length].
  pose proof (table_bytes_length (JSMap.keys (Encoder.string_keys e))).
  pose proof (table_bytes_length (JSMap.keys (Encoder.string_refs e))).
  lia.
Qed.

Lemma new_tables_nul_free : tables_nul_free Encoder.new.
Proof. split; reflexivity. Qed.

(** The decoder on the output of the encoder, the payload replaced by
    any [P]: the header and the tables are read back, and the checksum
    is compared if there is one. *)
Lemma unserializeTOS_encoded (hasCRC : bool) (e : Encoder.t) (P : list byte)
  (fuel : nat) (h : heap) :
  tables_nul_free e ->
  Z.of_nat (length (prefix hasCRC e)) < 2 ^ 31 ->
  (length (prefix hasCRC e) <= fuel)%nat ->
  Decoder.unserializeTOS fuel (Decoder.new (prefix hasCRC e ++ P), h) =
  if hasCRC && negb (crc32 P =? crc32 (Encoder.ds e)) then Throw ChecksumMismatch
  else
    Ok (tt, (Decoder.mk
               (DataStream.mk (prefix hasCRC e ++ P)
                  (Z.of_nat (length (prefix hasCRC e))))
               ∅ (table_of (JSMap.keys (Encoder.string_keys e)))
               (table_of (JSMap.keys (Encoder.string_refs e)))
               (Encoder.hasCycle e) 0, h)).
Proof.
  intros [HnK HnR] Hlen Hfuel.
  destruct (prefix_length hasCRC e) as [HK HR].
  pose proof (unserializeTOS_layout hasCRC (Encoder.hasCycle e)
                (crc32 (Encoder.ds e)) (JSMap.keys (Encoder.string_keys e))
                (JSMap.keys (Encoder.string_refs e)) P fuel h) as L.
  cbv zeta in L.
  rewrite (Z.mod_small (crc32 _)) in L by apply crc32_range.
  replace (byte_of_Z (version_byte hasCRC (Encoder.hasCycle e))
             :: (if hasCRC then Z_to_be 4 (crc32 (Encoder.ds e)) else []) ++
                table_bytes (JSMap.keys (Encoder.string_keys e)) ++
                table_bytes (JSMap.keys (Encoder.string_refs e)))
    with (prefix hasCRC e) in L.
  2:{ unfold prefix, header. cbn [app]. reflexivity. }
  apply L; try assumption; lia.
Qed.

(** C6 (amended).  When the strings and the property names of the value
    hold no NUL and the output of [encode] with the CRC option is
    shorter than [2^31] bytes, the payload is the end of the output, and
    changing any one byte of it makes [decode] fail with the checksum
    error. *)
Theorem crc_detects_payload_change (h : heap) (v : value)
  (bytes payload : list byte) (i : nat) (b' : byte) :
  heap_nul_free h = true -> value_nul_free v = true ->
  encode h v true = Ok bytes ->
  encode_payload h v = Ok payload ->
  Z.of_nat (length bytes) < 2 ^ 31 ->
  (length bytes - length payload <= i < length bytes)%nat ->
  bytes !! i <> Some b' ->
  drop (length bytes - length payload) bytes = payload /\
  decode (Buffer (<[i := b']> bytes)) = Throw ChecksumMismatch.
Proof.
  intros Hh Hv Henc Hpay Hlen Hi Hb.
  apply encode_inv in Henc as (e & Hrun & ->).
  apply encode_payload_inv in Hpay as (e' & Hrun' & ->).
  rewrite Hrun in Hrun'. injection Hrun' as <-.
  pose proof (serializeComponent_nul_free h _ Hh v _ _ Hv new_tables_nul_free Hrun)
    as Hnf. cbn [snd] in Hnf.
  rewrite length_app in *.
  replace (length (prefix true e) + length (Encoder.ds e) - length (Encoder.ds e))%nat
    with (length (prefix true e)) in * by lia.
  split; [apply drop_app_length|].
  set (j := (i - length (prefix true e))%nat).
  assert (Hj : (j < length (Encoder.ds e))%nat) by (unfold j; lia).
  destruct (lookup_lt_is_Some_2 (Encoder.ds e) j Hj) as [b Hjb].
  assert (Hne : b <> b').
  { intros ->. apply Hb. rewrite lookup_app_r by lia. exact Hjb. }
  assert (Hins : <[i := b']> (prefix true e ++ Encoder.ds e) =
                 prefix true e ++ (take j (Encoder.ds e) ++ b' :: drop (S j) (Encoder.ds e))).
  { rewrite insert_app_r_alt by lia. fold j. f_equal.
    rewrite <- (take_drop_middle _ _ _ Hjb) at 1.
    rewrite insert_app_r_alt by (rewrite length_take; lia).
    rewrite length_take. replace (j - j `min` length (Encoder.ds e))%nat with 0%nat by lia.
    reflexivity. }
  rewrite Hins.
  rewrite decode_Buffer. unfold Decoder.decode.
  rewrite (bind_Ok _ _ _ _ _ (eq_refl : Decoder.this (Decoder.new _, []) = Ok (_, _))).
  erewrite bind_Throw; [reflexivity|].
  rewrite unserializeTOS_encoded.
  - cbn [andb].
    destruct (Z.eqb_spec
                (crc32 (take j (Encoder.ds e) ++ b' :: drop (S j) (Encoder.ds e)))
                (crc32 (Encoder.ds e))) as [Heq|_]; [|reflexivity].
    exfalso. rewrite <- (take_drop_middle _ _ _ Hjb) in Heq at 3.
    symmetry in Heq. exact (crc32_one_byte _ _ _ _ Hne Heq).
  - exact Hnf.
  - lia.
  - unfold Decoder.new, DataStream.remaining.
    cbn [Decoder.ds DataStream.position DataStream.buffer Z.to_nat].
    rewrite drop_0, length_app. lia.
Qed.

(** C6 (counterexample).  The string holds a NUL, so the decoder takes
    the table of strings to end at the NUL; with bit 0 of the first
    payload byte flipped (index 15, [0x16] to [0x17]) the bytes it then
    takes for the payload have the checksum of the header, and [decode]
    returns [null]. *)
Lemma crc_passes_after_nul_in_string :
  encode [] (VString forged_string) true = Ok forged_bytes /\
  encode_payload [] (VString forged_string) = Ok [x16; x01] /\
  forged_bytes !! 15%nat = Some x16 /\
  decode (Buffer (<[15%nat := x17]> forged_bytes)) = Ok (VNull, []).
Proof.
  split; [vm_compute; reflexivity|].
  split; [vm_compute; reflexivity|].
  split; vm_compute; reflexivity.
Qed.

Lemma crc_detects_payload_change_witness :
  drop (length [xc1; x39; xce; xe8; xbf; x01; x61; x00; x00;
                x30; x01; x00; x06] - length [x30; x01; x00; x06])
    [xc1; x39; xce; xe8; xbf; x01; x61; x00; x00; x30; x01; x00; x06]
    = [x30; x01; x00; x06] /\
  decode (Buffer (<[12%nat := x05]>
            [xc1; x39; xce; xe8; xbf; x01; x61; x00; x00;
             x30; x01; x00; x06])) = Throw ChecksumMismatch.
Proof.
  apply (crc_detects_payload_change
           [CObject [("a"%string, VUndefined)]] (VRef 0%nat)
           [xc1; x39; xce; xe8; xbf; x01; x61; x00; x00; x30; x01; x00; x06]
           [x30; x01; x00; x06] 12 x05).
  - vm_compute; reflexivity.
  - reflexivity.
  - vm_compute; reflexivity.
  - vm_compute; reflexivity.
  - vm_compute; reflexivity.
  - cbn [length]. lia.
  - cbn. discriminate.
Defined.

(** ** The decoder reads a payload the same way wherever it starts *)

Lemma remaining_advance_drop (d : DataStream.t) (n : nat) :
  0 <= DataStream.position d ->
  DataStream.remaining (DataStream.advance d (Z.of_nat n)) =
  drop n (DataStream.remaining d).
Proof.
  intros Hp. unfold DataStream.remaining, DataStream.advance.
  cbn [DataStream.position DataStream.buffer].
  rewrite Z2Nat.inj_add, Nat2Z.id, drop_drop by lia. reflexivity.
Qed.

Lemma readBytes_local (n : nat) : local (DataStream.readBytes n).
Proof.
  intros d1 d2 Hr H1 H2. unfold DataStream.readBytes. rewrite Hr.
  destruct (n <=? length (DataStream.remaining d2))%nat; [|reflexivity].
  split; [reflexivity|]. split.
  - rewrite !remaining_advance_drop by assumption. rewrite Hr. reflexivity.
  - exists (Z.of_nat n). repeat split; lia.
Qed.

Lemma local_map {A B : Type} (g : A -> B)
  (f : DataStream.t -> outcome (A * DataStream.t)) :
  local f ->
  local (fun d => match f d with
                  | Ok (a, d') => Ok (g a, d')
                  | Throw e => Throw e
                  | Stuck => Stuck
                  end).
Proof.
  intros Hf d1 d2 Hr H1 H2. specialize (Hf d1 d2 Hr H1 H2).
  destruct (f d1) as [[a1 d1']| |], (f d2) as [[a2 d2']| |]; try (first [exact Hf | exfalso; exact Hf]).
  destruct Hf as (-> & Hf). split; [reflexivity|exact Hf].
Qed.

Lemma readUint_local (n : nat) : local (DataStream.readUint n).
Proof. apply (local_map be_to_Z), readBytes_local. Qed.

Lemma readInt_local (n : nat) : local (DataStream.readInt n).
Proof.
  apply (local_map (fun bs => JS.signed (8 * Z.of_nat n) (be_to_Z bs))),
    readBytes_local.
Qed.

Lemma readUint8Array_local (n : Z) : local (DataStream.readUint8Array n).
Proof.
  unfold DataStream.readUint8Array. destruct (n <? 0).
  - intros d1 d2 _ _ _. reflexivity.
  - apply readBytes_local.
Qed.

Lemma splitNul_length (bs : list byte) (s : list byte) (n : Z) :
  DataStream.splitNul bs = Some (s, n) -> 1 <= n <= Z.of_nat (length bs).
Proof.
  revert s n. induction bs as [|b bs IH]; intros s n H; [discriminate|].
  cbn [DataStream.splitNul length] in *.
  destruct (Byte.eqb b x00).
  - injection H as <- <-. lia.
  - destruct (DataStream.splitNul bs) as [[s' n']|]; [|discriminate].
    injection H as <- <-. specialize (IH _ _ eq_refl). lia.
Qed.

Lemma readCString_local : local DataStream.readCString.
Proof.
  intros d1 d2 Hr H1 H2. unfold DataStream.readCString. rewrite Hr.
  destruct (DataStream.splitNul (DataStream.remaining d2)) as [[s n]|] eqn:E;
    [|reflexivity].
  apply splitNul_length in E.
  split; [reflexivity|]. split.
  - rewrite <- (Z2Nat.id n) by lia.
    rewrite !remaining_advance_drop by assumption. rewrite Hr. reflexivity.
  - exists n. repeat split; lia.
Qed.

Lemma unserializeCount_loop_consumed (rest : list byte) :
  forall c acc v c',
    unserializeCount_loop rest c acc = Ok (v, c') ->
    c + 1 <= c' <= c + Z.of_nat (length rest).
Proof.
  induction rest as [|b rest IH]; intros c acc v c' H; [discriminate|].
  cbn [unserializeCount_loop length] in H.
  destruct (negb _).
  - apply IH in H. cbn [length]. lia.
  - injection H as <- <-. cbn [length]. lia.
Qed.

Lemma unserializeCount_local : local unserializeCount.
Proof.
  intros d1 d2 Hr H1 H2. unfold unserializeCount. rewrite Hr.
  destruct (unserializeCount_loop (DataStream.remaining d2) 0 0)
    as [[v c]| |] eqn:E; try reflexivity.
  apply unserializeCount_loop_consumed in E.
  split; [reflexivity|]. split.
  - rewrite <- (Z2Nat.id c) by lia.
    rewrite !remaining_advance_drop by assumption. rewrite Hr. reflexivity.
  - exists c. repeat split; lia.
Qed.

Lemma msim_read {A : Type} (f : DataStream.t -> outcome (A * DataStream.t)) :
  local f -> msim (Decoder.read f).
Proof.
  intros Hf [s1 h1] [s2 h2] [Hs Hh]. cbn [fst snd] in *.
  destruct Hs as (Hr & H1 & H2 & Hoff & Hk & Hrf & Hc & Ho).
  unfold Decoder.read. specialize (Hf _ _ Hr H1 H2).
  destruct (f (Decoder.ds s1)) as [[a1 d1']| |],
           (f (Decoder.ds s2)) as [[a2 d2']| |]; try (first [exact Hf | exfalso; exact Hf]).
  destruct Hf as (-> & Hr' & n & Hn & Hp1 & Hp2).
  split; [reflexivity|]. split; [|exact Hh].
  unfold sim.
  cbn [fst Decoder.set_ds Decoder.ds Decoder.offset Decoder.string_keys
       Decoder.string_refs Decoder.hasCycle Decoder.object_refs].
  repeat split; try assumption; try lia.
Qed.

Lemma msim_ret {A : Type} (a : A) : msim (ret a).
Proof. intros w1 w2 H. split; [reflexivity|exact H]. Qed.

Lemma msim_throw {A : Type} (e : error) : msim (@throw _ A e).
Proof. intros w1 w2 H. reflexivity. Qed.

Lemma msim_stuck {A : Type} : msim (@stuck _ A).
Proof. intros w1 w2 H. exact I. Qed.

Lemma msim_bind {A B : Type} (m : SM Decoder.world A)
  (k : A -> SM Decoder.world B) :
  msim m -> (forall a, msim (k a)) -> msim (bind m k).
Proof.
  intros Hm Hk w1 w2 Hw. unfold bind. specialize (Hm w1 w2 Hw).
  destruct (m w1) as [[a1 w1']| |], (m w2) as [[a2 w2']| |]; try (first [exact Hm | exfalso; exact Hm]).
  destruct Hm as [-> Hw']. apply Hk. exact Hw'.
Qed.

(** A computation that looks at the state of the decoder. *)
Lemma osim_this {B : Type} (k : Decoder.t -> SM Decoder.world B) w1 w2 :
  wsim w1 w2 ->
  (sim (fst w1) (fst w2) -> osim (k (fst w1) w1) (k (fst w2) w2)) ->
  osim (bind Decoder.this k w1) (bind Decoder.this k w2).
Proof.
  intros Hw H. destruct w1 as [s1 h1], w2 as [s2 h2].
  unfold bind, Decoder.this. apply H. exact (proj1 Hw).
Qed.

Lemma msim_this {B : Type} (k : Decoder.t -> SM Decoder.world B) :
  (forall s1 s2, sim s1 s2 ->
     forall w1 w2, wsim w1 w2 -> osim (k s1 w1) (k s2 w2)) ->
  msim (bind Decoder.this k).
Proof.
  intros H w1 w2 Hw. apply osim_this; [exact Hw|].
  intros Hs. apply H; assumption.
Qed.

Lemma bind_assoc {S A B C : Type} (m : SM S A) (k : A -> SM S B)
  (k' : B -> SM S C) (w : S) :
  bind (bind m k) k' w = bind m (fun a => bind (k a) k') w.
Proof. unfold bind. destruct (m w) as [[a w']| |]; reflexivity. Qed.

Lemma msim_ext {A : Type} (m m' : SM Decoder.world A) :
  (forall w, m w = m' w) -> msim m' -> msim m.
Proof. intros E H w1 w2 Hw. rewrite !E. apply H. exact Hw. Qed.

Lemma msim_on_heap (f : heap -> heap) : msim (Decoder.on_heap f).
Proof.
  intros [s1 h1] [s2 h2] [Hs Hh]. cbn [fst snd] in *. subst h2.
  split; [reflexivity|]. split; [exact Hs|reflexivity].
Qed.

Lemma msim_allocate (c : container) : msim (Decoder.allocate c).
Proof.
  intros [s1 h1] [s2 h2] [Hs Hh]. cbn [fst snd] in *. subst h2.
  split; [reflexivity|]. split; [exact Hs|reflexivity].
Qed.

Lemma msim_unserializeCount : msim Decoder.unserializeCount.
Proof. apply msim_read, unserializeCount_local. Qed.

Lemma msim_unserializeString : msim Decoder.unserializeString.
Proof.
  unfold Decoder.unserializeString. apply msim_bind; [apply msim_unserializeCount|].
  intros index. destruct (index =? 0); [apply msim_ret|].
  apply msim_this. intros s1 s2 Hs.
  destruct Hs as (_ & _ & _ & _ & _ & Hrf & _). rewrite Hrf.
  destruct (_ <? _); [apply msim_throw|].
  apply msim_ret.
Qed.

Lemma msim_unserializeDate : msim Decoder.unserializeDate.
Proof.
  unfold Decoder.unserializeDate.
  apply msim_bind; [apply msim_read, readUint_local|].
  intros x. apply msim_ret.
Qed.

(** The registration of a new container under the position of its tag. *)
Lemma msim_register (a : addr) :
  msim (s <- Decoder.this ;;
        (if Decoder.hasCycle s then
           Decoder.update
             (Decoder.set_object_refs
                (<[DataStream.position (Decoder.ds s) - 1 := a]>
                   (Decoder.object_refs s)))
         else ret tt)).
Proof.
  intros w1 w2 Hw. apply osim_this; [exact Hw|]. intros Hs.
  destruct w1 as [s1 h1], w2 as [s2 h2]. destruct Hw as [_ Hh].
  cbn [fst snd] in *.
  pose proof Hs as (Hr & H1 & H2 & Hoff & Hk & Hrf & Hc & Ho).
  rewrite Hc. destruct (Decoder.hasCycle s2) eqn:Hc2.
  - unfold Decoder.update. split; [reflexivity|]. split; [|exact Hh].
    unfold sim.
    cbn [fst Decoder.set_object_refs Decoder.ds Decoder.offset
         Decoder.string_keys Decoder.string_refs Decoder.hasCycle
         Decoder.object_refs].
    repeat split; try assumption; try congruence.
    intros k.
    destruct (Z.eq_dec (DataStream.position (Decoder.ds s1) - 1)
                (k + Decoder.offset s1)) as [E|E].
    + rewrite E, lookup_insert_eq.
      replace (DataStream.position (Decoder.ds s2) - 1)
        with (k + Decoder.offset s2) by lia.
      rewrite lookup_insert_eq. reflexivity.
    + rewrite lookup_insert_ne by exact E.
      rewrite lookup_insert_ne by lia. apply Ho.
  - split; [reflexivity|]. split; [exact Hs|exact Hh].
Qed.

Section SimContainers.

Variable rec : SM Decoder.world value.
Hypothesis rec_sim : msim rec.

Lemma msim_unserializeProperties (fuel : nat) :
    forall a size max, msim (Decoder.unserializeProperties rec fuel a size max).
Proof.
    induction fuel as [|fuel IH]; intros a size max.
    - apply msim_stuck.
    - cbn [Decoder.unserializeProperties].
      destruct (0 <? size); [|apply msim_ret].
      apply msim_bind; [apply msim_unserializeCount|]. intros index.
      destruct (max <=? index); [apply msim_throw|].
      apply msim_this. intros s1 s2 Hs.
      destruct Hs as (_ & _ & _ & _ & Hk & _). rewrite Hk.
      apply msim_bind; [exact rec_sim|]. intros v.
      apply msim_bind; [apply msim_on_heap|]. intros _. apply IH.
Qed.

Lemma msim_unserializeElements (fuel : nat) :
    forall a i size, msim (Decoder.unserializeElements rec fuel a i size).
Proof.
    induction fuel as [|fuel IH]; intros a i size.
    - apply msim_stuck.
    - cbn [Decoder.unserializeElements].
      destruct (i <? size); [|apply msim_ret].
      apply msim_bind; [exact rec_sim|]. intros v.
      apply msim_bind; [apply msim_on_heap|]. intros _. apply IH.
Qed.

Lemma msim_unserializeObject (fuel : nat) :
    msim (Decoder.unserializeObject rec fuel).
Proof.
    unfold Decoder.unserializeObject.
    apply msim_bind; [apply msim_allocate|]. intros a.
    eapply msim_ext; [intros w; symmetry; apply bind_assoc|].
    apply msim_bind; [apply msim_register|]. intros _.
    apply msim_bind; [apply msim_unserializeCount|]. intros size.
    apply msim_this. intros s1 s2 Hs.
    destruct Hs as (_ & _ & _ & _ & Hk & _). rewrite Hk.
    apply msim_bind; [apply msim_unserializeProperties|]. intros _.
    apply msim_ret.
Qed.

Lemma msim_unserializeArray (fuel : nat) :
    msim (Decoder.unserializeArray rec fuel).
Proof.
    unfold Decoder.unserializeArray.
    apply msim_bind; [apply msim_allocate|]. intros a.
    eapply msim_ext; [intros w; symmetry; apply bind_assoc|].
    apply msim_bind; [apply msim_register|]. intros _.
    apply msim_bind; [apply msim_unserializeCount|]. intros size.
    apply msim_bind; [apply msim_unserializeElements|]. intros _.
    apply msim_ret.
Qed.

Lemma msim_unserializeComponentPart (fuel : nat) (tag : Z) :
    msim (Decoder.unserializeComponentPart rec fuel tag).
Proof.
    unfold Decoder.unserializeComponentPart.
    do 7 (destruct (tag =? _);
          [apply msim_bind;
           [apply msim_read; first [apply readUint_local|apply readInt_local]|];
           intros ?; apply msim_ret|]).
    destruct (tag =? _); [apply msim_unserializeString|].
    destruct (tag =? _); [apply msim_unserializeDate|].
    destruct (tag =? _).
    { apply msim_bind; [apply msim_unserializeCount|]. intros size.
      apply msim_bind; [apply msim_read, readUint8Array_local|].
      intros bs. apply msim_ret. }
    do 4 (destruct (tag =? _); [apply msim_ret|]).
    destruct (tag =? _); [apply msim_unserializeObject|].
    destruct (tag =? _); [apply msim_unserializeArray|].
    destruct (tag =? _); [|apply msim_throw].
    apply msim_bind; [apply msim_unserializeCount|]. intros index.
    apply msim_this. intros s1 s2 Hs.
    destruct Hs as (_ & _ & _ & _ & _ & _ & _ & Ho). rewrite Ho.
    destruct (_ !! _); [apply msim_ret|apply msim_throw].
Qed.

End SimContainers.

Lemma msim_unserializeComponent (fuel : nat) :
  msim (Decoder.unserializeComponent fuel).
Proof.
  induction fuel as [|fuel IH].
  - apply msim_stuck.
  - cbn [Decoder.unserializeComponent].
    apply msim_bind; [apply msim_read, readUint_local|]. intros tag.
    apply msim_unserializeComponentPart. exact IH.
Qed.

(** ** [decode] on the output of [encode] *)

Lemma payload_state_remaining (hasCRC : bool) (e : Encoder.t) (P : list byte) :
  DataStream.remaining (Decoder.ds (payload_state hasCRC e P)) = P.
Proof.
  unfold payload_state, DataStream.remaining.
  cbn [Decoder.ds DataStream.position DataStream.buffer].
  rewrite Nat2Z.id. apply drop_app_length.
Qed.

Lemma decode_encoded (hasCRC : bool) (e : Encoder.t) (P : list byte) :
  tables_nul_free e ->
  Z.of_nat (length (prefix hasCRC e)) < 2 ^ 31 ->
  decode (Buffer (prefix hasCRC e ++ P)) =
  if hasCRC && negb (crc32 P =? crc32 (Encoder.ds e)) then Throw ChecksumMismatch
  else
    match Decoder.unserializeComponent (S (length P))
            (payload_state hasCRC e P, []) with
    | Ok (v, (_, h)) => Ok (v, h)
    | Throw err => Throw err
    | Stuck => Stuck
    end.
Proof.
  intros Hnf Hlen. rewrite decode_Buffer. unfold Decoder.decode.
  rewrite (bind_Ok _ _ _ _ _ (eq_refl : Decoder.this (Decoder.new _, []) = Ok (_, _))).
  unfold bind at 1.
  rewrite unserializeTOS_encoded; [|exact Hnf|exact Hlen|].
  2:{ unfold Decoder.new, DataStream.remaining.
      cbn [Decoder.ds DataStream.position DataStream.buffer Z.to_nat].
      rewrite drop_0, length_app. lia. }
  destruct (hasCRC && negb (crc32 P =? crc32 (Encoder.ds e))); [reflexivity|].
  unfold bind, Decoder.this, Decoder.update.
  cbn [Decoder.set_offset Decoder.ds Decoder.object_refs Decoder.string_keys
       Decoder.string_refs Decoder.hasCycle DataStream.position].
  pose proof (payload_state_remaining hasCRC e P) as Hrem.
  unfold payload_state in *. cbn [Decoder.ds] in Hrem.
  rewrite Hrem. reflexivity.
Qed.

Lemma payload_states_sim (e : Encoder.t) (P : list byte) :
  sim (payload_state true e P) (payload_state false e P).
Proof.
  unfold sim. rewrite !payload_state_remaining.
  unfold payload_state.
  cbn [Decoder.ds Decoder.object_refs Decoder.string_keys Decoder.string_refs
       Decoder.hasCycle Decoder.offset DataStream.position].
  repeat split; try lia.
Qed.

Lemma prefix_crc_length (e : Encoder.t) :
  length (prefix true e) = (length (prefix false e) + 4)%nat.
Proof.
  unfold prefix, header. rewrite !length_app. cbn [length].
  rewrite Z_to_be_length. lia.
Qed.

(** C9 (counterexample).  The string of one NUL: without the CRC option
    the decoder takes the terminator of the string for the payload and
    returns [false]; with it, the checksum test fails first. *)
Lemma crc_option_changes_result_on_nul_string :
  roundtrip [] (VString (String "000" EmptyString)) false
    = Ok (VBool false, []) /\
  roundtrip [] (VString (String "000" EmptyString)) true
    = Throw ChecksumMismatch.
Proof. split; vm_compute; reflexivity. Qed.

(** An output of [encode] fixes the output with the other option. *)
Lemma encode_both (h : heap) (v : value) (hasCRC : bool) (bytes : list byte) :
  encode h v hasCRC = Ok bytes ->
  exists e,
    Encoder.serializeComponent (S (length h)) h v Encoder.new = Ok (tt, e) /\
    forall hasCRC', encode h v hasCRC' = Ok (prefix hasCRC' e ++ Encoder.ds e).
Proof.
  unfold encode, Encoder.encode. intros H.
  destruct (bind _ _ _) as [[bs e']| |] eqn:Hrun; try discriminate.
  inv_bind Hrun as u1 e1 H1. destruct u1.
  inv_bind Hrun as u2 e2 H2.
  destruct (serializeTOS_inv _ _ _ H2) as [Hk Hr].
  exists e1. split; [exact H1|]. intros hasCRC'.
  unfold bind at 1. rewrite H1.
  unfold bind at 1. rewrite serializeTOS_ok by assumption. reflexivity.
Qed.

Lemma version_byte_sets_bit_7 (cyc : bool) :
  byte_of_Z (version_byte true cyc) =
    byte_of_Z (Z.lor (byte_to_Z (byte_of_Z (version_byte false cyc))) 0x80) /\
  Z.testbit (byte_to_Z (byte_of_Z (version_byte false cyc))) 7 = false.
Proof. destruct cyc; split; vm_compute; reflexivity. Qed.

(** C9 (amended).  When [encode] without the CRC option returns
    [bytes], these are a header byte [b0] with bit 7 clear, two tables
    of strings and the payload; [encode] with the option returns the same
    bytes but for bit 7 of the header byte, which is set, and the 4
    bytes of the checksum of the payload, big-endian, inserted after the
    header byte.  When moreover the strings and the property names of
    the value hold no NUL and the output with the option is shorter
    than [2^31] bytes, the decoder is, after [unserializeTOS], at the
    start of the payload on both outputs, 4 bytes further on the output
    with the option, with the same tables and the same cycle flag, and
    [decode] gives the same result, value and heap, on both. *)
Theorem crc_option_changes_header_only (h : heap) (v : value)
  (bytes : list byte) :
  encode h v false = Ok bytes ->
  exists b0 tables payload,
    encode_payload h v = Ok payload /\
    (exists K R, tables = table_bytes K ++ table_bytes R) /\
    bytes = b0 :: tables ++ payload /\
    Z.testbit (byte_to_Z b0) 7 = false /\
    let bytes_crc :=
      byte_of_Z (Z.lor (byte_to_Z b0) 0x80)
        :: Z_to_be 4 (crc32 payload) ++ tables ++ payload in
    encode h v true = Ok bytes_crc /\
    (heap_nul_free h = true -> value_nul_free v = true ->
     Z.of_nat (length bytes_crc) < 2 ^ 31 ->
     (exists s_crc s,
         Decoder.unserializeTOS (S (length bytes_crc))
           (Decoder.new bytes_crc, []) = Ok (tt, (s_crc, [])) /\
         Decoder.unserializeTOS (S (length bytes))
           (Decoder.new bytes, []) = Ok (tt, (s, [])) /\
         DataStream.buffer (Decoder.ds s_crc) = bytes_crc /\
         DataStream.buffer (Decoder.ds s) = bytes /\
         DataStream.position (Decoder.ds s_crc)
           = 1 + 4 + Z.of_nat (length tables) /\
         DataStream.position (Decoder.ds s)
           = 1 + Z.of_nat (length tables) /\
         Decoder.string_keys s_crc = Decoder.string_keys s /\
         Decoder.string_refs s_crc = Decoder.string_refs s /\
         Decoder.hasCycle s_crc = Decoder.hasCycle s /\
         Decoder.object_refs s_crc = ∅ /\ Decoder.object_refs s = ∅) /\
     decode (Buffer bytes_crc) = decode (Buffer bytes)).
Proof.
  intros H2.
  destruct (encode_both _ _ _ _ H2) as (e & Hrun & Hboth).
  assert (Hbytes : bytes = prefix false e ++ Encoder.ds e).
  { rewrite (Hboth false) in H2. congruence. }
  clear H2.
  destruct (version_byte_sets_bit_7 (Encoder.hasCycle e)) as [Hb Hbit].
  remember (table_bytes (JSMap.keys (Encoder.string_keys e))
              ++ table_bytes (JSMap.keys (Encoder.string_refs e)))
    as tables eqn:Ht.
  remember (byte_of_Z (version_byte false (Encoder.hasCycle e))) as b0 eqn:Hb0.
  assert (Hp0 : prefix false e = b0 :: tables).
  { subst b0 tables. reflexivity. }
  assert (Hp1 : prefix true e
                = byte_of_Z (Z.lor (byte_to_Z b0) 0x80)
                    :: Z_to_be 4 (crc32 (Encoder.ds e)) ++ tables).
  { rewrite <- Hb. subst tables. reflexivity. }
  assert (Hc : byte_of_Z (Z.lor (byte_to_Z b0) 0x80)
                 :: Z_to_be 4 (crc32 (Encoder.ds e)) ++ tables ++ Encoder.ds e
               = prefix true e ++ Encoder.ds e).
  { rewrite Hp1. cbn [app]. rewrite <- app_assoc. reflexivity. }
  exists b0, tables, (Encoder.ds e).
  split; [unfold encode_payload; rewrite Hrun; reflexivity|].
  split; [eexists _, _; exact Ht|].
  split; [rewrite Hbytes, Hp0; reflexivity|].
  split; [exact Hbit|].
  cbv zeta. rewrite Hc, Hbytes.
  split; [apply Hboth|].
  intros Hh Hv Hlen.
  pose proof (serializeComponent_nul_free h _ Hh v _ _ Hv new_tables_nul_free Hrun)
    as Hnf. cbn [snd] in Hnf.
  rewrite length_app in Hlen. pose proof (prefix_crc_length e) as Hpl.
  split.
  - eexists _, _.
    split; [rewrite unserializeTOS_encoded;
            [rewrite Z.eqb_refl; reflexivity|exact Hnf|lia|rewrite length_app; lia]|].
    split; [rewrite unserializeTOS_encoded;
            [reflexivity|exact Hnf|lia|rewrite length_app; lia]|].
    cbn [Decoder.ds Decoder.string_keys Decoder.string_refs Decoder.hasCycle
         Decoder.object_refs DataStream.buffer DataStream.position].
    repeat split.
    + rewrite Hp1. cbn [length]. rewrite length_app, Z_to_be_length. lia.
    + rewrite Hp0. cbn [length]. lia.
  - rewrite !decode_encoded by (assumption || lia).
    rewrite Z.eqb_refl. cbn [andb negb].
    pose proof (msim_unserializeComponent (S (length (Encoder.ds e)))
                  (payload_state true e (Encoder.ds e), [])
                  (payload_state false e (Encoder.ds e), [])
                  (conj (payload_states_sim e _) eq_refl)) as Hsim.
    destruct (Decoder.unserializeComponent _ (payload_state true e _, []))
      as [[v1 [s1 h1]]| |],
      (Decoder.unserializeComponent _ (payload_state false e _, []))
      as [[v2 [s2 h2]]| |]; try (exfalso; exact Hsim).
    + destruct Hsim as [-> [_ Hheap]]. cbn [snd] in Hheap. subst. reflexivity.
    + cbn in Hsim. subst. reflexivity.
    + reflexivity.
Qed.

Lemma crc_option_changes_header_only_witness :
  exists b0 tables payload,
    encode_payload [CObject [("a"%string, VUndefined)]] (VRef 0%nat)
      = Ok payload /\
    (exists K R, tables = table_bytes K ++ table_bytes R) /\
    [x41; x01; x61; x00; x00; x30; x01; x00; x06] = b0 :: tables ++ payload /\
    Z.testbit (byte_to_Z b0) 7 = false /\
    let bytes_crc :=
      byte_of_Z (Z.lor (byte_to_Z b0) 0x80)
        :: Z_to_be 4 (crc32 payload) ++ tables ++ payload in
    encode [CObject [("a"%string, VUndefined)]] (VRef 0%nat) true
      = Ok bytes_crc /\
    decode (Buffer bytes_crc)
      = decode (Buffer [x41; x01; x61; x00; x00; x30; x01; x00; x06]).
Proof.
  destruct (crc_option_changes_header_only
              [CObject [("a"%string, VUndefined)]] (VRef 0%nat)
              [x41; x01; x61; x00; x00; x30; x01; x00; x06])
    as (b0 & tables & payload & Hp & Ht & Hb & Hbit & Henc & Hdec).
  - vm_compute; reflexivity.
  - exists b0, tables, payload.
    split; [exact Hp|]. split; [exact Ht|]. split; [exact Hb|].
    split; [exact Hbit|].
    split; [exact Henc|].
    apply Hdec.
    + vm_compute; reflexivity.
    + reflexivity.
    + injection Hb as _ Hb.
      apply (f_equal (@length byte)) in Hb. rewrite length_app in Hb.
      cbn [length] in *. rewrite length_app, Z_to_be_length, length_app. lia.
Defined.

(** * Values without sharing *)

(** ** Induction on trees *)

Lemma tree_induction (P : tree -> Prop) :
  P TUndefined -> P TNull -> (forall b, P (TBool b)) ->
  (forall n, P (TNumber n)) -> (forall s, P (TString s)) ->
  (forall d, P (TDate d)) -> (forall bs, P (TBytes bs)) ->
  (forall ts, Forall P ts -> P (TArray ts)) ->
  (forall ps, Forall (fun p => P (snd p)) ps -> P (TObject ps)) ->
  forall t, P t.
Proof.
  intros Hu Hn Hb Hnum Hs Hd Hby Ha Ho.
  fix IH 1. intros [ | | b | n | s | d | bs | ts | ps].
  - exact Hu.
  - exact Hn.
  - apply Hb.
  - apply Hnum.
  - apply Hs.
  - apply Hd.
  - apply Hby.
  - apply Ha. induction ts as [|t ts IHts]; constructor; [apply IH | exact IHts].
  - apply Ho. induction ps as [|p ps IHps]; constructor; [apply IH | exact IHps].
Qed.

Lemma tenc_array (ts : list tree) (K R : list string) :
  tenc (TArray ts) K R =
  let '(body, KR) := tenc_elems ts K R in
  (byte_of_Z TAG_ARRAY :: varint (Z.of_nat (length ts)) ++ body, KR).
Proof.
  cbn [tenc].
  match goal with
  | |- (let '(_, _) := ?f ts K R in _) = _ =>
      assert (E : forall ts K R, f ts K R = tenc_elems ts K R)
  end.
  { clear. induction ts as [|t ts IH]; intros K R; [reflexivity|].
    cbn [tenc_elems]. destruct (tenc t K R) as [b1 [K1 R1]].
    rewrite IH. reflexivity. }
  rewrite E. reflexivity.
Qed.

Lemma tenc_object (ps : list (string * tree)) (K R : list string) :
  tenc (TObject ps) K R =
  let '(body, KR) := tenc_props ps K R in
  (byte_of_Z TAG_OBJECT :: varint (Z.of_nat (length ps)) ++ body, KR).
Proof.
  cbn [tenc].
  match goal with
  | |- (let '(_, _) := ?f ps K R in _) = _ =>
      assert (E : forall ps K R, f ps K R = tenc_props ps K R)
  end.
  { clear. induction ps as [|p ps IH]; intros K R; [reflexivity|].
    cbn [tenc_props]. destruct (intern (fst p) K) as [i K0].
    destruct (tenc (snd p) K0 R) as [b1 [K1 R1]].
    rewrite IH. reflexivity. }
  rewrite E. reflexivity.
Qed.

Lemma tree_ok_array (ts : list tree) :
  tree_ok (TArray ts) <-> Forall tree_ok ts.
Proof.
  cbn [tree_ok]. induction ts as [|t ts IH].
  - split; [constructor | trivial].
  - split.
    + intros [H1 H2]. constructor; [exact H1 | apply IH, H2].
    + intros H. inversion H; subst. split; [assumption | apply IH; assumption].
Qed.

Lemma tree_ok_object (ps : list (string * tree)) :
  tree_ok (TObject ps) <->
  keys_ok (map fst ps) /\
  Forall (fun p => nul_free (fst p) = true /\ tree_ok (snd p)) ps.
Proof.
  cbn [tree_ok].
  match goal with
  | |- _ /\ ?f ps <-> _ =>
      assert (E : forall ps,
                 f ps <->
                 Forall (fun p => nul_free (fst p) = true /\ tree_ok (snd p)) ps)
  end.
  { clear. induction ps as [|p ps IH].
    - split; [constructor | trivial].
    - split.
      + intros [H1 H2]. constructor; [exact H1 | apply IH, H2].
      + intros H. inversion H; subst.
        split; [assumption | apply IH; assumption]. }
  rewrite E. reflexivity.
Qed.

(** ** The tables of the encoder *)

Lemma keymap_keys (ks : list string) :
  forall base, JSMap.keys (keymap base ks) = ks.
Proof.
  induction ks as [|k ks IH]; intros base; [reflexivity|].
  cbn [keymap JSMap.keys map fst]. f_equal. apply IH.
Qed.

Lemma keymap_size (ks : list string) :
  forall base, JSMap.size (keymap base ks) = Z.of_nat (length ks).
Proof.
  intros base. unfold JSMap.size. f_equal.
  rewrite <- (keymap_keys ks base) at 2. unfold JSMap.keys.
  rewrite length_map. reflexivity.
Qed.

Lemma keymap_get (k : string) (ks : list string) :
  forall base,
    JSMap.get (keymap base ks) k =
    option_map (fun i => base + Z.of_nat i) (index_of k ks).
Proof.
  induction ks as [|k' ks IH]; intros base; [reflexivity|].
  cbn [keymap JSMap.get index_of]. destruct (String.eqb k' k).
  - cbn. f_equal. lia.
  - rewrite IH. destruct (index_of k ks) as [i|]; cbn; [f_equal; lia | reflexivity].
Qed.

Lemma keymap_set (k : string) (ks : list string) :
  forall base,
    index_of k ks = None ->
    JSMap.set (keymap base ks) k (base + Z.of_nat (length ks)) =
    keymap base (ks ++ [k]).
Proof.
  induction ks as [|k' ks IH]; intros base H.
  - cbn. f_equal. f_equal. lia.
  - cbn [index_of] in H. cbn [keymap JSMap.set app].
    destruct (String.eqb k' k); [discriminate|].
    destruct (index_of k ks) eqn:E; [discriminate|].
    f_equal. rewrite <- IH by reflexivity. f_equal.
    cbn [length]. lia.
Qed.

Lemma index_of_lookup (k : string) (ks : list string) :
  forall i, index_of k ks = Some i -> ks !! i = Some k.
Proof.
  induction ks as [|k' ks IH]; intros i H; [discriminate|].
  cbn [index_of] in H. destruct (String.eqb k' k) eqn:E.
  - apply String.eqb_eq in E. injection H as <-. subst. reflexivity.
  - destruct (index_of k ks) as [j|]; [|discriminate].
    injection H as <-. cbn. apply IH. reflexivity.
Qed.

Lemma index_of_None (k : string) (ks : list string) :
  index_of k ks = None -> ~ In k ks.
Proof.
  induction ks as [|k' ks IH]; intros H; [intros []|].
  cbn [index_of] in H. destruct (String.eqb k' k) eqn:E; [discriminate|].
  destruct (index_of k ks); [discriminate|].
  intros [->|Hin]; [rewrite String.eqb_refl in E; discriminate|].
  exact (IH eq_refl Hin).
Qed.

Lemma intern_spec (k : string) (ks : list string) :
  exists ext,
    snd (intern k ks) = ks ++ ext /\ (length ext <= 1)%nat /\
    (ks ++ ext) !! fst (intern k ks) = Some k /\
    (forall x, In x ext -> x = k) /\
    (fst (intern k ks) <= length ks)%nat.
Proof.
  unfold intern. destruct (index_of k ks) as [i|] eqn:E.
  - exists []. cbn [fst snd length]. rewrite app_nil_r.
    split; [reflexivity|]. split; [lia|].
    split; [apply index_of_lookup, E|]. split; [intros x []|].
    apply index_of_lookup, lookup_lt_Some in E. lia.
  - exists [k]. cbn [fst snd length]. split; [reflexivity|]. split; [lia|].
    split.
    + rewrite lookup_app_r by lia. rewrite Nat.sub_diag. reflexivity.
    + split; [|lia]. intros x [<-|[]]. reflexivity.
Qed.

(** ** The numbers read back *)

Lemma F64_mant_range (x : F64.t) : 0 <= F64.mant x < 2 ^ 52.
Proof.
  unfold F64.mant. change (2 ^ 52 - 1) with (Z.ones 52).
  rewrite Z.land_ones by lia. apply Z.mod_pos_bound. lia.
Qed.

Lemma F64_expo_range (x : F64.t) : 0 <= F64.expo x < 2048.
Proof.
  unfold F64.expo. change 2047 with (Z.ones 11).
  rewrite Z.land_ones by lia. apply Z.mod_pos_bound. lia.
Qed.

(** A pattern is made of its sign, its exponent and its mantissa. *)
Lemma F64_fields (x : F64.t) :
  F64.wf x ->
  x = Z.lor (if F64.sign x then 2 ^ 63 else 0)
        (Z.lor (Z.shiftl (F64.expo x) 52) (F64.mant x)).
Proof.
  intros [H0 H64]. apply Z.bits_inj'. intros n Hn.
  rewrite !Z.lor_spec. unfold F64.mant, F64.expo, F64.sign.
  change (2 ^ 52 - 1) with (Z.ones 52). change 2047 with (Z.ones 11).
  rewrite Z.land_spec.
  assert (Hhigh : 64 <= n -> Z.testbit x n = false).
  { intros Hge. destruct (Z.eq_dec x 0) as [->|Hx]; [apply Z.bits_0|].
    apply Z.bits_above_log2; [lia|].
    apply Z.lt_le_trans with 64; [|lia].
    apply Z.log2_lt_pow2; lia. }
  assert (Hsb : Z.testbit (if Z.testbit x 63 then 2 ^ 63 else 0) n
                = Z.testbit x 63 && (n =? 63)).
  { destruct (Z.testbit x 63).
    - destruct (Z.eqb_spec n 63) as [->|Hne]; [reflexivity|].
      apply Z.pow2_bits_false. lia.
    - apply Z.bits_0. }
  rewrite Hsb.
  destruct (Z.ltb_spec n 52) as [Hlt|Hge].
  - rewrite Z.shiftl_spec_low by lia.
    rewrite Z.ones_spec_low by lia.
    destruct (Z.eqb_spec n 63); [lia|].
    rewrite andb_false_r, andb_true_r. reflexivity.
  - rewrite Z.shiftl_spec by lia. rewrite Z.land_spec.
    rewrite Z.shiftr_spec by lia. replace (n - 52 + 52) with n by lia.
    rewrite (Z.ones_spec_high 52) by lia. rewrite andb_false_r, orb_false_r.
    destruct (Z.ltb_spec n 63) as [Hlt|Hge'].
    + rewrite Z.ones_spec_low by lia.
      destruct (Z.eqb_spec n 63); [lia|].
      rewrite andb_false_r, andb_true_r. reflexivity.
    + rewrite Z.ones_spec_high by lia. rewrite andb_false_r, orb_false_r.
      destruct (Z.eqb_spec n 63) as [->|Hne].
      * rewrite andb_true_r. reflexivity.
      * rewrite andb_false_r. apply Hhigh. lia.
Qed.

(** The pattern built for an integer is the pattern of the number that
    is equal to it, up to the sign of a zero. *)
Lemma F64_of_int_to_int (x : F64.t) (z : Z) :
  F64.wf x -> F64.to_int x = Some z -> F64.of_int z = F64.norm x.
Proof.
  intros Hwf Hz. pose proof (F64_fields x Hwf) as Hx.
  pose proof (F64_mant_range x) as Hm. pose proof (F64_expo_range x) as He.
  unfold F64.to_int, F64.view_of in Hz.
  destruct (Z.eqb_spec (F64.expo x) 2047) as [E2047|E2047].
  { destruct (F64.mant x =? 0); discriminate. }
  set (s := if F64.sign x then -1 else 1) in *.
  assert (Hs : s = -1 \/ s = 1) by (subst s; destruct (F64.sign x); lia).
  assert (Hbig : 2 ^ 52 < 2 ^ 1074) by (apply Z.pow_lt_mono_r; lia).
  destruct (Z.eqb_spec (F64.expo x) 0) as [E0|E0].
  - (* a subnormal is an integer when it is a zero only *)
    cbn [Z.leb] in Hz. change (0 <=? -1074) with false in Hz.
    change (- -1074) with 1074 in Hz.
    destruct (Z.eqb_spec (Z.rem (s * F64.mant x) (2 ^ 1074)) 0) as [Hr|Hr];
      [|discriminate].
    pose proof (Z.quot_rem' (s * F64.mant x) (2 ^ 1074)) as Hq.
    rewrite Hr in Hq. set (B := 2 ^ 1074) in *.
    set (q := Z.quot (s * F64.mant x) B) in *.
    assert (Hq0 : q = 0) by (destruct Hs as [Hs|Hs]; rewrite Hs in Hq; nia).
    assert (Hm0 : F64.mant x = 0) by (destruct Hs as [Hs|Hs]; rewrite Hs in Hq; nia).
    subst q B.
    injection Hz as <-. rewrite Hm0, Z.mul_0_r.
    rewrite Z.quot_0_l by lia. cbn [F64.of_int Z.eqb].
    rewrite Hx, E0, Hm0. unfold F64.norm.
    destruct (F64.sign x); reflexivity.
  - set (M := 2 ^ 52 + F64.mant x) in *.
    set (e := F64.expo x - 1075) in *.
    assert (HM : 2 ^ 52 <= M < 2 ^ 53) by (subst M; lia).
    assert (HlogM : Z.log2 M = 52) by (apply Z.log2_unique; lia).
    (* the magnitude and its logarithm *)
    assert (HA : exists A, z = s * A /\ 0 < A /\ Z.log2 A = 52 + e /\
                           Z.shiftl A (- e) = M).
    { destruct (Z.leb_spec 0 e) as [Hpos|Hneg].
      - injection Hz as <-. exists (M * 2 ^ e).
        assert (0 < 2 ^ e) by (apply Z.pow_pos_nonneg; lia).
        split; [ring|]. split; [nia|]. split.
        + rewrite Z.log2_mul_pow2 by lia. lia.
        + rewrite Z.shiftl_opp_r.
          rewrite Z.shiftr_div_pow2 by lia. apply Z.div_mul. lia.
      - destruct (Z.eqb_spec (Z.rem (s * M) (2 ^ (- e))) 0) as [Hr|Hr];
          [|discriminate].
        injection Hz as <-.
        assert (Hd : 0 < 2 ^ (- e)) by (apply Z.pow_pos_nonneg; lia).
        pose proof (Z.quot_rem' (s * M) (2 ^ (- e))) as Hq. rewrite Hr in Hq.
        set (q := Z.quot (s * M) (2 ^ (- e))) in *.
        exists (s * q).
        assert (HMq : M = (s * q) * 2 ^ (- e)) by (destruct Hs as [-> | ->]; lia).
        split; [destruct Hs as [-> | ->]; lia|].
        assert (Hq0 : 0 < s * q) by nia.
        split; [exact Hq0|]. split.
        + assert (HL : Z.log2 M = - e + Z.log2 (s * q)).
          { rewrite HMq at 1. apply Z.log2_mul_pow2; lia. }
          lia.
        + rewrite Z.shiftl_mul_pow2 by lia. lia. }
    destruct HA as (A & HzA & HA0 & HlogA & Hshift).
    unfold F64.of_int.
    destruct (Z.eqb_spec z 0) as [Hz0|_]; [destruct Hs as [Hs|Hs]; nia|].
    assert (Habs : Z.abs z = A) by (destruct Hs as [Hs|Hs]; rewrite HzA, Hs; lia).
    rewrite Habs, HlogA.
    replace (52 - (52 + e)) with (- e) by lia. rewrite Hshift.
    replace (1023 + (52 + e)) with (F64.expo x) by (subst e; lia).
    replace (M - 2 ^ 52) with (F64.mant x) by (subst M; lia).
    assert (Hsign : (z <? 0) = F64.sign x).
    { subst s. destruct (F64.sign x); destruct (Z.ltb_spec z 0); try reflexivity; nia. }
    rewrite Hsign, <- Hx. unfold F64.norm.
    destruct (Z.eqb_spec x (2 ^ 63)) as [Hx63|]; [|reflexivity].
    exfalso. apply E0. rewrite Hx63. reflexivity.
Qed.

Lemma getNumberTag_of_int (x : F64.t) (z : Z) :
  F64.to_int x = Some z -> Encoder.getNumberTag x = tag_ladder (Some z).
Proof. intros Hz. rewrite getNumberTag_ladder, Hz. reflexivity. Qed.

Lemma getNumberTag_not_int (x : F64.t) :
  F64.to_int x = None -> Encoder.getNumberTag x = TAG_NUMBER.
Proof.
  intros Hz. unfold Encoder.getNumberTag.
  rewrite !F64_eq_int_none by assumption. reflexivity.
Qed.

Lemma signed_small (w z : Z) :
  0 < w -> - 2 ^ (w - 1) <= z < 2 ^ (w - 1) ->
  JS.signed w (z mod 2 ^ w) = z.
Proof.
  intros Hw Hz. unfold JS.signed.
  assert (H2 : 2 ^ w = 2 * 2 ^ (w - 1)).
  { replace w with (Z.succ (w - 1)) at 1 by lia. apply Z.pow_succ_r. lia. }
  assert (0 < 2 ^ (w - 1)) by (apply Z.pow_pos_nonneg; lia).
  rewrite Z.mod_mod by lia.
  destruct (Z.leb_spec 0 z).
  - rewrite Z.mod_small by lia. destruct (Z.ltb_spec z (2 ^ (w - 1))); lia.
  - replace (z mod 2 ^ w) with (z + 2 ^ w).
    + destruct (Z.ltb_spec (z + 2 ^ w) (2 ^ (w - 1))); lia.
    + apply Z.mod_unique with (-1); lia.
Qed.

Lemma read_Ok {A : Type} (f : DataStream.t -> outcome (A * DataStream.t))
  (s : Decoder.t) (h : heap) (a : A) (d : DataStream.t) :
  f (Decoder.ds s) = Ok (a, d) ->
  Decoder.read f (s, h) = Ok (a, (Decoder.set_ds d s, h)).
Proof. intros H. unfold Decoder.read. rewrite H. reflexivity. Qed.

Lemma read_uint_Ok (n : nat) (z : Z) (s : Decoder.t) (h : heap)
  (rest : list byte) :
  DataStream.remaining (Decoder.ds s) = Z_to_be n z ++ rest ->
  Decoder.read (DataStream.readUint n) (s, h) =
  Ok (z mod 2 ^ (8 * Z.of_nat n),
      (Decoder.set_ds (DataStream.advance (Decoder.ds s) (Z.of_nat n)) s, h)).
Proof. intros H. apply read_Ok. eapply readUint_ok, H. Qed.

Lemma read_int_Ok (n : nat) (z : Z) (s : Decoder.t) (h : heap)
  (rest : list byte) :
  DataStream.remaining (Decoder.ds s) = Z_to_be n z ++ rest ->
  Decoder.read (DataStream.readInt n) (s, h) =
  Ok (JS.signed (8 * Z.of_nat n) (z mod 2 ^ (8 * Z.of_nat n)),
      (Decoder.set_ds (DataStream.advance (Decoder.ds s) (Z.of_nat n)) s, h)).
Proof. intros H. apply read_Ok. eapply readInt_ok, H. Qed.

(** The body of a number, read back under its tag, is the number, a
    negative zero apart. *)
Lemma number_read (x : F64.t) (rec : SM Decoder.world value) (fuel : nat)
  (s : Decoder.t) (h : heap) (rest : list byte) :
  F64.wf x ->
  DataStream.remaining (Decoder.ds s) =
    number_body x (Encoder.getNumberTag x) ++ rest ->
  Decoder.unserializeComponentPart rec fuel (Encoder.getNumberTag x) (s, h) =
  Ok (VNumber (F64.norm x),
      (Decoder.set_ds
         (DataStream.advance (Decoder.ds s)
            (Z.of_nat (length (number_body x (Encoder.getNumberTag x))))) s,
       h)).
Proof.
  intros Hwf Hrem.
  assert (Hfloat : Encoder.getNumberTag x = TAG_NUMBER -> x <> 2 ^ 63 ->
          Decoder.unserializeComponentPart rec fuel (Encoder.getNumberTag x) (s, h) =
          Ok (VNumber (F64.norm x),
              (Decoder.set_ds
                 (DataStream.advance (Decoder.ds s)
                    (Z.of_nat (length (number_body x (Encoder.getNumberTag x))))) s,
               h))).
  { intros Htag Hne. rewrite Htag in *.
    change (number_body x TAG_NUMBER) with (Z_to_be 8 x) in *.
    change (Decoder.unserializeComponentPart rec fuel TAG_NUMBER)
      with (bind (Decoder.read (DataStream.readUint 8))
                 (fun x => ret (S := Decoder.world) (VNumber x))).
    rewrite (bind_Ok _ _ _ _ _ (read_uint_Ok 8 x s h rest Hrem)).
    rewrite Z_to_be_length. unfold ret, F64.norm.
    destruct (Z.eqb_spec x (2 ^ 63)); [contradiction|].
    rewrite Z.mod_small by exact Hwf. reflexivity. }
  destruct (F64.to_int x) as [z|] eqn:Hz.
  2:{ apply Hfloat; [apply getNumberTag_not_int, Hz|].
      intros ->. vm_compute in Hz. discriminate. }
  pose proof (F64_of_int_to_int x z Hwf Hz) as Hcanon.
  pose proof (getNumberTag_of_int x z Hz) as Htag.
  pose proof (F64_trunc_to_int x z Hz) as Htr.
  unfold tag_ladder in Htag.
  destruct (Z.leb_spec 0 z) as [H0|H0];
    [destruct (Z.ltb_spec z (2 ^ 32)) as [H32|H32]|]; cbn [andb] in Htag.
  - (* the unsigned tags *)
    destruct (Z.ltb_spec z (2 ^ 8)) as [H8|H8];
      [|destruct (Z.ltb_spec z (2 ^ 16)) as [H16|H16]];
      rewrite Htag in *.
    + change (number_body x TAG_UINT8) with (Z_to_be 1 (F64.trunc x)) in *.
      rewrite Htr in *.
      change (Decoder.unserializeComponentPart rec fuel TAG_UINT8)
        with (bind (Decoder.read (DataStream.readUint 1))
                   (fun z => ret (S := Decoder.world) (VNumber (F64.of_int z)))).
      rewrite (bind_Ok _ _ _ _ _ (read_uint_Ok 1 z s h rest Hrem)).
      rewrite Z_to_be_length. unfold ret.
      rewrite Z.mod_small by (change (2 ^ (8 * Z.of_nat 1)) with (2 ^ 8); lia).
      rewrite Hcanon. reflexivity.
    + change (number_body x TAG_UINT16) with (Z_to_be 2 (F64.trunc x)) in *.
      rewrite Htr in *.
      change (Decoder.unserializeComponentPart rec fuel TAG_UINT16)
        with (bind (Decoder.read (DataStream.readUint 2))
                   (fun z => ret (S := Decoder.world) (VNumber (F64.of_int z)))).
      rewrite (bind_Ok _ _ _ _ _ (read_uint_Ok 2 z s h rest Hrem)).
      rewrite Z_to_be_length. unfold ret.
      rewrite Z.mod_small by (change (2 ^ (8 * Z.of_nat 2)) with (2 ^ 16); lia).
      rewrite Hcanon. reflexivity.
    + change (number_body x TAG_UINT32) with (Z_to_be 4 (F64.trunc x)) in *.
      rewrite Htr in *.
      change (Decoder.unserializeComponentPart rec fuel TAG_UINT32)
        with (bind (Decoder.read (DataStream.readUint 4))
                   (fun z => ret (S := Decoder.world) (VNumber (F64.of_int z)))).
      rewrite (bind_Ok _ _ _ _ _ (read_uint_Ok 4 z s h rest Hrem)).
      rewrite Z_to_be_length. unfold ret.
      rewrite Z.mod_small by (change (2 ^ (8 * Z.of_nat 4)) with (2 ^ 32); lia).
      rewrite Hcanon. reflexivity.
  - destruct (Z.leb_spec (- 2 ^ 31) z); [|]; destruct (Z.ltb_spec z 0);
      try lia; cbn [andb] in Htag;
      (apply Hfloat; [exact Htag|]; intros ->; vm_compute in Hz;
       injection Hz as <-; lia).
  - destruct (Z.ltb_spec z (2 ^ 32)) as [_|]; [|lia]. cbn [andb] in Htag.
    destruct (Z.leb_spec (- 2 ^ 31) z) as [H31|H31];
      destruct (Z.ltb_spec z 0) as [_|]; try lia; cbn [andb] in Htag.
    2:{ apply Hfloat; [exact Htag|]. intros ->. vm_compute in Hz.
        injection Hz as <-. lia. }
    destruct (Z.leb_spec (- 2 ^ 7) z) as [H7|H7];
      [|destruct (Z.leb_spec (- 2 ^ 15) z) as [H15|H15]];
      rewrite Htag in *.
    + change (number_body x TAG_INT8) with (Z_to_be 1 (F64.trunc x)) in *.
      rewrite Htr in *.
      change (Decoder.unserializeComponentPart rec fuel TAG_INT8)
        with (bind (Decoder.read (DataStream.readInt 1))
                   (fun z => ret (S := Decoder.world) (VNumber (F64.of_int z)))).
      rewrite (bind_Ok _ _ _ _ _ (read_int_Ok 1 z s h rest Hrem)).
      rewrite Z_to_be_length. unfold ret.
      rewrite signed_small
        by (change (8 * Z.of_nat 1 - 1) with 7; lia).
      rewrite Hcanon. reflexivity.
    + change (number_body x TAG_INT16) with (Z_to_be 2 (F64.trunc x)) in *.
      rewrite Htr in *.
      change (Decoder.unserializeComponentPart rec fuel TAG_INT16)
        with (bind (Decoder.read (DataStream.readInt 2))
                   (fun z => ret (S := Decoder.world) (VNumber (F64.of_int z)))).
      rewrite (bind_Ok _ _ _ _ _ (read_int_Ok 2 z s h rest Hrem)).
      rewrite Z_to_be_length. unfold ret.
      rewrite signed_small
        by (change (8 * Z.of_nat 2 - 1) with 15; lia).
      rewrite Hcanon. reflexivity.
    + change (number_body x TAG_INT32) with (Z_to_be 4 (F64.trunc x)) in *.
      rewrite Htr in *.
      change (Decoder.unserializeComponentPart rec fuel TAG_INT32)
        with (bind (Decoder.read (DataStream.readInt 4))
                   (fun z => ret (S := Decoder.world) (VNumber (F64.of_int z)))).
      rewrite (bind_Ok _ _ _ _ _ (read_int_Ok 4 z s h rest Hrem)).
      rewrite Z_to_be_length. unfold ret.
      rewrite signed_small
        by (change (8 * Z.of_nat 4 - 1) with 31; lia).
      rewrite Hcanon. reflexivity.
Qed.

(** ** The bytes and the tables of a tree *)

Lemma extends_refl (w : nat) (K R : list string) (bs : list byte) :
  extends w K R (bs, (K, R)).
Proof.
  exists [], []. rewrite !app_nil_r. cbn. repeat split; lia.
Qed.

Lemma extends_trans (w1 w2 w : nat) (K R K1 R1 : list string)
  (bs : list byte) out :
  extends w1 K R (bs, (K1, R1)) -> extends w2 K1 R1 out ->
  (w1 + w2 <= w)%nat -> extends w K R out.
Proof.
  intros (K2 & R2 & E1 & L1 & NK1 & NR1) (K3 & R3 & E2 & L2 & NK2 & NR2) Hw.
  cbn [snd] in E1. injection E1 as -> ->.
  exists (K2 ++ K3), (R2 ++ R3). rewrite !app_assoc.
  split; [exact E2|]. rewrite !length_app, !forallb_app, NK1, NK2, NR1, NR2.
  repeat split; lia.
Qed.

Lemma extends_intern (k : string) (K R : list string) (bs : list byte) :
  nul_free k = true -> extends 1 K R (bs, (snd (intern k K), R)).
Proof.
  intros Hk. destruct (intern_spec k K) as (ext & E & L & _ & Hin & _).
  exists ext, []. rewrite E, app_nil_r. cbn [snd length].
  split; [reflexivity|]. split; [lia|]. split; [|reflexivity].
  apply forallb_forall. intros x Hx. rewrite (Hin x Hx). exact Hk.
Qed.

Lemma extends_intern_ref (k : string) (K R : list string) (bs : list byte) :
  nul_free k = true -> extends 1 K R (bs, (K, snd (intern k R))).
Proof.
  intros Hk. destruct (intern_spec k R) as (ext & E & L & _ & Hin & _).
  exists [], ext. rewrite E, app_nil_r. cbn [snd length].
  split; [reflexivity|]. split; [lia|]. split; [reflexivity|].
  apply forallb_forall. intros x Hx. rewrite (Hin x Hx). exact Hk.
Qed.

Lemma list_sum_cons (a : nat) (l : list nat) :
  list_sum (a :: l) = (a + list_sum l)%nat.
Proof. reflexivity. Qed.

Lemma tenc_elems_extends (ts : list tree) :
  Forall (fun t => forall K R, tree_ok t ->
                   extends (weight t) K R (tenc t K R)) ts ->
  forall K R, Forall tree_ok ts ->
    extends (list_sum (map (fun t => S (weight t)) ts)) K R (tenc_elems ts K R).
Proof.
  induction 1 as [|t ts Ht Hts IH]; intros K R Hok.
  - apply extends_refl.
  - inversion Hok as [|? ? Hok1 Hok2]; subst.
    cbn [tenc_elems map]. rewrite list_sum_cons.
    pose proof (Ht K R Hok1) as E1.
    destruct (tenc t K R) as [b1 [K1 R1]].
    pose proof (IH K1 R1 Hok2) as E2.
    destruct (tenc_elems ts K1 R1) as [b2 KR2].
    eapply (extends_trans (weight t)
              (list_sum (map (fun t => S (weight t)) ts)));
      [exact E1| |lia].
    destruct E2 as (K3 & R3 & E2 & L2 & N2). exists K3, R3.
    split; [exact E2|]. split; [lia|exact N2].
Qed.

Lemma tenc_props_extends (ps : list (string * tree)) :
  Forall (fun p => forall K R, tree_ok (snd p) ->
                   extends (weight (snd p)) K R (tenc (snd p) K R)) ps ->
  forall K R,
    Forall (fun p => nul_free (fst p) = true /\ tree_ok (snd p)) ps ->
    extends (list_sum (map (fun p => S (weight (snd p))) ps)) K R
      (tenc_props ps K R).
Proof.
  induction 1 as [|p ps Hp Hps IH]; intros K R Hok.
  - apply extends_refl.
  - inversion Hok as [|? ? [Hk Hok1] Hok2]; subst.
    cbn [tenc_props map]. rewrite list_sum_cons.
    pose proof (extends_intern (fst p) K R [] Hk) as E0.
    destruct (intern (fst p) K) as [i K0]. cbn [snd] in E0.
    pose proof (Hp K0 R Hok1) as E1.
    destruct (tenc (snd p) K0 R) as [b1 [K1 R1]].
    pose proof (IH K1 R1 Hok2) as E2.
    destruct (tenc_props ps K1 R1) as [b2 KR2].
    eapply (extends_trans 1
              (weight (snd p)
               + list_sum (map (fun p => S (weight (snd p))) ps)));
      [exact E0| |lia].
    eapply (extends_trans (weight (snd p))
              (list_sum (map (fun p => S (weight (snd p))) ps)));
      [exact E1| |lia].
    destruct E2 as (K3 & R3 & E2 & L2 & N2). exists K3, R3.
    split; [exact E2|]. split; [exact L2|exact N2].
Qed.

Lemma tenc_extends (t : tree) :
  forall K R, tree_ok t -> extends (weight t) K R (tenc t K R).
Proof.
  induction t as [ | | b | n | s | d | bs | ts IH | ps IH] using tree_induction;
    intros K R Hok; try apply extends_refl.
  - cbn [tenc]. destruct (String.eqb s EmptyString); [apply extends_refl|].
    pose proof (extends_intern_ref s K R [] Hok) as E.
    destruct (intern s R) as [i R']. exact E.
  - rewrite tenc_array. apply tree_ok_array in Hok.
    pose proof (tenc_elems_extends ts IH K R Hok) as E.
    destruct (tenc_elems ts K R) as [body KR].
    destruct E as (K2 & R2 & E & L & N). exists K2, R2.
    split; [exact E|]. split; [cbn [weight]; lia|exact N].
  - rewrite tenc_object. apply tree_ok_object in Hok. destruct Hok as [_ Hok].
    pose proof (tenc_props_extends ps IH K R Hok) as E.
    destruct (tenc_props ps K R) as [body KR].
    destruct E as (K2 & R2 & E & L & N). exists K2, R2.
    split; [exact E|]. split; [cbn [weight]; lia|exact N].
Qed.

Lemma tenc_nonempty (t : tree) (K R : list string) :
  (1 <= length (fst (tenc t K R)))%nat.
Proof.
  destruct t as [ | | b | n | s | d | bs | ts | ps];
    try (cbn [tenc fst length]; lia).
  - cbn [tenc]. destruct (String.eqb s EmptyString); [cbn; lia|].
    destruct (intern s R). cbn [fst length]. lia.
  - rewrite tenc_array. destruct (tenc_elems ts K R). cbn [fst length]. lia.
  - rewrite tenc_object. destruct (tenc_props ps K R). cbn [fst length]. lia.
Qed.

Lemma unfold_elems_length (h : heap) (vs : list value) (ts : list tree)
  (l : list addr) :
  unfold_elems h vs ts l -> length vs = length ts.
Proof. induction 1; cbn [length]; congruence. Qed.

Lemma unfold_props_length (h : heap) (ps : list (string * value))
  (tps : list (string * tree)) (l : list addr) :
  unfold_props h ps tps l -> length ps = length tps.
Proof. induction 1; cbn [length]; congruence. Qed.

Lemma weight_elems_length (ts : list tree) :
  (length ts <= list_sum (map (fun t => S (weight t)) ts))%nat.
Proof. induction ts; cbn [length map]; [cbn; lia|rewrite list_sum_cons; lia]. Qed.

Lemma weight_props_length (ps : list (string * tree)) :
  (length ps <= list_sum (map (fun p => S (weight (snd p))) ps))%nat.
Proof. induction ps; cbn [length map]; [cbn; lia|rewrite list_sum_cons; lia]. Qed.

Lemma extends_grows (w : nat) (K R : list string) out :
  extends w K R out -> grows w K R out.
Proof. intros (K2 & R2 & E & L & _). exists K2, R2. split; assumption. Qed.

Lemma grows_refl (w : nat) (K R : list string) (bs : list byte) :
  grows w K R (bs, (K, R)).
Proof. exists [], []. rewrite !app_nil_r. cbn. split; [reflexivity|lia]. Qed.

Lemma grows_trans (w1 w2 w : nat) (K R K1 R1 : list string)
  (bs : list byte) out :
  grows w1 K R (bs, (K1, R1)) -> grows w2 K1 R1 out ->
  (w1 + w2 <= w)%nat -> grows w K R out.
Proof.
  intros (K2 & R2 & E1 & L1) (K3 & R3 & E2 & L2) Hw.
  cbn [snd] in E1. injection E1 as -> ->.
  exists (K2 ++ K3), (R2 ++ R3). rewrite !app_assoc.
  split; [exact E2|]. rewrite !length_app. lia.
Qed.

Lemma grows_intern (k : string) (K R : list string) (bs : list byte) :
  grows 1 K R (bs, (snd (intern k K), R)).
Proof.
  destruct (intern_spec k K) as (ext & E & L & _).
  exists ext, []. rewrite E, app_nil_r. cbn [snd length]. split; [reflexivity|lia].
Qed.

Lemma grows_intern_ref (k : string) (K R : list string) (bs : list byte) :
  grows 1 K R (bs, (K, snd (intern k R))).
Proof.
  destruct (intern_spec k R) as (ext & E & L & _).
  exists [], ext. rewrite E, app_nil_r. cbn [snd length]. split; [reflexivity|lia].
Qed.

Lemma grows_bytes (w : nat) (K R : list string) (bs bs' : list byte) KR :
  grows w K R (bs, KR) -> grows w K R (bs', KR).
Proof. intros H. exact H. Qed.

Lemma tenc_elems_grows (ts : list tree) :
  Forall (fun t => forall K R, grows (weight t) K R (tenc t K R)) ts ->
  forall K R,
    grows (list_sum (map (fun t => S (weight t)) ts)) K R (tenc_elems ts K R).
Proof.
  induction 1 as [|t ts Ht Hts IH]; intros K R.
  - apply grows_refl.
  - cbn [tenc_elems map]. rewrite list_sum_cons.
    pose proof (Ht K R) as E1.
    destruct (tenc t K R) as [b1 [K1 R1]].
    pose proof (IH K1 R1) as E2.
    destruct (tenc_elems ts K1 R1) as [b2 KR2].
    eapply (grows_trans (weight t)
              (list_sum (map (fun t => S (weight t)) ts)));
      [exact E1|exact (grows_bytes _ _ _ b2 _ _ E2)|lia].
Qed.

Lemma tenc_props_grows (ps : list (string * tree)) :
  Forall (fun p => forall K R, grows (weight (snd p)) K R (tenc (snd p) K R)) ps ->
  forall K R,
    grows (list_sum (map (fun p => S (weight (snd p))) ps)) K R
      (tenc_props ps K R).
Proof.
  induction 1 as [|p ps Hp Hps IH]; intros K R.
  - apply grows_refl.
  - cbn [tenc_props map]. rewrite list_sum_cons.
    pose proof (grows_intern (fst p) K R []) as E0.
    destruct (intern (fst p) K) as [i K0]. cbn [snd] in E0.
    pose proof (Hp K0 R) as E1.
    destruct (tenc (snd p) K0 R) as [b1 [K1 R1]].
    pose proof (IH K1 R1) as E2.
    destruct (tenc_props ps K1 R1) as [b2 KR2].
    eapply (grows_trans 1
              (weight (snd p)
               + list_sum (map (fun p => S (weight (snd p))) ps)));
      [exact E0| |lia].
    eapply (grows_trans (weight (snd p))
              (list_sum (map (fun p => S (weight (snd p))) ps)));
      [exact E1|exact (grows_bytes _ _ _ b2 _ _ E2)|lia].
Qed.

(** The tables grow by no more strings than the tree weighs. *)
Lemma tenc_grows (t : tree) :
  forall K R, grows (weight t) K R (tenc t K R).
Proof.
  induction t as [ | | b | n | s | d | bs | ts IH | ps IH] using tree_induction;
    intros K R; try apply grows_refl.
  - cbn [tenc]. destruct (String.eqb s EmptyString); [apply grows_refl|].
    pose proof (grows_intern_ref s K R []) as E.
    destruct (intern s R) as [i R']. exact E.
  - rewrite tenc_array.
    pose proof (tenc_elems_grows ts IH K R) as E.
    destruct (tenc_elems ts K R) as [body KR].
    destruct E as (K2 & R2 & E & L). exists K2, R2.
    split; [exact E|cbn [weight]; lia].
  - rewrite tenc_object.
    pose proof (tenc_props_grows ps IH K R) as E.
    destruct (tenc_props ps K R) as [body KR].
    destruct E as (K2 & R2 & E & L). exists K2, R2.
    split; [exact E|cbn [weight]; lia].
Qed.

(** ** The encoder on a tree *)

Lemma serializeString_run (str : string) (d : DataStream.w)
  (refs : gmap addr Z) (sk : JSMap.t) (R : list string) (cyc : bool) :
  Z.of_nat (length R) + 1 < 2 ^ 32 ->
  Encoder.serializeString str (Encoder.mk d refs sk (keymap 1 R) cyc) =
  Ok (tt, Encoder.mk (d ++ tl (fst (tenc (TString str) [] R))) refs sk
            (keymap 1 (snd (snd (tenc (TString str) [] R)))) cyc).
Proof.
  intros HR. unfold Encoder.serializeString. cbn [tenc].
  destruct (String.eqb str EmptyString).
  - unfold bind at 1. unfold ret at 1.
    rewrite Encoder_serializeCount_ok by lia. reflexivity.
  - unfold bind at 1. unfold bind at 1. unfold get at 1.
    cbn [Encoder.string_refs]. rewrite keymap_get. unfold intern.
    destruct (index_of str R) as [i|] eqn:E; cbn [option_map fst snd tl].
    + unfold ret at 1.
      pose proof (lookup_lt_Some _ _ _ (index_of_lookup _ _ _ E)).
      rewrite Encoder_serializeCount_ok by lia.
      rewrite (Z.add_comm 1). reflexivity.
    + unfold bind at 1. unfold modify at 1. unfold ret at 1.
      rewrite keymap_size.
      rewrite Encoder_serializeCount_ok by lia.
      unfold Encoder.set_string_refs, Encoder.set_ds;
      cbn [Encoder.ds
           Encoder.object_refs Encoder.string_keys Encoder.string_refs
           Encoder.hasCycle].
      rewrite (Z.add_comm _ 1), keymap_set by exact E. reflexivity.
Qed.

Lemma serializeNumber_run (n : F64.t) (tag : Z) (e : Encoder.t) :
  Encoder.serializeNumber n tag e =
  Ok (tt, Encoder.set_ds (Encoder.ds e ++ number_body n tag) e).
Proof.
  unfold Encoder.serializeNumber, number_body.
  repeat match goal with
         | |- context [if ?c then _ else _] => destruct c; [reflexivity|]
         end.
  reflexivity.
Qed.

Lemma list_max_Forall (f : nat) (l : list nat) :
  (list_max l < f)%nat -> Forall (fun x => (x < f)%nat) l.
Proof.
  induction l as [|x l IH]; intros H; constructor.
  - cbn [list_max fold_right] in H. unfold list_max in H. cbn in H. lia.
  - apply IH. unfold list_max in *. cbn in H. lia.
Qed.

Lemma serializeComponent_tree (h : heap) :
  forall v t l, unfold h v t l ->
  forall fuel e K R,
    (depth t < fuel)%nat -> holds e K R ->
    (forall a, a ∈ l -> Encoder.object_refs e !! a = None) ->
    NoDup l ->
    Z.of_nat (length K + length R + weight t) < 2 ^ 32 ->
    writes (Encoder.serializeComponent fuel h v) e l (tenc t K R).
Proof.
  apply (unfold_mut h
    (fun v t l =>
       forall fuel e K R,
         (depth t < fuel)%nat -> holds e K R ->
         (forall a, a ∈ l -> Encoder.object_refs e !! a = None) ->
         NoDup l ->
         Z.of_nat (length K + length R + weight t) < 2 ^ 32 ->
         writes (Encoder.serializeComponent fuel h v) e l (tenc t K R))
    (fun vs ts l =>
       forall fuel e K R,
         Forall (fun t => (depth t < fuel)%nat) ts -> holds e K R ->
         (forall a, a ∈ l -> Encoder.object_refs e !! a = None) ->
         NoDup l ->
         Z.of_nat (length K + length R
                   + list_sum (map (fun t => S (weight t)) ts)) < 2 ^ 32 ->
         writes (Encoder.serializeElements (Encoder.serializeComponent fuel h) vs)
           e l (tenc_elems ts K R))
    (fun ps tps l =>
       forall fuel e K R,
         Forall (fun p => (depth (snd p) < fuel)%nat) tps -> holds e K R ->
         (forall a, a ∈ l -> Encoder.object_refs e !! a = None) ->
         NoDup l ->
         Z.of_nat (length K + length R
                   + list_sum (map (fun p => S (weight (snd p))) tps)) < 2 ^ 32 ->
         writes (Encoder.serializeProperties (Encoder.serializeComponent fuel h) ps)
           e l (tenc_props tps K R))).
  - (* undefined *)
    intros fuel [d refs sk sr cyc] K R Hf [HK HR] _ _ _.
    cbn [Encoder.string_keys Encoder.string_refs] in HK, HR. subst sk sr.
    destruct fuel as [|fuel]; [lia|]. exists refs. split; [reflexivity|auto].
  - intros fuel [d refs sk sr cyc] K R Hf [HK HR] _ _ _.
    cbn [Encoder.string_keys Encoder.string_refs] in HK, HR. subst sk sr.
    destruct fuel as [|fuel]; [lia|]. exists refs. split; [reflexivity|auto].
  - intros b fuel [d refs sk sr cyc] K R Hf [HK HR] _ _ _.
    cbn [Encoder.string_keys Encoder.string_refs] in HK, HR. subst sk sr.
    destruct fuel as [|fuel]; [lia|]. exists refs.
    split; [destruct b; reflexivity|auto].
  - (* number *)
    intros n fuel [d refs sk sr cyc] K R Hf [HK HR] _ _ _.
    cbn [Encoder.string_keys Encoder.string_refs] in HK, HR. subst sk sr.
    destruct fuel as [|fuel]; [lia|]. exists refs. split; [|auto].
    cbn [Encoder.serializeComponent Encoder.getValueTag
         Encoder.serializeComponentPart tenc fst snd].
    unfold bind at 1. unfold Encoder.write at 1, modify at 1.
    rewrite serializeNumber_run.
    unfold Encoder.set_ds;
    cbn [Encoder.ds Encoder.object_refs Encoder.string_keys
         Encoder.string_refs Encoder.hasCycle].
    unfold DataStream.writeUint8, DataStream.writeUint. rewrite Z_to_be_1.
    rewrite <- app_assoc. reflexivity.
  - (* string *)
    intros s fuel [d refs sk sr cyc] K R Hf [HK HR] _ _ Hw.
    cbn [Encoder.string_keys Encoder.string_refs] in HK, HR. subst sk sr.
    destruct fuel as [|fuel]; [lia|]. exists refs. split; [|auto].
    cbn [Encoder.serializeComponent Encoder.getValueTag
         Encoder.serializeComponentPart].
    unfold bind at 1. unfold Encoder.write at 1, modify at 1.
    unfold Encoder.set_ds;
    cbn [Encoder.ds Encoder.object_refs Encoder.string_keys
         Encoder.string_refs Encoder.hasCycle].
    cbn [weight] in Hw.
    rewrite serializeString_run by lia.
    unfold DataStream.writeUint8, DataStream.writeUint. rewrite Z_to_be_1.
    cbn [tenc]. destruct (String.eqb s EmptyString).
    + cbn [fst snd tl]. rewrite <- app_assoc. reflexivity.
    + destruct (intern s R) as [i R']. cbn [fst snd tl].
      rewrite <- app_assoc. reflexivity.
  - (* date *)
    intros t fuel [d refs sk sr cyc] K R Hf [HK HR] _ _ _.
    cbn [Encoder.string_keys Encoder.string_refs] in HK, HR. subst sk sr.
    destruct fuel as [|fuel]; [lia|]. exists refs. split; [|auto].
    cbn [Encoder.serializeComponent Encoder.getValueTag
         Encoder.serializeComponentPart tenc fst snd].
    unfold bind, Encoder.serializeDate, Encoder.write, modify.
    unfold Encoder.set_ds;
    cbn [Encoder.ds Encoder.object_refs Encoder.string_keys
         Encoder.string_refs Encoder.hasCycle].
    unfold DataStream.writeUint8, DataStream.writeFloat64, DataStream.writeUint.
    rewrite <- app_assoc. reflexivity.
  - (* bytes *)
    intros bs fuel [d refs sk sr cyc] K R Hf [HK HR] _ _ Hw.
    cbn [Encoder.string_keys Encoder.string_refs] in HK, HR. subst sk sr.
    destruct fuel as [|fuel]; [lia|]. exists refs. split; [|auto].
    cbn [Encoder.serializeComponent Encoder.getValueTag
         Encoder.serializeComponentPart tenc fst snd].
    unfold bind at 1. unfold Encoder.write at 1, modify at 1.
    unfold bind at 1.
    cbn [weight] in Hw.
    rewrite Encoder_serializeCount_ok by lia.
    unfold Encoder.write, modify.
    unfold Encoder.set_ds;
    cbn [Encoder.ds Encoder.object_refs Encoder.string_keys
         Encoder.string_refs Encoder.hasCycle].
    unfold DataStream.writeUint8, DataStream.writeUint8Array, DataStream.writeUint.
    rewrite <- !app_assoc. reflexivity.
  - (* array *)
    intros a vs ts l Ha Hu IH fuel [d refs sk sr cyc] K R Hf [HK HR] Hrefs Hnd Hw.
    cbn [Encoder.string_keys Encoder.string_refs] in HK, HR. subst sk sr.
    destruct fuel as [|fuel]; [lia|].
    cbn [Encoder.object_refs] in Hrefs.
    pose proof (unfold_elems_length _ _ _ _ Hu) as Hlen.
    pose proof (weight_elems_length ts) as Hwl.
    cbn [weight] in Hw.
    set (e1 := Encoder.mk
                 (d ++ byte_of_Z TAG_ARRAY :: varint (Z.of_nat (length vs)))
                 (<[a := DataStream.wposition d]> refs)
                 (keymap 0 K) (keymap 1 R) cyc).
    assert (Hstep :
      Encoder.serializeComponent (S fuel) h (VRef a)
        (Encoder.mk d refs (keymap 0 K) (keymap 1 R) cyc) =
      Encoder.serializeElements (Encoder.serializeComponent fuel h) vs e1).
    { cbn [Encoder.serializeComponent]. rewrite Ha.
      unfold Encoder.serializeArray.
      unfold bind at 1. unfold get at 1. cbn [Encoder.object_refs].
      rewrite (Hrefs a) by apply list_elem_of_here.
      unfold bind at 1. unfold modify at 1.
      unfold bind at 1. unfold Encoder.write at 1, modify at 1.
      unfold bind at 1.
      rewrite Encoder_serializeCount_ok by lia.
      unfold Encoder.set_ds, Encoder.set_object_refs;
      cbn [Encoder.ds Encoder.object_refs
           Encoder.string_keys Encoder.string_refs Encoder.hasCycle].
      unfold DataStream.writeUint8, DataStream.writeUint.
      rewrite Z_to_be_1, <- app_assoc. reflexivity. }
    apply NoDup_cons in Hnd as [Hnotin Hnd].
    cbn [depth] in Hf.
    destruct (IH fuel e1 K R) as (refs' & Hrun & Hout).
    + apply Forall_map with (f := depth)(P := fun x => (x < fuel)%nat).
      apply list_max_Forall. lia.
    + split; reflexivity.
    + intros a' Ha'. subst e1. cbn [Encoder.object_refs].
      rewrite lookup_insert_ne by (intros ->; contradiction).
      apply Hrefs. set_solver.
    + exact Hnd.
    + lia.
    + exists refs'. rewrite tenc_array.
      destruct (tenc_elems ts K R) as [body [K' R']].
      cbn [fst snd Encoder.ds Encoder.hasCycle] in *. split.
      * rewrite Hstep, Hrun. subst e1. cbn [Encoder.ds Encoder.hasCycle].
        rewrite Hlen, <- !app_assoc. reflexivity.
      * intros a' Ha'. rewrite Hout by set_solver.
        subst e1. cbn [Encoder.object_refs].
        apply lookup_insert_ne. set_solver.
  - (* object *)
    intros a ps tps l Ha Hu IH fuel [d refs sk sr cyc] K R Hf [HK HR] Hrefs Hnd Hw.
    cbn [Encoder.string_keys Encoder.string_refs] in HK, HR. subst sk sr.
    destruct fuel as [|fuel]; [lia|].
    cbn [Encoder.object_refs] in Hrefs.
    pose proof (unfold_props_length _ _ _ _ Hu) as Hlen.
    pose proof (weight_props_length tps) as Hwl.
    cbn [weight] in Hw.
    set (e1 := Encoder.mk
                 (d ++ byte_of_Z TAG_OBJECT :: varint (Z.of_nat (length ps)))
                 (<[a := DataStream.wposition d]> refs)
                 (keymap 0 K) (keymap 1 R) cyc).
    assert (Hstep :
      Encoder.serializeComponent (S fuel) h (VRef a)
        (Encoder.mk d refs (keymap 0 K) (keymap 1 R) cyc) =
      Encoder.serializeProperties (Encoder.serializeComponent fuel h) ps e1).
    { cbn [Encoder.serializeComponent]. rewrite Ha.
      unfold Encoder.serializeObject.
      unfold bind at 1. unfold get at 1. cbn [Encoder.object_refs].
      rewrite (Hrefs a) by apply list_elem_of_here.
      unfold bind at 1. unfold modify at 1.
      unfold bind at 1. unfold Encoder.write at 1, modify at 1.
      unfold bind at 1.
      rewrite Encoder_serializeCount_ok by lia.
      unfold Encoder.set_ds, Encoder.set_object_refs;
      cbn [Encoder.ds Encoder.object_refs
           Encoder.string_keys Encoder.string_refs Encoder.hasCycle].
      unfold DataStream.writeUint8, DataStream.writeUint.
      rewrite Z_to_be_1, <- app_assoc. reflexivity. }
    apply NoDup_cons in Hnd as [Hnotin Hnd].
    cbn [depth] in Hf.
    destruct (IH fuel e1 K R) as (refs' & Hrun & Hout).
    + apply Forall_map with (f := fun p => depth (snd p))
                            (P := fun x => (x < fuel)%nat).
      apply list_max_Forall. lia.
    + split; reflexivity.
    + intros a' Ha'. subst e1. cbn [Encoder.object_refs].
      rewrite lookup_insert_ne by (intros ->; contradiction).
      apply Hrefs. set_solver.
    + exact Hnd.
    + lia.
    + exists refs'. rewrite tenc_object.
      destruct (tenc_props tps K R) as [body [K' R']].
      cbn [fst snd Encoder.ds Encoder.hasCycle] in *. split.
      * rewrite Hstep, Hrun. subst e1. cbn [Encoder.ds Encoder.hasCycle].
        rewrite Hlen, <- !app_assoc. reflexivity.
      * intros a' Ha'. rewrite Hout by set_solver.
        subst e1. cbn [Encoder.object_refs].
        apply lookup_insert_ne. set_solver.
  - (* no element *)
    intros fuel [d refs sk sr cyc] K R _ [HK HR] _ _ _.
    cbn [Encoder.string_keys Encoder.string_refs] in HK, HR. subst sk sr.
    exists refs. cbn [tenc_elems fst snd Encoder.ds Encoder.hasCycle].
    rewrite app_nil_r. split; [reflexivity|auto].
  - (* an element and the others *)
    intros v t l vs ts ls Hu1 IH1 Hu2 IH2 fuel e K R Hf Hh Hrefs Hnd Hw.
    inversion Hf as [|? ? Hf1 Hf2]; subst.
    cbn [map] in Hw. rewrite list_sum_cons in Hw.
    apply NoDup_app in Hnd as (Hnd1 & Hdisj & Hnd2).
    destruct (IH1 fuel e K R Hf1 Hh) as (refs1 & Hrun1 & Hout1);
      [intros a Ha; apply Hrefs; set_solver
      |exact Hnd1|lia|].
    cbn [tenc_elems Encoder.serializeElements].
    pose proof (tenc_grows t K R) as (K2 & R2 & E & L).
    destruct (tenc t K R) as [b1 [K1 R1]]. cbn [fst snd] in *.
    injection E as -> ->.
    match type of Hrun1 with
    | _ = Ok (tt, ?e1) =>
        destruct (IH2 fuel e1 (K ++ K2) (R ++ R2) Hf2) as (refs2 & Hrun2 & Hout2)
    end.
    + split; reflexivity.
    + intros a Ha. cbn [Encoder.object_refs].
      rewrite Hout1 by (intros Hin; exact (Hdisj a Hin Ha)).
      apply Hrefs. set_solver.
    + exact Hnd2.
    + rewrite !length_app. lia.
    + exists refs2. destruct (tenc_elems ts (K ++ K2) (R ++ R2)) as [b2 [K3 R3]].
      cbn [fst snd Encoder.ds Encoder.hasCycle] in *. split.
      * unfold bind. rewrite Hrun1, Hrun2, <- app_assoc. reflexivity.
      * intros a Ha. rewrite Hout2 by set_solver.
        cbn [Encoder.object_refs]. apply Hout1. set_solver.
  - (* no property *)
    intros fuel [d refs sk sr cyc] K R _ [HK HR] _ _ _.
    cbn [Encoder.string_keys Encoder.string_refs] in HK, HR. subst sk sr.
    exists refs. cbn [tenc_props fst snd Encoder.ds Encoder.hasCycle].
    rewrite app_nil_r. split; [reflexivity|auto].
  - (* a property and the others *)
    intros k v t l ps tps ls Hu1 IH1 Hu2 IH2 fuel [d refs sk sr cyc] K R
      Hf [HK HR] Hrefs Hnd Hw.
    cbn [Encoder.string_keys Encoder.string_refs] in HK, HR. subst sk sr.
    inversion Hf as [|? ? Hf1 Hf2]; subst.
    cbn [fst snd] in *.
    cbn [map] in Hw. rewrite list_sum_cons in Hw. cbn [snd] in Hw.
    apply NoDup_app in Hnd as (Hnd1 & Hdisj & Hnd2).
    destruct (intern_spec k K) as (ext & Eext & Lext & _ & _ & Hi).
    (* the name *)
    assert (Hname :
        match JSMap.get (keymap 0 K) k with
        | Some index => ret index
        | None =>
            modify (Encoder.set_string_keys
                      (JSMap.set (keymap 0 K) k (JSMap.size (keymap 0 K)))) ;;;
            ret (JSMap.size (keymap 0 K))
        end (Encoder.mk d refs (keymap 0 K) (keymap 1 R) cyc) =
        Ok (Z.of_nat (fst (intern k K)),
            Encoder.mk d refs (keymap 0 (snd (intern k K))) (keymap 1 R) cyc)).
    { rewrite keymap_get. unfold intern.
      destruct (index_of k K) as [i|] eqn:E; cbn [option_map fst snd].
      - unfold ret. rewrite Z.add_0_l. reflexivity.
      - unfold bind, modify, ret. rewrite keymap_size.
        unfold Encoder.set_string_keys;
        cbn [Encoder.ds Encoder.object_refs
             Encoder.string_keys Encoder.string_refs Encoder.hasCycle].
        rewrite <- (Z.add_0_l (Z.of_nat (length K))) at 1.
        rewrite keymap_set by exact E. reflexivity. }
    cbn [tenc_props fst snd].
    destruct (intern k K) as [i K0]. cbn [fst snd] in *. subst K0.
    set (e0 := Encoder.mk (d ++ varint (Z.of_nat i)) refs
                 (keymap 0 (K ++ ext)) (keymap 1 R) cyc).
    destruct (IH1 fuel e0 (K ++ ext) R Hf1) as (refs1 & Hrun1 & Hout1).
    { split; reflexivity. }
    { intros a Ha. apply Hrefs. set_solver. }
    { exact Hnd1. }
    { rewrite length_app. lia. }
    pose proof (tenc_grows t (K ++ ext) R) as (K2 & R2 & E & L).
    destruct (tenc t (K ++ ext) R) as [b1 [K1 R1]]. cbn [fst snd] in *.
    injection E as -> ->.
    match type of Hrun1 with
    | _ = Ok (tt, ?e1) =>
        destruct (IH2 fuel e1 ((K ++ ext) ++ K2) (R ++ R2) Hf2)
          as (refs2 & Hrun2 & Hout2)
    end.
    + split; reflexivity.
    + intros a Ha. cbn [Encoder.object_refs].
      rewrite Hout1 by (intros Hin; exact (Hdisj a Hin Ha)).
      apply Hrefs. set_solver.
    + exact Hnd2.
    + rewrite !length_app. lia.
    + exists refs2.
      destruct (tenc_props tps ((K ++ ext) ++ K2) (R ++ R2)) as [b2 [K3 R3]].
      cbn [fst snd Encoder.ds Encoder.hasCycle] in *. split.
      * cbn [Encoder.serializeProperties].
        unfold bind at 1. unfold get at 1. cbn [Encoder.string_keys].
        unfold bind at 1. rewrite Hname.
        unfold bind at 1. rewrite Encoder_serializeCount_ok by lia.
        unfold Encoder.set_ds;
        cbn [Encoder.ds Encoder.object_refs Encoder.string_keys
             Encoder.string_refs Encoder.hasCycle].
        fold e0. unfold bind. rewrite Hrun1, Hrun2.
        subst e0. cbn [Encoder.ds Encoder.hasCycle].
        rewrite <- !app_assoc. reflexivity.
      * intros a Ha. rewrite Hout2 by set_solver.
        cbn [Encoder.object_refs]. rewrite Hout1 by set_solver.
        reflexivity.
Qed.

(** ** The number tags that are written *)

Lemma F64_expo_abs (x : F64.t) : F64.expo (F64.abs x) = F64.expo x.
Proof.
  unfold F64.expo, F64.abs. change (2 ^ 63 - 1) with (Z.ones 63).
  change 2047 with (Z.ones 11).
  apply Z.bits_inj'. intros n Hn.
  rewrite !Z.land_spec, !Z.shiftr_spec, Z.land_spec by lia.
  rewrite !Z.testbit_ones_nonneg by lia.
  destruct (Z.ltb_spec n 11); [|rewrite !andb_false_r; reflexivity].
  destruct (Z.ltb_spec (n + 52) 63); [|lia].
  rewrite andb_true_r. reflexivity.
Qed.

Lemma F64_mant_abs (x : F64.t) : F64.mant (F64.abs x) = F64.mant x.
Proof.
  unfold F64.mant, F64.abs. change (2 ^ 63 - 1) with (Z.ones 63).
  change (2 ^ 52 - 1) with (Z.ones 52).
  apply Z.bits_inj'. intros n Hn.
  rewrite !Z.land_spec, !Z.testbit_ones_nonneg by lia.
  destruct (Z.ltb_spec n 52); [|rewrite !andb_false_r; reflexivity].
  destruct (Z.ltb_spec n 63); [|lia].
  rewrite !andb_true_r. reflexivity.
Qed.

Lemma F64_sign_abs (x : F64.t) : F64.sign (F64.abs x) = false.
Proof.
  unfold F64.sign, F64.abs. change (2 ^ 63 - 1) with (Z.ones 63).
  rewrite Z.land_spec, Z.testbit_ones_nonneg by lia.
  apply andb_false_r.
Qed.

Lemma F64_mant_nonneg (x : F64.t) : 0 <= F64.mant x.
Proof.
  unfold F64.mant. change (2 ^ 52 - 1) with (Z.ones 52).
  rewrite Z.land_ones by lia. apply Z.mod_pos_bound. lia.
Qed.

Lemma F64_view_abs (x : F64.t) :
  F64.view_of (F64.abs x) =
  match F64.view_of x with
  | F64.NaN => F64.NaN
  | F64.Inf _ => F64.Inf false
  | F64.Fin m e => F64.Fin (Z.abs m) e
  end.
Proof.
  unfold F64.view_of.
  rewrite F64_expo_abs, F64_mant_abs, F64_sign_abs.
  pose proof (F64_mant_nonneg x) as Hm.
  destruct (F64.expo x =? 2047).
  - destruct (F64.mant x =? 0); reflexivity.
  - destruct (F64.expo x =? 0), (F64.sign x); f_equal; lia.
Qed.

Lemma F64_to_int_abs (x : F64.t) :
  F64.to_int (F64.abs x) = option_map Z.abs (F64.to_int x).
Proof.
  unfold F64.to_int. rewrite F64_view_abs.
  destruct (F64.view_of x) as [| |m e]; try reflexivity.
  destruct (Z.leb_spec 0 e) as [He|He].
  - cbn [option_map]. f_equal.
    rewrite Z.abs_mul. f_equal. symmetry. apply Z.abs_eq. apply Z.pow_nonneg. lia.
  - assert (Hd : 0 < 2 ^ (- e)) by (apply Z.pow_pos_nonneg; lia).
    rewrite Z.rem_abs_l by lia.
    destruct (Z.eqb_spec (Z.rem m (2 ^ (- e))) 0) as [Hr|Hr].
    + rewrite Hr. cbn [Z.abs Z.eqb option_map]. f_equal.
      rewrite <- (Z.abs_eq (2 ^ (- e))) at 1 by lia.
      apply Z.quot_abs. lia.
    + destruct (Z.eqb_spec (Z.abs (Z.rem m (2 ^ (- e)))) 0); [lia|reflexivity].
Qed.

Lemma F64_lt_int_to_int (x : F64.t) (z k : Z) :
  F64.to_int x = Some z -> F64.lt_int x k = (z <? k).
Proof.
  unfold F64.to_int, F64.lt_int.
  destruct (F64.view_of x) as [| |m e]; try discriminate.
  destruct (Z.leb_spec 0 e) as [He|He]; [congruence|].
  destruct (Z.eqb_spec (Z.rem m (2 ^ (- e))) 0) as [Hr|Hr]; [|discriminate].
  intros [= <-].
  assert (Hd : 0 < 2 ^ (- e)) by (apply Z.pow_pos_nonneg; lia).
  pose proof (Z.quot_rem' m (2 ^ (- e))) as Hq. rewrite Hr in Hq.
  destruct (Z.ltb_spec m (k * 2 ^ (- e))), (Z.ltb_spec (Z.quot m (2 ^ (- e))) k);
    try reflexivity; nia.
Qed.

(** What the first serializer writes for a number: the tag of its
    ladder, then the body of that tag. *)
Lemma Serializer_serializeNumber_run (x : F64.t) (ds : DataStream.w) :
  Serializer.serializeNumber x ds =
  ds ++ byte_of_Z (legacy_ladder (F64.to_int x))
     :: number_body x (legacy_ladder (F64.to_int x)).
Proof.
  unfold Serializer.serializeNumber, legacy_ladder.
  unfold DataStream.writeInt8, DataStream.writeInt16, DataStream.writeInt32,
    DataStream.writeFloat64, DataStream.writeUint8, DataStream.writeUint.
  rewrite !Z_to_be_1, <- !app_assoc. cbn [app].
  pose proof (F64_to_int_abs x) as Ha.
  destruct (F64.to_int x) as [z|] eqn:Hz; cbn [option_map] in Ha.
  2:{ rewrite F64_eq_int_none by assumption. reflexivity. }
  rewrite (F64_trunc_to_int _ _ Ha).
  rewrite (F64_eq_int_to_int _ _ _ Ha), !(F64_lt_int_to_int _ _ _ Ha), bor_0.
  pose proof (ToInt32_range (Z.abs z)) as Hi.
  change (2 ^ 7 - 1) with 127. change (2 ^ 15 - 1) with 32767.
  destruct (Z.ltb_spec (Z.abs z) (2 ^ 31)) as [H31|H31].
  - rewrite ToInt32_small by lia. rewrite Z.eqb_refl.
    destruct (Z.abs z <? 127); [reflexivity|].
    destruct (Z.abs z <? 32767); reflexivity.
  - destruct (Z.eqb_spec (Z.abs z) (JS.ToInt32 (Z.abs z))); [lia|]. reflexivity.
Qed.

(** What the encoder writes for a number: the tag [getNumberTag]
    chooses, then the body of that tag. *)
Lemma serializeComponent_number (fuel : nat) (h : heap) (x : F64.t)
    (e : Encoder.t) :
  Encoder.serializeComponent (S fuel) h (VNumber x) e =
  Ok (tt, Encoder.set_ds
            (Encoder.ds e ++ byte_of_Z (tag_ladder (F64.to_int x))
               :: number_body x (tag_ladder (F64.to_int x))) e).
Proof.
  destruct e as [d refs sk sr cyc].
  cbn [Encoder.serializeComponent Encoder.getValueTag
       Encoder.serializeComponentPart].
  rewrite getNumberTag_ladder.
  unfold bind at 1. unfold Encoder.write at 1, modify at 1.
  rewrite serializeNumber_run.
  unfold Encoder.set_ds;
    cbn [Encoder.ds Encoder.object_refs Encoder.string_keys
         Encoder.string_refs Encoder.hasCycle].
  unfold DataStream.writeUint8, DataStream.writeUint. rewrite Z_to_be_1.
  rewrite <- app_assoc. reflexivity.
Qed.

Lemma signed_tag_ladder (z : Z) :
  signed_tag (tag_ladder (Some z)) = (- 2 ^ 31 <=? z) && (z <? 0).
Proof.
  unfold tag_ladder.
  destruct (Z.leb_spec 0 z), (Z.ltb_spec z (2 ^ 32)); cbn [andb].
  - destruct (Z.leb_spec (- 2 ^ 31) z), (Z.ltb_spec z 0); try lia.
    destruct (z <? 2 ^ 8); [reflexivity|].
    destruct (z <? 2 ^ 16); reflexivity.
  - destruct (Z.leb_spec (- 2 ^ 31) z), (Z.ltb_spec z 0); try lia. reflexivity.
  - destruct (Z.leb_spec (- 2 ^ 31) z), (Z.ltb_spec z 0); try lia; cbn [andb].
    + destruct (- 2 ^ 7 <=? z); [reflexivity|].
      destruct (- 2 ^ 15 <=? z); reflexivity.
    + reflexivity.
  - lia.
Qed.

(** C4 (counterexample).  The number 5 lies in [-128, 127]: the encoder
    writes it with the unsigned tag [0x12], not [INT8].  The numbers
    127 and -128 lie in [-128, 127] too: the first serializer writes
    them with [INT16] (0x03), as its bound is strict and on the
    absolute value. *)
Lemma small_numbers_do_not_get_INT8 :
  F64.to_int (F64.of_int 5) = Some 5 /\
  encode [] (VNumber (F64.of_int 5)) false = Ok [x41; x00; x00; x12; x05] /\
  F64.to_int (F64.of_int 127) = Some 127 /\
  Serializer.serializeNumber (F64.of_int 127) [] = [x03; x00; x7f] /\
  F64.to_int (F64.of_int (-128)) = Some (-128) /\
  Serializer.serializeNumber (F64.of_int (-128)) [] = [x03; xff; x80].
Proof. repeat split; vm_compute; reflexivity. Qed.

(** C4 (amended).  For every number [x], with [n] the integer it is
    equal to, if any:
    - the encoder appends to its stream one tag byte and the body of
      that tag, and nothing else changes in its state; the tag is
      [UINT8] (0x12) when [0 <= n < 2^8], [UINT16] (0x13) when
      [2^8 <= n < 2^16], [UINT32] (0x14) when [2^16 <= n < 2^32],
      [INT8] (0x02) when [-2^7 <= n < 0], [INT16] (0x03) when
      [-2^15 <= n < -2^7], [INT32] (0x04) when [-2^31 <= n < -2^15],
      and [NUMBER] (0x09) otherwise; the body is the low 1, 2 or 4 bytes
      of [n], big-endian, for an integer tag and the 8 bytes of the
      number for [NUMBER];
    - the first serializer appends one tag byte and the body of that
      tag; the tag is [INT8] when [|n| < 127], [INT16] when
      [127 <= |n| < 32767], [INT32] when [32767 <= |n| < 2^31], and
      [NUMBER] otherwise;
    - so the encoder writes a signed tag for the negative integers from
      [-2^31] and for no other number, and the first serializer never
      writes an unsigned tag. *)
Theorem number_tag_and_body_written (x : F64.t) :
  (forall fuel h e,
      Encoder.serializeComponent (S fuel) h (VNumber x) e =
      Ok (tt, Encoder.set_ds
                (Encoder.ds e ++ byte_of_Z (tag_ladder (F64.to_int x))
                   :: number_body x (tag_ladder (F64.to_int x))) e)) /\
  (forall ds,
      Serializer.serializeNumber x ds =
      ds ++ byte_of_Z (legacy_ladder (F64.to_int x))
         :: number_body x (legacy_ladder (F64.to_int x))) /\
  (signed_tag (tag_ladder (F64.to_int x)) = true <->
   exists z, F64.to_int x = Some z /\ - 2 ^ 31 <= z < 0) /\
  unsigned_tag (legacy_ladder (F64.to_int x)) = false.
Proof.
  split; [intros; apply serializeComponent_number|].
  split; [intros; apply Serializer_serializeNumber_run|].
  split.
  - destruct (F64.to_int x) as [z|].
    + rewrite signed_tag_ladder. split.
      * intros H. exists z. split; [reflexivity|].
        apply andb_true_iff in H. destruct H as [H1 H2].
        apply Z.leb_le in H1. apply Z.ltb_lt in H2. lia.
      * intros (z' & [= <-] & Hz). apply andb_true_iff.
        split; [apply Z.leb_le|apply Z.ltb_lt]; lia.
    + split; [discriminate|]. intros (z & Hz & _). discriminate.
  - unfold legacy_ladder. destruct (F64.to_int x) as [z|]; [|reflexivity].
    destruct (Z.abs z <? 2 ^ 31); [|reflexivity].
    destruct (Z.abs z <? 2 ^ 7 - 1); [reflexivity|].
    destruct (Z.abs z <? 2 ^ 15 - 1); reflexivity.
Qed.

(** ** The decoder on the bytes of a tree *)

Lemma msize_table_of (strs : list string) :
  Decoder.msize (table_of strs) = Z.of_nat (length strs).
Proof.
  unfold Decoder.msize, table_of. f_equal. generalize 0.
  induction strs as [|s strs IH]; intros start.
  - apply map_size_empty.
  - rewrite map_seqZ_cons, map_size_insert_None by apply map_seqZ_cons_disjoint.
    rewrite IH. reflexivity.
Qed.

Lemma table_of_lookup (strs ext : list string) (i : nat) (s : string) :
  strs !! i = Some s -> table_of (strs ++ ext) !! Z.of_nat i = Some s.
Proof.
  intros H. unfold table_of. rewrite lookup_map_seqZ_0 by lia.
  rewrite Nat2Z.id. apply lookup_app_l_Some, H.
Qed.

Lemma unfold_stable (h h' : heap) :
  forall v t l, unfold h v t l ->
    (forall a, a ∈ l -> h' !! a = h !! a) -> unfold h' v t l.
Proof.
  apply (unfold_mut h
    (fun v t l => (forall a, a ∈ l -> h' !! a = h !! a) -> unfold h' v t l)
    (fun vs ts l =>
       (forall a, a ∈ l -> h' !! a = h !! a) -> unfold_elems h' vs ts l)
    (fun ps tps l =>
       (forall a, a ∈ l -> h' !! a = h !! a) -> unfold_props h' ps tps l));
    try (intros; constructor; fail).
  - intros a vs ts l Ha _ IH H. apply unfold_array with vs.
    + rewrite H by apply list_elem_of_here. exact Ha.
    + apply IH. intros a' Ha'. apply H. apply list_elem_of_further, Ha'.
  - intros a ps tps l Ha _ IH H. apply unfold_object with ps.
    + rewrite H by apply list_elem_of_here. exact Ha.
    + apply IH. intros a' Ha'. apply H. apply list_elem_of_further, Ha'.
  - intros v t l vs ts ls _ IH1 _ IH2 H. constructor.
    + apply IH1. intros a Ha. apply H. apply elem_of_app. left. exact Ha.
    + apply IH2. intros a Ha. apply H. apply elem_of_app. right. exact Ha.
  - intros k v t l ps tps ls _ IH1 _ IH2 H. constructor.
    + apply IH1. intros a Ha. apply H. apply elem_of_app. left. exact Ha.
    + apply IH2. intros a Ha. apply H. apply elem_of_app. right. exact Ha.
Qed.

Lemma unfold_elems_stable (h h' : heap) (vs : list value) (ts : list tree)
  (l : list addr) :
  unfold_elems h vs ts l ->
  (forall a, a ∈ l -> h' !! a = h !! a) -> unfold_elems h' vs ts l.
Proof.
  induction 1 as [|v t l vs ts ls Hu _ IH]; intros H; constructor.
  - eapply unfold_stable; [exact Hu|].
    intros a Ha. apply H. apply elem_of_app. left. exact Ha.
  - apply IH. intros a Ha. apply H. apply elem_of_app. right. exact Ha.
Qed.

Lemma unfold_props_stable (h h' : heap) (ps : list (string * value))
  (tps : list (string * tree)) (l : list addr) :
  unfold_props h ps tps l ->
  (forall a, a ∈ l -> h' !! a = h !! a) -> unfold_props h' ps tps l.
Proof.
  induction 1 as [|k v t l ps tps ls Hu _ IH]; intros H; constructor.
  - eapply unfold_stable; [exact Hu|].
    intros a Ha. apply H. apply elem_of_app. left. exact Ha.
  - apply IH. intros a Ha. apply H. apply elem_of_app. right. exact Ha.
Qed.

(** The containers of a value are containers of the heap. *)
Lemma unfold_bound (h : heap) :
  forall v t l, unfold h v t l -> forall a, a ∈ l -> (a < length h)%nat.
Proof.
  apply (unfold_mut h
    (fun v t l => forall a, a ∈ l -> (a < length h)%nat)
    (fun vs ts l => forall a, a ∈ l -> (a < length h)%nat)
    (fun ps tps l => forall a, a ∈ l -> (a < length h)%nat));
    try (intros; match goal with H : _ ∈ [] |- _ => inversion H end).
  - intros a vs ts l Ha _ IH a' Ha'. apply elem_of_cons in Ha' as [->|Ha'].
    + eapply lookup_lt_Some, Ha.
    + apply IH, Ha'.
  - intros a ps tps l Ha _ IH a' Ha'. apply elem_of_cons in Ha' as [->|Ha'].
    + eapply lookup_lt_Some, Ha.
    + apply IH, Ha'.
  - intros v t l vs ts ls _ IH1 _ IH2 a Ha.
    apply elem_of_app in Ha as [Ha|Ha]; [apply IH1|apply IH2]; exact Ha.
  - intros k v t l ps tps ls _ IH1 _ IH2 a Ha.
    apply elem_of_app in Ha as [Ha|Ha]; [apply IH1|apply IH2]; exact Ha.
Qed.

Lemma unfold_elems_bound (h : heap) (vs : list value) (ts : list tree)
  (l : list addr) :
  unfold_elems h vs ts l -> forall a, a ∈ l -> (a < length h)%nat.
Proof.
  induction 1 as [|v t l vs ts ls Hu _ IH]; intros a Ha.
  - inversion Ha.
  - apply elem_of_app in Ha as [Ha|Ha].
    + eapply unfold_bound; eassumption.
    + apply IH, Ha.
Qed.

Lemma unfold_props_bound (h : heap) (ps : list (string * value))
  (tps : list (string * tree)) (l : list addr) :
  unfold_props h ps tps l -> forall a, a ∈ l -> (a < length h)%nat.
Proof.
  induction 1 as [|k v t l ps tps ls Hu _ IH]; intros a Ha.
  - inversion Ha.
  - apply elem_of_app in Ha as [Ha|Ha].
    + eapply unfold_bound; eassumption.
    + apply IH, Ha.
Qed.

Lemma unfold_elems_snoc (h : heap) (vs : list value) (ts : list tree)
  (l : list addr) (v : value) (t : tree) (l1 : list addr) :
  unfold_elems h vs ts l -> unfold h v t l1 ->
  unfold_elems h (vs ++ [v]) (ts ++ [t]) (l ++ l1).
Proof.
  induction 1 as [|v0 t0 l0 vs ts ls Hu _ IH]; intros H1.
  - cbn [app]. rewrite <- (app_nil_r l1). constructor; [exact H1|constructor].
  - cbn [app]. rewrite <- app_assoc. constructor; [exact Hu|apply IH, H1].
Qed.

Lemma unfold_props_snoc (h : heap) (ps : list (string * value))
  (tps : list (string * tree)) (l : list addr) (k : string) (v : value)
  (t : tree) (l1 : list addr) :
  unfold_props h ps tps l -> unfold h v t l1 ->
  unfold_props h (ps ++ [(k, v)]) (tps ++ [(k, t)]) (l ++ l1).
Proof.
  induction 1 as [|k0 v0 t0 l0 ps tps ls Hu _ IH]; intros H1.
  - cbn [app]. rewrite <- (app_nil_r l1). constructor; [exact H1|constructor].
  - cbn [app]. rewrite <- app_assoc. constructor; [exact Hu|apply IH, H1].
Qed.

Lemma unfold_props_keys (h : heap) (ps : list (string * value))
  (tps : list (string * tree)) (l : list addr) :
  unfold_props h ps tps l -> map fst ps = map fst tps.
Proof. induction 1; cbn [map fst]; congruence. Qed.

Lemma keys_ordered_last (ks0 : list string) (k : string) (ks : list string) :
  keys_ordered (ks0 ++ k :: ks) = true ->
  forall k', In k' ks0 -> key_before k k' = false.
Proof.
  induction ks0 as [|k0 ks0 IH]; intros H k' Hin; [destruct Hin|].
  cbn [app keys_ordered] in H. apply andb_true_iff in H as [H1 H2].
  destruct Hin as [<-|Hin].
  - rewrite forallb_app in H1. apply andb_true_iff in H1 as [_ H1].
    cbn [forallb] in H1. apply andb_true_iff in H1 as [H1 _].
    apply negb_true_iff, H1.
  - apply IH; assumption.
Qed.

(** A property that comes next in the order of [Object.keys] is added
    at the end. *)
Lemma props_set_new (ps : list (string * value)) (k : string) (v : value) :
  k ∉ map fst ps -> k <> "__proto__"%string ->
  (forall k', In k' (map fst ps) -> key_before k k' = false) ->
  props_set ps k v = ps ++ [(k, v)].
Proof.
  intros H Hproto. induction ps as [|[k' x] ps IH]; intros Hord.
  - cbn [props_set app]. destruct (String.eqb_spec k "__proto__"); [contradiction|].
    reflexivity.
  - cbn [props_set app]. cbn [map fst] in H, Hord.
    apply not_elem_of_cons in H as [Hne H].
    destruct (String.eqb k' k) eqn:E.
    + apply String.eqb_eq in E. congruence.
    + rewrite (Hord k') by (left; reflexivity).
      rewrite IH; [reflexivity|exact H|].
      intros k'' Hin. apply Hord. right. exact Hin.
Qed.

Lemma elems_set_end (vs : list value) (v : value) :
  elems_set vs (Z.of_nat (length vs)) v = vs ++ [v].
Proof.
  unfold elems_set. rewrite Z.ltb_irrefl, Nat2Z.id, Nat.sub_diag. reflexivity.
Qed.

Lemma norefs_set_ds (d : DataStream.t) (s : Decoder.t) :
  norefs s -> norefs (Decoder.set_ds d s).
Proof. intros H. exact H. Qed.

Lemma set_ds_advance_0 (d : Decoder.t) :
  Decoder.set_ds (DataStream.advance (Decoder.ds d) 0) d = d.
Proof.
  destruct d as [[b p] refs sk sr cyc off].
  unfold Decoder.set_ds, DataStream.advance. cbn. rewrite Z.add_0_r. reflexivity.
Qed.

Lemma set_ds_advance_advance (d : Decoder.t) (n m : Z) :
  Decoder.set_ds
    (DataStream.advance
       (Decoder.ds (Decoder.set_ds (DataStream.advance (Decoder.ds d) n) d)) m)
    (Decoder.set_ds (DataStream.advance (Decoder.ds d) n) d) =
  Decoder.set_ds (DataStream.advance (Decoder.ds d) (n + m)) d.
Proof.
  destruct d as [[b p] refs sk sr cyc off].
  unfold Decoder.set_ds, DataStream.advance. cbn. rewrite Z.add_assoc. reflexivity.
Qed.

(** The tag is read, and the part that follows it is chosen by it. *)
Lemma unserializeComponent_tag (f : nat) (tag : Z) (d : Decoder.t) (dh : heap)
  (rest : list byte) :
  0 <= tag < 256 ->
  DataStream.remaining (Decoder.ds d) = byte_of_Z tag :: rest ->
  Decoder.unserializeComponent (S f) (d, dh) =
  Decoder.unserializeComponentPart (Decoder.unserializeComponent f) f tag
    (Decoder.set_ds (DataStream.advance (Decoder.ds d) 1) d, dh).
Proof.
  intros Ht Hrem. cbn [Decoder.unserializeComponent].
  erewrite bind_Ok; [|apply read_Ok; eapply readUint8_byte, Hrem].
  rewrite byte_to_of_Z, Z.mod_small by lia. reflexivity.
Qed.

Lemma reads_tagged (Kf Rf : list string) (f : nat) (tag : Z)
  (body : list byte) (t : tree) :
  0 <= tag < 256 ->
  (forall d dh rest,
      norefs d ->
      Decoder.string_keys d = table_of Kf ->
      Decoder.string_refs d = table_of Rf ->
      0 <= DataStream.position (Decoder.ds d) ->
      DataStream.remaining (Decoder.ds d) = body ++ rest ->
      exists v dh' l,
        Decoder.unserializeComponentPart (Decoder.unserializeComponent f) f tag
          (d, dh) =
          Ok (v, (Decoder.set_ds
                    (DataStream.advance (Decoder.ds d)
                       (Z.of_nat (length body))) d, dh')) /\
        unfold dh' v t l /\ NoDup l /\
        (forall a, a ∈ l -> (length dh <= a)%nat) /\
        take (length dh) dh' = dh) ->
  reads Kf Rf (Decoder.unserializeComponent (S f)) (byte_of_Z tag :: body) t.
Proof.
  intros Ht H d dh rest Hno HK HR Hpos Hrem.
  rewrite (unserializeComponent_tag f tag d dh (body ++ rest) Ht Hrem).
  destruct (H (Decoder.set_ds (DataStream.advance (Decoder.ds d) 1) d) dh rest)
    as (v & dh' & l & Hrun & Hres); try assumption.
  - cbn [Decoder.ds Decoder.set_ds]. rewrite advance_position. lia.
  - cbn [Decoder.ds Decoder.set_ds].
    apply (remaining_advance (Decoder.ds d) [byte_of_Z tag] (body ++ rest) Hpos Hrem).
  - exists v, dh', l. split; [|exact Hres].
    rewrite Hrun, set_ds_advance_advance. cbn [length].
    rewrite Nat2Z.inj_succ, <- Z.add_1_l. reflexivity.
Qed.

Lemma take_length_self {A : Type} (l : list A) : take (length l) l = l.
Proof. apply firstn_all. Qed.

Ltac tag_range := split; [apply Z.leb_le | apply Z.ltb_lt]; reflexivity.

Ltac leaf_result :=
  split; [constructor|];
  split; [constructor|];
  split; [intros ? Hin; inversion Hin|apply take_length_self].

Lemma decodes_undefined : decodes TUndefined.
Proof.
  intros K R [|f] Kf Rf _ Hf _ _ _ _ _; 
    [pose proof (tenc_nonempty TUndefined K R); lia|].
  apply (reads_tagged Kf Rf f TAG_UNDEFINED [] TUndefined); [tag_range|].
  intros d dh rest _ _ _ _ _. exists VUndefined, dh, [].
  split; [|leaf_result].
  cbn [length]. rewrite set_ds_advance_0. reflexivity.
Qed.

Lemma decodes_null : decodes TNull.
Proof.
  intros K R [|f] Kf Rf _ Hf _ _ _ _ _; 
    [pose proof (tenc_nonempty TNull K R); lia|].
  apply (reads_tagged Kf Rf f TAG_NULL [] TNull); [tag_range|].
  intros d dh rest _ _ _ _ _. exists VNull, dh, [].
  split; [|leaf_result].
  cbn [length]. rewrite set_ds_advance_0. reflexivity.
Qed.

Lemma decodes_bool (b : bool) : decodes (TBool b).
Proof.
  intros K R [|f] Kf Rf _ Hf _ _ _ _ _; 
    [pose proof (tenc_nonempty (TBool b) K R); lia|].
  cbn [tenc fst tnorm].
  apply (reads_tagged Kf Rf f (if b then TAG_BOOLEAN_TRUE else TAG_BOOLEAN_FALSE)
           [] (TBool b)); [destruct b; tag_range|].
  intros d dh rest _ _ _ _ _. exists (VBool b), dh, [].
  split; [|leaf_result].
  cbn [length]. rewrite set_ds_advance_0. destruct b; reflexivity.
Qed.

Lemma getNumberTag_range (n : F64.t) : 0 <= Encoder.getNumberTag n < 256.
Proof.
  unfold Encoder.getNumberTag.
  repeat match goal with
         | |- context [if ?c then _ else _] => destruct c
         end; tag_range.
Qed.

Lemma decodes_number (n : F64.t) : decodes (TNumber n).
Proof.
  intros K R [|f] Kf Rf Hok Hf _ _ _ _ _; 
    [pose proof (tenc_nonempty (TNumber n) K R); lia|].
  cbn [tenc fst tnorm].
  apply reads_tagged; [apply getNumberTag_range|].
  intros d dh rest _ _ _ _ Hrem. exists (VNumber (F64.norm n)), dh, [].
  split; [|leaf_result].
  apply (number_read n _ f d dh rest Hok Hrem).
Qed.

Lemma decodes_date (t : F64.t) : decodes (TDate t).
Proof.
  intros K R [|f] Kf Rf [Hwf Hclip] Hf _ _ _ _ _; 
    [pose proof (tenc_nonempty (TDate t) K R); lia|].
  cbn [tenc fst tnorm].
  apply reads_tagged; [tag_range|].
  intros d dh rest _ _ _ _ Hrem. exists (VDate t), dh, [].
  split; [|leaf_result].
  change (Decoder.unserializeComponentPart (Decoder.unserializeComponent f) f TAG_DATE)
    with Decoder.unserializeDate.
  unfold Decoder.unserializeDate.
  rewrite (bind_Ok _ _ _ _ _ (read_uint_Ok 8 t d dh rest Hrem)).
  rewrite Z_to_be_length. unfold ret.
  rewrite Z.mod_small by exact Hwf. rewrite Hclip. reflexivity.
Qed.

Lemma decodes_bytes (bs : list byte) : decodes (TBytes bs).
Proof.
  intros K R [|f] Kf Rf _ Hf _ _ _ _ Hw; 
    [pose proof (tenc_nonempty (TBytes bs) K R); lia|].
  cbn [tenc fst tnorm]. cbn [weight] in Hw.
  apply reads_tagged; [tag_range|].
  intros d dh rest _ _ _ Hpos Hrem. exists (VUint8Array bs), dh, [].
  split; [|leaf_result].
  change (Decoder.unserializeComponentPart (Decoder.unserializeComponent f) f
            TAG_UINT8ARRAY)
    with (size <- Decoder.unserializeCount ;;
          bytes <- Decoder.read (DataStream.readUint8Array size) ;;
          ret (S := Decoder.world) (VUint8Array bytes)).
  rewrite <- app_assoc in Hrem.
  rewrite (bind_Ok _ _ _ _ _
             (Decoder_unserializeCount_small (Z.of_nat (length bs)) d dh _
                ltac:(lia) Hrem)).
  set (d1 := Decoder.set_ds _ d).
  assert (Hrem1 : DataStream.remaining (Decoder.ds d1) = bs ++ rest).
  { subst d1. cbn [Decoder.ds Decoder.set_ds].
    apply (remaining_advance _ _ _ Hpos Hrem). }
  erewrite bind_Ok.
  2:{ apply read_Ok. unfold DataStream.readUint8Array.
      destruct (Z.ltb_spec (Z.of_nat (length bs)) 0); [lia|].
      rewrite Nat2Z.id. apply (readBytes_ok _ bs rest Hrem1). }
  unfold ret. subst d1. rewrite set_ds_advance_advance.
  rewrite length_app, Nat2Z.inj_add. reflexivity.
Qed.

Lemma decodes_string (s : string) : decodes (TString s).
Proof.
  intros K R [|f] Kf Rf Hok Hf _ HRf _ HRl _;
    [pose proof (tenc_nonempty (TString s) K R); lia|].
  cbn [tnorm]. cbn [tenc] in *.
  destruct (String.eqb_spec s EmptyString) as [->|Hne].
  - cbn [fst]. apply reads_tagged; [tag_range|].
    intros d dh rest _ _ _ Hpos Hrem. exists (VString EmptyString), dh, [].
    split; [|leaf_result].
    change (Decoder.unserializeComponentPart (Decoder.unserializeComponent f) f
              TAG_STRING_REF)
      with Decoder.unserializeString.
    unfold Decoder.unserializeString.
    rewrite (bind_Ok _ _ _ _ _
               (Decoder_unserializeCount_small 0 d dh _ ltac:(lia) Hrem)).
    reflexivity.
  - destruct (intern_spec s R) as (ext & Eext & _ & Hlook & _ & Hi).
    destruct (intern s R) as [i R']. cbn [fst snd] in *. subst R'.
    destruct HRf as [Rx ->].
    apply reads_tagged; [tag_range|].
    intros d dh rest _ _ HR Hpos Hrem. exists (VString s), dh, [].
    split; [|leaf_result].
    change (Decoder.unserializeComponentPart (Decoder.unserializeComponent f) f
              TAG_STRING_REF)
      with Decoder.unserializeString.
    unfold Decoder.unserializeString.
    pose proof (lookup_lt_Some _ _ _ Hlook) as Hlt.
    rewrite !length_app in HRl. rewrite length_app in Hlt.
    rewrite (bind_Ok _ _ _ _ _
               (Decoder_unserializeCount_small (Z.of_nat i + 1) d dh _
                  ltac:(lia) Hrem)).
    destruct (Z.eqb_spec (Z.of_nat i + 1) 0) as [|_]; [lia|].
    unfold bind at 1. unfold Decoder.this at 1.
    cbn [Decoder.string_refs Decoder.set_ds]. rewrite HR, msize_table_of.
    destruct (Z.ltb_spec (Z.of_nat (length ((R ++ ext) ++ Rx))) (Z.of_nat i + 1))
      as [Hout|_]; [rewrite !length_app in Hout; lia|].
    replace (Z.of_nat i + 1 - 1) with (Z.of_nat i) by lia.
    rewrite (table_of_lookup _ Rx i s Hlook). reflexivity.
Qed.

Lemma tenc_elems_ext (ts : list tree) (K R : list string) :
  Forall tree_ok ts ->
  extends (list_sum (map (fun t => S (weight t)) ts)) K R (tenc_elems ts K R).
Proof.
  apply tenc_elems_extends.
  induction ts; constructor; [intros; apply tenc_extends; assumption|assumption].
Qed.

Lemma tenc_props_ext (ps : list (string * tree)) (K R : list string) :
  Forall (fun p => nul_free (fst p) = true /\ tree_ok (snd p)) ps ->
  extends (list_sum (map (fun p => S (weight (snd p))) ps)) K R
    (tenc_props ps K R).
Proof.
  apply tenc_props_extends.
  induction ps; constructor; [intros; apply tenc_extends; assumption|assumption].
Qed.

Lemma tenc_elems_length (ts : list tree) :
  forall K R, (length ts <= length (fst (tenc_elems ts K R)))%nat.
Proof.
  induction ts as [|t ts IH]; intros K R; [cbn; lia|].
  cbn [tenc_elems]. pose proof (tenc_nonempty t K R) as H1.
  destruct (tenc t K R) as [b1 [K1 R1]]. specialize (IH K1 R1).
  destruct (tenc_elems ts K1 R1) as [b2 KR2].
  cbn [fst length] in *. rewrite length_app. lia.
Qed.

Lemma tenc_props_length (ps : list (string * tree)) :
  forall K R, (length ps <= length (fst (tenc_props ps K R)))%nat.
Proof.
  induction ps as [|p ps IH]; intros K R; [cbn; lia|].
  cbn [tenc_props]. destruct (intern (fst p) K) as [i K0].
  pose proof (tenc_nonempty (snd p) K0 R) as H1.
  destruct (tenc (snd p) K0 R) as [b1 [K1 R1]]. specialize (IH K1 R1).
  destruct (tenc_props ps K1 R1) as [b2 KR2].
  cbn [fst length] in *. rewrite !length_app. lia.
Qed.

Lemma take_take_le {A : Type} (l l' : list A) (a n : nat) :
  (a <= n)%nat -> take n l' = take n l -> take a l' = take a l.
Proof.
  intros Ha H. rewrite <- (Nat.min_l a n Ha), <- !take_take, H. reflexivity.
Qed.

Lemma lookup_take_eq {A : Type} (l l' : list A) (a n : nat) :
  (a < n)%nat -> take n l' = take n l -> l' !! a = l !! a.
Proof.
  intros Ha H. rewrite <- (lookup_take_lt l' n a Ha), H.
  apply lookup_take_lt, Ha.
Qed.

(** The loop of [unserializeArray] from the element of index
    [length vs0] on. *)
Lemma unserializeElements_tree (Kf Rf : list string) (f : nat) (a : addr)
  (ts : list tree) :
  Forall decodes ts ->
  forall K R fuel,
    Forall tree_ok ts ->
    (length (fst (tenc_elems ts K R)) < f)%nat ->
    (length ts < fuel)%nat ->
    (exists Kx, Kf = fst (snd (tenc_elems ts K R)) ++ Kx) ->
    (exists Rx, Rf = snd (snd (tenc_elems ts K R)) ++ Rx) ->
    Z.of_nat (length Kf) < 2 ^ 31 -> Z.of_nat (length Rf) < 2 ^ 31 ->
    Z.of_nat (list_sum (map (fun t => S (weight t)) ts)) < 2 ^ 31 ->
    forall d dh rest vs0 ts0 l0,
      norefs d ->
      Decoder.string_keys d = table_of Kf ->
      Decoder.string_refs d = table_of Rf ->
      0 <= DataStream.position (Decoder.ds d) ->
      DataStream.remaining (Decoder.ds d) = fst (tenc_elems ts K R) ++ rest ->
      dh !! a = Some (CArray vs0) ->
      unfold_elems dh vs0 ts0 l0 -> NoDup l0 ->
      (forall a', a' ∈ l0 -> (a < a')%nat) ->
      exists dh' vs' l',
        Decoder.unserializeElements (Decoder.unserializeComponent f) fuel a
          (Z.of_nat (length vs0))
          (Z.of_nat (length vs0) + Z.of_nat (length ts)) (d, dh) =
          Ok (tt, (Decoder.set_ds
                     (DataStream.advance (Decoder.ds d)
                        (Z.of_nat (length (fst (tenc_elems ts K R))))) d,
                   dh')) /\
        dh' !! a = Some (CArray vs') /\
        unfold_elems dh' vs' (ts0 ++ map tnorm ts) l' /\ NoDup l' /\
        (forall a', a' ∈ l' -> (a < a')%nat) /\
        take a dh' = take a dh.
Proof.
  induction 1 as [|t ts Ht _ IH];
    intros K R fuel Hok Hf Hfuel HKf HRf HKl HRl Hw
           d dh rest vs0 ts0 l0 Hno HK HR Hpos Hrem Ha Hu0 Hnd0 Hfresh0.
  - destruct fuel as [|fuel]; [cbn in Hfuel; lia|].
    cbn [Decoder.unserializeElements length tenc_elems fst].
    rewrite Z.add_0_r, Z.ltb_irrefl. exists dh, vs0, l0.
    split; [unfold ret; rewrite set_ds_advance_0; reflexivity|].
    split; [exact Ha|]. cbn [map]. rewrite app_nil_r.
    split; [exact Hu0|]. split; [exact Hnd0|]. split; [exact Hfresh0|reflexivity].
  - destruct fuel as [|fuel]; [cbn in Hfuel; lia|].
    inversion Hok as [|? ? Hok1 Hok2]; subst.
    cbn [map] in Hw. rewrite list_sum_cons in Hw.
    pose proof (tenc_extends t K R Hok1) as (K2 & R2 & E1 & _).
    pose proof (Ht K R f Kf Rf Hok1) as Hdec.
    cbn [tenc_elems] in *.
    destruct (tenc t K R) as [b1 [K1 R1]]. cbn [fst snd] in E1, Hdec.
    injection E1 as -> ->.
    pose proof (tenc_elems_ext ts (K ++ K2) (R ++ R2) Hok2) as (K3 & R3 & E2 & _).
    specialize (IH (K ++ K2) (R ++ R2) fuel Hok2).
    destruct (tenc_elems ts (K ++ K2) (R ++ R2)) as [b2 [K4 R4]].
    cbn [fst snd] in *. injection E2 as -> ->.
    rewrite length_app in Hf. rewrite <- app_assoc in Hrem.
    destruct HKf as [Kx HKf], HRf as [Rx HRf].
    assert (HKf1 : exists Kx1, Kf = (K ++ K2) ++ Kx1)
      by (exists (K3 ++ Kx); rewrite HKf, <- app_assoc; reflexivity).
    assert (HRf1 : exists Rx1, Rf = (R ++ R2) ++ Rx1)
      by (exists (R3 ++ Rx); rewrite HRf, <- app_assoc; reflexivity).
    destruct (Hdec ltac:(lia) HKf1 HRf1
                HKl HRl ltac:(lia) d dh (b2 ++ rest) Hno HK HR Hpos Hrem)
      as (v & dh1 & l1 & Hrun1 & Hu1 & Hnd1 & Hfresh1 & Htake1).
    set (d1 := Decoder.set_ds
                 (DataStream.advance (Decoder.ds d) (Z.of_nat (length b1))) d) in *.
    pose proof (lookup_lt_Some _ _ _ Ha) as Halt.
    assert (Hlen1 : (length dh <= length dh1)%nat).
    { rewrite <- Htake1 at 1. rewrite length_take. lia. }
    assert (Hagree1 : forall a', (a' < length dh)%nat -> dh1 !! a' = dh !! a').
    { intros a' Ha'. transitivity (take (length dh) dh1 !! a');
        [symmetry; apply lookup_take_lt, Ha'|rewrite Htake1; reflexivity]. }
    set (dh2 := <[a := CArray (vs0 ++ [v])]> dh1).
    assert (Hset : array_set a (Z.of_nat (length vs0)) v dh1 = dh2).
    { unfold array_set. unfold heap, addr in *. rewrite (Hagree1 a Halt), Ha.
      rewrite elems_set_end. reflexivity. }
    assert (Hagree2 : forall a', a' <> a -> dh2 !! a' = dh1 !! a').
    { intros a' Hne. subst dh2. apply list_lookup_insert_ne. congruence. }
    destruct (IH ltac:(lia) ltac:(cbn [length] in Hfuel; lia)
                (ex_intro _ Kx HKf) (ex_intro _ Rx HRf) HKl HRl ltac:(lia)
                d1 dh2 rest (vs0 ++ [v]) (ts0 ++ [tnorm t]) (l0 ++ l1))
      as (dh' & vs' & l' & Hrun2 & Ha' & Hu' & Hnd' & Hfresh' & Htake').
    + exact Hno.
    + exact HK.
    + exact HR.
    + subst d1. cbn [Decoder.ds Decoder.set_ds]. rewrite advance_position. lia.
    + subst d1. cbn [Decoder.ds Decoder.set_ds].
      apply (remaining_advance _ _ _ Hpos Hrem).
    + subst dh2. apply list_lookup_insert_eq. lia.
    + apply unfold_elems_snoc.
      * eapply unfold_elems_stable; [exact Hu0|].
        intros a' Hin. pose proof (Hfresh0 a' Hin).
        pose proof (unfold_elems_bound _ _ _ _ Hu0 a' Hin).
        rewrite Hagree2 by lia. apply Hagree1. lia.
      * eapply unfold_stable; [exact Hu1|].
        intros a' Hin. pose proof (Hfresh1 a' Hin).
        apply Hagree2. lia.
    + apply NoDup_app. split; [exact Hnd0|]. split; [|exact Hnd1].
      intros a' Hin0 Hin1.
      pose proof (unfold_elems_bound _ _ _ _ Hu0 a' Hin0).
      pose proof (Hfresh1 a' Hin1). lia.
    + intros a' Hin. apply elem_of_app in Hin as [Hin|Hin].
      * apply Hfresh0, Hin.
      * pose proof (Hfresh1 a' Hin). lia.
    + exists dh', vs', l'. split.
      * cbn [Decoder.unserializeElements length].
        destruct (Z.ltb_spec (Z.of_nat (length vs0))
                    (Z.of_nat (length vs0) + Z.of_nat (S (length ts))))
          as [_|]; [|lia].
        rewrite (bind_Ok _ _ _ _ _ Hrun1).
        unfold bind at 1. unfold Decoder.on_heap at 1. rewrite Hset.
        rewrite length_app in Hrun2. cbn [length] in Hrun2.
        replace (Z.of_nat (length vs0) + 1)
          with (Z.of_nat (length vs0 + 1)) by lia.
        replace (Z.of_nat (length vs0) + Z.of_nat (S (length ts)))
          with (Z.of_nat (length vs0 + 1) + Z.of_nat (length ts)) by lia.
        rewrite Hrun2. subst d1. rewrite set_ds_advance_advance.
        rewrite length_app, Nat2Z.inj_add. reflexivity.
      * split; [exact Ha'|]. split.
        { cbn [map]. rewrite <- app_assoc in Hu'. exact Hu'. }
        split; [exact Hnd'|]. split; [exact Hfresh'|].
        rewrite Htake'. subst dh2. unfold heap, addr in *.
        rewrite take_insert_ge by lia.
        apply (take_take_le dh dh1 a (length dh)); [lia|].
        rewrite Htake1. symmetry. apply take_length_self.
Qed.

(** The loop of [unserializeObject] when [length tps] properties are
    left to read. *)
Lemma unserializeProperties_tree (Kf Rf : list string) (f : nat) (a : addr)
  (tps : list (string * tree)) :
  Forall (fun p => decodes (snd p)) tps ->
  forall K R fuel,
    Forall (fun p => nul_free (fst p) = true /\ tree_ok (snd p)) tps ->
    (length (fst (tenc_props tps K R)) < f)%nat ->
    (length tps < fuel)%nat ->
    (exists Kx, Kf = fst (snd (tenc_props tps K R)) ++ Kx) ->
    (exists Rx, Rf = snd (snd (tenc_props tps K R)) ++ Rx) ->
    Z.of_nat (length Kf) < 2 ^ 31 -> Z.of_nat (length Rf) < 2 ^ 31 ->
    Z.of_nat (list_sum (map (fun p => S (weight (snd p))) tps)) < 2 ^ 31 ->
    forall d dh rest ps0 tps0 l0,
      norefs d ->
      Decoder.string_keys d = table_of Kf ->
      Decoder.string_refs d = table_of Rf ->
      0 <= DataStream.position (Decoder.ds d) ->
      DataStream.remaining (Decoder.ds d) = fst (tenc_props tps K R) ++ rest ->
      dh !! a = Some (CObject ps0) ->
      unfold_props dh ps0 tps0 l0 -> NoDup l0 ->
      (forall a', a' ∈ l0 -> (a < a')%nat) ->
      keys_ok (map fst tps0 ++ map fst tps) ->
      exists dh' ps' l',
        Decoder.unserializeProperties (Decoder.unserializeComponent f) fuel a
          (Z.of_nat (length tps)) (Z.of_nat (length Kf)) (d, dh) =
          Ok (tt, (Decoder.set_ds
                     (DataStream.advance (Decoder.ds d)
                        (Z.of_nat (length (fst (tenc_props tps K R))))) d,
                   dh')) /\
        dh' !! a = Some (CObject ps') /\
        unfold_props dh' ps'
          (tps0 ++ map (fun p => (fst p, tnorm (snd p))) tps) l' /\
        NoDup l' /\
        (forall a', a' ∈ l' -> (a < a')%nat) /\
        take a dh' = take a dh.
Proof.
  induction 1 as [|[k t] tps Ht _ IH];
    intros K R fuel Hok Hf Hfuel HKf HRf HKl HRl Hw
           d dh rest ps0 tps0 l0 Hno HK HR Hpos Hrem Ha Hu0 Hnd0 Hfresh0 Hkeys.
  - destruct fuel as [|fuel]; [cbn in Hfuel; lia|].
    cbn [Decoder.unserializeProperties length tenc_props fst].
    change (0 <? Z.of_nat 0) with false. cbn iota. exists dh, ps0, l0.
    split; [unfold ret; rewrite set_ds_advance_0; reflexivity|].
    split; [exact Ha|]. cbn [map]. rewrite app_nil_r.
    split; [exact Hu0|]. split; [exact Hnd0|]. split; [exact Hfresh0|reflexivity].
  - destruct fuel as [|fuel]; [cbn in Hfuel; lia|].
    inversion Hok as [|? ? [Hk Hok1] Hok2]; subst. cbn [fst snd] in *.
    cbn [map] in Hw. rewrite list_sum_cons in Hw. cbn [snd] in Hw.
    destruct (intern_spec k K) as (ext & Eext & _ & Hlook & _ & Hi).
    cbn [tenc_props fst snd] in *.
    destruct (intern k K) as [i K0]. cbn [fst snd] in *. subst K0.
    pose proof (tenc_extends t (K ++ ext) R Hok1) as (K2 & R2 & E1 & _).
    pose proof (Ht (K ++ ext) R f Kf Rf Hok1) as Hdec.
    destruct (tenc t (K ++ ext) R) as [b1 [K1 R1]]. cbn [fst snd] in E1, Hdec.
    injection E1 as -> ->.
    pose proof (tenc_props_ext tps ((K ++ ext) ++ K2) (R ++ R2) Hok2)
      as (K3 & R3 & E2 & _).
    specialize (IH ((K ++ ext) ++ K2) (R ++ R2) fuel Hok2).
    destruct (tenc_props tps ((K ++ ext) ++ K2) (R ++ R2)) as [b2 [K4 R4]].
    cbn [fst snd] in *. injection E2 as -> ->.
    rewrite !length_app in Hf. rewrite <- !app_assoc in Hrem.
    destruct HKf as [Kx HKf], HRf as [Rx HRf].
    assert (HKf0 : Kf = (K ++ ext) ++ (K2 ++ K3 ++ Kx))
      by (rewrite HKf, <- !app_assoc; reflexivity).
    assert (HKf1 : exists Kx1, Kf = ((K ++ ext) ++ K2) ++ Kx1)
      by (exists (K3 ++ Kx); rewrite HKf, <- !app_assoc; reflexivity).
    assert (HRf1 : exists Rx1, Rf = (R ++ R2) ++ Rx1)
      by (exists (R3 ++ Rx); rewrite HRf, <- !app_assoc; reflexivity).
    pose proof (lookup_lt_Some _ _ _ Hlook) as Hilt.
    assert (HiKf : (i < length Kf)%nat)
      by (rewrite HKf0, length_app; lia).
    assert (Hkey : table_of Kf !! Z.of_nat i = Some k)
      by (rewrite HKf0; apply table_of_lookup, Hlook).
    (* the index of the name *)
    pose proof (Decoder_unserializeCount_small (Z.of_nat i) d dh _
                  ltac:(lia) Hrem) as Hrun0.
    set (d0 := Decoder.set_ds
                 (DataStream.advance (Decoder.ds d)
                    (Z.of_nat (length (varint (Z.of_nat i))))) d) in *.
    assert (Hpos0 : 0 <= DataStream.position (Decoder.ds d0)).
    { subst d0. cbn [Decoder.ds Decoder.set_ds]. rewrite advance_position. lia. }
    assert (Hrem0 : DataStream.remaining (Decoder.ds d0) = b1 ++ b2 ++ rest).
    { subst d0. cbn [Decoder.ds Decoder.set_ds].
      apply (remaining_advance _ _ _ Hpos Hrem). }
    (* the value *)
    destruct (Hdec ltac:(lia) HKf1 HRf1
                HKl HRl ltac:(lia) d0 dh (b2 ++ rest) Hno HK HR Hpos0 Hrem0)
      as (v & dh1 & l1 & Hrun1 & Hu1 & Hnd1 & Hfresh1 & Htake1).
    set (d1 := Decoder.set_ds
                 (DataStream.advance (Decoder.ds d0) (Z.of_nat (length b1))) d0)
      in *.
    pose proof (lookup_lt_Some _ _ _ Ha) as Halt.
    assert (Hlen1 : (length dh <= length dh1)%nat).
    { rewrite <- Htake1 at 1. rewrite length_take. lia. }
    assert (Hagree1 : forall a', (a' < length dh)%nat -> dh1 !! a' = dh !! a').
    { intros a' Ha'. transitivity (take (length dh) dh1 !! a');
        [symmetry; apply lookup_take_lt, Ha'|rewrite Htake1; reflexivity]. }
    set (dh2 := <[a := CObject (ps0 ++ [(k, v)])]> dh1).
    pose proof Hkeys as (Hkn & Hko & Hkp). cbn [map fst] in Hkn, Hko, Hkp.
    assert (Hnew : k ∉ map fst ps0).
    { rewrite (unfold_props_keys _ _ _ _ Hu0).
      apply NoDup_app in Hkn as (_ & Hdisj & _).
      intros Hin. apply (Hdisj k Hin). apply list_elem_of_here. }
    assert (Hproto : k <> "__proto__"%string).
    { intros ->. apply Hkp. apply elem_of_app. right. apply list_elem_of_here. }
    assert (Hset : object_set a k v dh1 = dh2).
    { unfold object_set. unfold heap, addr in *. rewrite (Hagree1 a Halt), Ha.
      rewrite props_set_new; [reflexivity|exact Hnew|exact Hproto|].
      rewrite (unfold_props_keys _ _ _ _ Hu0).
      apply (keys_ordered_last _ _ _ Hko). }
    assert (Hagree2 : forall a', a' <> a -> dh2 !! a' = dh1 !! a').
    { intros a' Hne. subst dh2. apply list_lookup_insert_ne. congruence. }
    destruct (IH ltac:(lia) ltac:(cbn [length] in Hfuel; lia)
                (ex_intro _ Kx HKf) (ex_intro _ Rx HRf) HKl HRl ltac:(lia)
                d1 dh2 rest (ps0 ++ [(k, v)]) (tps0 ++ [(k, tnorm t)]) (l0 ++ l1))
      as (dh' & ps' & l' & Hrun2 & Ha' & Hu' & Hnd' & Hfresh' & Htake').
    + exact Hno.
    + exact HK.
    + exact HR.
    + subst d1. cbn [Decoder.ds Decoder.set_ds]. rewrite advance_position. lia.
    + subst d1. cbn [Decoder.ds Decoder.set_ds].
      apply (remaining_advance _ _ _ Hpos0 Hrem0).
    + subst dh2. apply list_lookup_insert_eq. lia.
    + apply unfold_props_snoc.
      * eapply unfold_props_stable; [exact Hu0|].
        intros a' Hin. pose proof (Hfresh0 a' Hin).
        pose proof (unfold_props_bound _ _ _ _ Hu0 a' Hin).
        rewrite Hagree2 by lia. apply Hagree1. lia.
      * eapply unfold_stable; [exact Hu1|].
        intros a' Hin. pose proof (Hfresh1 a' Hin).
        apply Hagree2. lia.
    + apply NoDup_app. split; [exact Hnd0|]. split; [|exact Hnd1].
      intros a' Hin0 Hin1.
      pose proof (unfold_props_bound _ _ _ _ Hu0 a' Hin0).
      pose proof (Hfresh1 a' Hin1). lia.
    + intros a' Hin. apply elem_of_app in Hin as [Hin|Hin].
      * apply Hfresh0, Hin.
      * pose proof (Hfresh1 a' Hin). lia.
    + rewrite map_app. cbn [map fst]. rewrite <- app_assoc. exact Hkeys.
    + exists dh', ps', l'. split.
      * cbn [Decoder.unserializeProperties length].
        destruct (Z.ltb_spec 0 (Z.of_nat (S (length tps)))) as [_|]; [|lia].
        rewrite (bind_Ok _ _ _ _ _ Hrun0).
        destruct (Z.leb_spec (Z.of_nat (length Kf)) (Z.of_nat i)) as [|_]; [lia|].
        unfold bind at 1. unfold Decoder.this at 1.
        fold d0. cbn [Decoder.string_keys Decoder.set_ds].
        replace (Decoder.string_keys d0) with (table_of Kf)
          by (symmetry; exact HK).
        rewrite Hkey.
        rewrite (bind_Ok _ _ _ _ _ Hrun1).
        unfold bind at 1. unfold Decoder.on_heap at 1. rewrite Hset.
        replace (Z.of_nat (S (length tps)) - 1)
          with (Z.of_nat (length tps)) by lia.
        rewrite Hrun2. subst d1 d0. rewrite !set_ds_advance_advance.
        rewrite !length_app, !Nat2Z.inj_add, Z.add_assoc. reflexivity.
      * split; [exact Ha'|]. split.
        { cbn [map fst snd]. rewrite <- app_assoc in Hu'. exact Hu'. }
        split; [exact Hnd'|]. split; [exact Hfresh'|].
        rewrite Htake'. subst dh2. unfold heap, addr in *.
        rewrite take_insert_ge by lia.
        apply (take_take_le dh dh1 a (length dh)); [lia|].
        rewrite Htake1. symmetry. apply take_length_self.
Qed.

Lemma decodes_array (ts : list tree) :
  Forall decodes ts -> decodes (TArray ts).
Proof.
  intros IH K R [|f] Kf Rf Hok Hf HKf HRf HKl HRl Hw;
    [pose proof (tenc_nonempty (TArray ts) K R); lia|].
  apply tree_ok_array in Hok. cbn [weight] in Hw.
  pose proof (weight_elems_length ts) as Hwl.
  pose proof (tenc_elems_length ts K R) as Hbl.
  pose proof (unserializeElements_tree Kf Rf f) as Hloop.
  specialize (fun a => Hloop a ts IH K R f Hok).
  rewrite tenc_array in *.
  destruct (tenc_elems ts K R) as [body [K' R']]. cbn [fst snd] in *.
  cbn [length] in Hf. rewrite length_app in Hf.
  pose proof (varint_nonempty (Z.of_nat (length ts))) as Hvl.
  change (tnorm (TArray ts)) with (TArray (map tnorm ts)).
  apply reads_tagged; [tag_range|].
  intros d dh rest Hno HK HR Hpos Hrem.
  change (Decoder.unserializeComponentPart (Decoder.unserializeComponent f) f
            TAG_ARRAY)
    with (Decoder.unserializeArray (Decoder.unserializeComponent f) f).
  unfold Decoder.unserializeArray.
  unfold bind at 1. unfold Decoder.allocate at 1, alloc.
  unfold bind at 1. unfold Decoder.this at 1.
  destruct Hno as [Hcyc Hrefs]. rewrite Hcyc.
  unfold bind at 1. unfold ret at 1.
  rewrite <- app_assoc in Hrem.
  rewrite (bind_Ok _ _ _ _ _
             (Decoder_unserializeCount_small (Z.of_nat (length ts)) d _ _
                ltac:(lia) Hrem)).
  set (d1 := Decoder.set_ds _ d).
  destruct (Hloop (length dh) ltac:(lia) ltac:(lia) HKf HRf HKl HRl ltac:(lia)
              d1 (dh ++ [CArray []]) rest [] [] [])
    as (dh' & vs' & l' & Hrun & Ha' & Hu' & Hnd' & Hfresh' & Htake').
  - split; assumption.
  - exact HK.
  - exact HR.
  - subst d1. cbn [Decoder.ds Decoder.set_ds]. rewrite advance_position. lia.
  - subst d1. cbn [Decoder.ds Decoder.set_ds].
    apply (remaining_advance _ _ _ Hpos Hrem).
  - unfold heap, addr in *. rewrite lookup_app_r by lia.
    rewrite Nat.sub_diag. reflexivity.
  - constructor.
  - constructor.
  - intros a' Hin. inversion Hin.
  - exists (VRef (length dh)), dh', (length dh :: l').
    cbn [length Z.of_nat] in Hrun. rewrite Z.add_0_l in Hrun.
    change (Z.of_nat 0) with 0 in Hrun.
    split.
    + unfold bind. rewrite Hrun. unfold ret. subst d1.
      rewrite set_ds_advance_advance, length_app, Nat2Z.inj_add. reflexivity.
    + split; [apply unfold_array with vs'; [exact Ha'|exact Hu']|].
      split.
      * apply NoDup_cons. split; [|exact Hnd'].
        intros Hin. pose proof (Hfresh' _ Hin). lia.
      * split.
        -- intros a' Hin. apply elem_of_cons in Hin as [->|Hin]; [lia|].
           pose proof (Hfresh' _ Hin). lia.
        -- rewrite Htake'. unfold heap, addr in *. apply take_app_length.
Qed.

Lemma decodes_object (ps : list (string * tree)) :
  Forall (fun p => decodes (snd p)) ps -> decodes (TObject ps).
Proof.
  intros IH K R [|f] Kf Rf Hok Hf HKf HRf HKl HRl Hw;
    [pose proof (tenc_nonempty (TObject ps) K R); lia|].
  apply tree_ok_object in Hok. destruct Hok as [Hkeys Hok].
  cbn [weight] in Hw.
  pose proof (weight_props_length ps) as Hwl.
  pose proof (tenc_props_length ps K R) as Hbl.
  pose proof (unserializeProperties_tree Kf Rf f) as Hloop.
  specialize (fun a => Hloop a ps IH K R f Hok).
  rewrite tenc_object in *.
  destruct (tenc_props ps K R) as [body [K' R']]. cbn [fst snd] in *.
  cbn [length] in Hf. rewrite length_app in Hf.
  pose proof (varint_nonempty (Z.of_nat (length ps))) as Hvl.
  change (tnorm (TObject ps))
    with (TObject (map (fun p => (fst p, tnorm (snd p))) ps)).
  apply reads_tagged; [tag_range|].
  intros d dh rest Hno HK HR Hpos Hrem.
  change (Decoder.unserializeComponentPart (Decoder.unserializeComponent f) f
            TAG_OBJECT)
    with (Decoder.unserializeObject (Decoder.unserializeComponent f) f).
  unfold Decoder.unserializeObject.
  unfold bind at 1. unfold Decoder.allocate at 1, alloc.
  unfold bind at 1. unfold Decoder.this at 1.
  destruct Hno as [Hcyc Hrefs]. rewrite Hcyc.
  unfold bind at 1. unfold ret at 1.
  rewrite <- app_assoc in Hrem.
  rewrite (bind_Ok _ _ _ _ _
             (Decoder_unserializeCount_small (Z.of_nat (length ps)) d _ _
                ltac:(lia) Hrem)).
  set (d1 := Decoder.set_ds _ d).
  unfold bind at 1. unfold Decoder.this at 1.
  replace (Decoder.string_keys d1) with (table_of Kf)
    by (symmetry; exact HK).
  rewrite msize_table_of.
  destruct (Hloop (length dh) ltac:(lia) ltac:(lia) HKf HRf HKl HRl ltac:(lia)
              d1 (dh ++ [CObject []]) rest [] [] [])
    as (dh' & ps' & l' & Hrun & Ha' & Hu' & Hnd' & Hfresh' & Htake').
  - split; assumption.
  - exact HK.
  - exact HR.
  - subst d1. cbn [Decoder.ds Decoder.set_ds]. rewrite advance_position. lia.
  - subst d1. cbn [Decoder.ds Decoder.set_ds].
    apply (remaining_advance _ _ _ Hpos Hrem).
  - unfold heap, addr in *. rewrite lookup_app_r by lia.
    rewrite Nat.sub_diag. reflexivity.
  - constructor.
  - constructor.
  - intros a' Hin. inversion Hin.
  - exact Hkeys.
  - exists (VRef (length dh)), dh', (length dh :: l').
    split.
    + unfold bind. rewrite Hrun. unfold ret. subst d1.
      rewrite set_ds_advance_advance, length_app, Nat2Z.inj_add. reflexivity.
    + split; [apply unfold_object with ps'; [exact Ha'|exact Hu']|].
      split.
      * apply NoDup_cons. split; [|exact Hnd'].
        intros Hin. pose proof (Hfresh' _ Hin). lia.
      * split.
        -- intros a' Hin. apply elem_of_cons in Hin as [->|Hin]; [lia|].
           pose proof (Hfresh' _ Hin). lia.
        -- rewrite Htake'. unfold heap, addr in *. apply take_app_length.
Qed.

(** The decoder reads the bytes of every tree back as the tree. *)
Lemma decodes_all (t : tree) : decodes t.
Proof.
  induction t using tree_induction.
  - apply decodes_undefined.
  - apply decodes_null.
  - apply decodes_bool.
  - apply decodes_number.
  - apply decodes_string.
  - apply decodes_date.
  - apply decodes_bytes.
  - apply decodes_array. assumption.
  - apply decodes_object. assumption.
Qed.

(** ** The registration of containers *)

(** A container met for the first time: the encoder registers it at the
    position of the stream, writes the tag there, and goes on with the
    body. *)
Lemma serializeComponent_enters (fuel : nat) (h : heap) (a : addr)
    (c : container) (e : Encoder.t) :
  h !! a = Some c -> Encoder.object_refs e !! a = None ->
  Encoder.serializeComponent (S fuel) h (VRef a) e =
  write_body fuel h c (entered a c e).
Proof.
  intros Ha Hn. cbn [Encoder.serializeComponent]. rewrite Ha.
  destruct e as [d refs sk sr cyc].
  cbn [Encoder.object_refs] in Hn.
  destruct c as [props|elems].
  - unfold Encoder.serializeObject. unfold bind at 1, get at 1.
    cbn [Encoder.object_refs]. rewrite Hn.
    unfold bind at 1, modify at 1. unfold bind at 1.
    unfold Encoder.write at 1, modify at 1.
    unfold entered, write_body, Encoder.set_ds, Encoder.set_object_refs,
      DataStream.writeUint8, DataStream.writeUint, DataStream.wposition.
    cbn [Encoder.ds Encoder.object_refs Encoder.string_keys
         Encoder.string_refs Encoder.hasCycle container_tag].
    rewrite Z_to_be_1. reflexivity.
  - unfold Encoder.serializeArray. unfold bind at 1, get at 1.
    cbn [Encoder.object_refs]. rewrite Hn.
    unfold bind at 1, modify at 1. unfold bind at 1.
    unfold Encoder.write at 1, modify at 1.
    unfold entered, write_body, Encoder.set_ds, Encoder.set_object_refs,
      DataStream.writeUint8, DataStream.writeUint, DataStream.wposition.
    cbn [Encoder.ds Encoder.object_refs Encoder.string_keys
         Encoder.string_refs Encoder.hasCycle container_tag].
    rewrite Z_to_be_1. reflexivity.
Qed.

(** A container met again: the tag [0x07] and the position it was
    registered at are written, the cycle flag is set, and the container
    is not entered. *)
Lemma serializeComponent_known (fuel : nat) (h : heap) (a : addr)
    (c : container) (e : Encoder.t) (p : Z) :
  h !! a = Some c -> Encoder.object_refs e !! a = Some p ->
  0 <= p < 2 ^ 32 ->
  Encoder.serializeComponent (S fuel) h (VRef a) e =
  Ok (tt, Encoder.mk (Encoder.ds e ++ byte_of_Z TAG_OBJECT_REF :: varint p)
            (Encoder.object_refs e) (Encoder.string_keys e)
            (Encoder.string_refs e) true).
Proof.
  intros Ha Hp Hrange. cbn [Encoder.serializeComponent]. rewrite Ha.
  assert (Href : Encoder.serializeReference p e =
                 Ok (tt, Encoder.mk
                           (Encoder.ds e ++ byte_of_Z TAG_OBJECT_REF :: varint p)
                           (Encoder.object_refs e) (Encoder.string_keys e)
                           (Encoder.string_refs e) true)).
  { unfold Encoder.serializeReference.
    unfold bind at 1. unfold Encoder.write at 1, modify at 1.
    unfold bind at 1. rewrite Encoder_serializeCount_ok by exact Hrange.
    unfold modify, Encoder.set_hasCycle, Encoder.set_ds.
    cbn [Encoder.ds Encoder.object_refs Encoder.string_keys
         Encoder.string_refs Encoder.hasCycle].
    unfold DataStream.writeUint8, DataStream.writeUint.
    rewrite Z_to_be_1, <- app_assoc. reflexivity. }
  destruct c as [props|elems].
  - unfold Encoder.serializeObject, bind, get. rewrite Hp. exact Href.
  - unfold Encoder.serializeArray, bind, get. rewrite Hp. exact Href.
Qed.

(** The tag of an object or of an array under the cursor, with the
    cycle flag: the decoder makes the container, registers it at the
    position of the tag, and goes on with the body. *)
Lemma unserializeComponent_opens_object (fuel : nat) (d : Decoder.t)
    (dh : heap) (rest : list byte) :
  Decoder.hasCycle d = true ->
  DataStream.remaining (Decoder.ds d) = byte_of_Z TAG_OBJECT :: rest ->
  Decoder.unserializeComponent (S fuel) (d, dh) =
  read_object_body fuel (length dh) (opened (CObject []) d dh).
Proof.
  intros Hc Hrem.
  rewrite (unserializeComponent_tag fuel TAG_OBJECT d dh rest) by (tag_range || exact Hrem).
  destruct d as [ds refs sk sr cyc off]. cbn [Decoder.hasCycle] in Hc. subst cyc.
  unfold Decoder.unserializeComponentPart.
  change (TAG_OBJECT =? TAG_OBJECT) with true.
  cbv beta iota delta [TAG_OBJECT TAG_NUMBER TAG_INT8 TAG_INT16 TAG_INT32
    TAG_UINT8 TAG_UINT16 TAG_UINT32 TAG_STRING_REF TAG_DATE TAG_UINT8ARRAY
    TAG_BOOLEAN_TRUE TAG_BOOLEAN_FALSE TAG_NULL TAG_UNDEFINED Z.eqb Pos.eqb].
  unfold Decoder.unserializeObject, read_object_body, opened.
  unfold bind at 1, Decoder.allocate at 1, alloc.
  unfold bind at 1, Decoder.this at 1.
  unfold Decoder.set_ds; cbn [Decoder.hasCycle Decoder.ds Decoder.object_refs
    Decoder.string_keys Decoder.string_refs Decoder.offset].
  unfold bind at 1, Decoder.update at 1, Decoder.set_object_refs.
  cbn [Decoder.hasCycle Decoder.ds Decoder.object_refs
    Decoder.string_keys Decoder.string_refs Decoder.offset].
  rewrite advance_position.
  replace (DataStream.position ds + 1 - 1) with (DataStream.position ds) by lia.
  reflexivity.
Qed.

Lemma unserializeComponent_opens_array (fuel : nat) (d : Decoder.t)
    (dh : heap) (rest : list byte) :
  Decoder.hasCycle d = true ->
  DataStream.remaining (Decoder.ds d) = byte_of_Z TAG_ARRAY :: rest ->
  Decoder.unserializeComponent (S fuel) (d, dh) =
  read_array_body fuel (length dh) (opened (CArray []) d dh).
Proof.
  intros Hc Hrem.
  rewrite (unserializeComponent_tag fuel TAG_ARRAY d dh rest) by (tag_range || exact Hrem).
  destruct d as [ds refs sk sr cyc off]. cbn [Decoder.hasCycle] in Hc. subst cyc.
  unfold Decoder.unserializeComponentPart.
  cbv beta iota delta [TAG_ARRAY TAG_OBJECT TAG_NUMBER TAG_INT8 TAG_INT16 TAG_INT32
    TAG_UINT8 TAG_UINT16 TAG_UINT32 TAG_STRING_REF TAG_DATE TAG_UINT8ARRAY
    TAG_BOOLEAN_TRUE TAG_BOOLEAN_FALSE TAG_NULL TAG_UNDEFINED Z.eqb Pos.eqb].
  unfold Decoder.unserializeArray, read_array_body, opened.
  unfold bind at 1, Decoder.allocate at 1, alloc.
  unfold bind at 1, Decoder.this at 1.
  unfold Decoder.set_ds; cbn [Decoder.hasCycle Decoder.ds Decoder.object_refs
    Decoder.string_keys Decoder.string_refs Decoder.offset].
  unfold bind at 1, Decoder.update at 1, Decoder.set_object_refs.
  cbn [Decoder.hasCycle Decoder.ds Decoder.object_refs
    Decoder.string_keys Decoder.string_refs Decoder.offset].
  rewrite advance_position.
  replace (DataStream.position ds + 1 - 1) with (DataStream.position ds) by lia.
  reflexivity.
Qed.

(** The tag [0x07] under the cursor, followed by the count [k]: the
    decoder returns the container registered at position [k] of the
    payload, and makes none. *)
Lemma unserializeComponent_resolves (fuel : nat) (d : Decoder.t) (dh : heap)
    (k : Z) (a : addr) (rest : list byte) :
  0 <= k < 2 ^ 31 ->
  DataStream.remaining (Decoder.ds d)
    = byte_of_Z TAG_OBJECT_REF :: varint k ++ rest ->
  0 <= DataStream.position (Decoder.ds d) ->
  Decoder.object_refs d !! (k + Decoder.offset d) = Some a ->
  Decoder.unserializeComponent (S fuel) (d, dh) =
  Ok (VRef a,
      (Decoder.set_ds
         (DataStream.advance (Decoder.ds d)
            (1 + Z.of_nat (length (varint k)))) d, dh)).
Proof.
  intros Hk Hrem Hpos Hreg.
  rewrite (unserializeComponent_tag fuel TAG_OBJECT_REF d dh (varint k ++ rest))
    by (tag_range || exact Hrem).
  unfold Decoder.unserializeComponentPart.
  cbv beta iota delta [TAG_OBJECT_REF TAG_ARRAY TAG_OBJECT TAG_NUMBER TAG_INT8
    TAG_INT16 TAG_INT32 TAG_UINT8 TAG_UINT16 TAG_UINT32 TAG_STRING_REF TAG_DATE
    TAG_UINT8ARRAY TAG_BOOLEAN_TRUE TAG_BOOLEAN_FALSE TAG_NULL TAG_UNDEFINED
    Z.eqb Pos.eqb].
  erewrite bind_Ok.
  2:{ apply (Decoder_unserializeCount_small k _ dh rest Hk).
      destruct d as [ds refs sk sr cyc off].
      unfold Decoder.set_ds; cbn [Decoder.ds] in *.
      apply (remaining_advance ds [byte_of_Z TAG_OBJECT_REF]); assumption. }
  unfold bind at 1, Decoder.this at 1.
  destruct d as [ds refs sk sr cyc off].
  unfold Decoder.set_ds in *;
    cbn [Decoder.hasCycle Decoder.ds Decoder.object_refs
         Decoder.string_keys Decoder.string_refs Decoder.offset] in *.
  rewrite Hreg. unfold ret. rewrite advance_advance by lia. reflexivity.
Qed.

(** *** A reference to the container itself, in its own body *)

Lemma object_set_last (dh : heap) (ps : list (string * value)) (key : string)
    (v : value) :
  object_set (length dh) key v (dh ++ [CObject ps])
  = dh ++ [CObject (props_set ps key v)].
Proof.
  unfold object_set. unfold heap, addr in *.
  rewrite (list_lookup_middle dh [] (CObject ps) (length dh) eq_refl).
  rewrite (insert_app_r_alt dh [CObject ps] (length dh)) by lia.
  rewrite Nat.sub_diag. reflexivity.
Qed.

(** The decoder on an object whose one property is a reference to the
    position of the object's own tag: the reference resolves to the
    object that is being built, which it finds registered. *)
Lemma self_reference_is_resolved (fuel : nat) (d : Decoder.t) (dh : heap)
    (index p : Z) (key : string) (rest : list byte) :
  Decoder.hasCycle d = true ->
  0 <= DataStream.position (Decoder.ds d) ->
  DataStream.remaining (Decoder.ds d)
    = byte_of_Z TAG_OBJECT :: varint 1 ++ varint index
        ++ byte_of_Z TAG_OBJECT_REF :: varint p ++ rest ->
  0 <= index < 2 ^ 31 -> index < Decoder.msize (Decoder.string_keys d) ->
  Decoder.string_keys d !! index = Some key -> key <> "__proto__"%string ->
  0 <= p < 2 ^ 31 ->
  p + Decoder.offset d = DataStream.position (Decoder.ds d) ->
  exists d',
    Decoder.unserializeComponent (3 + fuel) (d, dh)
      = Ok (VRef (length dh),
            (d', dh ++ [CObject [(key, VRef (length dh))]])) /\
    Decoder.object_refs d'
      = <[DataStream.position (Decoder.ds d) := length dh]>
          (Decoder.object_refs d) /\
    DataStream.remaining (Decoder.ds d') = rest.
Proof.
  intros Hc Hpos Hrem Hidx Hmax Hkey Hproto Hp Hself.
  destruct d as [ds refs sk sr cyc off].
  cbn [Decoder.hasCycle Decoder.ds Decoder.string_keys Decoder.offset
       Decoder.object_refs] in *.
  subst cyc. change (3 + fuel)%nat with (S (S (S fuel))).
  rewrite (unserializeComponent_opens_object (S (S fuel))
             (Decoder.mk ds refs sk sr true off) dh _ eq_refl Hrem).
  unfold read_object_body, opened.
  cbn [Decoder.hasCycle Decoder.ds Decoder.string_keys Decoder.offset
       Decoder.object_refs Decoder.string_refs].
  set (refs1 := <[DataStream.position ds := length dh]> refs).
  set (d1 := Decoder.mk (DataStream.advance ds 1) refs1 sk sr true off).
  assert (R1 : DataStream.remaining (Decoder.ds d1)
               = varint 1 ++ varint index
                   ++ byte_of_Z TAG_OBJECT_REF :: varint p ++ rest).
  { apply (remaining_advance ds [byte_of_Z TAG_OBJECT]); assumption. }
  rewrite (bind_Ok _ _ _ _ _
             (Decoder_unserializeCount_small 1 d1 _ _ ltac:(lia) R1)).
  set (d2 := Decoder.set_ds
               (DataStream.advance (Decoder.ds d1)
                  (Z.of_nat (length (varint 1)))) d1).
  assert (P1 : 0 <= DataStream.position (Decoder.ds d1))
    by (cbn [d1 Decoder.ds]; rewrite advance_position; lia).
  assert (R2 : DataStream.remaining (Decoder.ds d2)
               = varint index
                   ++ byte_of_Z TAG_OBJECT_REF :: varint p ++ rest).
  { apply (remaining_advance (Decoder.ds d1) (varint 1)); assumption. }
  assert (P2 : 0 <= DataStream.position (Decoder.ds d2)).
  { unfold d2. cbn [Decoder.set_ds Decoder.ds]. rewrite advance_position. lia. }
  unfold bind at 1, Decoder.this at 1.
  change (Decoder.string_keys d2) with sk.
  set (d3 := Decoder.set_ds
               (DataStream.advance (Decoder.ds d2)
                  (Z.of_nat (length (varint index)))) d2).
  assert (R3 : DataStream.remaining (Decoder.ds d3)
               = byte_of_Z TAG_OBJECT_REF :: varint p ++ rest).
  { apply (remaining_advance (Decoder.ds d2) (varint index)); assumption. }
  assert (P3 : 0 <= DataStream.position (Decoder.ds d3)).
  { unfold d3. cbn [Decoder.set_ds Decoder.ds]. rewrite advance_position. lia. }
  assert (L3 : Decoder.object_refs d3 !! (p + Decoder.offset d3)
               = Some (length dh)).
  { change (Decoder.object_refs d3) with refs1.
    change (Decoder.offset d3) with off.
    rewrite Hself. unfold refs1. apply lookup_insert_eq. }
  set (d4 := Decoder.set_ds
               (DataStream.advance (Decoder.ds d3)
                  (1 + Z.of_nat (length (varint p)))) d3).
  assert (Hloop :
    Decoder.unserializeProperties (Decoder.unserializeComponent (S (S fuel)))
      (S (S fuel)) (length dh) 1 (Decoder.msize sk) (d2, dh ++ [CObject []])
    = Ok (tt, (d4, dh ++ [CObject [(key, VRef (length dh))]]))).
  { cbn [Decoder.unserializeProperties]. change (0 <? 1) with true. cbv iota.
    rewrite (bind_Ok _ _ _ _ _
               (Decoder_unserializeCount_small index d2 _ _ Hidx R2)).
    fold d3.
    destruct (Z.leb_spec (Decoder.msize sk) index) as [Hle|_]; [lia|].
    unfold bind at 1, Decoder.this at 1.
    change (Decoder.string_keys d3) with sk. rewrite Hkey.
    rewrite (bind_Ok _ _ _ _ _
               (unserializeComponent_resolves (S fuel) d3 _ p (length dh) rest
                  Hp R3 P3 L3)).
    fold d4.
    unfold bind at 1, Decoder.on_heap at 1.
    rewrite object_set_last.
    cbn [props_set].
    destruct (String.eqb_spec key "__proto__"); [contradiction|].
    change (0 <? 1 - 1) with false. cbv iota. reflexivity. }
  rewrite (bind_Ok _ _ _ _ _ Hloop).
  exists d4. split; [reflexivity|]. split; [reflexivity|].
  unfold d4. cbn [Decoder.set_ds Decoder.ds].
  replace (1 + Z.of_nat (length (varint p)))
    with (Z.of_nat (length (byte_of_Z TAG_OBJECT_REF :: varint p)))
    by (cbn [length]; lia).
  apply (remaining_advance (Decoder.ds d3)
           (byte_of_Z TAG_OBJECT_REF :: varint p)); assumption.
Qed.

(** The encoder on an object whose one property is the object itself:
    the property is written as a reference to the position of the tag
    of the object, where the object was registered before its body. *)
Lemma self_reference_is_written (fuel : nat) (h : heap) (a : addr)
    (key : string) (e : Encoder.t) :
  h !! a = Some (CObject [(key, VRef a)]) ->
  Encoder.object_refs e !! a = None ->
  Z.of_nat (length (Encoder.ds e)) < 2 ^ 32 ->
  let index := match JSMap.get (Encoder.string_keys e) key with
               | Some i => i
               | None => JSMap.size (Encoder.string_keys e)
               end in
  let keys := match JSMap.get (Encoder.string_keys e) key with
              | Some _ => Encoder.string_keys e
              | None => JSMap.set (Encoder.string_keys e) key
                          (JSMap.size (Encoder.string_keys e))
              end in
  0 <= index < 2 ^ 32 ->
  Encoder.serializeComponent (2 + fuel) h (VRef a) e =
  Ok (tt, Encoder.mk
            (Encoder.ds e ++ byte_of_Z TAG_OBJECT :: varint 1 ++ varint index
               ++ byte_of_Z TAG_OBJECT_REF
               :: varint (Z.of_nat (length (Encoder.ds e))))
            (<[a := Z.of_nat (length (Encoder.ds e))]> (Encoder.object_refs e))
            keys (Encoder.string_refs e) true).
Proof.
  intros Ha Hn Hlen index keys Hidx.
  change (2 + fuel)%nat with (S (S fuel)).
  rewrite (serializeComponent_enters (S fuel) h a _ e Ha Hn).
  destruct e as [d refs sk sr cyc].
  cbn [Encoder.ds Encoder.object_refs Encoder.string_keys Encoder.string_refs
       Encoder.hasCycle] in *.
  unfold write_body, entered, container_tag.
  cbn [length Encoder.ds Encoder.object_refs Encoder.string_keys
       Encoder.string_refs Encoder.hasCycle].
  set (refs1 := <[a := Z.of_nat (length d)]> refs).
  rewrite (bind_Ok _ _ _ _ _
             (Encoder_serializeCount_ok 1 _ ltac:(lia))).
  unfold Encoder.set_ds;
    cbn [Encoder.ds Encoder.object_refs Encoder.string_keys
         Encoder.string_refs Encoder.hasCycle].
  cbn [Encoder.serializeProperties].
  unfold bind at 1, get at 1.
  cbn [Encoder.string_keys].
  assert (Hrec : forall d' sk',
    Encoder.serializeComponent (S fuel) h (VRef a)
      (Encoder.mk d' refs1 sk' sr cyc)
    = Ok (tt, Encoder.mk
                (d' ++ byte_of_Z TAG_OBJECT_REF :: varint (Z.of_nat (length d)))
                refs1 sk' sr true)).
  { intros d' sk'.
    rewrite (serializeComponent_known fuel h a _
               (Encoder.mk d' refs1 sk' sr cyc) (Z.of_nat (length d)) Ha).
    - reflexivity.
    - unfold refs1. cbn [Encoder.object_refs]. apply lookup_insert_eq.
    - lia. }
  subst index keys. destruct (JSMap.get sk key) as [i|].
  - unfold bind at 1, ret at 1.
    rewrite (bind_Ok _ _ _ _ _ (Encoder_serializeCount_ok i _ Hidx)).
    unfold Encoder.set_ds;
      cbn [Encoder.ds Encoder.object_refs Encoder.string_keys
           Encoder.string_refs Encoder.hasCycle].
    rewrite (bind_Ok _ _ _ _ _ (Hrec _ _)).
    unfold ret. rewrite <- !app_assoc. reflexivity.
  - unfold bind at 1. unfold bind at 1, modify at 1. unfold ret at 1.
    unfold Encoder.set_string_keys;
      cbn [Encoder.ds Encoder.object_refs Encoder.string_keys
           Encoder.string_refs Encoder.hasCycle].
    rewrite (bind_Ok _ _ _ _ _ (Encoder_serializeCount_ok _ _ Hidx)).
    unfold Encoder.set_ds;
      cbn [Encoder.ds Encoder.object_refs Encoder.string_keys
           Encoder.string_refs Encoder.hasCycle].
    rewrite (bind_Ok _ _ _ _ _ (Hrec _ _)).
    unfold ret. rewrite <- !app_assoc. reflexivity.
Qed.

(** C2.  Both sides register a container at the position of its tag
    before its body is processed.  The encoder, on a container it has
    not registered, registers it at the position of the stream, writes
    the tag there and then writes the body from that state; on a
    container registered at [p] it writes [0x07] and [p], sets the cycle
    flag and enters nothing.  The decoder, with the cycle flag, on the
    tag of an object or of an array makes the empty container, registers
    it at the position of the tag and then reads the body from that
    state; on [0x07] and a count [k] it returns the container registered
    at position [k] of the payload.  So a reference to a container in
    its own body works on both sides: an object whose one property is
    the object itself is written as its tag, the count 1, the index of
    the name and a reference to the position of its tag; and these
    bytes are read as a new object whose property is that object
    itself.  On scenario S4: the output is
    [cyclic_bytes], with the NOCYCLE bit clear; the encoder has
    registered [o] at 0, the array at 6 and [p] at 8, where the payload
    holds their tags, and the payload ends with the reference [07 00];
    the decoder, whose payload starts at 30, has registered its three
    containers at 30, 36 and 38, and returns the value and the heap that
    were encoded, in which [o'.children[0].parent] is [o'] itself. *)
Theorem containers_are_registered_at_their_tag :
  (forall fuel h a c e,
      h !! a = Some c -> Encoder.object_refs e !! a = None ->
      Encoder.serializeComponent (S fuel) h (VRef a) e =
      write_body fuel h c (entered a c e)) /\
  (forall fuel h a c e p,
      h !! a = Some c -> Encoder.object_refs e !! a = Some p ->
      0 <= p < 2 ^ 32 ->
      Encoder.serializeComponent (S fuel) h (VRef a) e =
      Ok (tt, Encoder.mk (Encoder.ds e ++ byte_of_Z TAG_OBJECT_REF :: varint p)
                (Encoder.object_refs e) (Encoder.string_keys e)
                (Encoder.string_refs e) true)) /\
  (forall fuel d dh rest,
      Decoder.hasCycle d = true ->
      DataStream.remaining (Decoder.ds d) = byte_of_Z TAG_OBJECT :: rest ->
      Decoder.unserializeComponent (S fuel) (d, dh) =
      read_object_body fuel (length dh) (opened (CObject []) d dh)) /\
  (forall fuel d dh rest,
      Decoder.hasCycle d = true ->
      DataStream.remaining (Decoder.ds d) = byte_of_Z TAG_ARRAY :: rest ->
      Decoder.unserializeComponent (S fuel) (d, dh) =
      read_array_body fuel (length dh) (opened (CArray []) d dh)) /\
  (forall fuel d dh k a rest,
      0 <= k < 2 ^ 31 ->
      DataStream.remaining (Decoder.ds d)
        = byte_of_Z TAG_OBJECT_REF :: varint k ++ rest ->
      0 <= DataStream.position (Decoder.ds d) ->
      Decoder.object_refs d !! (k + Decoder.offset d) = Some a ->
      Decoder.unserializeComponent (S fuel) (d, dh) =
      Ok (VRef a,
          (Decoder.set_ds
             (DataStream.advance (Decoder.ds d)
                (1 + Z.of_nat (length (varint k)))) d, dh))) /\
  (forall fuel h a key e,
      h !! a = Some (CObject [(key, VRef a)]) ->
      Encoder.object_refs e !! a = None ->
      Z.of_nat (length (Encoder.ds e)) < 2 ^ 32 ->
      let index := match JSMap.get (Encoder.string_keys e) key with
                   | Some i => i
                   | None => JSMap.size (Encoder.string_keys e)
                   end in
      let keys := match JSMap.get (Encoder.string_keys e) key with
                  | Some _ => Encoder.string_keys e
                  | None => JSMap.set (Encoder.string_keys e) key
                              (JSMap.size (Encoder.string_keys e))
                  end in
      0 <= index < 2 ^ 32 ->
      Encoder.serializeComponent (2 + fuel) h (VRef a) e =
      Ok (tt, Encoder.mk
                (Encoder.ds e ++ byte_of_Z TAG_OBJECT :: varint 1
                   ++ varint index
                   ++ byte_of_Z TAG_OBJECT_REF
                   :: varint (Z.of_nat (length (Encoder.ds e))))
                (<[a := Z.of_nat (length (Encoder.ds e))]>
                   (Encoder.object_refs e))
                keys (Encoder.string_refs e) true)) /\
  (forall fuel d dh index p key rest,
      Decoder.hasCycle d = true ->
      0 <= DataStream.position (Decoder.ds d) ->
      DataStream.remaining (Decoder.ds d)
        = byte_of_Z TAG_OBJECT :: varint 1 ++ varint index
            ++ byte_of_Z TAG_OBJECT_REF :: varint p ++ rest ->
      0 <= index < 2 ^ 31 -> index < Decoder.msize (Decoder.string_keys d) ->
      Decoder.string_keys d !! index = Some key -> key <> "__proto__"%string ->
      0 <= p < 2 ^ 31 ->
      p + Decoder.offset d = DataStream.position (Decoder.ds d) ->
      exists d',
        Decoder.unserializeComponent (3 + fuel) (d, dh)
          = Ok (VRef (length dh),
                (d', dh ++ [CObject [(key, VRef (length dh))]])) /\
        Decoder.object_refs d'
          = <[DataStream.position (Decoder.ds d) := length dh]>
              (Decoder.object_refs d) /\
        DataStream.remaining (Decoder.ds d') = rest) /\
  encode cyclic_heap (VRef 0%nat) false = Ok cyclic_bytes /\
  nocycle_bit cyclic_bytes = false /\
  (exists e,
      Encoder.serializeComponent 4 cyclic_heap (VRef 0%nat) Encoder.new
        = Ok (tt, e) /\
      Encoder.ds e = cyclic_payload /\
      Encoder.object_refs e = <[0%nat := 0]> (<[1%nat := 6]> (<[2%nat := 8]> ∅)) /\
      Encoder.hasCycle e = true) /\
  cyclic_payload !! 0%nat = Some (byte_of_Z TAG_OBJECT) /\
  cyclic_payload !! 6%nat = Some (byte_of_Z TAG_ARRAY) /\
  cyclic_payload !! 8%nat = Some (byte_of_Z TAG_OBJECT) /\
  drop 14 cyclic_payload = byte_of_Z TAG_OBJECT_REF :: varint 0 /\
  (exists d,
      Decoder.decode (Decoder.new cyclic_bytes, [])
        = Ok (VRef 0%nat, (d, cyclic_heap)) /\
      Decoder.offset d = 30 /\
      Decoder.object_refs d = <[30 := 0%nat]> (<[36 := 1%nat]> (<[38 := 2%nat]> ∅))) /\
  roundtrip cyclic_heap (VRef 0%nat) false = Ok (VRef 0%nat, cyclic_heap) /\
  member cyclic_heap (VRef 0%nat) "children" = Some (VRef 1%nat) /\
  element cyclic_heap (VRef 1%nat) 0 = Some (VRef 2%nat) /\
  member cyclic_heap (VRef 2%nat) "parent" = Some (VRef 0%nat).
Proof.
  split; [exact serializeComponent_enters|].
  split; [exact serializeComponent_known|].
  split; [exact unserializeComponent_opens_object|].
  split; [exact unserializeComponent_opens_array|].
  split; [exact unserializeComponent_resolves|].
  split; [exact self_reference_is_written|].
  split; [exact self_reference_is_resolved|].
  split; [vm_compute; reflexivity|].
  split; [vm_compute; reflexivity|].
  split.
  { eexists. split; [vm_compute; reflexivity|].
    repeat split; vm_compute; reflexivity. }
  split; [vm_compute; reflexivity|].
  split; [vm_compute; reflexivity|].
  split; [vm_compute; reflexivity|].
  split; [vm_compute; reflexivity|].
  split.
  { eexists. split; [vm_compute; reflexivity|].
    split; vm_compute; reflexivity. }
  split; [vm_compute; reflexivity|].
  repeat split; vm_compute; reflexivity.
Qed.

Lemma containers_are_registered_at_their_tag_witness :
  Encoder.serializeComponent 4 cyclic_heap (VRef 1%nat) Encoder.new =
    write_body 3 cyclic_heap (CArray [VRef 2%nat])
      (entered 1%nat (CArray [VRef 2%nat]) Encoder.new) /\
  Encoder.serializeComponent 1 shared_heap (VRef 1%nat) sample_encoder =
    Ok (tt, Encoder.mk
              (Encoder.ds sample_encoder ++ byte_of_Z TAG_OBJECT_REF :: varint 3)
              (Encoder.object_refs sample_encoder)
              (Encoder.string_keys sample_encoder)
              (Encoder.string_refs sample_encoder) true) /\
  Decoder.unserializeComponent 3
    (Decoder.mk (DataStream.mk [x30; x00] 0) ∅ ∅ ∅ true 0, []) =
    read_object_body 2 0%nat
      (opened (CObject []) (Decoder.mk (DataStream.mk [x30; x00] 0) ∅ ∅ ∅ true 0) []) /\
  Decoder.unserializeComponent 3
    (Decoder.mk (DataStream.mk [x31; x00] 0) ∅ ∅ ∅ true 0, []) =
    read_array_body 2 0%nat
      (opened (CArray []) (Decoder.mk (DataStream.mk [x31; x00] 0) ∅ ∅ ∅ true 0) []) /\
  Decoder.unserializeComponent 1
    (Decoder.mk (DataStream.mk [x31; x01; x07; x00] 2) (<[0 := 0%nat]> ∅) ∅ ∅
       true 0, [CArray []]) =
    Ok (VRef 0%nat,
        (Decoder.mk (DataStream.mk [x31; x01; x07; x00] 4) (<[0 := 0%nat]> ∅)
           ∅ ∅ true 0, [CArray []])) /\
  Encoder.serializeComponent 2 [CObject [("me"%string, VRef 0%nat)]]
    (VRef 0%nat) Encoder.new =
    Ok (tt, Encoder.mk [x30; x01; x00; x07; x00] (<[0%nat := 0]> ∅)
              [("me"%string, 0)] [] true) /\
  exists d',
    Decoder.unserializeComponent 3
      (Decoder.mk (DataStream.mk [x30; x01; x00; x07; x00] 0) ∅
         (table_of ["me"%string]) ∅ true 0, []) =
    Ok (VRef 0%nat, (d', [CObject [("me"%string, VRef 0%nat)]])).
Proof.
  destruct containers_are_registered_at_their_tag
    as (E1 & E2 & D1 & D2 & D3 & E3 & D4 & _).
  split; [apply (E1 3%nat cyclic_heap 1%nat); reflexivity|].
  split.
  { apply (E2 0%nat shared_heap 1%nat
             (CArray [VNumber (F64.of_int 1); VNumber (F64.of_int 2);
                      VNumber (F64.of_int 3)]) sample_encoder 3);
      [reflexivity|reflexivity|lia]. }
  split; [apply (D1 2%nat _ [] [x00]); reflexivity|].
  split; [apply (D2 2%nat _ [] [x00]); reflexivity|].
  split.
  { rewrite (D3 0%nat (Decoder.mk (DataStream.mk [x31; x01; x07; x00] 2)
                         (<[0 := 0%nat]> ∅) ∅ ∅ true 0) [CArray []] 0 0%nat []).
    - reflexivity.
    - lia.
    - reflexivity.
    - cbn; lia.
    - reflexivity. }
  split.
  { apply (E3 0%nat [CObject [("me"%string, VRef 0%nat)]] 0%nat "me"%string
             Encoder.new).
    - reflexivity.
    - reflexivity.
    - vm_compute. reflexivity.
    - split; vm_compute; [discriminate|reflexivity]. }
  destruct (D4 0%nat
              (Decoder.mk (DataStream.mk [x30; x01; x00; x07; x00] 0) ∅
                 (table_of ["me"%string]) ∅ true 0)
              [] 0 0 "me"%string []) as (d' & Hrun & _).
  - reflexivity.
  - vm_compute. discriminate.
  - reflexivity.
  - lia.
  - vm_compute. reflexivity.
  - reflexivity.
  - discriminate.
  - lia.
  - reflexivity.
  - exists d'. exact Hrun.
Defined.

(** ** The round trip of a tree *)

Lemma depth_le_length (h : heap) :
  forall v t l, unfold h v t l -> (depth t <= length l)%nat.
Proof.
  apply (unfold_mut h
    (fun v t l => (depth t <= length l)%nat)
    (fun vs ts l => (list_max (map depth ts) <= length l)%nat)
    (fun ps tps l =>
       (list_max (map (fun p => depth (snd p)) tps) <= length l)%nat));
    try (intros; cbn; lia).
  - intros v t l vs ts ls _ IH1 _ IH2. cbn [map]. rewrite length_app.
    change (list_max (depth t :: map depth ts))
      with (Nat.max (depth t) (list_max (map depth ts))). lia.
  - intros k v t l ps tps ls _ IH1 _ IH2. cbn [map snd]. rewrite length_app.
    change (list_max (depth t :: map (fun p => depth (snd p)) tps))
      with (Nat.max (depth t) (list_max (map (fun p => depth (snd p)) tps))).
    lia.
Qed.

Lemma NoDup_bounded_length (l : list nat) (n : nat) :
  NoDup l -> (forall a, a ∈ l -> (a < n)%nat) -> (length l <= n)%nat.
Proof.
  intros Hnd Hb. rewrite <- (length_seq n 0).
  apply submseteq_length, NoDup_submseteq; [exact Hnd|].
  intros a Ha. apply elem_of_seq. specialize (Hb a Ha). lia.
Qed.

Lemma unserializeTOS_tables (hasCRC : bool) (e : Encoder.t) (P : list byte)
  (fuel : nat) (h : heap) :
  tables_nul_free e ->
  JSMap.size (Encoder.string_keys e) < 2 ^ 31 ->
  JSMap.size (Encoder.string_refs e) < 2 ^ 31 ->
  (length (prefix hasCRC e) <= fuel)%nat ->
  Decoder.unserializeTOS fuel (Decoder.new (prefix hasCRC e ++ P), h) =
  if hasCRC && negb (crc32 P =? crc32 (Encoder.ds e)) then Throw ChecksumMismatch
  else
    Ok (tt, (Decoder.mk
               (DataStream.mk (prefix hasCRC e ++ P)
                  (Z.of_nat (length (prefix hasCRC e))))
               ∅ (table_of (JSMap.keys (Encoder.string_keys e)))
               (table_of (JSMap.keys (Encoder.string_refs e)))
               (Encoder.hasCycle e) 0, h)).
Proof.
  intros [HnK HnR] HlK HlR Hfuel.
  destruct (prefix_length hasCRC e) as [HK HR].
  pose proof (unserializeTOS_layout hasCRC (Encoder.hasCycle e)
                (crc32 (Encoder.ds e)) (JSMap.keys (Encoder.string_keys e))
                (JSMap.keys (Encoder.string_refs e)) P fuel h) as L.
  cbv zeta in L.
  rewrite (Z.mod_small (crc32 _)) in L by apply crc32_range.
  replace (byte_of_Z (version_byte hasCRC (Encoder.hasCycle e))
             :: (if hasCRC then Z_to_be 4 (crc32 (Encoder.ds e)) else []) ++
                table_bytes (JSMap.keys (Encoder.string_keys e)) ++
                table_bytes (JSMap.keys (Encoder.string_refs e)))
    with (prefix hasCRC e) in L.
  2:{ unfold prefix, header. cbn [app]. reflexivity. }
  unfold JSMap.size, JSMap.keys in *. rewrite !length_map in *.
  apply L; try assumption; lia.
Qed.

Lemma decode_tables (hasCRC : bool) (e : Encoder.t) :
  tables_nul_free e ->
  JSMap.size (Encoder.string_keys e) < 2 ^ 31 ->
  JSMap.size (Encoder.string_refs e) < 2 ^ 31 ->
  decode (Buffer (prefix hasCRC e ++ Encoder.ds e)) =
  match Decoder.unserializeComponent (S (length (Encoder.ds e)))
          (payload_state hasCRC e (Encoder.ds e), []) with
  | Ok (v, (_, h)) => Ok (v, h)
  | Throw err => Throw err
  | Stuck => Stuck
  end.
Proof.
  intros Hnf HlK HlR. rewrite decode_Buffer. unfold Decoder.decode.
  rewrite (bind_Ok _ _ _ _ _ (eq_refl : Decoder.this (Decoder.new _, []) = Ok (_, _))).
  unfold bind at 1.
  rewrite unserializeTOS_tables; [|exact Hnf|exact HlK|exact HlR|].
  2:{ unfold Decoder.new, DataStream.remaining.
      cbn [Decoder.ds DataStream.position DataStream.buffer Z.to_nat].
      rewrite drop_0, length_app. lia. }
  rewrite Z.eqb_refl, andb_false_r.
  unfold bind, Decoder.this, Decoder.update.
  cbn [Decoder.set_offset Decoder.ds Decoder.object_refs Decoder.string_keys
       Decoder.string_refs Decoder.hasCycle DataStream.position].
  pose proof (payload_state_remaining hasCRC e (Encoder.ds e)) as Hrem.
  unfold payload_state in *. cbn [Decoder.ds] in Hrem.
  rewrite Hrem. reflexivity.
Qed.

(** What [encode] writes for a value without sharing: the header with
    the NOCYCLE bit, the tables and the bytes of the tree. *)
Lemma encode_unshared (h : heap) (v : value) (t : tree) (l : list addr)
  (hasCRC : bool) :
  unfold h v t l -> NoDup l ->
  Z.of_nat (weight t) < 2 ^ 32 ->
  exists refs,
    let e := Encoder.mk (fst (tenc t [] [])) refs
               (keymap 0 (fst (snd (tenc t [] []))))
               (keymap 1 (snd (snd (tenc t [] [])))) false in
    Encoder.serializeComponent (S (length h)) h v Encoder.new = Ok (tt, e) /\
    encode h v hasCRC = Ok (prefix hasCRC e ++ Encoder.ds e).
Proof.
  intros Hu Hnd Hw.
  pose proof (depth_le_length h v t l Hu) as Hd.
  pose proof (NoDup_bounded_length l (length h) Hnd (unfold_bound h v t l Hu)) as Hl.
  destruct (serializeComponent_tree h v t l Hu (S (length h)) Encoder.new [] [])
    as (refs & Hrun & _).
  - unfold addr, heap in *. lia.
  - split; reflexivity.
  - intros a _. apply lookup_empty.
  - exact Hnd.
  - cbn [length]. lia.
  - pose proof (tenc_grows t [] []) as (K2 & R2 & E & L).
    destruct (tenc t [] []) as [bs [K' R']]. cbn [fst snd app] in *.
    injection E as -> ->. cbn [Encoder.new Encoder.ds Encoder.hasCycle] in Hrun.
    exists refs. cbv zeta.
    split; [exact Hrun|].
    unfold encode, Encoder.encode. unfold bind at 1. rewrite Hrun.
    unfold bind at 1. rewrite serializeTOS_ok
      by (cbn [Encoder.string_keys Encoder.string_refs];
          rewrite keymap_size; lia).
    reflexivity.
Qed.

Lemma encode_tree (h : heap) (v : value) (t : tree) (l : list addr)
  (hasCRC : bool) :
  unfold h v t l -> NoDup l -> tree_ok t ->
  Z.of_nat (weight t) < 2 ^ 31 ->
  exists refs,
    let e := Encoder.mk (fst (tenc t [] [])) refs
               (keymap 0 (fst (snd (tenc t [] []))))
               (keymap 1 (snd (snd (tenc t [] [])))) false in
    Encoder.serializeComponent (S (length h)) h v Encoder.new = Ok (tt, e) /\
    encode h v hasCRC = Ok (prefix hasCRC e ++ Encoder.ds e) /\
    tables_nul_free e /\
    JSMap.size (Encoder.string_keys e) < 2 ^ 31 /\
    JSMap.size (Encoder.string_refs e) < 2 ^ 31.
Proof.
  intros Hu Hnd Hok Hw.
  destruct (encode_unshared h v t l hasCRC Hu Hnd ltac:(lia))
    as (refs & Hrun & Henc).
  exists refs. cbv zeta in *.
  split; [exact Hrun|]. split; [exact Henc|].
  pose proof (tenc_extends t [] [] Hok) as (K2 & R2 & E & L & NK & NR).
  destruct (tenc t [] []) as [bs [K' R']]. cbn [fst snd app] in *.
  injection E as -> ->.
  split; [|cbn [Encoder.string_keys Encoder.string_refs];
           split; rewrite keymap_size; lia].
  split; cbn [Encoder.string_keys Encoder.string_refs];
    rewrite keymap_keys; assumption.
Qed.

(** C1 (counterexample).  Two values without any shared container do
    not come back.  The string made of the character NUL alone: the
    table of strings is cut at the NUL, the payload is read one byte too
    early, and [decode] returns [false].  The object
    [{"__proto__": 5, "b": 1}]: the decoder assigns [obj["__proto__"] = 5],
    which creates no property, and returns [{"b": 1}]. *)
Lemma roundtrip_loses_nul_string_and_proto_property :
  (unfold [] (VString (String "000" EmptyString))
     (TString (String "000" EmptyString)) [] /\
   roundtrip [] (VString (String "000" EmptyString)) false
     = Ok (VBool false, [])) /\
  (unfold proto_heap (VRef 0%nat) proto_tree [0%nat] /\
   roundtrip proto_heap (VRef 0%nat) false
     = Ok (VRef 0%nat, [CObject [("b"%string, VNumber (F64.of_int 1))]])).
Proof.
  split; (split; [|vm_compute; reflexivity]).
  - constructor.
  - apply unfold_object with
      [("__proto__"%string, VNumber (F64.of_int 5));
       ("b"%string, VNumber (F64.of_int 1))]; [reflexivity|].
    apply (unfold_props_cons proto_heap "__proto__" _ _ [] _ _ []);
      [constructor|].
    apply (unfold_props_cons proto_heap "b" _ _ [] _ _ []); constructor.
Qed.

(** C1 (amended).  Let [v] be a value in which no container occurs more
    than once, whose strings and property names hold no NUL, none of
    whose properties is named ["__proto__"], and which is made of fewer
    than [2^31] values, properties and raw bytes.  Then [encode] returns
    a buffer, with or without the CRC option, [decode] returns a value
    from it, and that value is structurally equal to [v], properties in
    the same order, a negative zero being read back as zero; it is made
    of new containers, none of which occurs twice. *)
Theorem roundtrip_of_tree (h : heap) (v : value) (t : tree) (l : list addr)
  (hasCRC : bool) :
  unfold h v t l -> NoDup l -> tree_ok t ->
  Z.of_nat (weight t) < 2 ^ 31 ->
  exists v' h' l',
    roundtrip h v hasCRC = Ok (v', h') /\
    unfold h' v' (tnorm t) l' /\ NoDup l'.
Proof.
  intros Hu Hnd Hok Hw.
  destruct (encode_tree h v t l hasCRC Hu Hnd Hok Hw)
    as (refs & _ & Henc & Hnf & HlK & HlR).
  cbv zeta in *. unfold roundtrip. rewrite Henc.
  rewrite (decode_tables hasCRC _ Hnf HlK HlR).
  cbn [Encoder.ds].
  pose proof (tenc_extends t [] [] Hok) as (K2 & R2 & E & L & _).
  pose proof (decodes_all t [] [] (S (length (fst (tenc t [] []))))
                (fst (snd (tenc t [] []))) (snd (snd (tenc t [] []))) Hok
                ltac:(lia)
                (ex_intro _ [] (eq_sym (app_nil_r _)))
                (ex_intro _ [] (eq_sym (app_nil_r _)))) as Hdec.
  rewrite E in Hdec. cbn [fst snd app] in Hdec.
  specialize (Hdec ltac:(lia) ltac:(lia) Hw).
  match goal with
  | |- context [payload_state hasCRC ?e ?P] =>
      destruct (Hdec (payload_state hasCRC e P) [] [])
        as (v' & h' & l' & Hrun & Hu' & Hnd' & _)
  end.
  - split; reflexivity.
  - cbn [payload_state Decoder.string_keys Encoder.string_keys].
    rewrite keymap_keys, E. reflexivity.
  - cbn [payload_state Decoder.string_refs Encoder.string_refs].
    rewrite keymap_keys, E. reflexivity.
  - cbn [payload_state Decoder.ds DataStream.position]. lia.
  - rewrite payload_state_remaining, app_nil_r. reflexivity.
  - cbn [Encoder.ds] in Hrun. exists v', h', l'.
    split; [|split; assumption].
    match type of Hrun with
    | _ = ?Y =>
        match goal with
        | |- match ?X with _ => _ end = _ =>
            replace X with Y by (symmetry; exact Hrun)
        end
    end.
    reflexivity.
Qed.

Lemma sample_heap_is_tree :
  unfold sample_heap (VRef 0%nat) sample_tree [0%nat; 1%nat].
Proof.
  apply unfold_object with
    [("a"%string, VRef 1%nat); ("b"%string, VString "x")]; [reflexivity|].
  apply (unfold_props_cons sample_heap "a" (VRef 1%nat) _ [1%nat] _ _ []).
  - apply unfold_array with [VNumber (F64.of_int 5); VNull]; [reflexivity|].
    apply (unfold_elems_cons sample_heap _ _ [] _ _ []); [constructor|].
    apply (unfold_elems_cons sample_heap _ _ [] _ _ []); constructor.
  - apply (unfold_props_cons sample_heap "b" _ _ [] _ _ []); constructor.
Qed.

Lemma sample_tree_ok : tree_ok sample_tree.
Proof.
  apply tree_ok_object. split.
  - cbn [map fst sample_tree]. split; [|split].
    + apply NoDup_cons. split.
      * intros H. apply list_elem_of_singleton in H. discriminate.
      * apply NoDup_singleton.
    + reflexivity.
    + intros H. apply elem_of_cons in H as [H|H]; [discriminate|].
      apply list_elem_of_singleton in H. discriminate.
  - constructor; [split; [reflexivity|]|].
    + apply tree_ok_array. constructor; [|constructor; [exact I|constructor]].
      split; [discriminate|reflexivity].
    + constructor; [split; reflexivity|constructor].
Qed.

Lemma roundtrip_of_tree_witness :
  exists v' h' l',
    roundtrip sample_heap (VRef 0%nat) true = Ok (v', h') /\
    unfold h' v' (tnorm sample_tree) l' /\ NoDup l'.
Proof.
  apply (roundtrip_of_tree sample_heap (VRef 0%nat) sample_tree
           [0%nat; 1%nat] true).
  - exact sample_heap_is_tree.
  - apply NoDup_cons. split.
    + intros H. apply list_elem_of_singleton in H. discriminate.
    + apply NoDup_singleton.
  - exact sample_tree_ok.
  - vm_compute. reflexivity.
Defined.

(** * The NOCYCLE hint of the encoder *)

Lemma eframe_refl (e : Encoder.t) : eframe e e.
Proof. split; reflexivity. Qed.

Lemma eframe_trans (e1 e2 e3 : Encoder.t) :
  eframe e1 e2 -> eframe e2 e3 -> eframe e1 e3.
Proof. intros [H1 H2] [H3 H4]. split; congruence. Qed.

Lemma ekeeps_bind {A B : Type} (m : SM Encoder.t A) (k : A -> SM Encoder.t B) :
  ekeeps m -> (forall a, ekeeps (k a)) -> ekeeps (bind m k).
Proof.
  intros Hm Hk e b e' H. apply bind_Ok_inv in H.
  destruct H as (a & e1 & H1 & H2).
  eapply eframe_trans; [eapply Hm, H1|eapply Hk, H2].
Qed.

Lemma ekeeps_ret {A : Type} (a : A) : ekeeps (ret a).
Proof. intros e a' e' H. injection H as _ <-. apply eframe_refl. Qed.

Lemma ekeeps_get : ekeeps (get (S := Encoder.t)).
Proof. intros e a' e' H. injection H as _ <-. apply eframe_refl. Qed.

Lemma ekeeps_throw {A : Type} (err : error) : ekeeps (throw (A := A) err).
Proof. intros e a e' H. discriminate. Qed.

Lemma ekeeps_modify (f : Encoder.t -> Encoder.t) :
  (forall e, eframe e (f e)) -> ekeeps (modify f).
Proof. intros Hf e a e' H. injection H as _ <-. apply Hf. Qed.

Lemma ekeeps_write (f : DataStream.w -> DataStream.w) : ekeeps (Encoder.write f).
Proof. apply ekeeps_modify. intros e. split; reflexivity. Qed.

Lemma ekeeps_serializeCount (c : Z) : ekeeps (Encoder.serializeCount c).
Proof.
  intros e a e' H. unfold Encoder.serializeCount in H.
  destruct (serializeCount c (Encoder.ds e)); try discriminate.
  injection H as _ <-. split; reflexivity.
Qed.

Lemma ekeeps_serializeString (str : string) : ekeeps (Encoder.serializeString str).
Proof.
  unfold Encoder.serializeString.
  apply ekeeps_bind; [|intros index; apply ekeeps_serializeCount].
  destruct (String.eqb str EmptyString); [apply ekeeps_ret|].
  apply ekeeps_bind; [apply ekeeps_get|]. intros s.
  destruct (JSMap.get _ str); [apply ekeeps_ret|].
  apply ekeeps_bind; [|intros _; apply ekeeps_ret].
  apply ekeeps_modify. intros e. split; reflexivity.
Qed.

Lemma ekeeps_serializeNumber (n : F64.t) (tag : Z) :
  ekeeps (Encoder.serializeNumber n tag).
Proof.
  unfold Encoder.serializeNumber.
  repeat match goal with
         | |- ekeeps (if ?c then _ else _) => destruct c
         end; apply ekeeps_write.
Qed.

Lemma ekeeps_serializeComponentPart (obj : value) (tag : Z) :
  ekeeps (Encoder.serializeComponentPart obj tag).
Proof.
  destruct obj; cbn [Encoder.serializeComponentPart];
    try apply ekeeps_ret.
  - apply ekeeps_serializeNumber.
  - apply ekeeps_serializeString.
  - apply ekeeps_write.
  - apply ekeeps_bind; [apply ekeeps_serializeCount|].
    intros _. apply ekeeps_write.
  - apply ekeeps_throw.
Qed.

(** A value that is not a container is written without a registration
    and without a reference. *)
Lemma registers_leaf (fuel : nat) (h : heap) (v : value) :
  nonref v -> registers (Encoder.serializeComponent fuel h v) [].
Proof.
  intros Hv e e' _ H. destruct fuel as [|fuel]; [discriminate|].
  assert (K : ekeeps (fun s =>
            match Encoder.getValueTag h v with
            | Ok tag =>
                (Encoder.write (DataStream.writeUint8 tag) ;;;
                 Encoder.serializeComponentPart v tag) s
            | Throw err => Throw err
            | Stuck => Stuck
            end)).
  { intros e0 a e0' H0. destruct (Encoder.getValueTag h v); try discriminate.
    revert H0. apply ekeeps_bind; [apply ekeeps_write|].
    intros _. apply ekeeps_serializeComponentPart. }
  destruct v; try contradiction; cbn [Encoder.serializeComponent] in H;
    apply K in H; destruct H as [H1 H2]; (split; [exact H1|]);
    intros a _; rewrite H2; reflexivity.
Qed.

Lemma registers_container (m : SM Encoder.t unit) (body : SM Encoder.t unit)
  (a : addr) (l : list addr) (tag count : Z) :
  (forall e,
      Encoder.object_refs e !! a = None ->
      m e = (modify (Encoder.set_object_refs
                       (<[a := DataStream.wposition (Encoder.ds e)]>
                          (Encoder.object_refs e))) ;;;
             Encoder.write (DataStream.writeUint8 tag) ;;;
             Encoder.serializeCount count ;;;
             body) e) ->
  a ∉ l -> registers body l -> registers m (a :: l).
Proof.
  intros Hm Hnotin Hbody e e' Hrefs H.
  rewrite Hm in H by (apply Hrefs, list_elem_of_here).
  apply bind_Ok_inv in H. destruct H as (u1 & e1 & H1 & H).
  unfold modify in H1. injection H1 as _ <-.
  apply bind_Ok_inv in H. destruct H as (u2 & e2 & H2 & H).
  apply ekeeps_write in H2. destruct H2 as [C2 R2].
  apply bind_Ok_inv in H. destruct H as (u3 & e3 & H3 & H).
  apply ekeeps_serializeCount in H3. destruct H3 as [C3 R3].
  destruct u3. apply Hbody in H.
  - destruct H as [C R]. split.
    + rewrite C, C3, C2. reflexivity.
    + intros a' Ha'. apply not_elem_of_cons in Ha' as [Hne Ha'].
      rewrite (R a' Ha'), R3, R2. cbn [Encoder.set_object_refs Encoder.object_refs].
      apply lookup_insert_ne. congruence.
  - intros a' Ha'. rewrite R3, R2.
    cbn [Encoder.set_object_refs Encoder.object_refs].
    rewrite lookup_insert_ne by (intros ->; contradiction).
    apply Hrefs, list_elem_of_further, Ha'.
Qed.

Lemma registers_seq (m1 m2 : SM Encoder.t unit) (l1 l2 : list addr) :
  NoDup (l1 ++ l2) -> registers m1 l1 -> registers m2 l2 ->
  registers (m1 ;;; m2) (l1 ++ l2).
Proof.
  intros Hnd H1 H2 e e' Hrefs H.
  apply NoDup_app in Hnd as (_ & Hdisj & _).
  apply bind_Ok_inv in H. destruct H as ([] & e1 & E1 & E2).
  apply H1 in E1; [|intros a Ha; apply Hrefs, elem_of_app; left; exact Ha].
  destruct E1 as [C1 R1].
  apply H2 in E2.
  - destruct E2 as [C2 R2]. split; [congruence|].
    intros a Ha. rewrite R2, R1; [reflexivity| |];
      intros Hin; apply Ha, elem_of_app; [left|right]; exact Hin.
  - intros a Ha. rewrite R1 by (intros Hin; exact (Hdisj a Hin Ha)).
    apply Hrefs, elem_of_app. right. exact Ha.
Qed.

(** The encoder on a value without sharing: no reference is written. *)
Lemma serializeComponent_registers (h : heap) :
  forall v t l, unfold h v t l -> NoDup l ->
    forall fuel, registers (Encoder.serializeComponent fuel h v) l.
Proof.
  apply (unfold_mut h
    (fun v t l => NoDup l ->
       forall fuel, registers (Encoder.serializeComponent fuel h v) l)
    (fun vs ts l => NoDup l ->
       forall fuel,
         registers (Encoder.serializeElements
                      (Encoder.serializeComponent fuel h) vs) l)
    (fun ps tps l => NoDup l ->
       forall fuel,
         registers (Encoder.serializeProperties
                      (Encoder.serializeComponent fuel h) ps) l));
    try (intros; apply registers_leaf; exact I).
  - (* array *)
    intros a vs ts l Ha _ IH Hnd fuel.
    apply NoDup_cons in Hnd as [Hnotin Hnd].
    destruct fuel as [|fuel]; [intros e e' _ H; discriminate|].
    apply (registers_container _
             (Encoder.serializeElements (Encoder.serializeComponent fuel h) vs)
             a l TAG_ARRAY (Z.of_nat (length vs)));
      [|exact Hnotin|apply IH, Hnd].
    intros e He. cbn [Encoder.serializeComponent]. rewrite Ha.
    unfold Encoder.serializeArray. unfold bind at 1. unfold get at 1.
    rewrite He. reflexivity.
  - (* object *)
    intros a ps tps l Ha _ IH Hnd fuel.
    apply NoDup_cons in Hnd as [Hnotin Hnd].
    destruct fuel as [|fuel]; [intros e e' _ H; discriminate|].
    apply (registers_container _
             (Encoder.serializeProperties (Encoder.serializeComponent fuel h) ps)
             a l TAG_OBJECT (Z.of_nat (length ps)));
      [|exact Hnotin|apply IH, Hnd].
    intros e He. cbn [Encoder.serializeComponent]. rewrite Ha.
    unfold Encoder.serializeObject. unfold bind at 1. unfold get at 1.
    rewrite He. reflexivity.
  - (* no element *)
    intros _ fuel e e' _ H. cbn [Encoder.serializeElements] in H.
    injection H as <-. split; [reflexivity|]. intros; reflexivity.
  - (* an element and the others *)
    intros v t l vs ts ls _ IH1 _ IH2 Hnd fuel.
    cbn [Encoder.serializeElements].
    pose proof Hnd as Hnd'. apply NoDup_app in Hnd' as (Hnd1 & _ & Hnd2).
    apply registers_seq; [exact Hnd|apply IH1, Hnd1|apply IH2, Hnd2].
  - (* no property *)
    intros _ fuel e e' _ H. cbn [Encoder.serializeProperties] in H.
    injection H as <-. split; [reflexivity|]. intros; reflexivity.
  - (* a property and the others *)
    intros k v t l ps tps ls _ IH1 _ IH2 Hnd fuel.
    pose proof Hnd as Hnd'. apply NoDup_app in Hnd' as (Hnd1 & _ & Hnd2).
    intros e e' Hrefs H. cbn [Encoder.serializeProperties] in H.
    apply bind_Ok_inv in H. destruct H as (s & e0 & H0 & H).
    unfold get in H0. injection H0 as <- <-.
    apply bind_Ok_inv in H. destruct H as (index & e1 & H1 & H).
    assert (F1 : eframe e e1).
    { destruct (JSMap.get (Encoder.string_keys e) k).
      - apply ekeeps_ret in H1. exact H1.
      - revert H1. apply ekeeps_bind; [|intros _; apply ekeeps_ret].
        apply ekeeps_modify. intros e0. split; reflexivity. }
    apply bind_Ok_inv in H. destruct H as (u2 & e2 & H2 & H).
    apply ekeeps_serializeCount in H2.
    pose proof (eframe_trans _ _ _ F1 H2) as [C2 R2].
    apply (registers_seq _ _ l ls Hnd (IH1 Hnd1 fuel) (IH2 Hnd2 fuel)) in H.
    + destruct H as [C R]. split; [congruence|].
      intros a Ha. rewrite (R a Ha), R2. reflexivity.
    + intros a Ha. rewrite R2. apply Hrefs, Ha.
Qed.

(** ** The converse: a run without a reference has walked a tree *)

Lemma tracks_keeps (m : SM Encoder.t unit) :
  ekeeps m -> tracks m (fun l => l = []).
Proof.
  intros K e e' H. apply K in H. destruct H as [C R].
  split; [rewrite C; auto|]. split; [intros a; rewrite R; auto|].
  intros _. exists []. split; [reflexivity|]. split; [apply NoDup_nil_2|].
  intros a Ha. apply elem_of_nil in Ha. contradiction.
Qed.

Lemma tracks_weaken (m : SM Encoder.t unit) (T T' : list addr -> Prop) :
  (forall l, T l -> T' l) -> tracks m T -> tracks m T'.
Proof.
  intros HT Hm e e' H. destruct (Hm e e' H) as (C & R & W).
  split; [exact C|]. split; [exact R|].
  intros Hc. destruct (W Hc) as (l & Hl & Hrest).
  exists l. split; [apply HT, Hl|exact Hrest].
Qed.

Lemma tracks_seq (m1 m2 : SM Encoder.t unit) (T1 T2 : list addr -> Prop) :
  tracks m1 T1 -> tracks m2 T2 ->
  tracks (m1 ;;; m2) (fun l => exists l1 l2, l = l1 ++ l2 /\ T1 l1 /\ T2 l2).
Proof.
  intros H1 H2 e e' H.
  apply bind_Ok_inv in H. destruct H as ([] & e1 & E1 & E2).
  destruct (H1 e e1 E1) as (C1 & R1 & W1).
  destruct (H2 e1 e' E2) as (C2 & R2 & W2).
  split; [auto|]. split; [auto|].
  intros Hc.
  assert (Hc1 : Encoder.hasCycle e1 = false).
  { destruct (Encoder.hasCycle e1) eqn:E; [|reflexivity].
    rewrite (C2 eq_refl) in Hc. discriminate. }
  destruct (W1 Hc1) as (l1 & T1l & Hnd1 & F1).
  destruct (W2 Hc) as (l2 & T2l & Hnd2 & F2).
  exists (l1 ++ l2). split; [exists l1, l2; auto|]. split.
  - apply NoDup_app. split; [exact Hnd1|]. split; [|exact Hnd2].
    intros a Ha1 Ha2. destruct (F1 a Ha1) as [_ S1]. destruct (F2 a Ha2) as [N2 _].
    rewrite N2 in S1. destruct S1 as [x Hx]. discriminate.
  - intros a Ha. apply elem_of_app in Ha. destruct Ha as [Ha|Ha].
    + destruct (F1 a Ha) as [N1 S1]. split; [exact N1|apply R2, S1].
    + destruct (F2 a Ha) as [N2 S2]. split; [|exact S2].
      destruct (Encoder.object_refs e !! a) eqn:E; [|reflexivity].
      assert (S1 : is_Some (Encoder.object_refs e1 !! a))
        by (apply R1; rewrite E; eauto).
      rewrite N2 in S1. destruct S1 as [x Hx]. discriminate.
Qed.

(** The same run from a state with the same flag and registrations. *)
Lemma tracks_from (m : SM Encoder.t unit) (T : list addr -> Prop)
    (e0 e e' : Encoder.t) :
  tracks m T -> eframe e0 e -> m e = Ok (tt, e') ->
  (Encoder.hasCycle e0 = true -> Encoder.hasCycle e' = true) /\
  (forall a, is_Some (Encoder.object_refs e0 !! a) ->
             is_Some (Encoder.object_refs e' !! a)) /\
  (Encoder.hasCycle e' = false ->
   exists l, T l /\ NoDup l /\
     forall a, a ∈ l ->
       Encoder.object_refs e0 !! a = None /\
       is_Some (Encoder.object_refs e' !! a)).
Proof.
  intros Hm [C R] H. destruct (Hm e e' H) as (C' & R' & W').
  rewrite C, R in *. auto.
Qed.

Lemma serializeComponent_leaf_keeps (fuel : nat) (h : heap) (v : value) :
  nonref v -> ekeeps (Encoder.serializeComponent fuel h v).
Proof.
  intros Hv e u e' H. destruct fuel as [|fuel]; [discriminate|].
  assert (K : ekeeps (fun s =>
            match Encoder.getValueTag h v with
            | Ok tag =>
                (Encoder.write (DataStream.writeUint8 tag) ;;;
                 Encoder.serializeComponentPart v tag) s
            | Throw err => Throw err
            | Stuck => Stuck
            end)).
  { intros e0 a e0' H0. destruct (Encoder.getValueTag h v); try discriminate.
    revert H0. apply ekeeps_bind; [apply ekeeps_write|].
    intros _. apply ekeeps_serializeComponentPart. }
  destruct v; try contradiction; cbn [Encoder.serializeComponent] in H;
    apply K in H; exact H.
Qed.

Lemma nonref_unfold (h : heap) (v : value) :
  nonref v -> exists t, unfold h v t [].
Proof.
  destruct v; intros Hv; try contradiction; eexists; constructor.
Qed.

Lemma serializeReference_inv (p : Z) (e e' : Encoder.t) :
  Encoder.serializeReference p e = Ok (tt, e') ->
  Encoder.hasCycle e' = true /\
  Encoder.object_refs e' = Encoder.object_refs e.
Proof.
  unfold Encoder.serializeReference. intros H.
  apply bind_Ok_inv in H. destruct H as (u1 & e1 & H1 & H).
  apply ekeeps_write in H1. destruct H1 as [_ R1].
  apply bind_Ok_inv in H. destruct H as (u2 & e2 & H2 & H).
  apply ekeeps_serializeCount in H2. destruct H2 as [_ R2].
  unfold modify in H. injection H as <-.
  cbn [Encoder.set_hasCycle Encoder.hasCycle Encoder.object_refs].
  split; [reflexivity|congruence].
Qed.

Section Tracks.

Variable h : heap.
Variable rec : value -> SM Encoder.t unit.
Hypothesis rec_tracks :
  forall v, tracks (rec v) (fun l => exists t, unfold h v t l).

Lemma serializeElements_tracks (vs : list value) :
  tracks (Encoder.serializeElements rec vs)
    (fun l => exists ts, unfold_elems h vs ts l).
Proof.
  induction vs as [|v vs IH].
  - apply (tracks_weaken _ (fun l => l = [])); [|apply tracks_keeps, ekeeps_ret].
    intros l ->. exists []. constructor.
  - cbn [Encoder.serializeElements].
    eapply tracks_weaken; [|exact (tracks_seq _ _ _ _ (rec_tracks v) IH)].
    cbv beta. intros l (l1 & l2 & -> & [t Ht] & [ts Hts]).
    exists (t :: ts). constructor; assumption.
Qed.

Lemma serializeProperties_tracks (ps : list (string * value)) :
  tracks (Encoder.serializeProperties rec ps)
    (fun l => exists tps, unfold_props h ps tps l).
Proof.
  induction ps as [|[k v] ps IH].
  - apply (tracks_weaken _ (fun l => l = [])); [|apply tracks_keeps, ekeeps_ret].
    intros l ->. exists []. constructor.
  - intros e e' H. cbn [Encoder.serializeProperties] in H.
    apply bind_Ok_inv in H. destruct H as (s & e0 & H0 & H).
    unfold get in H0. injection H0 as <- <-.
    apply bind_Ok_inv in H. destruct H as (index & e1 & H1 & H).
    assert (F1 : eframe e e1).
    { destruct (JSMap.get (Encoder.string_keys e) k).
      - apply ekeeps_ret in H1. exact H1.
      - revert H1. apply ekeeps_bind; [|intros _; apply ekeeps_ret].
        apply ekeeps_modify. intros e0. split; reflexivity. }
    apply bind_Ok_inv in H. destruct H as (u2 & e2 & H2 & H).
    apply ekeeps_serializeCount in H2.
    pose proof (eframe_trans _ _ _ F1 H2) as F2.
    destruct (tracks_from _ _ e e2 e' (tracks_seq _ _ _ _ (rec_tracks v) IH) F2 H)
      as (C & R & W).
    split; [exact C|]. split; [exact R|].
    intros Hc. destruct (W Hc) as (l & (l1 & l2 & -> & [t Ht] & [tps Htps]) & Hrest).
    exists (l1 ++ l2). split; [|exact Hrest].
    exists ((k, t) :: tps). constructor; assumption.
Qed.

End Tracks.

(** Whatever the value, shared or cyclic: when the encoder returns with
    the cycle flag clear, the value is a tree, no container of which
    occurs twice. *)
Lemma serializeComponent_tracks (h : heap) (fuel : nat) :
  forall v, tracks (Encoder.serializeComponent fuel h v)
              (fun l => exists t, unfold h v t l).
Proof.
  induction fuel as [|fuel IH]; intros v; [intros e e' H; discriminate|].
  destruct (classic_nonref v) as [Hv|[a ->]].
  { apply (tracks_weaken _ (fun l => l = []));
      [|apply tracks_keeps, serializeComponent_leaf_keeps, Hv].
    intros l ->. apply nonref_unfold, Hv. }
  intros e e' H.
  destruct (h !! a) as [c|] eqn:Ha;
    [|cbn [Encoder.serializeComponent] in H; rewrite Ha in H; discriminate].
  destruct (Encoder.object_refs e !! a) as [p|] eqn:Hr.
  - (* met again *)
    assert (Href : Encoder.serializeReference p e = Ok (tt, e')).
    { cbn [Encoder.serializeComponent] in H. rewrite Ha in H.
      destruct c; [unfold Encoder.serializeObject in H
                  |unfold Encoder.serializeArray in H];
        unfold bind at 1 in H; unfold get at 1 in H; rewrite Hr in H; exact H. }
    apply serializeReference_inv in Href. destruct Href as [C R].
    split; [auto|]. split; [intros a'; rewrite R; auto|].
    intros Hc. rewrite C in Hc. discriminate.
  - (* met for the first time *)
    rewrite (serializeComponent_enters fuel h a c e Ha Hr) in H.
    assert (Hbody :
      tracks (write_body fuel h c)
        (fun l => match c with
                  | CObject ps => exists tps, unfold_props h ps tps l
                  | CArray vs => exists ts, unfold_elems h vs ts l
                  end)).
    { destruct c as [ps|vs]; cbn [write_body].
      - eapply tracks_weaken;
          [|exact (tracks_seq _ _ _ _
                     (tracks_keeps _ (ekeeps_serializeCount _))
                     (serializeProperties_tracks h _ IH ps))].
        cbv beta. intros l (l1 & l2 & -> & -> & Hl). exact Hl.
      - eapply tracks_weaken;
          [|exact (tracks_seq _ _ _ _
                     (tracks_keeps _ (ekeeps_serializeCount _))
                     (serializeElements_tracks h _ IH vs))].
        cbv beta. intros l (l1 & l2 & -> & -> & Hl). exact Hl. }
    destruct (Hbody _ _ H) as (C & R & W).
    cbn [entered Encoder.hasCycle Encoder.object_refs] in C, R, W.
    split; [exact C|]. split.
    + intros a' Ha'. apply R.
      destruct (decide (a' = a)) as [->|Hne];
        [rewrite lookup_insert_eq; eauto|rewrite lookup_insert_ne by congruence; exact Ha'].
    + intros Hc. destruct (W Hc) as (l & Hl & Hnd & F).
      assert (Hnotin : a ∉ l).
      { intros Hin. destruct (F a Hin) as [N _].
        rewrite lookup_insert_eq in N. discriminate. }
      exists (a :: l). split; [|split].
      * destruct c as [ps|vs]; destruct Hl as [t Ht]; eexists;
          [eapply unfold_object|eapply unfold_array]; eassumption.
      * apply NoDup_cons. split; assumption.
      * intros a' Ha'. apply elem_of_cons in Ha'. destruct Ha' as [->|Ha'].
        -- split; [exact Hr|]. apply R. rewrite lookup_insert_eq. eauto.
        -- destruct (F a' Ha') as [N S']. split; [|exact S'].
           destruct (decide (a' = a)) as [->|Hne]; [contradiction|].
           rewrite lookup_insert_ne in N by congruence. exact N.
Qed.

(** C3 (amended).  For every input value and every output of [encode],
    with or without the CRC option, the NOCYCLE bit (0x40) of byte 0 is
    set if and only if no container occurs more than once in the value;
    and [encode] does return a buffer for a value in which no container
    occurs more than once and which is made of fewer than [2^32] values,
    properties and raw bytes. *)
Theorem nocycle_bit_is_set_without_sharing (h : heap) (v : value)
  (hasCRC : bool) :
  (forall bytes,
      encode h v hasCRC = Ok bytes ->
      (nocycle_bit bytes = true <-> exists t l, unfold h v t l /\ NoDup l)) /\
  (forall t l,
      unfold h v t l -> NoDup l -> Z.of_nat (weight t) < 2 ^ 32 ->
      exists bytes, encode h v hasCRC = Ok bytes).
Proof.
  split.
  - intros bytes Henc. apply encode_inv in Henc.
    destruct Henc as (e & Hrun & ->).
    assert (Hbit : nocycle_bit (prefix hasCRC e ++ Encoder.ds e)
                   = negb (Encoder.hasCycle e)).
    { unfold prefix, header. cbn [app nocycle_bit].
      destruct hasCRC, (Encoder.hasCycle e); reflexivity. }
    rewrite Hbit. split.
    + intros Hc. apply negb_true_iff in Hc.
      destruct (serializeComponent_tracks h _ v _ _ Hrun) as (_ & _ & W).
      destruct (W Hc) as (l & [t Ht] & Hnd & _).
      exists t, l. split; assumption.
    + intros (t & l & Hu & Hnd).
      apply (serializeComponent_registers h v t l Hu Hnd) in Hrun;
        [|intros a _; apply lookup_empty].
      destruct Hrun as [Hcyc _]. cbn [Encoder.new Encoder.hasCycle] in Hcyc.
      rewrite Hcyc. reflexivity.
  - intros t l Hu Hnd Hw.
    destruct (encode_unshared h v t l hasCRC Hu Hnd Hw) as (refs & _ & Henc).
    eexists. exact Henc.
Qed.

Lemma nocycle_bit_is_set_without_sharing_witness :
  exists bytes,
    encode sample_heap (VRef 0%nat) false = Ok bytes /\
    nocycle_bit bytes = true.
Proof.
  destruct (nocycle_bit_is_set_without_sharing sample_heap (VRef 0%nat) false)
    as [Hbit Hret].
  assert (Hnd : NoDup [0%nat; 1%nat]).
  { apply NoDup_cons. split.
    - intros H. apply list_elem_of_singleton in H. discriminate.
    - apply NoDup_singleton. }
  destruct (Hret sample_tree [0%nat; 1%nat] sample_heap_is_tree Hnd)
    as [bytes Henc].
  - vm_compute. reflexivity.
  - exists bytes. split; [exact Henc|].
    apply (Hbit bytes Henc). exists sample_tree, [0%nat; 1%nat].
    split; [exact sample_heap_is_tree|exact Hnd].
Defined.

(** * The decoder under the NOCYCLE hint *)

(** ** Steps that leave the registrations alone *)





Lemma yields_weaken {A : Type} (P Q : A -> Prop) (m : SM Decoder.world A) :
  (forall a, P a -> Q a) -> yields P m -> yields Q m.
Proof.
  intros HPQ Hm s h a s' h' H. apply Hm in H. destruct H as (R & E & Pa).
  split; [exact R|]. split; [exact E|apply HPQ, Pa].
Qed.








(** ** The header *)



(** ** Values that are not containers *)






(** ** The containers *)


















(** * The entry check of [decode] *)

Lemma never_bind {A B : Type} (e : error) (m : SM Decoder.world A)
  (k : A -> SM Decoder.world B) :
  never e m -> (forall a, never e (k a)) -> never e (bind m k).
Proof.
  intros Hm Hk w. unfold bind. specialize (Hm w).
  destruct (m w) as [[a w']| |]; [apply Hk| |discriminate].
  intros E. apply Hm. congruence.
Qed.

Lemma never_ret {A : Type} (e : error) (a : A) : never e (ret a).
Proof. intros w. discriminate. Qed.

Lemma never_stuck {A : Type} (e : error) : never (A := A) e stuck.
Proof. intros w. discriminate. Qed.

Lemma never_throw {A : Type} (e e' : error) :
  e' <> e -> never (A := A) e (throw e').
Proof. intros H w. unfold throw. congruence. Qed.

Lemma never_this (e : error) : never e Decoder.this.
Proof. intros [s h]. discriminate. Qed.

Lemma never_update (e : error) (f : Decoder.t -> Decoder.t) :
  never e (Decoder.update f).
Proof. intros [s h]. discriminate. Qed.

Lemma never_on_heap (e : error) (f : heap -> heap) :
  never e (Decoder.on_heap f).
Proof. intros [s h]. discriminate. Qed.

Lemma never_allocate (e : error) (c : container) :
  never e (Decoder.allocate c).
Proof. intros [s h]. discriminate. Qed.

Lemma never_read {A : Type} (e : error)
  (f : DataStream.t -> outcome (A * DataStream.t)) :
  (forall ds, f ds <> Throw e) -> never e (Decoder.read f).
Proof.
  intros Hf [s h]. unfold Decoder.read. specialize (Hf (Decoder.ds s)).
  destruct (f (Decoder.ds s)) as [[a d]| |]; [discriminate| |discriminate].
  intros E. apply Hf. congruence.
Qed.

(** The stream fails when it is exhausted, or on a negative length. *)
Lemma readBytes_error (n : nat) (ds : DataStream.t) :
  DataStream.readBytes n ds <> Throw InvalidData.
Proof. unfold DataStream.readBytes. destruct (_ <=? _)%nat; discriminate. Qed.

Lemma readUint_error (n : nat) (ds : DataStream.t) :
  DataStream.readUint n ds <> Throw InvalidData.
Proof.
  unfold DataStream.readUint. pose proof (readBytes_error n ds) as H.
  destruct (DataStream.readBytes n ds) as [[bs d]| |];
    [discriminate| |discriminate].
  intros E. apply H. congruence.
Qed.

Lemma readInt_error (n : nat) (ds : DataStream.t) :
  DataStream.readInt n ds <> Throw InvalidData.
Proof.
  unfold DataStream.readInt. pose proof (readBytes_error n ds) as H.
  destruct (DataStream.readBytes n ds) as [[bs d]| |];
    [discriminate| |discriminate].
  intros E. apply H. congruence.
Qed.

Lemma readUint8Array_error (n : Z) (ds : DataStream.t) :
  DataStream.readUint8Array n ds <> Throw InvalidData.
Proof.
  unfold DataStream.readUint8Array. destruct (n <? 0); [discriminate|].
  apply readBytes_error.
Qed.

Lemma readCString_error (ds : DataStream.t) :
  DataStream.readCString ds <> Throw InvalidData.
Proof.
  unfold DataStream.readCString.
  destruct (DataStream.splitNul _) as [[s n]|]; discriminate.
Qed.

Lemma unserializeCount_loop_error (rest : list byte) :
  forall c value, unserializeCount_loop rest c value <> Throw InvalidData.
Proof.
  induction rest as [|b rest IH]; intros c value; [discriminate|].
  cbn [unserializeCount_loop]. destruct (negb _); [apply IH|discriminate].
Qed.

Lemma unserializeCount_error (ds : DataStream.t) :
  unserializeCount ds <> Throw InvalidData.
Proof.
  unfold unserializeCount.
  pose proof (unserializeCount_loop_error (DataStream.remaining ds) 0 0) as H.
  destruct (unserializeCount_loop _ 0 0) as [[v c]| |];
    [discriminate| |discriminate].
  intros E. apply H. congruence.
Qed.

Ltac never_step :=
  first
    [ apply never_ret
    | apply never_stuck
    | apply never_throw; discriminate
    | apply never_this
    | apply never_update
    | apply never_on_heap
    | apply never_allocate
    | apply never_read;
      first [ apply readUint_error | apply readInt_error
            | apply readUint8Array_error | apply readCString_error
            | apply unserializeCount_error ] ].

Ltac never_tac :=
  repeat first
    [ never_step
    | apply never_bind; [|intros ?]
    | match goal with
      | |- never _ (if ?c then _ else _) => destruct c
      | |- never _ (match ?x with Some _ => _ | None => _ end) => destruct x
      end ].

Lemma never_unserializeElements (rec : SM Decoder.world value) (a : addr) :
  never InvalidData rec ->
  forall fuel i size,
    never InvalidData (Decoder.unserializeElements rec fuel a i size).
Proof.
  intros Hrec. induction fuel as [|fuel IH]; intros i size; [never_tac|].
  cbn [Decoder.unserializeElements]. destruct (i <? size); [|never_tac].
  apply never_bind; [exact Hrec|]. intros v.
  apply never_bind; [never_tac|]. intros _. apply IH.
Qed.

Lemma never_unserializeProperties (rec : SM Decoder.world value) (a : addr) :
  never InvalidData rec ->
  forall fuel size max,
    never InvalidData (Decoder.unserializeProperties rec fuel a size max).
Proof.
  intros Hrec. induction fuel as [|fuel IH]; intros size max; [never_tac|].
  cbn [Decoder.unserializeProperties]. destruct (0 <? size); [|never_tac].
  apply never_bind; [never_tac|]. intros index.
  destruct (max <=? index); [never_tac|].
  apply never_bind; [never_tac|]. intros s.
  apply never_bind; [exact Hrec|]. intros v.
  apply never_bind; [never_tac|]. intros _. apply IH.
Qed.

Lemma never_unserializeComponent (fuel : nat) :
  never InvalidData (Decoder.unserializeComponent fuel).
Proof.
  induction fuel as [|fuel IH]; [never_tac|].
  cbn [Decoder.unserializeComponent].
  apply never_bind; [never_tac|]. intros tag.
  unfold Decoder.unserializeComponentPart.
  repeat match goal with
         | |- never _ (if ?c then _ else _) => destruct c
         end;
    try (unfold Decoder.unserializeString, Decoder.unserializeDate; never_tac; fail).
  - unfold Decoder.unserializeObject.
    apply never_bind; [never_tac|]. intros a.
    apply never_bind; [never_tac|]. intros s.
    apply never_bind; [never_tac|]. intros _.
    apply never_bind; [never_tac|]. intros size.
    apply never_bind; [never_tac|]. intros s'.
    apply never_bind; [|intros _; never_tac].
    apply never_unserializeProperties, IH.
  - unfold Decoder.unserializeArray.
    apply never_bind; [never_tac|]. intros a.
    apply never_bind; [never_tac|]. intros s.
    apply never_bind; [never_tac|]. intros _.
    apply never_bind; [never_tac|]. intros size.
    apply never_bind; [|intros _; never_tac].
    apply never_unserializeElements, IH.
Qed.

Lemma never_readStrings (set : Z -> string -> Decoder.t -> Decoder.t) :
  forall fuel i size, never InvalidData (Decoder.readStrings fuel set i size).
Proof.
  induction fuel as [|fuel IH]; intros i size; [never_tac|].
  cbn [Decoder.readStrings]. destruct (i <? size); [|never_tac].
  apply never_bind; [never_tac|]. intros str.
  apply never_bind; [never_tac|]. intros _. apply IH.
Qed.

(** The decoder itself never raises the error of the entry check. *)
Lemma never_decode : never InvalidData Decoder.decode.
Proof.
  unfold Decoder.decode.
  apply never_bind; [never_tac|]. intros s.
  apply never_bind.
  - unfold Decoder.unserializeTOS.
    apply never_bind; [never_tac|]. intros version.
    destruct (_ <? _); [never_tac|].
    apply never_bind; [never_tac|]. intros crc.
    apply never_bind; [never_tac|]. intros _.
    apply never_bind; [never_tac|]. intros size.
    apply never_bind; [apply never_readStrings|]. intros _.
    apply never_bind; [never_tac|]. intros size'.
    apply never_bind; [apply never_readStrings|]. intros _.
    never_tac.
  - intros _. apply never_bind; [never_tac|]. intros s'.
    apply never_bind; [never_tac|]. intros _.
    apply never_unserializeComponent.
Qed.

(** C8 (amended).  The entry check of [decode], the same in both
    versions of the library, refuses its input exactly when it is
    [undefined], is [null], or is a value that is not an [ArrayBuffer]
    and whose property [buffer] is not one either; and [decode] fails
    with [InvalidData] exactly on these inputs: a value that is not an
    [ArrayBuffer] but has one as its [buffer], a typed array for one,
    passes the check and is decoded as a byte buffer.  An empty byte
    buffer passes the check too, and [decode] then fails with
    [Truncated], the error of the stream, on the version byte. *)
Theorem decode_entry_check :
  (forall binary,
      invalid_data binary = true <->
      binary = Undefined \/ binary = Null \/
      (instanceof_ArrayBuffer binary = false /\
       instanceof_ArrayBuffer (get_buffer binary) = false)) /\
  (forall binary,
      decode binary = Throw InvalidData <-> invalid_data binary = true) /\
  (forall buffer view, decode (Object (Buffer buffer) view) = decode (Buffer view)) /\
  invalid_data (Buffer []) = false /\
  decode (Buffer []) = Throw Truncated.
Proof.
  split; [|split; [|repeat split; reflexivity]].
  - intros binary. unfold invalid_data. split.
    + intros E. destruct binary as [ | | |b|b v]; cbn in E |- *;
        try discriminate; auto.
      destruct b; cbn in E |- *; try discriminate; auto.
    + intros [->|[->|[H1 H2]]]; [reflexivity|reflexivity|].
      rewrite H1, H2. rewrite orb_true_r. reflexivity.
  - intros binary. unfold decode. split.
    + intros H. destruct (invalid_data binary) eqn:E; [reflexivity|].
      exfalso.
      pose proof (never_decode (Decoder.new (stream_bytes binary), [])) as N.
      destruct (Decoder.decode (Decoder.new (stream_bytes binary), []))
        as [[v [s h]]|e|]; [discriminate| |discriminate].
      injection H as ->. apply N. reflexivity.
    + intros ->. reflexivity.
Qed.

(** * Other properties of the code *)

(** ** Counts *)

Lemma serializeCount_loop_length (fuel : nat) :
  forall v, 0 <= v < 2 ^ (7 * Z.of_nat (S fuel)) -> v < 2 ^ 32 ->
    (length (serializeCount_loop (S fuel) v []) <= S fuel)%nat.
Proof.
  induction fuel as [|fuel IH]; intros v Hv H32.
  - rewrite serializeCount_loop_last by (change (2 ^ (7 * Z.of_nat 1)) with 128 in Hv; lia).
    cbn [length]. lia.
  - destruct (Z.lt_ge_cases v 128) as [Hlt|Hge].
    + rewrite serializeCount_loop_last by lia. cbn [length]. lia.
    + rewrite serializeCount_loop_more by lia. cbn [length].
      apply le_n_S, IH.
      * unfold JS.ushr, JS.ToUint32. change (7 mod 32) with 7.
        rewrite Z.mod_small by lia. rewrite Z.shiftr_div_pow2 by lia.
        split; [apply Z.div_pos; lia|].
        apply Z.div_lt_upper_bound; [lia|].
        rewrite <- Z.pow_add_r by lia.
        replace (7 + 7 * Z.of_nat (S fuel)) with (7 * Z.of_nat (S (S fuel))) by lia.
        lia.
      * unfold JS.ushr, JS.ToUint32. change (7 mod 32) with 7.
        rewrite Z.mod_small by lia. rewrite Z.shiftr_div_pow2 by lia.
        apply Z.div_lt_upper_bound; lia.
Qed.

(** X1.  A count below [2^31] is written on one to five bytes and read
    back as it was, whatever follows it in the buffer, the position
    being left after its last byte. *)
Theorem count_roundtrip_below_2_31 (c : Z) (rest : list byte) :
  0 <= c < 2 ^ 31 ->
  exists bytes,
    serializeCount c [] = Ok bytes /\
    (1 <= length bytes <= 5)%nat /\
    unserializeCount (DataStream.mk (bytes ++ rest) 0) =
      Ok (c, DataStream.mk (bytes ++ rest) (Z.of_nat (length bytes))).
Proof.
  intros Hc. exists (varint c).
  split; [rewrite serializeCount_ok by lia; reflexivity|]. split.
  - split; [apply varint_nonempty|].
    apply (serializeCount_loop_length 4 c); [|lia].
    split; [lia|]. apply Z.lt_trans with (2 ^ 31); [lia|].
    apply Z.pow_lt_mono_r; lia.
  - rewrite (unserializeCount_varint_small c _ rest Hc)
      by (unfold DataStream.remaining; cbn; rewrite drop_0; reflexivity).
    unfold DataStream.advance. cbn. reflexivity.
Qed.

Lemma count_roundtrip_below_2_31_witness :
  exists bytes,
    serializeCount 300 [] = Ok bytes /\
    (1 <= length bytes <= 5)%nat /\
    unserializeCount (DataStream.mk (bytes ++ [x07]) 0) =
      Ok (300, DataStream.mk (bytes ++ [x07]) (Z.of_nat (length bytes))).
Proof. apply (count_roundtrip_below_2_31 300 [x07]). lia. Defined.

(** X2.  [serializeCount] fails with the invalid-count error exactly
    on the integers that are not unsigned 32-bit integers, and writes
    nothing then. *)
Theorem serializeCount_guard (c : Z) (ds : DataStream.w) :
  serializeCount c ds = Throw InvalidCount <-> ~ 0 <= c < 2 ^ 32.
Proof.
  split.
  - intros H Hc. rewrite serializeCount_ok in H by exact Hc. discriminate.
  - apply serializeCount_throws.
Qed.

(** ** The checksum *)

(** X3.  The checksum of a buffer changes whenever one of its bytes is
    changed. *)
Theorem crc32_changes_with_any_byte (data : list byte) (i : nat) (b b' : byte) :
  data !! i = Some b -> b <> b' -> crc32 (<[i := b']> data) <> crc32 data.
Proof.
  intros Hi Hne.
  pose proof (take_drop_middle data i b Hi) as Hsplit.
  rewrite insert_take_drop by (eapply lookup_lt_Some, Hi).
  rewrite <- Hsplit at 3. intros H. symmetry in H.
  exact (crc32_one_byte _ _ b b' Hne H).
Qed.

Lemma crc32_changes_with_any_byte_witness :
  crc32 (<[1%nat := x00]> [x30; x01; x00; x06]) <> crc32 [x30; x01; x00; x06].
Proof.
  apply (crc32_changes_with_any_byte [x30; x01; x00; x06] 1 x01 x00).
  - reflexivity.
  - discriminate.
Defined.

(** ** The header and the tables *)





(** X6.  A buffer whose byte 0 holds, in its low four bits, a version
    above 1 is refused with the version error, before anything else is
    read. *)
Theorem decode_refuses_later_version (b : byte) (rest : list byte) :
  MAJOR_VERSION < JS.band (byte_to_Z b) 0x0F ->
  decode (Buffer (b :: rest)) = Throw VersionMismatch.
Proof.
  intros Hv. rewrite decode_Buffer. unfold Decoder.decode.
  rewrite (bind_Ok _ _ _ _ _ (eq_refl : Decoder.this (Decoder.new _, []) = Ok (_, _))).
  unfold bind at 1. unfold Decoder.unserializeTOS.
  erewrite bind_Ok.
  2:{ apply read_Ok. apply (readUint8_byte b _ rest).
      unfold Decoder.new, DataStream.remaining. cbn. rewrite drop_0. reflexivity. }
  destruct (Z.ltb_spec MAJOR_VERSION (JS.band (byte_to_Z b) 15)) as [_|]; [|lia].
  reflexivity.
Qed.

Lemma decode_refuses_later_version_witness :
  decode (Buffer (x02 :: [x00; x00; x05])) = Throw VersionMismatch.
Proof.
  apply (decode_refuses_later_version x02 [x00; x00; x05]).
  vm_compute. reflexivity.
Defined.

(** ** The values *)

(** X7.  A tag that is none of the seventeen tags of the format is
    refused with the unexpected-tag error, and nothing is read after
    it. *)
Theorem unknown_tag_is_refused (rec : SM Decoder.world value) (fuel : nat)
  (tag : Z) (w : Decoder.world) :
  ~ In tag known_tags ->
  Decoder.unserializeComponentPart rec fuel tag w = Throw UnexpectedTag.
Proof.
  intros Hin. unfold Decoder.unserializeComponentPart.
  repeat match goal with
         | |- (if ?t =? ?k then _ else _) _ = _ =>
             destruct (Z.eqb_spec t k) as [E|_];
             [exfalso; apply Hin; rewrite E; unfold known_tags;
              cbn [In]; tauto|]
         end.
  reflexivity.
Qed.

Lemma unknown_tag_is_refused_witness :
  Decoder.unserializeComponentPart (ret VNull) 0 8
    (Decoder.new [], []) = Throw UnexpectedTag.
Proof.
  apply (unknown_tag_is_refused (ret VNull) 0 8 (Decoder.new [], [])).
  unfold known_tags. cbn [In]. intros H.
  repeat (destruct H as [H|H]; [discriminate H|]). exact H.
Defined.





(** X10.  The decoder reads a value the same way wherever the payload
    stands in its buffer: two decoders that hold the same tables and
    the same registrations relative to their payload, and have the same
    bytes left, return the same value and the same containers, or fail
    with the same error. *)
Theorem decoder_is_position_independent (fuel : nat) (w1 w2 : Decoder.world) :
  wsim w1 w2 ->
  osim (Decoder.unserializeComponent fuel w1)
       (Decoder.unserializeComponent fuel w2).
Proof. intros H. apply msim_unserializeComponent, H. Qed.

Lemma decoder_is_position_independent_witness :
  osim (Decoder.unserializeComponent 5
          (sample_state [x41; x01; x61; x00; x00], []))
       (Decoder.unserializeComponent 5
          (sample_state [xc1; x39; xce; xe8; xbf; x01; x61; x00; x00], [])).
Proof.
  apply (decoder_is_position_independent 5).
  split; [|reflexivity]. unfold sim, sample_state.
  cbn [fst Decoder.ds Decoder.offset Decoder.string_keys Decoder.string_refs
       Decoder.hasCycle Decoder.object_refs DataStream.position length].
  split; [vm_compute; reflexivity|].
  split; [lia|]. split; [lia|]. split; [lia|].
  split; [reflexivity|]. split; [reflexivity|]. split; [reflexivity|].
  intros k. reflexivity.
Defined.

(** ** Strings and containers met again *)

Lemma JSMap_get_set (m : JSMap.t) (k : string) (v : Z) :
  JSMap.get m k = None -> JSMap.get (JSMap.set m k v) k = Some v.
Proof.
  induction m as [|[k' v'] m IH]; intros H.
  - cbn [JSMap.set JSMap.get]. rewrite String.eqb_refl. reflexivity.
  - cbn [JSMap.get JSMap.set] in *. destruct (String.eqb k' k) eqn:E;
      [discriminate|].
    cbn [JSMap.get]. rewrite E. apply IH, H.
Qed.

(** X11.  A string value is given its index once: when it is written
    again, the same bytes are written and the table of strings is left
    as it is. *)
Theorem repeated_string_is_written_once (str : string) (e e1 : Encoder.t) :
  Encoder.serializeString str e = Ok (tt, e1) ->
  exists bytes,
    Encoder.ds e1 = Encoder.ds e ++ bytes /\
    Encoder.serializeString str e1 =
      Ok (tt, Encoder.set_ds (Encoder.ds e1 ++ bytes) e1).
Proof.
  unfold Encoder.serializeString. intros H.
  destruct (String.eqb str EmptyString).
  - unfold bind at 1 in H. unfold ret at 1 in H.
    apply Encoder_serializeCount_inv in H. destruct H as [Hc H].
    injection H as ->. exists (varint 0). split; [reflexivity|].
    unfold bind at 1. unfold ret at 1.
    rewrite Encoder_serializeCount_ok by exact Hc. reflexivity.
  - unfold bind at 1 in H. unfold bind at 1 in H. unfold get at 1 in H.
    destruct (JSMap.get (Encoder.string_refs e) str) as [index|] eqn:E.
    + unfold ret at 1 in H.
      apply Encoder_serializeCount_inv in H. destruct H as [Hc H].
      injection H as ->. exists (varint index). split; [reflexivity|].
      unfold bind at 1. unfold bind at 1. unfold get at 1.
      cbn [Encoder.string_refs Encoder.set_ds]. rewrite E.
      unfold ret at 1. rewrite Encoder_serializeCount_ok by exact Hc.
      reflexivity.
    + unfold bind at 1 in H. unfold modify at 1 in H. unfold ret at 1 in H.
      apply Encoder_serializeCount_inv in H. destruct H as [Hc H].
      injection H as ->.
      exists (varint (JSMap.size (Encoder.string_refs e) + 1)).
      split; [reflexivity|].
      unfold bind at 1. unfold bind at 1. unfold get at 1.
      cbn [Encoder.string_refs Encoder.set_ds Encoder.set_string_refs].
      rewrite (JSMap_get_set _ _ _ E).
      unfold ret at 1. rewrite Encoder_serializeCount_ok by exact Hc.
      reflexivity.
Qed.

Lemma repeated_string_is_written_once_witness :
  exists bytes,
    Encoder.ds (Encoder.mk [x01] ∅ [] [("x"%string, 1)] false)
      = Encoder.ds Encoder.new ++ bytes /\
    Encoder.serializeString "x"
      (Encoder.mk [x01] ∅ [] [("x"%string, 1)] false) =
      Ok (tt, Encoder.set_ds
                (Encoder.ds (Encoder.mk [x01] ∅ [] [("x"%string, 1)] false)
                 ++ bytes)
                (Encoder.mk [x01] ∅ [] [("x"%string, 1)] false)).
Proof.
  apply (repeated_string_is_written_once "x" Encoder.new).
  reflexivity.
Defined.

(** * The decoder always ends *)

Lemma remaining_advance_length (ds : DataStream.t) (k : nat) :
  0 <= DataStream.position ds ->
  length (DataStream.remaining (DataStream.advance ds (Z.of_nat k)))
  = (length (DataStream.remaining ds) - k)%nat.
Proof.
  intros Hp. unfold DataStream.remaining, DataStream.advance.
  cbn [DataStream.position DataStream.buffer].
  rewrite Z2Nat.inj_add, Nat2Z.id by lia.
  rewrite !length_drop. lia.
Qed.

Lemma sreads_readBytes (n : nat) : sreads n (DataStream.readBytes n).
Proof.
  intros ds. unfold DataStream.readBytes.
  destruct (Nat.leb_spec n (length (DataStream.remaining ds))) as [Hn|Hn];
    (split; [discriminate|]); [|discriminate].
  intros a ds' [= <- <-] Hp. rewrite remaining_advance_length by exact Hp.
  rewrite advance_position. lia.
Qed.

Lemma sreads_readUint (n : nat) : sreads n (DataStream.readUint n).
Proof.
  intros ds. unfold DataStream.readUint.
  destruct (sreads_readBytes n ds) as [NS P].
  destruct (DataStream.readBytes n ds) as [[bs d]| |];
    (split; [first [discriminate | exfalso; apply NS; reflexivity]|]); try discriminate.
  intros a ds' [= <- <-]. apply (P bs d eq_refl).
Qed.

Lemma sreads_readInt (n : nat) : sreads n (DataStream.readInt n).
Proof.
  intros ds. unfold DataStream.readInt.
  destruct (sreads_readBytes n ds) as [NS P].
  destruct (DataStream.readBytes n ds) as [[bs d]| |];
    (split; [first [discriminate | exfalso; apply NS; reflexivity]|]); try discriminate.
  intros a ds' [= <- <-]. apply (P bs d eq_refl).
Qed.

Lemma sreads_readUint8Array (k : Z) : sreads 0 (DataStream.readUint8Array k).
Proof.
  intros ds. unfold DataStream.readUint8Array.
  destruct (k <? 0); [split; [discriminate|discriminate]|].
  destruct (sreads_readBytes (Z.to_nat k) ds) as [NS P].
  split; [exact NS|]. intros a ds' H Hp. destruct (P a ds' H Hp). lia.
Qed.

Lemma sreads_readCString : sreads 1 DataStream.readCString.
Proof.
  intros ds. unfold DataStream.readCString.
  destruct (DataStream.splitNul (DataStream.remaining ds)) as [[s n]|] eqn:E;
    (split; [discriminate|]); [|discriminate].
  intros a ds' [= <- <-] Hp. apply splitNul_length in E.
  replace n with (Z.of_nat (Z.to_nat n)) by lia.
  rewrite remaining_advance_length by exact Hp.
  rewrite advance_position. lia.
Qed.

Lemma unserializeCount_loop_length (rest : list byte) :
  forall c0 v value c,
    unserializeCount_loop rest c0 v = Ok (value, c) ->
    c0 + 1 <= c <= c0 + Z.of_nat (length rest).
Proof.
  induction rest as [|b rest IH]; intros c0 v value c H; [discriminate|].
  cbn [unserializeCount_loop] in H. destruct (negb _).
  - apply IH in H. cbn [length]. lia.
  - injection H as _ <-. cbn [length]. lia.
Qed.

Lemma unserializeCount_loop_ends (rest : list byte) :
  forall c0 v, unserializeCount_loop rest c0 v <> Stuck.
Proof.
  induction rest as [|b rest IH]; intros c0 v; [discriminate|].
  cbn [unserializeCount_loop]. destruct (negb _); [apply IH|discriminate].
Qed.

Lemma sreads_unserializeCount : sreads 1 unserializeCount.
Proof.
  intros ds. unfold unserializeCount.
  pose proof (unserializeCount_loop_ends (DataStream.remaining ds) 0 0) as NS.
  destruct (unserializeCount_loop (DataStream.remaining ds) 0 0)
    as [[value c]| |] eqn:E; (split; [first [discriminate | exfalso; apply NS; reflexivity]|]);
    try discriminate.
  intros a ds' [= <- <-] Hp. apply unserializeCount_loop_length in E.
  replace c with (Z.of_nat (Z.to_nat c)) by lia.
  rewrite remaining_advance_length by exact Hp.
  rewrite advance_position. lia.
Qed.

(** *** Steps of the decoder *)

Lemma runs_weaken {A : Type} (F F' n n' : nat) (m : SM Decoder.world A) :
  (F' <= F)%nat -> (n' <= n)%nat -> runs F n m -> runs F' n' m.
Proof.
  intros HF Hn Hm w Hp Hr. destruct (Hm w Hp ltac:(lia)) as [NS P].
  split; [exact NS|]. intros a w' H. destruct (P a w' H). split; [assumption|lia].
Qed.

Lemma runs_bind {A B : Type} (F n1 n2 : nat) (m : SM Decoder.world A)
    (k : A -> SM Decoder.world B) :
  runs F n1 m -> (forall a, runs (F - n1) n2 (k a)) ->
  runs F (n1 + n2) (bind m k).
Proof.
  intros Hm Hk w Hp Hr. destruct (Hm w Hp Hr) as [NS P]. unfold bind.
  destruct (m w) as [[a w1]| |]; [|split; discriminate|contradiction].
  destruct (P a w1 eq_refl) as [Hp1 Hr1].
  destruct (Hk a w1 Hp1 ltac:(lia)) as [NS2 P2].
  split; [exact NS2|]. intros b w' H. destruct (P2 b w' H). split; [assumption|lia].
Qed.

Lemma runs_ret {A : Type} (F : nat) (a : A) : runs F 0 (ret a).
Proof.
  intros w Hp Hr. split; [discriminate|]. intros a' w' [= <- <-].
  split; [assumption|lia].
Qed.

Lemma runs_throw {A : Type} (F n : nat) (e : error) :
  runs F n (throw (A := A) e).
Proof. intros w Hp Hr. split; discriminate. Qed.

Lemma runs_this (F : nat) : runs F 0 Decoder.this.
Proof.
  intros [s h] Hp Hr. split; [discriminate|]. intros a w' [= <- <-].
  split; [assumption|lia].
Qed.

Lemma runs_update (F : nat) (f : Decoder.t -> Decoder.t) :
  (forall s, Decoder.ds (f s) = Decoder.ds s) -> runs F 0 (Decoder.update f).
Proof.
  intros Hf [s h] Hp Hr. split; [discriminate|]. intros a w' [= <- <-].
  unfold wpos, wrem in *. cbn [fst] in *. rewrite Hf. split; [assumption|lia].
Qed.

Lemma runs_on_heap (F : nat) (f : heap -> heap) : runs F 0 (Decoder.on_heap f).
Proof.
  intros [s h] Hp Hr. split; [discriminate|]. intros a w' [= <- <-].
  split; [assumption|]. unfold wrem. cbn [fst]. lia.
Qed.

Lemma runs_allocate (F : nat) (c : container) : runs F 0 (Decoder.allocate c).
Proof.
  intros [s h] Hp Hr. split; [discriminate|]. intros a w' [= <- <-].
  split; [assumption|]. unfold wrem. cbn [fst]. lia.
Qed.

Lemma runs_read {A : Type} (F n : nat)
    (f : DataStream.t -> outcome (A * DataStream.t)) :
  sreads n f -> runs F n (Decoder.read f).
Proof.
  intros Hf [s h] Hp Hr. unfold Decoder.read.
  destruct (Hf (Decoder.ds s)) as [NS P].
  destruct (f (Decoder.ds s)) as [[a d]| |];
    (split; [first [discriminate | exfalso; apply NS; reflexivity]|]); try discriminate.
  intros a' w' [= <- <-]. unfold wpos, wrem in *. cbn [fst] in *.
  destruct s. apply (P a d eq_refl Hp).
Qed.

Ltac runs_leaf :=
  first
    [ apply runs_ret
    | apply runs_throw
    | apply runs_this
    | apply runs_on_heap
    | apply runs_allocate
    | apply runs_update; intros []; reflexivity
    | eapply runs_weaken; [apply Nat.le_refl|apply Nat.le_0_l|];
      apply runs_read;
      first [ apply sreads_readUint | apply sreads_readInt
            | apply sreads_readUint8Array | apply sreads_readCString
            | apply sreads_unserializeCount ] ].

(** A sequence of steps that takes no byte that is counted. *)
Lemma runs_bind_0 {A B : Type} (F : nat) (m : SM Decoder.world A)
    (k : A -> SM Decoder.world B) :
  runs F 0 m -> (forall a, runs F 0 (k a)) -> runs F 0 (bind m k).
Proof.
  intros Hm Hk. apply (runs_bind F 0 0 m k Hm).
  intros a. rewrite Nat.sub_0_r. apply Hk.
Qed.

Lemma runs_bind_1 {A B : Type} (F : nat) (m : SM Decoder.world A)
    (k : A -> SM Decoder.world B) :
  runs F 1 m -> (forall a, runs (F - 1) 0 (k a)) -> runs F 0 (bind m k).
Proof.
  intros Hm Hk. eapply runs_weaken; [apply Nat.le_refl|apply Nat.le_0_l|].
  apply (runs_bind F 1 0 m k Hm Hk).
Qed.

Ltac runs_tac :=
  repeat first
    [ runs_leaf
    | apply runs_bind_0; [|intros ?]
    | match goal with
      | |- runs _ _ (if ?c then _ else _) => destruct c
      | |- runs _ _ (match ?x with Some _ => _ | None => _ end) => destruct x
      end ].

Lemma runs_unserializeCount (F : nat) : runs F 1 Decoder.unserializeCount.
Proof. apply runs_read, sreads_unserializeCount. Qed.

Lemma runs_readUint8 (F : nat) : runs F 1 (Decoder.read DataStream.readUint8).
Proof. apply runs_read, sreads_readUint. Qed.

Section Loops.

Variable F : nat.
Variable rec : SM Decoder.world value.
Hypothesis rec_runs : runs F 1 rec.

Lemma runs_unserializeElements (a : addr) :
  forall fuel i size,
    runs (Nat.min F fuel) 0 (Decoder.unserializeElements rec fuel a i size).
Proof.
  induction fuel as [|fuel IH]; intros i size.
  - intros w _ Hr. rewrite Nat.min_0_r in Hr. lia.
  - cbn [Decoder.unserializeElements]. destruct (i <? size); [|runs_tac].
    apply runs_bind_1.
    + eapply runs_weaken; [apply Nat.le_min_l|apply Nat.le_refl|exact rec_runs].
    + intros v. apply runs_bind_0; [runs_tac|]. intros _.
      eapply runs_weaken; [|apply Nat.le_refl|apply IH]. lia.
Qed.

Lemma runs_unserializeProperties (a : addr) :
  forall fuel size max,
    runs (Nat.min F fuel) 0 (Decoder.unserializeProperties rec fuel a size max).
Proof.
  induction fuel as [|fuel IH]; intros size max.
  - intros w _ Hr. rewrite Nat.min_0_r in Hr. lia.
  - cbn [Decoder.unserializeProperties]. destruct (0 <? size); [|runs_tac].
    apply runs_bind_1; [apply runs_unserializeCount|]. intros index.
    destruct (max <=? index); [runs_tac|].
    apply runs_bind_0; [runs_tac|]. intros s.
    apply runs_bind_0.
    + eapply runs_weaken; [|apply Nat.le_0_l|exact rec_runs]. lia.
    + intros v. apply runs_bind_0; [runs_tac|]. intros _.
      eapply runs_weaken; [|apply Nat.le_refl|apply IH]. lia.
Qed.

End Loops.

(** Every value takes a byte at least, and its reading ends when the
    fuel is above the number of bytes left. *)
Lemma runs_unserializeComponent (fuel : nat) :
  runs fuel 1 (Decoder.unserializeComponent fuel).
Proof.
  induction fuel as [|fuel IH]; [intros w _ Hr; lia|].
  cbn [Decoder.unserializeComponent].
  apply (runs_bind _ 1 0); [apply runs_readUint8|]. intros tag.
  replace (S fuel - 1)%nat with fuel by lia.
  unfold Decoder.unserializeComponentPart.
  repeat match goal with
         | |- runs _ _ (if ?c then _ else _) => destruct c
         end;
    try (unfold Decoder.unserializeString, Decoder.unserializeDate;
         runs_tac; fail).
  - unfold Decoder.unserializeObject.
    apply runs_bind_0; [runs_tac|]. intros a.
    apply runs_bind_0; [runs_tac|]. intros s.
    apply runs_bind_0; [runs_tac|]. intros _.
    apply runs_bind_0; [runs_tac|]. intros size.
    apply runs_bind_0; [runs_tac|]. intros s'.
    apply runs_bind_0; [|intros _; runs_tac].
    eapply runs_weaken;
      [|apply Nat.le_refl|apply (runs_unserializeProperties fuel _ IH)]. lia.
  - unfold Decoder.unserializeArray.
    apply runs_bind_0; [runs_tac|]. intros a.
    apply runs_bind_0; [runs_tac|]. intros s.
    apply runs_bind_0; [runs_tac|]. intros _.
    apply runs_bind_0; [runs_tac|]. intros size.
    apply runs_bind_0; [|intros _; runs_tac].
    eapply runs_weaken;
      [|apply Nat.le_refl|apply (runs_unserializeElements fuel _ IH)]. lia.
Qed.

Lemma runs_readStrings (set : Z -> string -> Decoder.t -> Decoder.t) :
  (forall i str s, Decoder.ds (set i str s) = Decoder.ds s) ->
  forall fuel i size, runs fuel 0 (Decoder.readStrings fuel set i size).
Proof.
  intros Hset. induction fuel as [|fuel IH]; intros i size.
  - intros w _ Hr. lia.
  - cbn [Decoder.readStrings]. destruct (i <? size); [|runs_tac].
    apply runs_bind_1; [apply runs_read, sreads_readCString|].
    intros str. replace (S fuel - 1)%nat with fuel by lia.
    apply runs_bind_0; [apply runs_update; intros s; apply Hset|].
    intros _. apply IH.
Qed.

Lemma runs_unserializeTOS (fuel : nat) :
  runs fuel 0 (Decoder.unserializeTOS fuel).
Proof.
  unfold Decoder.unserializeTOS.
  apply runs_bind_0; [runs_tac|]. intros version.
  destruct (_ <? _); [runs_tac|].
  apply runs_bind_0; [runs_tac|]. intros crc.
  apply runs_bind_0; [runs_tac|]. intros _.
  apply runs_bind_0; [runs_tac|]. intros size.
  apply runs_bind_0;
    [apply runs_readStrings; intros i str []; reflexivity|]. intros _.
  apply runs_bind_0; [runs_tac|]. intros size'.
  apply runs_bind_0;
    [apply runs_readStrings; intros i str []; reflexivity|]. intros _.
  destruct (negb _); [|runs_tac].
  intros [s h] Hp Hr. unfold bind, Decoder.this.
  destruct (negb _); [split; discriminate|].
  split; [discriminate|]. intros a w' [= <- <-].
  unfold wpos, wrem in *. cbn [fst Decoder.set_ds Decoder.ds] in *.
  unfold DataStream.remaining in *. cbn [DataStream.position DataStream.buffer].
  split; [assumption|lia].
Qed.

Lemma Decoder_decode_ends (bytes : list byte) :
  Decoder.decode (Decoder.new bytes, []) <> Stuck.
Proof.
  unfold Decoder.decode.
  rewrite (bind_Ok _ _ _ _ _ (eq_refl : Decoder.this (Decoder.new _, []) = Ok (_, _))).
  destruct (runs_unserializeTOS
              (S (length (DataStream.remaining (Decoder.ds (Decoder.new bytes)))))
              (Decoder.new bytes, [])) as [NS P].
  { unfold wpos. cbn. lia. }
  { unfold wrem. cbn [fst]. lia. }
  unfold bind at 1.
  destruct (Decoder.unserializeTOS _ _) as [[[] [s h]]| |];
    [|discriminate|contradiction].
  destruct (P tt (s, h) eq_refl) as [Hp _].
  unfold bind at 1, Decoder.this at 1.
  unfold bind at 1, Decoder.update at 1.
  apply (runs_unserializeComponent
           (S (length (DataStream.remaining (Decoder.ds s))))
           (Decoder.set_offset (DataStream.position (Decoder.ds s)) s, h)).
  - destruct s. exact Hp.
  - unfold wrem. destruct s. cbn [fst Decoder.set_offset Decoder.ds]. lia.
Qed.

(** X12.  [decode] always ends: on every input it returns a value or
    raises an error.  The fuel the embedding gives to the loops and to
    the recursion of the decoder, the number of bytes left plus one, is
    never used up. *)
Theorem decode_always_ends (binary : input) :
  (exists v h, decode binary = Ok (v, h)) \/ (exists e, decode binary = Throw e).
Proof.
  unfold decode. destruct (invalid_data binary); [right; eauto|].
  pose proof (Decoder_decode_ends (stream_bytes binary)) as H.
  destruct (Decoder.decode (Decoder.new (stream_bytes binary), []))
    as [[v [s h]]|e|]; [left; eauto|right; eauto|contradiction].
Qed.

(** X13.  Every value that is read takes a byte at least: the cursor
    never moves back, and fewer bytes are left after the value than
    before it. *)
Theorem value_takes_a_byte (fuel : nat) (w w' : Decoder.world) (v : value) :
  0 <= wpos w -> (wrem w < fuel)%nat ->
  Decoder.unserializeComponent fuel w = Ok (v, w') ->
  0 <= wpos w' /\ (wrem w' < wrem w)%nat.
Proof.
  intros Hp Hr H.
  destruct (runs_unserializeComponent fuel w Hp Hr) as [_ P].
  destruct (P v w' H). split; [assumption|lia].
Qed.

Lemma value_takes_a_byte_witness :
  0 <= wpos (Decoder.mk (DataStream.mk [x05; x06] 1) ∅ ∅ ∅ true 0, []) /\
  (wrem (Decoder.mk (DataStream.mk [x05; x06] 1) ∅ ∅ ∅ true 0, [])
   < wrem (Decoder.mk (DataStream.mk [x05; x06] 0) ∅ ∅ ∅ true 0, []))%nat.
Proof.
  apply (value_takes_a_byte 5
           (Decoder.mk (DataStream.mk [x05; x06] 0) ∅ ∅ ∅ true 0, [])
           (Decoder.mk (DataStream.mk [x05; x06] 1) ∅ ∅ ∅ true 0, [])
           VNull).
  - vm_compute. discriminate.
  - vm_compute. lia.
  - vm_compute. reflexivity.
Defined.

(** X14.  The encoder never clears its cycle flag and never forgets a
    container it has registered, whatever the value it writes. *)
Theorem encoder_keeps_flag_and_registrations (fuel : nat) (h : heap)
    (v : value) (e e' : Encoder.t) :
  Encoder.serializeComponent fuel h v e = Ok (tt, e') ->
  (Encoder.hasCycle e = true -> Encoder.hasCycle e' = true) /\
  (forall a, is_Some (Encoder.object_refs e !! a) ->
             is_Some (Encoder.object_refs e' !! a)).
Proof.
  intros H. destruct (serializeComponent_tracks h fuel v e e' H) as (C & R & _).
  split; assumption.
Qed.

Lemma encoder_keeps_flag_and_registrations_witness :
  (Encoder.hasCycle sample_encoder = true ->
   Encoder.hasCycle
     (Encoder.mk (Encoder.ds sample_encoder ++ [x05])
        (Encoder.object_refs sample_encoder)
        (Encoder.string_keys sample_encoder)
        (Encoder.string_refs sample_encoder)
        (Encoder.hasCycle sample_encoder)) = true) /\
  (forall a, is_Some (Encoder.object_refs sample_encoder !! a) ->
             is_Some (Encoder.object_refs
                        (Encoder.mk (Encoder.ds sample_encoder ++ [x05])
                           (Encoder.object_refs sample_encoder)
                           (Encoder.string_keys sample_encoder)
                           (Encoder.string_refs sample_encoder)
                           (Encoder.hasCycle sample_encoder)) !! a)).
Proof.
  apply (encoder_keeps_flag_and_registrations 1 [] VNull sample_encoder).
  reflexivity.
Defined.

(** * The encoder always ends *)

Lemma elive_bind {A B : Type} (m : SM Encoder.t A) (k : A -> SM Encoder.t B) :
  elive m -> (forall a, elive (k a)) -> elive (bind m k).
Proof.
  intros Hm Hk e. unfold bind. specialize (Hm e).
  destruct (m e) as [[a e']| |]; [apply Hk|discriminate|contradiction].
Qed.

Lemma elive_ret {A : Type} (a : A) : elive (ret (S := Encoder.t) a).
Proof. intros e. discriminate. Qed.

Lemma elive_get : elive (get (S := Encoder.t)).
Proof. intros e. discriminate. Qed.

Lemma elive_throw {A : Type} (err : error) :
  elive (throw (S := Encoder.t) (A := A) err).
Proof. intros e. discriminate. Qed.

Lemma elive_modify (f : Encoder.t -> Encoder.t) : elive (modify f).
Proof. intros e. discriminate. Qed.

Lemma elive_write (f : DataStream.w -> DataStream.w) : elive (Encoder.write f).
Proof. intros e. discriminate. Qed.

Lemma elive_serializeCount (c : Z) : elive (Encoder.serializeCount c).
Proof.
  intros e. unfold Encoder.serializeCount, serializeCount.
  destruct (negb _); discriminate.
Qed.

Ltac elive_tac :=
  repeat first
    [ apply elive_ret | apply elive_get | apply elive_throw
    | apply elive_modify | apply elive_write | apply elive_serializeCount
    | apply elive_bind; [|intros ?]
    | match goal with
      | |- elive (if ?c then _ else _) => destruct c
      | |- elive (match ?x with Some _ => _ | None => _ end) => destruct x
      end ].

Lemma elive_serializeString (str : string) : elive (Encoder.serializeString str).
Proof. unfold Encoder.serializeString. elive_tac. Qed.

Lemma elive_serializeNumber (n : F64.t) (tag : Z) :
  elive (Encoder.serializeNumber n tag).
Proof. unfold Encoder.serializeNumber. elive_tac. Qed.

Lemma elive_serializeComponentPart (obj : value) (tag : Z) :
  elive (Encoder.serializeComponentPart obj tag).
Proof.
  destruct obj; cbn [Encoder.serializeComponentPart];
    try apply elive_serializeNumber; try apply elive_serializeString;
    unfold Encoder.serializeDate; elive_tac.
Qed.

Lemma elive_serializeReference (p : Z) : elive (Encoder.serializeReference p).
Proof. unfold Encoder.serializeReference. elive_tac. Qed.

Lemma elive_writeStrings (keys : list string) : elive (Encoder.writeStrings keys).
Proof.
  induction keys as [|k keys IH]; cbn [Encoder.writeStrings]; [elive_tac|].
  apply elive_bind; [elive_tac|]. intros _. exact IH.
Qed.

Lemma elive_serializeTOS (hasCRC : bool) : elive (Encoder.serializeTOS hasCRC).
Proof.
  unfold Encoder.serializeTOS.
  apply elive_bind; [elive_tac|]. intros s0.
  apply elive_bind; [elive_tac|]. intros _.
  apply elive_bind; [elive_tac|]. intros _.
  apply elive_bind; [elive_tac|]. intros _.
  apply elive_bind; [apply elive_writeStrings|]. intros _.
  apply elive_bind; [elive_tac|]. intros _.
  apply elive_bind; [apply elive_writeStrings|]. intros _.
  elive_tac.
Qed.

(** *** The containers that are left to register *)

Lemma filter_length_le {A : Type} (P Q : A -> bool) (l : list A) :
  (forall x, P x = true -> Q x = true) ->
  (length (List.filter P l) <= length (List.filter Q l))%nat.
Proof.
  intros H. induction l as [|x l IH]; cbn [List.filter length]; [lia|].
  destruct (P x) eqn:EP.
  - rewrite (H x EP). cbn [length]. lia.
  - destruct (Q x); cbn [length]; lia.
Qed.

Lemma filter_length_lt {A : Type} (P Q : A -> bool) (l : list A) (a : A) :
  (forall x, P x = true -> Q x = true) ->
  In a l -> P a = false -> Q a = true ->
  (length (List.filter P l) < length (List.filter Q l))%nat.
Proof.
  intros H. induction l as [|x l IH]; intros Hin HP HQ; [contradiction|].
  cbn [List.filter length]. destruct Hin as [->|Hin].
  - rewrite HP, HQ. cbn [length].
    pose proof (filter_length_le P Q l H). lia.
  - specialize (IH Hin HP HQ). destruct (P x) eqn:EP.
    + rewrite (H x EP). cbn [length]. lia.
    + destruct (Q x); cbn [length]; lia.
Qed.

Lemma unregistered_le (h : heap) (e e' : Encoder.t) :
  (forall a, is_Some (Encoder.object_refs e !! a) ->
             is_Some (Encoder.object_refs e' !! a)) ->
  (unregistered h e' <= unregistered h e)%nat.
Proof.
  intros H. unfold unregistered. apply filter_length_le. intros a Ha.
  cbv beta in Ha |- *.
  match type of Ha with
  | match ?y with _ => _ end = _ => destruct y as [z'|] eqn:E'
  end; [discriminate|].
  match goal with
  | |- match ?x with _ => _ end = _ => destruct x as [z|] eqn:E
  end; [|reflexivity].
  exfalso. destruct (H a) as [x Hx]; [exists z; exact E|].
  pose proof (eq_trans (eq_sym Hx) E') as Hc. discriminate Hc.
Qed.

Lemma unregistered_entered (h : heap) (a : addr) (c : container)
    (e : Encoder.t) :
  (a < length h)%nat -> Encoder.object_refs e !! a = None ->
  (unregistered h (entered a c e) < unregistered h e)%nat.
Proof.
  intros Ha Hn. unfold unregistered. apply (filter_length_lt _ _ _ a).
  - intros x Hx. cbv beta in Hx |- *. cbn [entered Encoder.object_refs] in Hx.
    unfold addr in *.
    destruct (decide (x = a)) as [->|Hne].
    + rewrite lookup_insert_eq in Hx. discriminate.
    + rewrite lookup_insert_ne in Hx by congruence. exact Hx.
  - apply in_seq. lia.
  - cbn [entered Encoder.object_refs]. rewrite lookup_insert_eq. reflexivity.
  - cbv beta.
    match goal with
    | |- match ?x with _ => _ end = _ =>
        replace x with (@None Z) by (symmetry; exact Hn)
    end.
    reflexivity.
Qed.

Lemma unregistered_new (h : heap) : unregistered h Encoder.new = length h.
Proof.
  unfold unregistered. cbn [Encoder.new Encoder.object_refs].
  rewrite <- (length_seq (length h) 0) at 2.
  f_equal. apply forallb_filter_id. apply forallb_forall.
  intros a _. rewrite lookup_empty. reflexivity.
Qed.

Lemma unregistered_frame (h : heap) (e e' : Encoder.t) :
  eframe e e' -> unregistered h e' = unregistered h e.
Proof. intros [_ R]. unfold unregistered. rewrite R. reflexivity. Qed.

Section Live.

Variable h : heap.
Variable fuel : nat.
Variable rec : value -> SM Encoder.t unit.
Hypothesis rec_live :
  forall v e, vclosed h v -> (unregistered h e < fuel)%nat -> rec v e <> Stuck.
Hypothesis rec_tracks :
  forall v, tracks (rec v) (fun l => exists t, unfold h v t l).

Lemma rec_unregistered (v : value) (e e' : Encoder.t) :
  rec v e = Ok (tt, e') -> (unregistered h e' <= unregistered h e)%nat.
Proof.
  intros H. destruct (rec_tracks v e e' H) as (_ & R & _).
  apply unregistered_le, R.
Qed.

Lemma serializeElements_live (vs : list value) :
  Forall (vclosed h) vs ->
  forall e, (unregistered h e < fuel)%nat ->
    Encoder.serializeElements rec vs e <> Stuck.
Proof.
  induction 1 as [|v vs Hv _ IH]; intros e He; [discriminate|].
  cbn [Encoder.serializeElements]. unfold bind.
  pose proof (rec_live v e Hv He) as L.
  destruct (rec v e) as [[[] e1]| |] eqn:E; [|discriminate|contradiction].
  apply IH. pose proof (rec_unregistered v e e1 E). lia.
Qed.

Lemma serializeProperties_live (ps : list (string * value)) :
  Forall (fun p => vclosed h (snd p)) ps ->
  forall e, (unregistered h e < fuel)%nat ->
    Encoder.serializeProperties rec ps e <> Stuck.
Proof.
  induction 1 as [|[k v] ps Hv _ IH]; intros e He; [discriminate|].
  cbn [Encoder.serializeProperties snd] in *.
  unfold bind at 1, get at 1.
  set (intern := match JSMap.get (Encoder.string_keys e) k with
                 | Some index => ret index
                 | None =>
                     modify (Encoder.set_string_keys
                               (JSMap.set (Encoder.string_keys e) k
                                  (JSMap.size (Encoder.string_keys e)))) ;;;
                     ret (JSMap.size (Encoder.string_keys e))
                 end).
  assert (Ki : ekeeps intern).
  { unfold intern. destruct (JSMap.get _ k); [apply ekeeps_ret|].
    apply ekeeps_bind; [|intros _; apply ekeeps_ret].
    apply ekeeps_modify. intros e0. split; reflexivity. }
  assert (Li : elive intern) by (unfold intern; elive_tac).
  unfold bind at 1. specialize (Li e).
  destruct (intern e) as [[index e1]| |] eqn:E1; [|discriminate|contradiction].
  apply Ki in E1.
  unfold bind at 1. pose proof (elive_serializeCount index e1) as Lc.
  destruct (Encoder.serializeCount index e1) as [[[] e2]| |] eqn:E2;
    [|discriminate|contradiction].
  apply ekeeps_serializeCount in E2.
  pose proof (eframe_trans _ _ _ E1 E2) as F2.
  apply unregistered_frame with (h := h) in F2.
  unfold bind at 1.
  pose proof (rec_live v e2 Hv ltac:(lia)) as L.
  destruct (rec v e2) as [[[] e3]| |] eqn:E3; [|discriminate|contradiction].
  apply IH. pose proof (rec_unregistered v e2 e3 E3). lia.
Qed.

End Live.

(** Whatever the sharing and the cycles of a heap without dangling
    reference, the encoder ends when its fuel is above the number of
    containers left to register: a container is registered before its
    body is entered, so no container is entered twice. *)
Lemma serializeComponent_live (h : heap) :
  closed h ->
  forall fuel v e,
    vclosed h v -> (unregistered h e < fuel)%nat ->
    Encoder.serializeComponent fuel h v e <> Stuck.
Proof.
  intros Hh. induction fuel as [|fuel IH]; intros v e Hv He; [lia|].
  destruct (classic_nonref v) as [Hn|[a ->]].
  - assert (L : elive (fun s =>
              match Encoder.getValueTag h v with
              | Ok tag =>
                  (Encoder.write (DataStream.writeUint8 tag) ;;;
                   Encoder.serializeComponentPart v tag) s
              | Throw err => Throw err
              | Stuck => Stuck
              end)).
    { intros e0. destruct v; try contradiction; cbn [Encoder.getValueTag];
        (apply elive_bind; [apply elive_write|intros _;
                            apply elive_serializeComponentPart]). }
    destruct v; try contradiction; cbn [Encoder.serializeComponent]; apply L.
  - cbn [vclosed] in Hv.
    destruct (lookup_lt_is_Some_2 h a Hv) as [c Ha].
    destruct (Encoder.object_refs e !! a) as [p|] eqn:Hr.
    + cbn [Encoder.serializeComponent].
      replace (h !! a) with (Some c) by (symmetry; exact Ha).
      destruct c; [unfold Encoder.serializeObject|unfold Encoder.serializeArray];
        unfold bind at 1, get at 1; rewrite Hr; apply elive_serializeReference.
    + rewrite (serializeComponent_enters fuel h a c e Ha Hr).
      pose proof (unregistered_entered h a c e Hv Hr) as Hlt.
      assert (Hc : cclosed h c).
      { unfold closed in Hh. rewrite Forall_forall in Hh.
        apply Hh. eapply list_elem_of_lookup_2, Ha. }
      destruct c as [ps|vs]; cbn [write_body cclosed] in *.
      * unfold bind.
        pose proof (elive_serializeCount (Z.of_nat (length ps)) (entered a (CObject ps) e)) as Lc.
        destruct (Encoder.serializeCount _ (entered a (CObject ps) e))
          as [[[] e1]| |] eqn:E1; [|discriminate|contradiction].
        apply ekeeps_serializeCount in E1.
        apply unregistered_frame with (h := h) in E1.
        apply (serializeProperties_live h fuel _ IH
                 (serializeComponent_tracks h fuel) ps Hc). lia.
      * unfold bind.
        pose proof (elive_serializeCount (Z.of_nat (length vs)) (entered a (CArray vs) e)) as Lc.
        destruct (Encoder.serializeCount _ (entered a (CArray vs) e))
          as [[[] e1]| |] eqn:E1; [|discriminate|contradiction].
        apply ekeeps_serializeCount in E1.
        apply unregistered_frame with (h := h) in E1.
        apply (serializeElements_live h fuel _ IH
                 (serializeComponent_tracks h fuel) vs Hc). lia.
Qed.

(** X15.  [encode] always ends on a value whose references all stand
    for containers, whatever its sharing and its cycles: it returns a
    buffer or raises an error.  The fuel the embedding gives to the
    recursion of the encoder, the number of containers plus one, is
    never used up. *)
Theorem encode_always_ends (h : heap) (v : value) (hasCRC : bool) :
  closed h -> vclosed h v ->
  (exists bytes, encode h v hasCRC = Ok bytes) \/
  (exists e, encode h v hasCRC = Throw e).
Proof.
  intros Hh Hv. unfold encode, Encoder.encode.
  pose proof (serializeComponent_live h Hh (S (length h)) v Encoder.new Hv) as L.
  rewrite unregistered_new in L. specialize (L ltac:(lia)).
  destruct (Encoder.serializeComponent (S (length h)) h v Encoder.new)
    as [[[] e1]|err|] eqn:E1; [| |contradiction].
  - rewrite (bind_Ok _ _ _ _ _ E1).
    pose proof (elive_serializeTOS hasCRC e1) as L2.
    destruct (Encoder.serializeTOS hasCRC e1) as [[[] e2]|err|] eqn:E2;
      [| |contradiction].
    + rewrite (bind_Ok _ _ _ _ _ E2). left. eexists. reflexivity.
    + rewrite (bind_Throw _ _ _ _ E2). right. eexists. reflexivity.
  - rewrite (bind_Throw _ _ _ _ E1). right. eexists. reflexivity.
Qed.

Lemma encode_always_ends_witness :
  (exists bytes, encode cyclic_heap (VRef 0%nat) true = Ok bytes) \/
  (exists e, encode cyclic_heap (VRef 0%nat) true = Throw e).
Proof.
  apply (encode_always_ends cyclic_heap (VRef 0%nat) true).
  - repeat constructor.
  - cbn. lia.
Defined.
